(** * Hybridnet node daemon: CIDR-range calculator, policy-route manager and
    address manager.

    A shallow embedding of
    - [pkg/daemon/utils] (IP ranges and their decomposition into CIDR blocks),
    - [pkg/daemon/route/utils.go] (route tables, policy rules, per-mode routes),
    - [pkg/daemon/addr] (enhanced addresses),
    together with the properties stated about them.

    Addresses are kept as a family tag and the integer value of the address
    bytes (big endian); the kernel is an explicit state threaded through every
    netlink call. *)

From Stdlib Require Import ZArith Lia Bool List Sorted String.
From stdpp Require Import base option list sorting strings gmap.

Local Open Scope Z_scope.

(** ** Go's [net] package: addresses, masks, networks *)

Module Net.

(** [net.IP] is a byte slice of length 4 or 16. [To4] tells the two families
    apart (a 16-byte IPv4-mapped slice counts as IPv4), [Equal] identifies the
    4-byte and the mapped form; the embedding keeps the family and the value
    of the address bytes read as a big-endian number. *)
Inductive Family : Type := V4 | V6.

Definition Family_eqb (a b : Family) : bool :=
  match a, b with
  | V4, V4 | V6, V6 => true
  | _, _ => false
  end.

(** [net.IPv4len * 8] and [net.IPv6len * 8]. *)
Definition bitLen (f : Family) : Z :=
  match f with V4 => 32 | V6 => 128 end.

Record IP : Type := mkIP { ipFam : Family; ipVal : Z }.

(** An address whose bytes fit its family. *)
Definition validIP (ip : IP) : Prop := 0 <= ipVal ip < 2 ^ bitLen (ipFam ip).

(** [ip.To4() != nil] *)
Definition isV4 (ip : IP) : bool := Family_eqb (ipFam ip) V4.

(** [ip.Equal(x)] *)
Definition Equal (a b : IP) : bool :=
  Family_eqb (ipFam a) (ipFam b) && (ipVal a =? ipVal b).

(** [net.IPMask] as built by [net.CIDRMask]: [maskOnes] leading one bits out of
    [maskBits]. *)
Record IPMask : Type := mkMask { maskOnes : Z; maskBits : Z }.

(** [net.CIDRMask(ones, bits)]: nil unless [bits] is 32 or 128 and
    [0 <= ones <= bits]. *)
Definition CIDRMask (ones bits : Z) : option IPMask :=
  if ((bits =? 32) || (bits =? 128)) && (0 <=? ones) && (ones <=? bits)
  then Some (mkMask ones bits)
  else None.

(** The mask bytes as a number: [maskOnes] one bits followed by zero bits. *)
Definition maskVal (m : IPMask) : Z :=
  Z.shiftl (Z.ones (maskOnes m)) (maskBits m - maskOnes m).

(** The complement of the mask within [maskBits] bits. *)
Definition hostVal (m : IPMask) : Z := Z.ones (maskBits m - maskOnes m).

(** The mask that applies to an address of family [f]: a 16-byte mask whose
    first 12 bytes are all ones is cut down to its last 4 bytes for an IPv4
    address; a length mismatch yields nothing. *)
Definition maskFor (f : Family) (m : IPMask) : option IPMask :=
  if maskBits m =? bitLen f then Some m
  else match f with
       | V4 => if (maskBits m =? 128) && (96 <=? maskOnes m)
               then Some (mkMask (maskOnes m - 96) 32) else None
       | V6 => None
       end.

(** [ip.Mask(mask)] *)
Definition Mask (ip : IP) (m : IPMask) : option IP :=
  match maskFor (ipFam ip) m with
  | Some m' => Some (mkIP (ipFam ip) (Z.land (ipVal ip) (maskVal m')))
  | None => None
  end.

(** [net.IPNet]; the code reaches it through a pointer and never shares one
    between two owners, so it is kept as a value. *)
Record IPNet : Type := mkIPNet { netIP : IP; netMask : IPMask }.

(** [n.Contains(ip)]: the network number and the address agree on the mask
    bits (the network number is not masked first). *)
Definition Contains (n : IPNet) (ip : IP) : bool :=
  match maskFor (ipFam (netIP n)) (netMask n) with
  | Some m =>
      Family_eqb (ipFam ip) (ipFam (netIP n)) &&
      (Z.land (ipVal (netIP n)) (maskVal m) =? Z.land (ipVal ip) (maskVal m))
  | None => false
  end.

End Net.

Export Net.

(** ** Address arithmetic of [pkg/utils] *)

Module IPUtil.

(** Modelled from the spec: [utils.Cmp], [utils.NextIP] and [utils.PrevIP] of
    package [pkg/utils], whose file is not among the sources. The spec speaks
    of the address ordering, of the address adjacent to a boundary and of
    advancing just past a block: the comparison is that of the address
    values, and the neighbours are the value plus and minus one (computed on
    unbounded integers, so nothing wraps around at either end of the address
    space). *)
Definition Cmp (a b : IP) : Z :=
  match ipVal a ?= ipVal b with
  | Lt => -1
  | Eq => 0
  | Gt => 1
  end.

Definition NextIP (ip : IP) : IP := mkIP (ipFam ip) (ipVal ip + 1).

Definition PrevIP (ip : IP) : IP := mkIP (ipFam ip) (ipVal ip - 1).

End IPUtil.

Export IPUtil.

(** ** [pkg/daemon/utils]: IP ranges and their CIDR blocks *)

Module Calc.

Inductive Error : Type :=
  | ErrNilBound            (* start and end should not be nil *)
  | ErrOutOfCidr           (* ip range is out of cidr *)
  | ErrOverlapped          (* ip range is overlapped *)
  | ErrCreateRange.        (* failed to create ip range *)

Inductive Result (A : Type) : Type :=
  | Ok (a : A)
  | Err (e : Error).
Arguments Ok {A} a.
Arguments Err {A} e.

Definition isErr {A} (r : Result A) : bool :=
  match r with Ok _ => false | Err _ => true end.

Record IPRange : Type := mkIPRange { start : IP; end_ : IP }.

(** [CreateIPRange]: a nil bound is an error; [start > end] yields neither a
    range nor an error. *)
Definition CreateIPRange (start end_ : option IP) : Result (option IPRange) :=
  match start, end_ with
  | Some s, Some e =>
      if Cmp s e >? 0 then Ok None else Ok (Some (mkIPRange s e))
  | _, _ => Err ErrNilBound
  end.

(** [IPRange.TryAddIP]: the receiver is updated in place, so the range
    after the call is returned next to [success]. *)
Definition TryAddIP (ir : IPRange) (ipAddr : IP) : IPRange * bool :=
  if Equal ipAddr (PrevIP (start ir)) then (mkIPRange ipAddr (end_ ir), true)
  else if Equal ipAddr (NextIP (end_ ir)) then (mkIPRange (start ir) ipAddr, true)
  else if (Cmp ipAddr (start ir) >=? 0) && (Cmp ipAddr (end_ ir) <=? 0)
       then (ir, true)
  else (ir, false).

(** [LastIP]: the last address of the prefix, as the cursor of
    [mikioh/ipaddr] gives it: the host bits of the network number all set. *)
Definition LastIP (cidr : IPNet) : option IP :=
  match maskFor (ipFam (netIP cidr)) (netMask cidr) with
  | Some m => Some (mkIP (ipFam (netIP cidr))
                         (Z.lor (Z.land (ipVal (netIP cidr)) (maskVal m)) (hostVal m)))
  | None => None
  end.

(** The loop of [calculateIPLastZeroBits]: [zeroBits] counts up from 0 until
    the address survives the mask of that many leading ones. [None] when the
    fuel runs out or the mask is nil (the Go loop would then go on for ever,
    as [ip.Mask(nil)] is nil and equals no address). *)
Fixpoint lastZeroBitsLoop (fuel : nat) (ip : IP) (testMaskBits zeroBits : Z) : option Z :=
  match fuel with
  | O => None
  | S fuel' =>
      match CIDRMask zeroBits testMaskBits with
      | None => None
      | Some m =>
          match Mask ip m with
          | Some masked =>
              if Equal masked ip then Some zeroBits
              else lastZeroBitsLoop fuel' ip testMaskBits (zeroBits + 1)
          | None => lastZeroBitsLoop fuel' ip testMaskBits (zeroBits + 1)
          end
      end
  end.

Definition calculateIPLastZeroBits (ip : IP) : option Z :=
  let testMaskBits := if isV4 ip then bitLen V4 else bitLen V6 in
  match lastZeroBitsLoop (Z.to_nat testMaskBits + 1) ip testMaskBits 0 with
  | Some zeroBits => Some (testMaskBits - zeroBits)
  | None => None
  end.

(** The [for] loop of [findTheFirstLargestCidr], [maxValidCidrPrefixLen]
    counting up. *)
Fixpoint largestCidrLoop (fuel : nat) (start end_ : IP) (ipLen maxValidCidrPrefixLen : Z)
  : option (IPNet * option IP) :=
  match fuel with
  | O => None
  | S fuel' =>
      match CIDRMask maxValidCidrPrefixLen ipLen with
      | None => None
      | Some m =>
          let tmpCidr := mkIPNet start m in
          match LastIP tmpCidr with
          | None => None
          | Some tmpCidrEnd =>
              if Equal tmpCidrEnd end_ then Some (tmpCidr, None)
              else if Contains tmpCidr end_
                   then largestCidrLoop fuel' start end_ ipLen (maxValidCidrPrefixLen + 1)
                   else Some (tmpCidr, Some (NextIP tmpCidrEnd))
          end
      end
  end.

Definition findTheFirstLargestCidr (start end_ : IP) : option (IPNet * option IP) :=
  match calculateIPLastZeroBits start with
  | None => None
  | Some zeroBits =>
      let ipLen := if isV4 start then bitLen V4 else bitLen V6 in
      let minCidrPrefixLen := ipLen - zeroBits in
      largestCidrLoop (Z.to_nat ipLen + 1) start end_ ipLen minCidrPrefixLen
  end.

(** The loop of [splitIPRangeToIPBlocks]: it runs while [nextRangeStart] is
    not nil; [None] when the fuel runs out. *)
Fixpoint splitLoop (fuel : nat) (nextRangeStart rangeEnd : IP) : option (list IPNet) :=
  match fuel with
  | O => None
  | S fuel' =>
      match findTheFirstLargestCidr nextRangeStart rangeEnd with
      | None => None
      | Some (newBlock, None) => Some [newBlock]
      | Some (newBlock, Some next) =>
          match splitLoop fuel' next rangeEnd with
          | Some ipBlocks => Some (newBlock :: ipBlocks)
          | None => None
          end
      end
  end.

Definition splitIPRangeToIPBlocks (fuel : nat) (ir : IPRange) : option (list IPNet) :=
  splitLoop fuel (start ir) (end_ ir).

(** Fuel that is enough for a range (one round per address at most). *)
Definition splitFuel (ir : IPRange) : nat :=
  Z.to_nat (ipVal (end_ ir) - ipVal (start ir)) + 1.

(** [sort.Slice(s, less)]: the slice is put in an order in which no element is
    [less] than an earlier one; the embedding sorts by insertion. *)
Fixpoint insertSlice {A} (less : A -> A -> bool) (x : A) (l : list A) : list A :=
  match l with
  | [] => [x]
  | y :: l' => if less x y then x :: l else y :: insertSlice less x l'
  end.

Definition sortSlice {A} (less : A -> A -> bool) (l : list A) : list A :=
  foldr (insertSlice less) [] l.

Definition lessByStart (i j : IPRange) : bool := Cmp (start i) (start j) <? 0.

(** The first loop of [FindSubnetExcludeIPBlocks], over the sorted included
    ranges: [isFirst] stands for [currentIPRangeIndex == 0], an empty [rest]
    for [currentIPRangeIndex == len(includedRanges)-1]. [acc] is
    [excludeIPRanges]. *)
Fixpoint complementLoop (cidrStart cidrEnd : IP) (isFirst : bool)
    (ranges : list IPRange) (acc : list IPRange) : Result (list IPRange) :=
  match ranges with
  | [] => Ok acc
  | currentIPRange :: rest =>
      if (Cmp (start currentIPRange) cidrStart <? 0)
         || (Cmp (end_ currentIPRange) cidrEnd >? 0)
      then Err ErrOutOfCidr
      else if match rest with
              | next :: _ => Cmp (end_ currentIPRange) (start next) >=? 0
              | [] => false
              end
      then Err ErrOverlapped
      else
        let beforeFirst :=
          if isFirst
          then CreateIPRange (Some cidrStart) (Some (PrevIP (start currentIPRange)))
          else Ok None in
        match beforeFirst with
        | Err _ => Err ErrCreateRange
        | Ok ipRange0 =>
            let acc0 := match ipRange0 with Some r => acc ++ [r] | None => acc end in
            let nextRangeStartPrev :=
              match rest with
              | [] => cidrEnd
              | next :: _ => PrevIP (start next)
              end in
            let endNext := NextIP (end_ currentIPRange) in
            match CreateIPRange (Some endNext) (Some nextRangeStartPrev) with
            | Err _ => Err ErrCreateRange
            | Ok ipRange =>
                let acc1 := match ipRange with Some r => acc0 ++ [r] | None => acc0 end in
                complementLoop cidrStart cidrEnd false rest acc1
            end
        end
  end.

(** The inner loop of [Loop2]: the first range that takes the address keeps
    the change; [None] when no range takes it. *)
Fixpoint tryAddToRanges (excludeIPRanges : list IPRange) (ipAddr : IP)
  : option (list IPRange) :=
  match excludeIPRanges with
  | [] => None
  | ipRange :: rest =>
      let (ipRange', success) := TryAddIP ipRange ipAddr in
      if success then Some (ipRange' :: rest)
      else match tryAddToRanges rest ipAddr with
           | Some rest' => Some (ipRange' :: rest')
           | None => None
           end
  end.

(** [Loop2]. The outer [option] is [None] where the Go code would append a nil
    range and dereference it later (it cannot happen: an address is never
    above itself). *)
Fixpoint foldExcludedIPs (allExcludedIPs : list IP) (excludeIPRanges : list IPRange)
  : option (Result (list IPRange)) :=
  match allExcludedIPs with
  | [] => Some (Ok excludeIPRanges)
  | ipAddr :: rest =>
      match tryAddToRanges excludeIPRanges ipAddr with
      | Some ranges' => foldExcludedIPs rest ranges'
      | None =>
          match CreateIPRange (Some ipAddr) (Some ipAddr) with
          | Err _ => Some (Err ErrCreateRange)
          | Ok (Some singleIPRange) =>
              foldExcludedIPs rest (excludeIPRanges ++ [singleIPRange])
          | Ok None => None
          end
      end
  end.

(** The last loop: the blocks of every range, one after the other. *)
Fixpoint splitAll (fuel : nat) (excludeIPRanges : list IPRange) : option (list IPNet) :=
  match excludeIPRanges with
  | [] => Some []
  | ipRange :: rest =>
      match splitIPRangeToIPBlocks fuel ipRange, splitAll fuel rest with
      | Some blocks, Some more => Some (blocks ++ more)
      | _, _ => None
      end
  end.

(** [FindSubnetExcludeIPBlocks]. [None]: the call does not return ([fuel] too
    small for a loop of [splitIPRangeToIPBlocks], or a nil dereference). *)
Definition FindSubnetExcludeIPBlocks (fuel : nat) (cidr : IPNet)
    (includedRanges : list IPRange) (gateway : option IP) (excludeIPs : list IP)
  : option (Result (list IPNet)) :=
  let cidrStart := netIP cidr in
  match LastIP cidr with
  | None => None
  | Some cidrEnd =>
      let sorted := sortSlice lessByStart includedRanges in
      match complementLoop cidrStart cidrEnd true sorted [] with
      | Err e => Some (Err e)
      | Ok excludeIPRanges =>
          let allExcludedIPs :=
            match gateway with
            | Some gw => excludeIPs ++ [gw]
            | None => excludeIPs
            end in
          match foldExcludedIPs allExcludedIPs excludeIPRanges with
          | None => None
          | Some (Err e) => Some (Err e)
          | Some (Ok excludeIPRanges') =>
              match splitAll fuel excludeIPRanges' with
              | Some excludeIPBlocks => Some (Ok excludeIPBlocks)
              | None => None
              end
          end
      end
  end.

(** *** Address sets of networks and ranges *)

(** A network as [net.ParseCIDR] and [net.CIDRMask] build it: its mask has the
    length of its address. *)
Definition wfNet (n : IPNet) : Prop :=
  validIP (netIP n)
  /\ maskBits (netMask n) = bitLen (ipFam (netIP n))
  /\ 0 <= maskOnes (netMask n) <= maskBits (netMask n).

(** A well-formed network of family [f]. *)
Definition blockOf (f : Family) (b : IPNet) : Prop :=
  wfNet b /\ ipFam (netIP b) = f.

Definition hostBits (n : IPNet) : Z := maskBits (netMask n) - maskOnes (netMask n).

(** First and last address value of a network. *)
Definition netLo (n : IPNet) : Z :=
  ipVal (netIP n) - ipVal (netIP n) mod 2 ^ hostBits n.

Definition netHi (n : IPNet) : Z := netLo n + 2 ^ hostBits n - 1.

(** The network [start/p]. *)
Definition prefixNet (s : IP) (p : Z) : IPNet :=
  mkIPNet s (mkMask p (bitLen (ipFam s))).

(** The addresses of the closed interval of a range. *)
Definition inRange (r : IPRange) (x : IP) : Prop :=
  ipFam x = ipFam (start r) /\ ipVal (start r) <= ipVal x <= ipVal (end_ r).

(** A range as [CreateIPRange] hands it out, with both ends in one family. *)
Definition wfRange (r : IPRange) : Prop :=
  validIP (start r) /\ validIP (end_ r)
  /\ ipFam (start r) = ipFam (end_ r)
  /\ Cmp (start r) (end_ r) <= 0.

Definition inSomeNet (l : list IPNet) (x : IP) : Prop :=
  exists n, In n l /\ Contains n x = true.

Definition inSomeRange (l : list IPRange) (x : IP) : Prop :=
  exists r, In r l /\ inRange r x.

(** No address lies in two networks of the list (at different positions). *)
Definition pairwiseDisjoint (l : list IPNet) : Prop :=
  forall (i j : nat) (a b : IPNet) (x : IP),
    i <> j -> l !! i = Some a -> l !! j = Some b -> validIP x ->
    Contains a x = true -> Contains b x = true -> False.

(** The greedy chain from [s] to [e]: each block starts at the current start
    address, is as large as the alignment of that address allows without
    passing [e], and the next block starts just past it. *)
Fixpoint greedyChain (s e : Z) (l : list IPNet) : Prop :=
  match l with
  | [] => False
  | b :: rest =>
      ipVal (netIP b) = s
      /\ netLo b = s /\ netHi b <= e
      /\ (forall k : Z, hostBits b < k <= maskBits (netMask b) ->
            s mod 2 ^ k <> 0 \/ e < s + 2 ^ k - 1)
      /\ match rest with
         | [] => netHi b = e
         | _ :: _ => netHi b < e /\ greedyChain (netHi b + 1) e rest
         end
  end.

(** *** Valid inputs of [FindSubnetExcludeIPBlocks] *)

(** Two ranges share an address. *)
Definition overlap (r1 r2 : IPRange) : Prop :=
  exists x : Z,
    ipVal (start r1) <= x <= ipVal (end_ r1) /\ ipVal (start r2) <= x <= ipVal (end_ r2).

(** The range leaves the network on one side. *)
Definition outsideCidr (cidr : IPNet) (r : IPRange) : Prop :=
  ipVal (start r) < netLo cidr \/ netHi cidr < ipVal (end_ r).

(** The range starts below the address of the network as it is given
    ([cidr.IP], which may have host bits set) or ends above the last address
    of the network: the two bounds [FindSubnetExcludeIPBlocks] checks. *)
Definition outsideBounds (cidr : IPNet) (r : IPRange) : Prop :=
  ipVal (start r) < ipVal (netIP cidr) \/ netHi cidr < ipVal (end_ r).

(** Some two ranges of the list (at different positions) share an address. *)
Definition someTwoOverlap (l : list IPRange) : Prop :=
  exists (i j : nat) (r1 r2 : IPRange),
    i <> j /\ l !! i = Some r1 /\ l !! j = Some r2 /\ overlap r1 r2.

(** A network whose address is its first address, as [net.ParseCIDR] returns
    it. *)
Definition alignedNet (cidr : IPNet) : Prop :=
  wfNet cidr /\ netLo cidr = ipVal (netIP cidr).

(** A well-formed range of the family of the network. *)
Definition rangeOf (cidr : IPNet) (r : IPRange) : Prop :=
  wfRange r /\ ipFam (start r) = ipFam (netIP cidr).

(** The addresses to exclude: [excludeIPs] and the gateway when there is one. *)
Definition allExcluded (gateway : option IP) (excludeIPs : list IP) : list IP :=
  match gateway with
  | Some gw => excludeIPs ++ [gw]
  | None => excludeIPs
  end.

(** Fuel that is enough for every range inside the network. *)
Definition cidrFuel (cidr : IPNet) : nat := Z.to_nat (2 ^ hostBits cidr).

(** *** The complement of the included ranges *)

Definition startLe (a b : IPRange) : Prop := ipVal (start a) <= ipVal (start b).

(** Both ends between two address values. *)
Definition between (lo hi : Z) (r : IPRange) : Prop :=
  lo <= ipVal (start r) /\ ipVal (end_ r) <= hi.

(** Each range ends before the next one starts. *)
Fixpoint consecutiveOk (l : list IPRange) : Prop :=
  match l with
  | r :: (next :: _) as rest => ipVal (end_ r) < ipVal (start next) /\ consecutiveOk rest
  | _ => True
  end.

(** The value of an address lies in the range. *)
Definition valIn (r : IPRange) (x : Z) : Prop :=
  ipVal (start r) <= x <= ipVal (end_ r).

(** There is at least one address between the two ranges. *)
Definition apart (a b : IPRange) : Prop := ipVal (end_ a) + 1 < ipVal (start b).

(** One network lies before the other. *)
Definition netBefore (a b : IPNet) : Prop := netHi a < netLo b.

(** The exclusion ranges that the first loop of [FindSubnetExcludeIPBlocks]
    collects once [currentIPRange] has passed its checks: the gap after it,
    then those after the ranges that follow. *)
Fixpoint gapsAfter (currentIPRange : IPRange) (rest : list IPRange) (cidrEnd : IP)
  : list IPRange :=
  let nextRangeStartPrev :=
    match rest with
    | [] => cidrEnd
    | next :: _ => PrevIP (start next)
    end in
  let endNext := NextIP (end_ currentIPRange) in
  (if Cmp endNext nextRangeStartPrev >? 0 then []
   else [mkIPRange endNext nextRangeStartPrev])
  ++ match rest with
     | [] => []
     | next :: rest' => gapsAfter next rest' cidrEnd
     end.

(** The gap before the first range. *)
Definition gapBefore (cidrStart : IP) (first : IPRange) : list IPRange :=
  if Cmp cidrStart (PrevIP (start first)) >? 0 then []
  else [mkIPRange cidrStart (PrevIP (start first))].

(** Dotted-quad and prefix notation for examples. *)
Definition v4 (a b c d : Z) : IP := mkIP V4 (((a * 256 + b) * 256 + c) * 256 + d).

Definition slash (ip : IP) (ones : Z) : IPNet :=
  mkIPNet ip (mkMask ones (bitLen (ipFam ip))).

End Calc.
Export Calc.



(** ** The kernel as [vishvananda/netlink] shows it *)

Module Netlink.

(** Constants of [netlink] and [golang.org/x/sys/unix]. *)
Definition FAMILY_V4 : Z := 2.
Definition FAMILY_V6 : Z := 10.
Definition SCOPE_UNIVERSE : Z := 0.
Definition SCOPE_LINK : Z := 253.
Definition RT_SCOPE_LINK : Z := 253.
Definition RTN_UNICAST : Z := 1.
Definition RTN_THROW : Z := 9.
Definition RT_TABLE_MAIN : Z := 254.
Definition IFA_F_NOPREFIXROUTE : Z := 512.

(** [n.String()]: the text of a network determines the length of its address,
    the address and the prefix length; the embedding keeps these three in
    place of the text (maps keyed by such texts are keyed by them). *)
Definition NetText : Type := Z * Z * Z.

Definition IPNet_String (n : IPNet) : NetText :=
  (bitLen (ipFam (netIP n)), ipVal (netIP n), maskOnes (netMask n)).

(** [netlink.Rule], the fields the daemon reads and writes. *)
Module Rule.
Record t : Type := mk {
  Src : option IPNet;
  Table : Z;
  Priority : Z;
  Mark : Z;
  Mask : Z
}.
End Rule.

(** [netlink.Route], the fields the daemon reads and writes. *)
Module Route.
Record t : Type := mk {
  Dst : option IPNet;
  LinkIndex : Z;
  Table : Z;
  Scope : Z;
  Gw : option IP;
  Src : option IP;
  Type_ : Z
}.
End Route.

(** [netlink.Link]: name and index of [Attrs()]. *)
Module Link.
Record t : Type := mk { Name : string; Index : Z }.
End Link.

(** [netlink.Addr] on an interface: [LinkIndex] is the interface that
    carries the address. *)
Module Addr.
Record t : Type := mk {
  IPNet_ : IPNet;
  Label : string;
  Flags : Z;
  Scope : Z;
  LinkIndex : Z
}.
Definition IP_ (a : t) : IP := netIP (IPNet_ a).
End Addr.

(** A destination as the kernel keys it: nothing for the default destination
    (no destination, or a prefix of length 0), else address value and prefix
    length. The routes of one address family live in one kernel state, so the
    family is not part of the key. *)
Definition DstKey : Type := option (Z * positive).

Definition dstKey (dst : option IPNet) : DstKey :=
  match dst with
  | None => None
  | Some n => if maskOnes (netMask n) <=? 0 then None
              else Some (ipVal (netIP n), Z.to_pos (maskOnes (netMask n)))
  end.

(** A route is filed under its table and destination. *)
Definition RouteKey : Type := Z * DstKey.

Definition routeKey (r : Route.t) : RouteKey := (Route.Table r, dstKey (Route.Dst r)).

(** What the kernel keeps of a route besides its key. *)
Record RouteAttrs : Type := mkAttrs {
  aLinkIndex : Z;
  aScope : Z;
  aGw : option IP;
  aSrc : option IP;
  aType : Z
}.

(** A request without a type is for a unicast route. *)
Definition attrsOf (r : Route.t) : RouteAttrs :=
  mkAttrs (Route.LinkIndex r) (Route.Scope r) (Route.Gw r) (Route.Src r)
          (if Route.Type_ r =? 0 then RTN_UNICAST else Route.Type_ r).

(** The destination as a dump shows it: nil for the default destination. *)
Definition dstOf (fam : Family) (d : DstKey) : option IPNet :=
  match d with
  | None => None
  | Some (a, p) => Some (mkIPNet (mkIP fam a) (mkMask (Z.pos p) (bitLen fam)))
  end.

(** A route as a dump shows it. *)
Definition shown (fam : Family) (entry : RouteKey * RouteAttrs) : Route.t :=
  Route.mk (dstOf fam (snd (fst entry))) (aLinkIndex (snd entry)) (fst (fst entry))
           (aScope (snd entry)) (aGw (snd entry)) (aSrc (snd entry)) (aType (snd entry)).

(** What a successful request changed, in order. *)
Inductive Event : Type :=
  | EvRouteReplace (r : Route.t)
  | EvRouteDel (r : Route.t)
  | EvRuleAdd (r : Rule.t)
  | EvAddrAdd (a : Addr.t)
  | EvAddrDel (a : Addr.t)
  | EvFailed.                   (* a request the kernel refused *)

(** The kernel state of one address family [kFamily]. Routes are kept one per
    table and destination: the daemon sets neither metric nor TOS, so its
    replace and delete requests address a route by table and destination.
    [kFaults] is the fate of the coming netlink calls ([true]: the call fails
    and changes nothing; none left: the calls succeed); [kLog] records the
    requests made. *)
Record Kernel : Type := mkKernel {
  kFamily : Family;
  kRules : list Rule.t;
  kRoutes : gmap RouteKey RouteAttrs;
  kLinks : list Link.t;
  kAddrs : list Addr.t;
  kFaults : list bool;
  kLog : list Event
}.

Inductive Errno : Type :=
  | ENetlink              (* a netlink call failed *)
  | ELinkNotFound
  | ENoSuchRoute          (* delete of a route that is not there *)
  | ENoSuchAddr
  | ENotExist             (* daemonutils.NotExist *)
  | ENoEmptyTable         (* cannot find empty route table *)
  | ENoUnusedPriority     (* cannot find unused rule priority *)
  | EUnsupportedMode
  | EGatewayOutside       (* vlan gateway is not inside the subnet *)
  | EGatewayConflict      (* default route with a different gateway *)
  | ENoDirectRoute        (* forward interface should have direct route *)
  | EParse                (* a text that is no network *)
  | ECallback.            (* the callback of the caller failed *)

Inductive Res (A : Type) : Type :=
  | ROk (a : A)
  | RErr (e : Errno).
Arguments ROk {A} a.
Arguments RErr {A} e.

(** A computation on the kernel: the state after it and its result. What was
    changed before an error stays changed. *)
Definition M (A : Type) : Type := Kernel -> Kernel * Res A.

Definition ret {A} (a : A) : M A := fun k => (k, ROk a).

Definition fail {A} (e : Errno) : M A := fun k => (k, RErr e).

Definition bind {A B} (m : M A) (f : A -> M B) : M B :=
  fun k =>
    match m k with
    | (k', ROk a) => f a k'
    | (k', RErr e) => (k', RErr e)
    end.

Notation "'let*' x ':=' m 'in' f" := (bind m (fun x => f))
  (at level 10, x name, m at level 100, f at level 200).

Definition isOk {A} (r : Res A) : bool :=
  match r with ROk _ => true | RErr _ => false end.

(** [for _, x := range l { ... }] with an error return in the body. *)
Fixpoint forEach {A} (l : list A) (body : A -> M unit) : M unit :=
  match l with
  | [] => ret tt
  | x :: l' => let* _ := body x in forEach l' body
  end.

Definition setFaults (k : Kernel) (f : list bool) : Kernel :=
  mkKernel (kFamily k) (kRules k) (kRoutes k) (kLinks k) (kAddrs k) f (kLog k).

Definition setRoutes (k : Kernel) (r : gmap RouteKey RouteAttrs) : Kernel :=
  mkKernel (kFamily k) (kRules k) r (kLinks k) (kAddrs k) (kFaults k) (kLog k).

Definition setRules (k : Kernel) (r : list Rule.t) : Kernel :=
  mkKernel (kFamily k) r (kRoutes k) (kLinks k) (kAddrs k) (kFaults k) (kLog k).

Definition setAddrs (k : Kernel) (a : list Addr.t) : Kernel :=
  mkKernel (kFamily k) (kRules k) (kRoutes k) (kLinks k) a (kFaults k) (kLog k).

Definition logEvent (k : Kernel) (e : Event) : Kernel :=
  mkKernel (kFamily k) (kRules k) (kRoutes k) (kLinks k) (kAddrs k) (kFaults k)
           (kLog k ++ [e]).

(** The result of a computation as a value: [v, err := f()] followed by a
    look at [err]. *)
Definition try {A} (m : M A) : M (Res A) :=
  fun k => let (k', r) := m k in (k', ROk r).

(** Every netlink call first meets its fate; a call that fails, for whatever
    reason, is recorded as failed. *)
Definition call {A} (op : M A) : M A :=
  fun k =>
    match kFaults k with
    | true :: rest => (logEvent (setFaults k rest) EvFailed, RErr ENetlink)
    | _ =>
        match op (setFaults k (tail (kFaults k))) with
        | (k', ROk a) => (k', ROk a)
        | (k', RErr e) => (logEvent k' EvFailed, RErr e)
        end
    end.

(** [netlink.RuleList(family)] *)
Definition RuleList : M (list Rule.t) :=
  call (fun k => (k, ROk (kRules k))).

(** [netlink.RuleAdd(rule)]: the rule joins the list. *)
Definition RuleAdd (rule : Rule.t) : M unit :=
  call (fun k => (logEvent (setRules k (kRules k ++ [rule])) (EvRuleAdd rule), ROk tt)).

(** The routes of a dump, in the order of their keys. *)
Definition dump (k : Kernel) (keep : Route.t -> bool) : list Route.t :=
  List.filter keep (shown (kFamily k) <$> map_to_list (kRoutes k)).

(** [netlink.RouteListFiltered(family, &netlink.Route{Table: table},
    netlink.RT_FILTER_TABLE)] *)
Definition RouteListByTable (table : Z) : M (list Route.t) :=
  call (fun k => (k, ROk (dump k (fun r => Route.Table r =? table)))).

(** [netlink.RouteListFiltered(family, &netlink.Route{Table: table, Type:
    type}, netlink.RT_FILTER_TABLE|netlink.RT_FILTER_TYPE)] *)
Definition RouteListByTableType (table type : Z) : M (list Route.t) :=
  call (fun k => (k, ROk (dump k (fun r => (Route.Table r =? table)
                                           && (Route.Type_ r =? type))))).

Definition DstKey_eqb (a b : DstKey) : bool := bool_decide (a = b).

Definition NetText_eqb (a b : NetText) : bool :=
  (fst (fst a) =? fst (fst b)) && (snd (fst a) =? snd (fst b)) && (snd a =? snd b).

(** [_, exist := m[key]] for a map keyed by the text of a network. *)
Definition hasKey {V} (m : list (NetText * V)) (key : NetText) : bool :=
  existsb (fun kv => NetText_eqb (fst kv) key) m.

(** [netlink.RouteListFiltered(family, &netlink.Route{LinkIndex: index, Dst:
    dst}, netlink.RT_FILTER_OIF|netlink.RT_FILTER_DST)]: without a table
    filter only the main table is listed. *)
Definition RouteListByOifDst (index : Z) (dst : option IPNet) : M (list Route.t) :=
  call (fun k => (k, ROk (dump k (fun r => (Route.Table r =? RT_TABLE_MAIN)
                                           && (Route.LinkIndex r =? index)
                                           && DstKey_eqb (dstKey (Route.Dst r)) (dstKey dst))))).

(** [netlink.RouteList(nil, family)]: the main table. *)
Definition RouteListMain : M (list Route.t) :=
  call (fun k => (k, ROk (dump k (fun r => Route.Table r =? RT_TABLE_MAIN)))).

(** [netlink.RouteReplace(route)]: the route takes the place of the route of
    its table and destination, or joins the table. *)
Definition RouteReplace (route : Route.t) : M unit :=
  call (fun k =>
          (logEvent (setRoutes k (<[routeKey route := attrsOf route]> (kRoutes k)))
                    (EvRouteReplace route), ROk tt)).

(** [netlink.RouteDel(route)]: the route of that table and destination goes;
    an error when there is none. *)
Definition RouteDel (route : Route.t) : M unit :=
  call (fun k =>
          match kRoutes k !! routeKey route with
          | Some _ =>
              (logEvent (setRoutes k (delete (routeKey route) (kRoutes k)))
                        (EvRouteDel route), ROk tt)
          | None => (k, RErr ENoSuchRoute)
          end).

(** [netlink.LinkByName(name)] *)
Definition LinkByName (name : string) : M Link.t :=
  call (fun k =>
          match List.find (fun l => String.eqb (Link.Name l) name) (kLinks k) with
          | Some l => (k, ROk l)
          | None => (k, RErr ELinkNotFound)
          end).

(** [netlink.LinkList()] *)
Definition LinkList : M (list Link.t) :=
  call (fun k => (k, ROk (kLinks k))).

(** [netlink.AddrList(nil, family)]: the addresses of every interface. *)
Definition AddrListAll : M (list Addr.t) :=
  call (fun k => (k, ROk (kAddrs k))).

(** [netlink.AddrList(link, family)] *)
Definition AddrList (link : Link.t) : M (list Addr.t) :=
  call (fun k => (k, ROk (List.filter (fun a => Addr.LinkIndex a =? Link.Index link)
                                      (kAddrs k)))).

Definition sameAddr (a b : Addr.t) : bool :=
  (Addr.LinkIndex a =? Addr.LinkIndex b)
  && Equal (Addr.IP_ a) (Addr.IP_ b)
  && (maskOnes (netMask (Addr.IPNet_ a)) =? maskOnes (netMask (Addr.IPNet_ b))).

(** [netlink.AddrAdd(link, addr)] *)
Definition AddrAdd (link : Link.t) (addr : Addr.t) : M unit :=
  let a := Addr.mk (Addr.IPNet_ addr) (Addr.Label addr) (Addr.Flags addr)
                   (Addr.Scope addr) (Link.Index link) in
  call (fun k => (logEvent (setAddrs k (kAddrs k ++ [a])) (EvAddrAdd a), ROk tt)).

(** [netlink.AddrDel(link, addr)] *)
Definition AddrDel (link : Link.t) (addr : Addr.t) : M unit :=
  let a := Addr.mk (Addr.IPNet_ addr) (Addr.Label addr) (Addr.Flags addr)
                   (Addr.Scope addr) (Link.Index link) in
  call (fun k =>
          if existsb (sameAddr a) (kAddrs k)
          then (logEvent (setAddrs k (List.filter (fun b => negb (sameAddr a b)) (kAddrs k)))
                         (EvAddrDel a), ROk tt)
          else (k, RErr ENoSuchAddr)).

End Netlink.

Export Netlink.

(** ** [pkg/daemon/route]: route tables, policy rules, routes per mode *)

Module RouteMgr.

Definition MinRouteTableNum : Z := 10000.
Definition MaxRouteTableNum : Z := 40000.
Definition MaxRulePriority : Z := 32767.
Definition NodeLocalTableNum : Z := 255.
Definition fromRuleMark : Z := 0.

(** [networkingv1.NetworkMode] is a string; the modes the daemon knows, and
    any other text. *)
Inductive NetworkMode : Type :=
  | NetworkModeVxlan
  | NetworkModeVlan
  | NetworkModeBGP
  | NetworkModeGlobalBGP
  | NetworkModeOther.

Module SubnetInfo.
Record t : Type := mk {
  cidr : IPNet;
  gateway : option IP;
  excludeIPs : list IP;
  includedIPRanges : list IPRange;
  forwardNodeIfName : string;
  autoNatOutgoing : bool;
  isUnderlayOnHost : bool;
  mode : NetworkMode
}.
End SubnetInfo.

(** [map[string]*SubnetInfo], in the order in which a [range] loop meets its
    entries. *)
Definition SubnetInfoMap : Type := list (NetText * SubnetInfo.t).

Section Route.

(** [fromRuleMask] is the sum of two constants of package [iptables], which is
    not among the sources. *)
Variable fromRuleMask : Z.

Definition checkIfRouteTableEmpty (tableNum family : Z) : M bool :=
  let* routeList := RouteListByTable tableNum in
  ret (Nat.eqb (length routeList) 0).

Definition listRoutesByTable (tableNum family : Z) : M (list Route.t) :=
  RouteListByTable tableNum.

Definition realRulePriority (priority : Z) : Z :=
  if priority =? -1 then 0 else priority.

(** The body of the first loop of [findHighestUnusedRulePriority]: the
    priorities in use and the priority of the rule of the node-local table. *)
Definition scanStep (acc : gset Z * Z) (rule : Rule.t) : gset Z * Z :=
  let (priorityMap, nodeLocalRulePrio) := acc in
  ({[ realRulePriority (Rule.Priority rule) ]} ∪ priorityMap,
   if Rule.Table rule =? NodeLocalTableNum
   then realRulePriority (Rule.Priority rule)
   else nodeLocalRulePrio).

Definition scanRules (ruleList : list Rule.t) : gset Z * Z :=
  foldl scanStep (∅, 0) ruleList.

(** The second loop, [priority] counting up to [MaxRulePriority]. *)
Fixpoint priorityLoop (fuel : nat) (priority : Z) (priorityMap : gset Z)
    (nodeLocalRulePrio : Z) : option Z :=
  match fuel with
  | O => None
  | S fuel' =>
      if priority <=? MaxRulePriority then
        if negb (bool_decide (priority ∈ priorityMap)) && (priority >? nodeLocalRulePrio)
        then Some priority
        else priorityLoop fuel' (priority + 1) priorityMap nodeLocalRulePrio
      else None
  end.

Definition findHighestUnusedRulePriority (family : Z) : M Z :=
  let* ruleList := RuleList in
  let (priorityMap, nodeLocalRulePrio) := scanRules ruleList in
  match priorityLoop (Z.to_nat (MaxRulePriority + 2)) 0 priorityMap nodeLocalRulePrio with
  | Some priority => ret priority
  | None => fail ENoUnusedPriority
  end.

(** [src == rule.Src || (src != nil && rule.Src != nil && src.String() ==
    rule.Src.String())]: two pointers are equal when both are nil (a dump
    never hands out the pointer of the caller). *)
Definition sameSrc (src ruleSrc : option IPNet) : bool :=
  match src, ruleSrc with
  | None, None => true
  | Some a, Some b => NetText_eqb (IPNet_String a) (IPNet_String b)
  | _, _ => false
  end.

Definition checkIfRuleExist (src : option IPNet) (table family : Z)
  : M (bool * option Rule.t) :=
  let* ruleList := RuleList in
  match List.find (fun rule => sameSrc src (Rule.Src rule)
                               && (if table >? 0 then Rule.Table rule =? table else true))
                  ruleList with
  | Some rule => ret (true, Some rule)
  | None => ret (false, None)
  end.

Definition appendHighestUnusedPriorityRuleIfNotExist (src : option IPNet)
    (table family mark mask : Z) : M unit :=
  let* res := checkIfRuleExist src table family in
  if fst res then ret tt
  else
    let* priority := findHighestUnusedRulePriority family in
    RuleAdd (Rule.mk src table priority mark mask).

(** The loop of [findEmptyRouteTable], [i] counting up to
    [MaxRouteTableNum]. *)
Fixpoint emptyTableLoop (fuel : nat) (i family : Z) : M Z :=
  match fuel with
  | O => fail ENoEmptyTable
  | S fuel' =>
      if i <? MaxRouteTableNum then
        let* empty := checkIfRouteTableEmpty i family in
        if empty then ret i else emptyTableLoop fuel' (i + 1) family
      else fail ENoEmptyTable
  end.

Definition findEmptyRouteTable (family : Z) : M Z :=
  emptyTableLoop (Z.to_nat (MaxRouteTableNum - MinRouteTableNum) + 1)
                 MinRouteTableNum family.

Definition defaultRouteDstByFamily (family : Z) : IPNet :=
  if family =? FAMILY_V6
  then mkIPNet (mkIP V6 0) (mkMask 0 128)
  else mkIPNet (mkIP V4 0) (mkMask 0 32).

Definition isExcludeRoute (route : Route.t) : bool :=
  Route.Type_ route =? RTN_THROW.

(** [daemonutils.IsDefaultRoute] *)
Definition IsDefaultRoute (route : Route.t) (family : Z) : bool :=
  match Route.Dst route with
  | None => true
  | Some dst => NetText_eqb (IPNet_String dst)
                            (IPNet_String (defaultRouteDstByFamily family))
  end.

(** [daemonutils.GetDefaultRoute] *)
Definition GetDefaultRoute (family : Z) : M Route.t :=
  let* routes := RouteListMain in
  match List.find (fun route => IsDefaultRoute route family) routes with
  | Some route => ret route
  | None => fail ENotExist
  end.

Definition ensureExcludedIPBlockRoutes (excludeIPBlockMap : list (NetText * IPNet))
    (table family : Z) : M unit :=
  let* excludedRouteList := RouteListByTableType table RTN_THROW in
  let* _ :=
    forEach excludedRouteList (fun route =>
      if match Route.Dst route with
         | Some dst => hasKey excludeIPBlockMap (IPNet_String dst)
         | None => false
         end
      then ret tt
      else RouteDel route) in
  forEach excludeIPBlockMap (fun entry =>
    RouteReplace (Route.mk (Some (snd entry)) 0 table 0 None None RTN_THROW)).

Definition ensureRoutesForVxlanSubnet (forwardLink : Link.t) (cidr : IPNet)
    (table : Z) (autoNatOutgoing : bool) (family : Z)
    (underlaySubnetInfoMap : SubnetInfoMap)
    (underlayExcludeIPBlockMap : list (NetText * IPNet)) : M unit :=
  let* routeList := RouteListByTable table in
  if negb autoNatOutgoing then
    let defaultRoute :=
      Route.mk (Some (defaultRouteDstByFamily family)) (Link.Index forwardLink) table
               SCOPE_UNIVERSE None None 0 in
    let* _ := RouteReplace defaultRoute in
    forEach routeList (fun route =>
      match Route.Dst route with
      | Some _ => RouteDel route
      | None => ret tt
      end)
  else
    let* _ :=
      forEach routeList (fun route =>
        if isExcludeRoute route then ret tt
        else match Route.Dst route with
             | Some dst =>
                 if hasKey underlaySubnetInfoMap (IPNet_String dst) then ret tt
                 else RouteDel route
             | None =>
                 RouteDel (Route.mk (Some (defaultRouteDstByFamily family))
                                    (Route.LinkIndex route) (Route.Table route)
                                    (Route.Scope route) (Route.Gw route)
                                    (Route.Src route) (Route.Type_ route))
             end) in
    let* _ :=
      forEach underlaySubnetInfoMap (fun entry =>
        RouteReplace (Route.mk (Some (SubnetInfo.cidr (snd entry)))
                               (Link.Index forwardLink) table SCOPE_UNIVERSE
                               None None 0)) in
    ensureExcludedIPBlockRoutes underlayExcludeIPBlockMap table family.

(** [cidr.Contains(gateway)] with a gateway that may be nil. *)
Definition containsOpt (cidr : IPNet) (ip : option IP) : bool :=
  match ip with
  | Some a => Contains cidr a
  | None => false
  end.

(** [defaultRoute.Gw.Equal(gateway)] on addresses that may be nil. *)
Definition equalOpt (a b : option IP) : bool :=
  match a, b with
  | Some x, Some y => Equal x y
  | None, None => true
  | _, _ => false
  end.

Definition ensureRoutesForVlanSubnet (forwardLink : Link.t) (cidr : IPNet)
    (gateway : option IP) (table family : Z) : M unit :=
  let* localAddrList := AddrListAll in
  if negb (containsOpt cidr gateway) then fail EGatewayOutside
  else
    let isLocalSubnet :=
      existsb (fun address =>
                 Contains cidr (Addr.IP_ address)
                 && (Z.land (Addr.Flags address) IFA_F_NOPREFIXROUTE =? 0))
              localAddrList in
    let* src :=
      if isLocalSubnet then
        let* res := try (GetDefaultRoute family) in
        let* _ :=
          match res with
          | RErr ENotExist => ret tt
          | RErr e => fail e
          | ROk defaultRoute =>
              if (Route.LinkIndex defaultRoute =? Link.Index forwardLink)
                 && match Route.Gw defaultRoute with
                    | Some _ => negb (equalOpt (Route.Gw defaultRoute) gateway)
                    | None => false
                    end
              then fail EGatewayConflict
              else ret tt
          end in
        let* directRouteList := RouteListByOifDst (Link.Index forwardLink) (Some cidr) in
        match directRouteList with
        | [] => fail ENoDirectRoute
        | first :: _ => ret (Route.Src first)
        end
      else ret None in
    let subnetDirectRoute :=
      Route.mk (Some cidr) (Link.Index forwardLink) table SCOPE_LINK None src 0 in
    let defaultRoute :=
      Route.mk None (Link.Index forwardLink) table SCOPE_UNIVERSE gateway None 0 in
    let* _ := RouteReplace subnetDirectRoute in
    RouteReplace defaultRoute.

Definition ensureRoutesForBGPSubnet (forwardLink : Link.t) (cidr : IPNet)
    (table : Z) (gateway : option IP) : M unit :=
  RouteReplace (Route.mk None (Link.Index forwardLink) table SCOPE_UNIVERSE
                         gateway None 0).

(** The [switch mode] of [ensureFromPodSubnetRuleAndRoutes]. *)
Definition ensureRoutesByMode (forwardLink : Link.t) (cidr : IPNet)
    (gateway : option IP) (autoNatOutgoing : bool) (table family : Z)
    (underlaySubnetInfoMap : SubnetInfoMap)
    (underlayExcludeIPBlockMap : list (NetText * IPNet)) (mode : NetworkMode) : M unit :=
  match mode with
  | NetworkModeVxlan =>
      ensureRoutesForVxlanSubnet forwardLink cidr table autoNatOutgoing family
                                 underlaySubnetInfoMap underlayExcludeIPBlockMap
  | NetworkModeVlan => ensureRoutesForVlanSubnet forwardLink cidr gateway table family
  | NetworkModeBGP | NetworkModeGlobalBGP =>
      ensureRoutesForBGPSubnet forwardLink cidr table gateway
  | NetworkModeOther => fail EUnsupportedMode
  end.

(** The table of the subnet: that of its rule, or the first empty one. *)
Definition chooseTable (ruleExist : bool) (existRule : option Rule.t) (family : Z) : M Z :=
  if negb ruleExist then findEmptyRouteTable family
  else match existRule with
       | Some rule => ret (Rule.Table rule)
       | None => ret 0
       end.

Definition ensureFromPodSubnetRuleAndRoutes (forwardNodeIfName : string) (cidr : IPNet)
    (gateway : option IP) (autoNatOutgoing : bool) (family : Z)
    (underlaySubnetInfoMap : SubnetInfoMap)
    (underlayExcludeIPBlockMap : list (NetText * IPNet)) (mode : NetworkMode) : M unit :=
  let* res := checkIfRuleExist (Some cidr) (-1) family in
  let (ruleExist, existRule) := res in
  let* table := chooseTable ruleExist existRule family in
  let* forwardLink := LinkByName forwardNodeIfName in
  let* _ := ensureRoutesByMode forwardLink cidr gateway autoNatOutgoing table family
                               underlaySubnetInfoMap underlayExcludeIPBlockMap mode in
  if negb ruleExist
  then appendHighestUnusedPriorityRuleIfNotExist (Some cidr) table family
                                                 fromRuleMark fromRuleMask
  else ret tt.

End Route.

End RouteMgr.

Export RouteMgr.

(** ** [pkg/daemon/addr]: enhanced addresses *)

Module AddrMgr.

(** [subnetToPodMap]: the text of a subnet to the address of one local pod. *)
Definition subnetToPodMap : Type := gmap NetText IP.

Record Manager : Type := mkManager {
  family : Z;
  localNodeName : string;
  interfaceToSubnetMap : gmap string subnetToPodMap
}.

(** [ip.Network] of [containernetworking/plugins]: the network with its
    address masked (left as it is where the mask does not fit the address). *)
Definition Network (n : IPNet) : IPNet :=
  match Mask (netIP n) (netMask n) with
  | Some ip => mkIPNet ip (netMask n)
  | None => n
  end.

(** [net.ParseCIDR(text)], of which the daemon keeps the mask. *)
Definition ParseCIDRMask (text : NetText) : Res IPMask :=
  match CIDRMask (snd text) (fst (fst text)) with
  | Some m => ROk m
  | None => RErr EParse
  end.

Definition liftRes {A} (r : Res A) : M A :=
  match r with
  | ROk a => ret a
  | RErr e => fail e
  end.

(** [m[linkName][text] = v] on a map of maps. *)
Definition insert2 {V} (linkName : string) (text : NetText) (v : V)
    (m : gmap string (gmap NetText V)) : gmap string (gmap NetText V) :=
  <[linkName := <[text := v]> (default ∅ (m !! linkName))]> m.

Definition lookup2 {V} (linkName : string) (text : NetText)
    (m : gmap string (gmap NetText V)) : option V :=
  match m !! linkName with
  | Some sub => sub !! text
  | None => None
  end.

Section Addr.

(** [containernetwork.CheckIfContainerNetworkLink] and [checkIfEnhancedAddr]
    are not among the sources: any predicate on interface names, and any
    classification of the addresses of an interface (which may fail), will
    do. [getIPInstanceByAddress] is the callback of the caller: it yields the
    node label of the instance of an address, nothing for no instance, or an
    error. *)
Variable CheckIfContainerNetworkLink : string -> bool.
Variable checkIfEnhancedAddr : Link.t -> Addr.t -> Z -> Res bool.
Variable getIPInstanceByAddress : IP -> Res (option string).

(** [ensureSubnetEnhancedAddr] of this package is in a file that is not among
    the sources: any computation on the kernel will do. *)
Variable ensureSubnetEnhancedAddr : Link.t -> Addr.t -> option Addr.t -> Z -> M unit.

(** What the first loop of [SyncAddresses] collects. *)
Record Exist : Type := mkExist {
  existEnhancedAddrMap : gmap string (gmap NetText Addr.t);
  existManualAddrSubnetMap : gmap string (gmap NetText bool);
  existLinkMap : gmap string Link.t
}.

(** The loop over the addresses of one interface. *)
Fixpoint classifyAddrs (m : Manager) (link : Link.t) (addrList : list Addr.t)
    (ex : Exist) : M Exist :=
  match addrList with
  | [] => ret ex
  | addr :: rest =>
      let* isEnhancedAddr := liftRes (checkIfEnhancedAddr link addr (family m)) in
      let linkName := Link.Name link in
      let cidr := Network (Addr.IPNet_ addr) in
      let ex' :=
        if isEnhancedAddr
        then mkExist (insert2 linkName (IPNet_String cidr) addr (existEnhancedAddrMap ex))
                     (existManualAddrSubnetMap ex) (existLinkMap ex)
        else mkExist (existEnhancedAddrMap ex)
                     (insert2 linkName (IPNet_String cidr) true (existManualAddrSubnetMap ex))
                     (existLinkMap ex) in
      classifyAddrs m link rest ex'
  end.

(** The loop over the interfaces. *)
Fixpoint collectExist (m : Manager) (linkList : list Link.t) (ex : Exist) : M Exist :=
  match linkList with
  | [] => ret ex
  | link :: rest =>
      if CheckIfContainerNetworkLink (Link.Name link) then collectExist m rest ex
      else
        let* addrList := AddrList link in
        let* ex1 := classifyAddrs m link addrList ex in
        collectExist m rest
          (mkExist (existEnhancedAddrMap ex1) (existManualAddrSubnetMap ex1)
                   (<[Link.Name link := link]> (existLinkMap ex1)))
  end.

(** [existLinkMap[name]]: the zero link when the name is unknown. *)
Definition linkOf (ex : Exist) (name : string) : Link.t :=
  default (Link.mk name 0) (existLinkMap ex !! name).

(** The second loop: enhanced addresses that are of no use any more. *)
Definition clearEnhanced (m : Manager) (ex : Exist) : M unit :=
  forEach (map_to_list (existEnhancedAddrMap ex)) (fun entry =>
    let existLinkName := fst entry in
    let existSubnetMap := snd entry in
    match interfaceToSubnetMap m !! existLinkName with
    | None =>
        forEach (map_to_list existSubnetMap) (fun sub =>
          AddrDel (linkOf ex existLinkName) (snd sub))
    | Some targetSubnetMap =>
        forEach (map_to_list existSubnetMap) (fun sub =>
          match targetSubnetMap !! fst sub with
          | None => AddrDel (linkOf ex existLinkName) (snd sub)
          | Some _ => ret tt
          end)
    end).

(** The body of the third loop for one subnet of one interface. The outcome
    of the checks: [None] for [continue], else the address to supersede, if
    any. *)
Definition outOfDate (m : Manager) (ex : Exist) (forwardNodeIfName : string)
    (subnetString : NetText) (podIP : IP) : M (option (option Addr.t)) :=
  match lookup2 forwardNodeIfName subnetString (existManualAddrSubnetMap ex) with
  | Some _ => ret None
  | None =>
      match lookup2 forwardNodeIfName subnetString (existEnhancedAddrMap ex) with
      | None => ret (Some None)
      | Some enhancedAddr =>
          if Equal (Addr.IP_ enhancedAddr) podIP then ret None
          else
            let* ipInstance := liftRes (getIPInstanceByAddress (Addr.IP_ enhancedAddr)) in
            match ipInstance with
            | Some nodeName =>
                if String.eqb nodeName (localNodeName m) then ret None
                else ret (Some (Some enhancedAddr))
            | None => ret (Some (Some enhancedAddr))
            end
      end
  end.

Definition ensureOne (m : Manager) (ex : Exist) (forwardNodeIfName : string)
    (forwardNodeIf : Link.t) (subnetString : NetText) (podIP : IP) : M unit :=
  let* decision := outOfDate m ex forwardNodeIfName subnetString podIP in
  match decision with
  | None => ret tt
  | Some outOfDateEnhancedAddr =>
      let* subnetMask := liftRes (ParseCIDRMask subnetString) in
      ensureSubnetEnhancedAddr forwardNodeIf
        (Addr.mk (mkIPNet podIP subnetMask) EmptyString IFA_F_NOPREFIXROUTE RT_SCOPE_LINK 0)
        outOfDateEnhancedAddr (family m)
  end.

(** The third loop: the enhanced addresses that are needed. *)
Definition ensureEnhanced (m : Manager) (ex : Exist) : M unit :=
  forEach (map_to_list (interfaceToSubnetMap m)) (fun entry =>
    let forwardNodeIfName := fst entry in
    let* forwardNodeIf := LinkByName forwardNodeIfName in
    forEach (map_to_list (snd entry)) (fun sub =>
      ensureOne m ex forwardNodeIfName forwardNodeIf (fst sub) (snd sub))).

Definition SyncAddresses (m : Manager) : M unit :=
  let* linkList := LinkList in
  let* ex := collectExist m linkList (mkExist ∅ ∅ ∅) in
  let* _ := clearEnhanced m ex in
  ensureEnhanced m ex.

End Addr.

(** Modelled from the spec: [ensureSubnetEnhancedAddr] of this package, whose
    file is not among the sources. The spec: add the new enhanced address and
    remove the superseded one only after the new one is installed. *)
Definition ensureSubnetEnhancedAddrFromSpec (forwardNodeIf : Link.t) (addr : Addr.t)
    (outOfDateEnhancedAddr : option Addr.t) (family : Z) : M unit :=
  let* _ := AddrAdd forwardNodeIf addr in
  match outOfDateEnhancedAddr with
  | Some old => AddrDel forwardNodeIf old
  | None => ret tt
  end.

End AddrMgr.

Export AddrMgr.

(** ** Notions used in the statements about the kernel *)

Module KernelSpec.

(** Everything of the state but the fate of the coming calls and the log. *)
Definition sameState (k k' : Kernel) : Prop :=
  kFamily k' = kFamily k /\ kRules k' = kRules k /\ kRoutes k' = kRoutes k
  /\ kLinks k' = kLinks k /\ kAddrs k' = kAddrs k.

(** Everything but routes, fate and log. *)
Definition sameButRoutes (k k' : Kernel) : Prop :=
  kFamily k' = kFamily k /\ kRules k' = kRules k
  /\ kLinks k' = kLinks k /\ kAddrs k' = kAddrs k.

(** The table holds no route. *)
Definition tableEmpty (k : Kernel) (table : Z) : Prop :=
  forall d : DstKey, kRoutes k !! (table, d) = None.

Definition isRouteEvent (e : Event) : Prop :=
  match e with
  | EvRouteReplace _ | EvRouteDel _ => True
  | _ => False
  end.

Definition isRuleAdd (e : Event) : Prop :=
  match e with
  | EvRuleAdd _ => True
  | _ => False
  end.

(** The priority the kernel has for a rule. The dump of netlink gives a rule
    of priority 0 the priority -1 (the kernel leaves the attribute out), and
    every other rule its priority. *)
Definition kernelPriority (rule : Rule.t) : Z :=
  match Rule.Priority rule with
  | Zneg xH => 0
  | listed => listed
  end.

(** A rule whose source is the network, as [checkIfRuleExist] compares. *)
Definition ruleFor (cidr : IPNet) (rule : Rule.t) : Prop :=
  sameSrc (Some cidr) (Rule.Src rule) = true.

(** What a computation does for every outcome: [Q k k' ok] relates the state
    before, the state after, and whether the result is no error. *)
Definition post {A} (Q : Kernel -> Kernel -> bool -> Prop) (m : M A) : Prop :=
  forall k k' r, m k = (k', r) -> Q k k' (isOk r).

(** Relations that follow a computation through its steps and through the
    fate of its netlink calls. *)
Class Sequential (Q : Kernel -> Kernel -> bool -> Prop) : Prop := {
  seq_refl : forall k b, Q k k b;
  seq_trans : forall k1 k2 k3 b, Q k1 k2 true -> Q k2 k3 b -> Q k1 k3 b;
  seq_faults : forall k f, Q k (setFaults k f) true;
  seq_failed : forall k k', Q k k' false -> Q k (logEvent k' EvFailed) false
}.

(** A step that only reads: nothing is logged unless a call fails. *)
Definition readStep (k k' : Kernel) (ok : bool) : Prop :=
  sameState k k' /\ (ok = true -> kLog k' = kLog k).

Definition routeOrFailed (e : Event) : Prop := isRouteEvent e \/ e = EvFailed.

(** A step that touches nothing but routes: its requests are route requests,
    and all of them succeeded when the step returns no error. *)
Definition routeStep (k k' : Kernel) (ok : bool) : Prop :=
  sameButRoutes k k'
  /\ exists evs, kLog k' = kLog k ++ evs
                /\ Forall routeOrFailed evs
                /\ (ok = true -> Forall isRouteEvent evs).

(** An address of link scope with the no-prefix-route flag. *)
Definition linkScoped (a : Addr.t) : Prop :=
  Addr.Scope a = RT_SCOPE_LINK /\ Addr.Flags a = IFA_F_NOPREFIXROUTE.

Definition addsLinkScoped (e : Event) : Prop :=
  match e with
  | EvAddrAdd a => linkScoped a
  | _ => True
  end.

(** A step that adds no address but link-scoped ones. *)
Definition addrStep (k k' : Kernel) (ok : bool) : Prop :=
  (exists evs, kLog k' = kLog k ++ evs /\ Forall addsLinkScoped evs)
  /\ (forall a, In a (kAddrs k') -> In a (kAddrs k) \/ linkScoped a).

(** [a] is the address [addr] on some interface. *)
Definition asGiven (addr a : Addr.t) : Prop :=
  Addr.IPNet_ a = Addr.IPNet_ addr /\ Addr.Scope a = Addr.Scope addr
  /\ Addr.Flags a = Addr.Flags addr.

Definition addsGiven (addr : Addr.t) (e : Event) : Prop :=
  match e with
  | EvAddrAdd a => asGiven addr a
  | _ => True
  end.

(** A step that adds no address but [addr]. *)
Definition installsOnly (addr : Addr.t) (k k' : Kernel) : Prop :=
  (exists evs, kLog k' = kLog k ++ evs /\ Forall (addsGiven addr) evs)
  /\ (forall a, In a (kAddrs k') -> In a (kAddrs k) \/ asGiven addr a).

(** *** What the loops over routes make of the routes *)

(** One round of a loop that deletes the routes [sel] selects. *)
Definition delIf (sel : Route.t -> bool) (m : gmap RouteKey RouteAttrs) (r : Route.t)
  : gmap RouteKey RouteAttrs :=
  if sel r then delete (routeKey r) m else m.

(** One round of a loop that replaces a route of attributes [v]. *)
Definition putAt {A} (key : A -> RouteKey) (v : RouteAttrs) (m : gmap RouteKey RouteAttrs)
    (x : A) : gmap RouteKey RouteAttrs :=
  <[key x := v]> m.

Definition hasDst (r : Route.t) : bool :=
  match Route.Dst r with Some _ => true | None => false end.

(** The routes the first loop of [ensureRoutesForVxlanSubnet] with
    [autoNatOutgoing] deletes. *)
Definition uselessOverlayRoute (U : SubnetInfoMap) (route : Route.t) : bool :=
  negb (isExcludeRoute route)
  && match Route.Dst route with
     | Some dst => negb (hasKey U (IPNet_String dst))
     | None => true
     end.

(** The routes the first loop of [ensureExcludedIPBlockRoutes] deletes. *)
Definition uselessExcludeRoute (X : list (NetText * IPNet)) (route : Route.t) : bool :=
  negb match Route.Dst route with
       | Some dst => hasKey X (IPNet_String dst)
       | None => false
       end.

Definition underlayKey (table : Z) (entry : NetText * SubnetInfo.t) : RouteKey :=
  (table, dstKey (Some (SubnetInfo.cidr (snd entry)))).

Definition excludeKey (table : Z) (entry : NetText * IPNet) : RouteKey :=
  (table, dstKey (Some (snd entry))).

Definition keyIn {A} (key : A -> RouteKey) (l : list A) (kk : RouteKey) : bool :=
  existsb (fun x => bool_decide (key x = kk)) l.

(** The entry of key [kk] after [ensureRoutesForVxlanSubnet] with
    [autoNatOutgoing], from the entry [o] before. *)
Definition natRoute (fam : Family) (table index : Z) (U : SubnetInfoMap)
    (X : list (NetText * IPNet)) (kk : RouteKey) (o : option RouteAttrs)
  : option RouteAttrs :=
  let o1 := match o with
            | Some a => if (fst kk =? table) && uselessOverlayRoute U (shown fam (kk, a))
                        then None else Some a
            | None => None
            end in
  let o2 := if keyIn (underlayKey table) U kk
            then Some (mkAttrs index SCOPE_UNIVERSE None None RTN_UNICAST)
            else o1 in
  let o3 := match o2 with
            | Some a => if (fst kk =? table) && (aType a =? RTN_THROW)
                           && uselessExcludeRoute X (shown fam (kk, a))
                        then None else Some a
            | None => None
            end in
  if keyIn (excludeKey table) X kk
  then Some (mkAttrs 0 0 None None RTN_THROW)
  else o3.

(** The entry of key [kk] after [ensureRoutesForVxlanSubnet] without
    [autoNatOutgoing]. *)
Definition overlayRoute (table index : Z) (kk : RouteKey) (o : option RouteAttrs)
  : option RouteAttrs :=
  if fst kk =? table
  then match snd kk with
       | None => Some (mkAttrs index SCOPE_UNIVERSE None None RTN_UNICAST)
       | Some _ => None
       end
  else o.

(** [isLocalSubnet] of [ensureRoutesForVlanSubnet]. *)
Definition isLocalSubnet (cidr : IPNet) (localAddrList : list Addr.t) : bool :=
  existsb (fun address =>
             Contains cidr (Addr.IP_ address)
             && (Z.land (Addr.Flags address) IFA_F_NOPREFIXROUTE =? 0))
          localAddrList.

(** The source address [ensureRoutesForVlanSubnet] gives the direct route of
    the subnet: that of the direct route of the main table on the forward
    interface, when the subnet is local. *)
Definition vlanSrc (k : Kernel) (index : Z) (cidr : IPNet) (src : option IP) : Prop :=
  if isLocalSubnet cidr (kAddrs k)
  then exists a, kRoutes k !! (RT_TABLE_MAIN, dstKey (Some cidr)) = Some a
                 /\ aLinkIndex a = index /\ src = aSrc a
  else src = None.

(** The routes after [ensureRoutesForVlanSubnet]. *)
Definition vlanRoutes (table index : Z) (cidr : IPNet) (gateway : option IP)
    (src : option IP) (m : gmap RouteKey RouteAttrs) : gmap RouteKey RouteAttrs :=
  <[(table, None) := mkAttrs index SCOPE_UNIVERSE gateway None RTN_UNICAST]>
    (<[(table, dstKey (Some cidr)) := mkAttrs index SCOPE_LINK None src RTN_UNICAST]> m).

End KernelSpec.

Export KernelSpec.

(** ** More of [pkg/daemon/route] *)

Module RouteTables.

Section Rules.

Variable fromRuleMask : Z.

(** [checkIsFromPodSubnetRule] *)
Definition checkIsFromPodSubnetRule (rule : Rule.t) : bool :=
  match Rule.Src rule with Some _ => true | None => false end
  && (Rule.Mask rule =? fromRuleMask)
  && (Rule.Table rule >=? MinRouteTableNum) && (Rule.Table rule <=? MaxRouteTableNum).

End Rules.

(** [clearRouteTable]: a listed route without destination is deleted as the
    route to the default destination. *)
Definition clearRouteTable (table family : Z) : M unit :=
  let defaultRouteDst := defaultRouteDstByFamily family in
  let* routeList := RouteListByTable table in
  forEach routeList (fun r =>
    RouteDel match Route.Dst r with
             | None => Route.mk (Some defaultRouteDst) (Route.LinkIndex r) (Route.Table r)
                                (Route.Scope r) (Route.Gw r) (Route.Src r) (Route.Type_ r)
             | Some _ => r
             end).

(** A Go map keyed by the text of a network, as the list of its entries:
    [m[key]] and [m[key] = v]. *)
Definition mapGet {V} (m : list (NetText * V)) (key : NetText) : option V :=
  match List.find (fun kv => NetText_eqb (fst kv) key) m with
  | Some kv => Some (snd kv)
  | None => None
  end.

Definition mapSet {V} (m : list (NetText * V)) (key : NetText) (v : V)
  : list (NetText * V) :=
  if hasKey m key
  then List.map (fun kv => if NetText_eqb (fst kv) key then (key, v) else kv) m
  else m ++ [(key, v)].

(** The loop of [findExcludeIPBlockMap] over the subnets. [None]: a call of
    [FindSubnetExcludeIPBlocks] does not return. *)
Fixpoint excludeBlocksLoop (fuel : nat) (subnets : list (NetText * SubnetInfo.t))
    (excludeIPBlockMap : list (NetText * IPNet))
  : option (Calc.Result (list (NetText * IPNet))) :=
  match subnets with
  | [] => Some (Ok excludeIPBlockMap)
  | entry :: rest =>
      let info := snd entry in
      match FindSubnetExcludeIPBlocks fuel (SubnetInfo.cidr info)
              (SubnetInfo.includedIPRanges info) (SubnetInfo.gateway info)
              (SubnetInfo.excludeIPs info) with
      | None => None
      | Some (Err e) => Some (Err e)
      | Some (Ok excludeIPBlocks) =>
          excludeBlocksLoop fuel rest
            (foldl (fun m block => mapSet m (IPNet_String block) block)
                   excludeIPBlockMap excludeIPBlocks)
      end
  end.

Definition findExcludeIPBlockMap (fuel : nat) (subnetInfoMap : SubnetInfoMap)
  : option (Calc.Result (list (NetText * IPNet))) :=
  excludeBlocksLoop fuel subnetInfoMap [].

(** [combineSubnetInfoMap] and [combineNetMap] are the same code at two
    types. *)
Definition combineMaps {V} (a b : list (NetText * V)) : list (NetText * V) :=
  if Nat.eqb (length b) 0 then a
  else
    let res := foldl (fun res kv => mapSet res (fst kv) (snd kv)) [] a in
    foldl (fun res kv => mapSet res (fst kv) (snd kv)) res b.

Definition combineSubnetInfoMap (a b : SubnetInfoMap) : SubnetInfoMap := combineMaps a b.

Definition combineNetMap (a b : list (NetText * IPNet)) : list (NetText * IPNet) :=
  combineMaps a b.

End RouteTables.

Export RouteTables.

(** ** More of [pkg/daemon/utils] *)

Module DaemonUtils.

(** [CheckPodRuleExist] *)
Definition CheckPodRuleExist (podCidr : IPNet) (family : Z) : M (bool * Z) :=
  let* ruleList := RuleList in
  match List.find (fun rule =>
                     match Rule.Src rule with
                     | Some src => NetText_eqb (IPNet_String podCidr) (IPNet_String src)
                     | None => false
                     end) ruleList with
  | Some rule => ret (true, Rule.Table rule)
  | None => ret (false, 0)
  end.

(** [CheckDefaultRouteExist] *)
Definition CheckDefaultRouteExist (table family : Z) : M bool :=
  let* routeList := RouteListByTable table in
  ret (existsb (fun route => IsDefaultRoute route family) routeList).

End DaemonUtils.

Export DaemonUtils.

(** ** More of [pkg/daemon/addr] *)

Module AddrInfos.

(** [CreateAddrManager] *)
Definition CreateAddrManager (family : Z) (nodeName : string) : Manager :=
  mkManager family nodeName ∅.

(** [ResetInfos] *)
Definition ResetInfos (m : Manager) : Manager :=
  mkManager (AddrMgr.family m) (localNodeName m) ∅.

(** [TryAddPodInfo]: one pod address for every subnet of an interface, the
    first one given. *)
Definition TryAddPodInfo (m : Manager) (forwardNodeIfName : string) (subnet : IPNet)
    (podIP : IP) : Manager :=
  let m1 := match interfaceToSubnetMap m !! forwardNodeIfName with
            | None => <[forwardNodeIfName := ∅]> (interfaceToSubnetMap m)
            | Some _ => interfaceToSubnetMap m
            end in
  let subnetMap : subnetToPodMap := default ∅ (m1 !! forwardNodeIfName) in
  match subnetMap !! IPNet_String subnet with
  | Some _ => mkManager (AddrMgr.family m) (localNodeName m) m1
  | None =>
      mkManager (AddrMgr.family m) (localNodeName m)
                (<[forwardNodeIfName := <[IPNet_String subnet := podIP]> subnetMap]> m1)
  end.

End AddrInfos.

Export AddrInfos.

(** ** Notions used in the statements about these *)

Module MoreSpec.

(** A step that leaves every table but [table] as it was, and everything but
    routes. *)
Definition tableStep (table : Z) (k k' : Kernel) (ok : bool) : Prop :=
  sameButRoutes k k'
  /\ forall kk : RouteKey, fst kk <> table -> kRoutes k' !! kk = kRoutes k !! kk.

(** A step that changes nothing but the fate of the coming calls and the
    log. *)
Definition stateStep (k k' : Kernel) (ok : bool) : Prop := sameState k k'.

(** The address [d] is an address of the kernel, but for its interface
    index, that [checkIfEnhancedAddr] takes for an enhanced address on an
    interface that is not of the container network. *)
Definition classifiedEnhanced (CheckIfContainerNetworkLink : string -> bool)
    (checkIfEnhancedAddr : Link.t -> Addr.t -> Z -> Res bool) (family : Z)
    (k : Kernel) (d : Addr.t) : Prop :=
  exists link a,
    In link (kLinks k) /\ CheckIfContainerNetworkLink (Link.Name link) = false
    /\ In a (kAddrs k) /\ Addr.LinkIndex a = Link.Index link
    /\ checkIfEnhancedAddr link a family = ROk true
    /\ Addr.IPNet_ d = Addr.IPNet_ a /\ Addr.Label d = Addr.Label a
    /\ Addr.Flags d = Addr.Flags a /\ Addr.Scope d = Addr.Scope a.

(** A request that removes an address of [P], or a request that failed. *)
Definition deletesOnly (P : Addr.t -> Prop) (e : Event) : Prop :=
  match e with
  | EvAddrDel d => P d
  | EvFailed => True
  | _ => False
  end.

(** A step that adds no address and removes addresses of [P] only. *)
Definition removeStep (P : Addr.t -> Prop) (k k' : Kernel) (ok : bool) : Prop :=
  (exists evs, kLog k' = kLog k ++ evs /\ Forall (deletesOnly P) evs)
  /\ (forall a, In a (kAddrs k') -> In a (kAddrs k)).

(** The pod address kept for a subnet of an interface. *)
Definition podOf (m : Manager) (forwardNodeIfName : string) (subnet : NetText) : option IP :=
  lookup2 forwardNodeIfName subnet (interfaceToSubnetMap m).

(** A step that adds no rule but rules of [P], at the end of the list. *)
Definition rulesGrow (P : Rule.t -> Prop) (k k' : Kernel) (ok : bool) : Prop :=
  exists added, kRules k' = kRules k ++ added /\ Forall P added.

(** The node-local rule of a list of rules: the last one listed that points
    at table 255. *)
Definition nodeLocalRule (rules : list Rule.t) : option Rule.t :=
  List.find (fun rule => Rule.Table rule =? 255) (rev rules).

(** A priority that is no candidate: some rule has it in the kernel, or it
    is not above the kernel priority of the node-local rule, or, with no
    node-local rule, it is not above 0. *)
Definition priorityTaken (rules : list Rule.t) (q : Z) : Prop :=
  (exists rule, In rule rules /\ kernelPriority rule = q)
  \/ match nodeLocalRule rules with
     | Some rule => q <= kernelPriority rule
     | None => q <= 0
     end.

(** The rule [checkIfRuleExist] looks for. *)
Definition ruleMatches (src : option IPNet) (table : Z) (rule : Rule.t) : Prop :=
  sameSrc src (Rule.Src rule) = true /\ (0 < table -> Rule.Table rule = table).

(** The check of [ensureRoutesForVlanSubnet] on the default route of the main
    table passes: there is none, or it is not one of the forward interface
    through another gateway. *)
Definition defaultRouteAgrees (k : Kernel) (index : Z) (gateway : option IP) : Prop :=
  match kRoutes k !! (RT_TABLE_MAIN, None) with
  | Some a => (aLinkIndex a =? index)
              && match aGw a with
                 | Some _ => negb (equalOpt (aGw a) gateway)
                 | None => false
                 end = false
  | None => True
  end.

(** The keys of a map of subnets are the texts of their networks. *)
Definition wellKeyedSubnets (m : SubnetInfoMap) : Prop :=
  Forall (fun kv => fst kv = IPNet_String (SubnetInfo.cidr (snd kv))) m.

(** The keys of a map are the texts of its networks. *)
Definition wellKeyed (m : list (NetText * IPNet)) : Prop :=
  Forall (fun kv => fst kv = IPNet_String (snd kv)) m.

(** The call of [FindSubnetExcludeIPBlocks] that [findExcludeIPBlockMap]
    makes for a subnet. *)
Definition subnetExcludeIPBlocks (fuel : nat) (info : SubnetInfo.t)
  : option (Calc.Result (list IPNet)) :=
  FindSubnetExcludeIPBlocks fuel (SubnetInfo.cidr info) (SubnetInfo.includedIPRanges info)
    (SubnetInfo.gateway info) (SubnetInfo.excludeIPs info).

(** The entries of a map have different keys. *)
Definition uniqueKeys {V} (m : list (NetText * V)) : Prop :=
  List.NoDup (List.map fst m).

End MoreSpec.

Export MoreSpec.
(** ** Arithmetic of masks and prefixes *)

Section MaskArithmetic.

Lemma testbit_high (v w n : Z) : 0 <= v < 2 ^ w -> w <= n -> Z.testbit v n = false.
Proof.
  intros Hv Hn.
  destruct (Z_lt_le_dec w 0) as [Hw|Hw].
  - rewrite Z.pow_neg_r in Hv by lia. lia.
  - rewrite <- (Z.mod_small v (2 ^ w)) by lia.
    apply Z.mod_pow2_bits_high. lia.
Qed.

(** Masking with [p] leading ones out of [w] clears the [w - p] low bits. *)
Lemma land_mask_arith (v w p : Z) :
  0 <= v < 2 ^ w -> 0 <= p <= w ->
  Z.land v (Z.shiftl (Z.ones p) (w - p)) = v - v mod 2 ^ (w - p).
Proof.
  intros Hv Hp.
  assert (Hk : 0 <= w - p) by lia.
  replace (v - v mod 2 ^ (w - p)) with (Z.shiftl (Z.shiftr v (w - p)) (w - p)).
  2:{ rewrite Z.shiftl_mul_pow2, Z.shiftr_div_pow2 by lia.
      pose proof (Z.div_mod v (2 ^ (w - p))). lia. }
  apply Z.bits_inj'. intros n Hn.
  rewrite Z.land_spec, !Z.shiftl_spec by lia.
  destruct (Z_lt_le_dec n (w - p)) as [Hlt|Hge].
  - rewrite (Z.testbit_neg_r _ (n - (w - p))) by lia.
    rewrite (Z.testbit_neg_r _ (n - (w - p))) by lia.
    apply andb_false_r.
  - rewrite Z.shiftr_spec by lia.
    replace (n - (w - p) + (w - p)) with n by lia.
    rewrite Z.testbit_ones by lia.
    destruct (Z_lt_le_dec n w) as [Hlt|Hge'].
    + replace (0 <=? n - (w - p)) with true by (symmetry; apply Z.leb_le; lia).
      replace (n - (w - p) <? p) with true by (symmetry; apply Z.ltb_lt; lia).
      apply andb_true_r.
    + rewrite (testbit_high v w n) by lia. reflexivity.
Qed.

Lemma lor_host_arith (x k : Z) :
  0 <= k -> x mod 2 ^ k = 0 -> Z.lor x (Z.ones k) = x + 2 ^ k - 1.
Proof.
  intros Hk Hx.
  rewrite <- Z.add_nocarry_lor.
  - rewrite Z.ones_equiv. lia.
  - rewrite Z.land_ones by lia. exact Hx.
Qed.

Lemma pow2_pos (k : Z) : 0 <= k -> 0 < 2 ^ k.
Proof. intros. apply Z.pow_pos_nonneg; lia. Qed.

Lemma floor_aligned (v m : Z) : 0 < m -> (v - v mod m) mod m = 0.
Proof.
  intros Hm. replace (v - v mod m) with (v / m * m).
  - apply Z.mod_mul. lia.
  - pose proof (Z.div_mod v m). lia.
Qed.

(** Within an aligned block every address has the block's start as floor. *)
Lemma floor_in_block (a x m : Z) :
  0 < m -> a mod m = 0 -> a <= x < a + m -> x - x mod m = a.
Proof.
  intros Hm Ha Hx.
  assert (Hq : x mod m = x - a).
  { symmetry. apply (Z.mod_unique x m (a / m) (x - a)).
    - left. lia.
    - pose proof (Z.div_mod a m). lia. }
  lia.
Qed.

Lemma floor_bounds (v m : Z) : 0 < m -> v - v mod m <= v < v - v mod m + m.
Proof. intros Hm. pose proof (Z.mod_pos_bound v m Hm). lia. Qed.

Lemma mod_pow2_le (a j k : Z) : 0 <= j <= k -> a mod 2 ^ k = 0 -> a mod 2 ^ j = 0.
Proof.
  intros Hjk Ha.
  replace k with (j + (k - j)) in Ha by lia.
  rewrite Z.pow_add_r in Ha by lia.
  pose proof (pow2_pos j ltac:(lia)) as Hj.
  pose proof (pow2_pos (k - j) ltac:(lia)) as Hkj.
  apply Z.mod_divide in Ha; [|lia].
  apply Z.mod_divide; [lia|].
  destruct Ha as [q Hq]. exists (q * 2 ^ (k - j)). lia.
Qed.

Lemma pow2_le_mono (j k : Z) : 0 <= j <= k -> 2 ^ j <= 2 ^ k.
Proof. intros. apply Z.pow_le_mono_r; lia. Qed.

Lemma pow2_lt_mono (j k : Z) : 0 <= j < k -> 2 ^ j < 2 ^ k.
Proof. intros. apply Z.pow_lt_mono_r; lia. Qed.

(** The floor to a coarser power of two only depends on the floor to a finer
    one. *)
Lemma floor_floor (x j k : Z) :
  0 <= j <= k ->
  (x - x mod 2 ^ j) - (x - x mod 2 ^ j) mod 2 ^ k = x - x mod 2 ^ k.
Proof.
  intros Hjk.
  pose proof (pow2_pos k ltac:(lia)) as Hk.
  pose proof (pow2_pos j ltac:(lia)) as Hj.
  apply floor_in_block; [lia | apply floor_aligned; lia |].
  pose proof (floor_bounds x (2 ^ j) Hj).
  pose proof (floor_bounds x (2 ^ k) Hk).
  split; [|lia].
  (* the coarse floor is a multiple of the fine size below x *)
  assert (Hal : (x - x mod 2 ^ k) mod 2 ^ j = 0).
  { apply (mod_pow2_le _ j k); [lia|]. apply floor_aligned; lia. }
  destruct (Z_le_gt_dec (x - x mod 2 ^ k) (x - x mod 2 ^ j)) as [?|Hgt]; [lia|].
  exfalso.
  pose proof (floor_in_block (x - x mod 2 ^ j) (x - x mod 2 ^ k) (2 ^ j) Hj
                (floor_aligned x _ Hj)) as Hc.
  assert ((x - x mod 2 ^ k) - (x - x mod 2 ^ k) mod 2 ^ j = x - x mod 2 ^ j) as Hc'.
  { apply Hc. lia. }
  rewrite Hal in Hc'. lia.
Qed.

End MaskArithmetic.

(** ** Networks as intervals *)

Section Networks.

Lemma Family_eqb_eq (a b : Family) : Family_eqb a b = true <-> a = b.
Proof. destruct a, b; simpl; split; congruence. Qed.

Lemma Family_eqb_refl (a : Family) : Family_eqb a a = true.
Proof. destruct a; reflexivity. Qed.

Lemma Equal_eq (a b : IP) : Equal a b = true <-> a = b.
Proof.
  unfold Equal. destruct a as [fa va], b as [fb vb]; simpl.
  rewrite andb_true_iff, Family_eqb_eq, Z.eqb_eq.
  split; [intros [-> ->]; reflexivity | intros [= -> ->]; auto].
Qed.

Lemma Equal_neq (a b : IP) : Equal a b = false <-> a <> b.
Proof.
  rewrite <- Equal_eq. destruct (Equal a b); split; congruence.
Qed.

Lemma classic_validIP (ip : IP) : validIP ip \/ ~ validIP ip.
Proof. unfold validIP. lia. Qed.

Lemma Cmp_le (a b : IP) : Cmp a b <= 0 <-> ipVal a <= ipVal b.
Proof.
  unfold Cmp. destruct (Z.compare_spec (ipVal a) (ipVal b)); lia.
Qed.

Lemma Cmp_lt (a b : IP) : Cmp a b < 0 <-> ipVal a < ipVal b.
Proof.
  unfold Cmp. destruct (Z.compare_spec (ipVal a) (ipVal b)); lia.
Qed.

Lemma Cmp_ge (a b : IP) : Cmp a b >= 0 <-> ipVal b <= ipVal a.
Proof.
  unfold Cmp. destruct (Z.compare_spec (ipVal a) (ipVal b)); lia.
Qed.

Lemma Cmp_gt (a b : IP) : Cmp a b > 0 <-> ipVal b < ipVal a.
Proof.
  unfold Cmp. destruct (Z.compare_spec (ipVal a) (ipVal b)); lia.
Qed.

Lemma bitLen_pos (f : Family) : 0 < bitLen f.
Proof. destruct f; simpl; lia. Qed.

Lemma isV4_bitLen (ip : IP) :
  (if isV4 ip then bitLen V4 else bitLen V6) = bitLen (ipFam ip).
Proof. unfold isV4. destruct (ipFam ip); reflexivity. Qed.

Lemma CIDRMask_ok (p : Z) (f : Family) :
  0 <= p <= bitLen f -> CIDRMask p (bitLen f) = Some (mkMask p (bitLen f)).
Proof.
  intros Hp. unfold CIDRMask.
  replace ((bitLen f =? 32) || (bitLen f =? 128)) with true by (destruct f; reflexivity).
  replace (0 <=? p) with true by (symmetry; apply Z.leb_le; lia).
  replace (p <=? bitLen f) with true by (symmetry; apply Z.leb_le; lia).
  reflexivity.
Qed.

Lemma CIDRMask_Some (p w : Z) (m : IPMask) :
  CIDRMask p w = Some m -> m = mkMask p w /\ (w = 32 \/ w = 128) /\ 0 <= p <= w.
Proof.
  unfold CIDRMask. intros H.
  destruct ((w =? 32) || (w =? 128)) eqn:Hw; simpl in H; [|discriminate].
  destruct (0 <=? p) eqn:H0; simpl in H; [|discriminate].
  destruct (p <=? w) eqn:H1; simpl in H; [|discriminate].
  apply orb_true_iff in Hw. rewrite !Z.eqb_eq in Hw.
  apply Z.leb_le in H0. apply Z.leb_le in H1.
  inversion H. auto.
Qed.

Lemma maskFor_wf (n : IPNet) :
  wfNet n -> maskFor (ipFam (netIP n)) (netMask n) = Some (netMask n).
Proof.
  intros (_ & Hb & _). unfold maskFor. rewrite Hb, Z.eqb_refl. reflexivity.
Qed.

Lemma hostBits_nonneg (n : IPNet) : wfNet n -> 0 <= hostBits n.
Proof. intros (_ & _ & H). unfold hostBits. lia. Qed.

Lemma netLo_le_hi (n : IPNet) : wfNet n -> netLo n <= netHi n.
Proof.
  intros Hn. unfold netHi.
  pose proof (pow2_pos _ (hostBits_nonneg n Hn)). lia.
Qed.

Lemma netLo_aligned (n : IPNet) : wfNet n -> netLo n mod 2 ^ hostBits n = 0.
Proof.
  intros Hn. apply floor_aligned, pow2_pos, hostBits_nonneg, Hn.
Qed.

Lemma netLo_le_ip (n : IPNet) :
  wfNet n -> netLo n <= ipVal (netIP n) <= netHi n.
Proof.
  intros Hn. unfold netHi, netLo.
  pose proof (floor_bounds (ipVal (netIP n)) _ (pow2_pos _ (hostBits_nonneg n Hn))).
  lia.
Qed.

Lemma netLo_nonneg (n : IPNet) : wfNet n -> 0 <= netLo n.
Proof.
  intros Hn. pose proof Hn as (Hv & _ & _). unfold netLo.
  pose proof (pow2_pos _ (hostBits_nonneg n Hn)) as Hp.
  pose proof (Z.mod_le (ipVal (netIP n)) (2 ^ hostBits n)) as Hle.
  destruct Hv as [Hv0 _]. specialize (Hle Hv0 Hp). lia.
Qed.

Lemma netHi_bound (n : IPNet) : wfNet n -> netHi n < 2 ^ bitLen (ipFam (netIP n)).
Proof.
  intros Hn. pose proof Hn as (Hv & Hb & Ho).
  pose proof (hostBits_nonneg n Hn) as Hk.
  pose proof (pow2_pos _ Hk) as Hp.
  unfold netHi, netLo.
  set (v := ipVal (netIP n)) in *. set (k := hostBits n) in *.
  set (w := bitLen (ipFam (netIP n))) in *.
  assert (Hkw : k <= w) by (unfold k, hostBits, w; lia).
  (* v < 2^w = 2^k * 2^(w-k), so the floor of v plus 2^k stays below 2^w *)
  assert (H2 : 2 ^ w = 2 ^ k * 2 ^ (w - k)).
  { rewrite <- Z.pow_add_r by lia. f_equal. lia. }
  assert (Hq : v / 2 ^ k < 2 ^ (w - k)).
  { apply Z.div_lt_upper_bound; [lia|]. rewrite <- H2. apply Hv. }
  pose proof (Z.div_mod v (2 ^ k)) as Hdm.
  assert (Hfl : v - v mod 2 ^ k = 2 ^ k * (v / 2 ^ k)) by lia.
  rewrite Hfl, H2. nia.
Qed.

(** [Contains] is membership in the interval of the network. *)
Lemma Contains_iff (n : IPNet) (x : IP) :
  wfNet n -> validIP x ->
  Contains n x = true <->
  ipFam x = ipFam (netIP n) /\ netLo n <= ipVal x <= netHi n.
Proof.
  intros Hn Hx. pose proof Hn as (Hv & Hb & Ho).
  pose proof (hostBits_nonneg n Hn) as Hk.
  pose proof (pow2_pos _ Hk) as Hp.
  unfold Contains. rewrite (maskFor_wf n Hn).
  rewrite andb_true_iff, Family_eqb_eq, Z.eqb_eq.
  split.
  - intros [Hf He]. split; [exact Hf|].
    unfold maskVal in He. rewrite Hb in He.
    rewrite !land_mask_arith in He; try lia; try exact Hv.
    2:{ rewrite <- Hf. exact Hx. }
    unfold netHi, netLo, hostBits. rewrite Hb, He.
    pose proof (floor_bounds (ipVal x) (2 ^ (bitLen (ipFam (netIP n)) - maskOnes (netMask n)))) as Hfb.
    unfold hostBits in Hp. rewrite Hb in Hp. specialize (Hfb Hp). lia.
  - intros [Hf Hr]. split; [exact Hf|].
    unfold maskVal. rewrite Hb.
    rewrite !land_mask_arith; try lia; try exact Hv.
    2:{ rewrite <- Hf. exact Hx. }
    unfold netHi, netLo, hostBits in Hr. rewrite Hb in Hr.
    unfold hostBits in Hp, Hk. rewrite Hb in Hp, Hk.
    symmetry. apply floor_in_block; [lia | apply floor_aligned; lia | lia].
Qed.

(** [LastIP] is the upper end of that interval. *)
Lemma LastIP_wf (n : IPNet) :
  wfNet n -> LastIP n = Some (mkIP (ipFam (netIP n)) (netHi n)).
Proof.
  intros Hn. pose proof Hn as (Hv & Hb & Ho).
  pose proof (hostBits_nonneg n Hn) as Hk.
  unfold LastIP. rewrite (maskFor_wf n Hn). do 2 f_equal.
  unfold maskVal, hostVal. rewrite Hb.
  rewrite land_mask_arith by (try lia; exact Hv).
  unfold netHi, netLo, hostBits. rewrite Hb.
  unfold hostBits in Hk. rewrite Hb in Hk.
  apply lor_host_arith; [lia|]. apply floor_aligned, pow2_pos. lia.
Qed.

(** Two networks that share an address are nested: the one with fewer host
    bits lies inside the other. *)
Lemma nets_nested (a b : IPNet) (x : Z) :
  wfNet a -> wfNet b ->
  netLo a <= x <= netHi a -> netLo b <= x <= netHi b ->
  hostBits a <= hostBits b ->
  netLo b <= netLo a /\ netHi a <= netHi b.
Proof.
  intros Ha Hb Hxa Hxb Hk.
  pose proof (hostBits_nonneg a Ha) as Hka.
  pose proof (hostBits_nonneg b Hb) as Hkb.
  pose proof (pow2_pos _ Hka) as Hpa. pose proof (pow2_pos _ Hkb) as Hpb.
  pose proof (netLo_aligned a Ha) as Hala. pose proof (netLo_aligned b Hb) as Halb.
  unfold netHi in *.
  (* the floors of x *)
  assert (Hfa : x - x mod 2 ^ hostBits a = netLo a)
    by (apply floor_in_block; lia).
  assert (Hfb : x - x mod 2 ^ hostBits b = netLo b)
    by (apply floor_in_block; lia).
  pose proof (floor_floor x (hostBits a) (hostBits b) ltac:(lia)) as Hff.
  rewrite Hfa, Hfb in Hff.
  pose proof (floor_bounds (netLo a) (2 ^ hostBits b) Hpb) as Hbd.
  rewrite Hff in Hbd.
  split; [lia|].
  (* netLo a + 2^ka <= netLo b + 2^kb as both are multiples of 2^ka *)
  assert (Hm : (netLo b + 2 ^ hostBits b) mod 2 ^ hostBits a = 0).
  { apply (mod_pow2_le _ (hostBits a) (hostBits b)); [lia|].
    rewrite <- Z.add_mod_idemp_l, Halb by lia. simpl.
    apply Z.mod_same. lia. }
  destruct (Z_le_gt_dec (netLo a + 2 ^ hostBits a) (netLo b + 2 ^ hostBits b)) as [?|Hgt];
    [lia|].
  exfalso.
  pose proof (floor_in_block (netLo a) (netLo b + 2 ^ hostBits b) (2 ^ hostBits a)
                Hpa Hala ltac:(lia)) as Hc.
  rewrite Hm in Hc. lia.
Qed.

End Networks.

(** ** The loops of the calculator *)

Section Loops.

Lemma Mask_valid (ip : IP) (p : Z) :
  validIP ip -> 0 <= p <= bitLen (ipFam ip) ->
  Mask ip (mkMask p (bitLen (ipFam ip))) =
  Some (mkIP (ipFam ip) (ipVal ip - ipVal ip mod 2 ^ (bitLen (ipFam ip) - p))).
Proof.
  intros Hv Hp. unfold Mask, maskFor. simpl. rewrite Z.eqb_refl.
  unfold maskVal. simpl. rewrite land_mask_arith by (try lia; exact Hv).
  reflexivity.
Qed.

(** The loop of [calculateIPLastZeroBits] stops at the first mask length that
    keeps the address. *)
Lemma lastZeroBitsLoop_spec (fuel : nat) (ip : IP) (p : Z) :
  validIP ip -> 0 <= p <= bitLen (ipFam ip) ->
  (Z.to_nat (bitLen (ipFam ip) - p) < fuel)%nat ->
  exists p',
    lastZeroBitsLoop fuel ip (bitLen (ipFam ip)) p = Some p'
    /\ p <= p' <= bitLen (ipFam ip)
    /\ ipVal ip mod 2 ^ (bitLen (ipFam ip) - p') = 0
    /\ (forall q, p <= q < p' -> ipVal ip mod 2 ^ (bitLen (ipFam ip) - q) <> 0).
Proof.
  intros Hv. revert p.
  induction fuel as [|fuel IH]; intros p Hp Hf; [lia|].
  simpl. rewrite CIDRMask_ok by lia. rewrite Mask_valid by (try lia; exact Hv).
  set (w := bitLen (ipFam ip)) in *.
  destruct (Equal _ ip) eqn:He.
  - apply Equal_eq in He. exists p.
    split; [reflexivity|]. split; [lia|]. split; [|intros; lia].
    subst w. destruct ip as [f v]. simpl in *. injection He as He. lia.
  - apply Equal_neq in He.
    assert (Hm : ipVal ip mod 2 ^ (w - p) <> 0).
    { intros Hz. apply He. subst w. destruct ip as [f v]. simpl in *. f_equal. lia. }
    assert (Hpw : p < w).
    { destruct (Z_lt_le_dec p w); [assumption|].
      exfalso. apply Hm. replace (w - p) with 0 by lia. apply Z.mod_1_r. }
    destruct (IH (p + 1) ltac:(lia) ltac:(lia)) as (p' & Hl & Hr & Hz & Hq).
    exists p'. split; [exact Hl|]. split; [lia|]. split; [exact Hz|].
    intros q Hqr. destruct (Z.eq_dec q p) as [->|]; [exact Hm|]. apply Hq. lia.
Qed.

(** [calculateIPLastZeroBits] returns the number of trailing zero bits of the
    address (the whole length for the zero address). *)
Lemma calculateIPLastZeroBits_spec (ip : IP) :
  validIP ip ->
  exists z,
    calculateIPLastZeroBits ip = Some z
    /\ 0 <= z <= bitLen (ipFam ip)
    /\ ipVal ip mod 2 ^ z = 0
    /\ (forall k, z < k <= bitLen (ipFam ip) -> ipVal ip mod 2 ^ k <> 0).
Proof.
  intros Hv. unfold calculateIPLastZeroBits. rewrite isV4_bitLen.
  pose proof (bitLen_pos (ipFam ip)) as Hw.
  destruct (lastZeroBitsLoop_spec (Z.to_nat (bitLen (ipFam ip)) + 1) ip 0 Hv
              ltac:(lia) ltac:(rewrite Z.sub_0_r; lia)) as (p' & Hl & Hr & Hz & Hq).
  rewrite Hl. exists (bitLen (ipFam ip) - p').
  split; [reflexivity|]. split; [lia|]. split; [exact Hz|].
  intros k Hk. specialize (Hq (bitLen (ipFam ip) - k) ltac:(lia)).
  replace (bitLen (ipFam ip) - (bitLen (ipFam ip) - k)) with k in Hq by lia.
  exact Hq.
Qed.

(** An address outside its family's space survives no mask: the Go loop would
    not end. *)
Lemma lastZeroBitsLoop_invalid (fuel : nat) (ip : IP) (p : Z) :
  ~ validIP ip -> lastZeroBitsLoop fuel ip (bitLen (ipFam ip)) p = None.
Proof.
  intros Hv. revert p. induction fuel as [|fuel IH]; intros p; [reflexivity|].
  simpl. destruct (CIDRMask p (bitLen (ipFam ip))) as [m|] eqn:Hm; [|reflexivity].
  apply CIDRMask_Some in Hm. destruct Hm as (-> & _ & Hp).
  unfold Mask, maskFor. simpl. rewrite Z.eqb_refl.
  destruct (Equal _ ip) eqn:He; [|apply IH].
  exfalso. apply Hv. apply Equal_eq in He.
  destruct ip as [f v]. simpl in *. injection He as Hland.
  unfold validIP. simpl. unfold maskVal in Hland. simpl in Hland.
  assert (Hmask : 0 <= Z.shiftl (Z.ones p) (bitLen f - p) < 2 ^ bitLen f).
  { rewrite Z.shiftl_mul_pow2 by lia. rewrite Z.ones_equiv.
    pose proof (pow2_pos p ltac:(lia)). pose proof (pow2_pos (bitLen f - p) ltac:(lia)).
    replace (2 ^ bitLen f) with (2 ^ p * 2 ^ (bitLen f - p)).
    - nia.
    - rewrite <- Z.pow_add_r by lia. f_equal. lia. }
  assert (H0 : 0 <= v).
  { rewrite <- Hland. apply Z.land_nonneg. right. lia. }
  split; [exact H0|].
  destruct (Z.eq_dec v 0) as [->|Hnz]; [apply pow2_pos; destruct f; simpl; lia|].
  apply Z.log2_lt_pow2; [lia|].
  rewrite <- Hland at 1.
  eapply Z.le_lt_trans; [apply Z.log2_land; lia|].
  eapply Z.le_lt_trans; [apply Z.le_min_r|].
  destruct (Z.eq_dec (Z.shiftl (Z.ones p) (bitLen f - p)) 0) as [Hz|Hz].
  - rewrite Hz. simpl. destruct f; simpl; lia.
  - apply Z.log2_lt_pow2; lia.
Qed.

Lemma calculateIPLastZeroBits_invalid (ip : IP) :
  ~ validIP ip -> calculateIPLastZeroBits ip = None.
Proof.
  intros Hv. unfold calculateIPLastZeroBits. rewrite isV4_bitLen.
  rewrite lastZeroBitsLoop_invalid by exact Hv. reflexivity.
Qed.

Lemma prefixNet_wf (s : IP) (p : Z) :
  validIP s -> 0 <= p <= bitLen (ipFam s) -> wfNet (prefixNet s p).
Proof. intros Hs Hp. unfold wfNet, prefixNet. simpl. auto. Qed.

Lemma prefixNet_hostBits (s : IP) (p : Z) :
  hostBits (prefixNet s p) = bitLen (ipFam s) - p.
Proof. reflexivity. Qed.

Lemma prefixNet_lo (s : IP) (p : Z) :
  0 <= p <= bitLen (ipFam s) ->
  ipVal s mod 2 ^ (bitLen (ipFam s) - p) = 0 -> netLo (prefixNet s p) = ipVal s.
Proof. intros Hp Ha. unfold netLo. rewrite prefixNet_hostBits. simpl. lia. Qed.

(** The loop of [findTheFirstLargestCidr] on a range with [start <= end]: it
    stops at the first prefix length whose block does not pass [end]. *)
Lemma largestCidrLoop_spec (fuel : nat) (s e : IP) (p : Z) :
  validIP s -> validIP e -> ipFam s = ipFam e -> ipVal s <= ipVal e ->
  0 <= p <= bitLen (ipFam s) ->
  ipVal s mod 2 ^ (bitLen (ipFam s) - p) = 0 ->
  (Z.to_nat (bitLen (ipFam s) - p) < fuel)%nat ->
  exists p',
    p <= p' <= bitLen (ipFam s)
    /\ largestCidrLoop fuel s e (bitLen (ipFam s)) p =
       Some (prefixNet s p',
             if netHi (prefixNet s p') =? ipVal e then None
             else Some (mkIP (ipFam s) (netHi (prefixNet s p') + 1)))
    /\ netHi (prefixNet s p') <= ipVal e
    /\ (forall q, p <= q < p' -> ipVal e < ipVal s + 2 ^ (bitLen (ipFam s) - q) - 1).
Proof.
  intros Hs He Hf Hle. revert p.
  induction fuel as [|fuel IH]; intros p Hp Hal Hfu; [lia|].
  simpl. rewrite CIDRMask_ok by lia.
  fold (prefixNet s p).
  pose proof (prefixNet_wf s p Hs Hp) as Hwf.
  rewrite (LastIP_wf _ Hwf). simpl.
  pose proof (prefixNet_lo s p Hp Hal) as Hlo.
  assert (Hhi : netHi (prefixNet s p) = ipVal s + 2 ^ (bitLen (ipFam s) - p) - 1).
  { unfold netHi. rewrite Hlo, prefixNet_hostBits. reflexivity. }
  destruct (Equal _ e) eqn:Heq.
  - apply Equal_eq in Heq. exists p. split; [lia|].
    assert (Hv : netHi (prefixNet s p) = ipVal e) by (rewrite <- Heq; reflexivity).
    rewrite Hv, Z.eqb_refl. split; [reflexivity|]. split; [lia|]. intros; lia.
  - apply Equal_neq in Heq.
    assert (Hne : netHi (prefixNet s p) <> ipVal e).
    { intros Hv. apply Heq. destruct e as [fe ve]. simpl in *. congruence. }
    destruct (Contains _ e) eqn:Hc.
    + apply (Contains_iff _ _ Hwf He) in Hc. destruct Hc as [_ Hc].
      assert (Hpw : p < bitLen (ipFam s)).
      { destruct (Z_lt_le_dec p (bitLen (ipFam s))); [assumption|].
        exfalso. rewrite Hhi in Hc, Hne.
        replace (bitLen (ipFam s) - p) with 0 in * by lia.
        simpl in *. lia. }
      destruct (IH (p + 1) ltac:(lia)) as (p' & Hr & Hl & Hb & Hq).
      { apply (mod_pow2_le _ _ (bitLen (ipFam s) - p)); [lia | exact Hal]. }
      { lia. }
      exists p'. split; [lia|]. split; [exact Hl|]. split; [exact Hb|].
      intros q Hqr. destruct (Z.eq_dec q p) as [->|]; [lia|]. apply Hq. lia.
    + assert (Hnc : ~ (netLo (prefixNet s p) <= ipVal e <= netHi (prefixNet s p))).
      { intros Hr. rewrite <- not_true_iff_false in Hc. apply Hc.
        apply (Contains_iff _ _ Hwf He). split; [symmetry; exact Hf | exact Hr]. }
      exists p. split; [lia|].
      replace (netHi (prefixNet s p) =? ipVal e) with false
        by (symmetry; apply Z.eqb_neq; exact Hne).
      split; [reflexivity|]. split; [lia|]. intros; lia.
Qed.

(** What [findTheFirstLargestCidr] returns on a range with [start <= end]:
    the largest block at [start] that its alignment allows and that does not
    pass [end], and the address just past it unless the block ends at
    [end]. *)
Lemma findTheFirstLargestCidr_spec (s e : IP) :
  validIP s -> validIP e -> ipFam s = ipFam e -> ipVal s <= ipVal e ->
  exists p,
    0 <= p <= bitLen (ipFam s)
    /\ findTheFirstLargestCidr s e =
       Some (prefixNet s p,
             if netHi (prefixNet s p) =? ipVal e then None
             else Some (mkIP (ipFam s) (netHi (prefixNet s p) + 1)))
    /\ netLo (prefixNet s p) = ipVal s
    /\ netHi (prefixNet s p) <= ipVal e
    /\ (forall k, bitLen (ipFam s) - p < k <= bitLen (ipFam s) ->
          ipVal s mod 2 ^ k <> 0 \/ ipVal e < ipVal s + 2 ^ k - 1).
Proof.
  intros Hs He Hf Hle. unfold findTheFirstLargestCidr.
  destruct (calculateIPLastZeroBits_spec s Hs) as (z & Hz & Hzr & Hzal & Hzmax).
  rewrite Hz, isV4_bitLen.
  remember (bitLen (ipFam s)) as w eqn:Hw.
  assert (Hal0 : ipVal s mod 2 ^ (w - (w - z)) = 0).
  { replace (w - (w - z)) with z by lia. exact Hzal. }
  pose proof (largestCidrLoop_spec (Z.to_nat w + 1) s e (w - z) Hs He Hf Hle) as Hloop.
  rewrite <- Hw in Hloop.
  destruct (Hloop ltac:(lia) Hal0 ltac:(lia)) as (p & Hp & Hl & Hhi & Hq).
  exists p. split; [lia|]. split; [exact Hl|].
  assert (Hal : ipVal s mod 2 ^ (w - p) = 0).
  { apply (mod_pow2_le _ _ z); [lia | exact Hzal]. }
  split; [apply prefixNet_lo; rewrite <- Hw; [lia | exact Hal]|].
  split; [exact Hhi|].
  intros k Hk.
  destruct (Z_lt_le_dec z k) as [Hzk|Hzk].
  - left. apply Hzmax. lia.
  - right. specialize (Hq (w - k) ltac:(lia)).
    replace (w - (w - k)) with k in Hq by lia. exact Hq.
Qed.

End Loops.

(** ** [splitIPRangeToIPBlocks] *)

Section Split.

(** On a range with [start <= end] the loop returns, with the greedy chain. *)
Lemma splitLoop_spec (fuel : nat) (s e : IP) :
  validIP s -> validIP e -> ipFam s = ipFam e -> ipVal s <= ipVal e ->
  (Z.to_nat (ipVal e - ipVal s) < fuel)%nat ->
  exists blocks,
    splitLoop fuel s e = Some blocks
    /\ Forall (blockOf (ipFam s)) blocks
    /\ greedyChain (ipVal s) (ipVal e) blocks.
Proof.
  revert s. induction fuel as [|fuel IH]; intros s Hs He Hf Hle Hfu; [lia|].
  simpl.
  destruct (findTheFirstLargestCidr_spec s e Hs He Hf Hle)
    as (p & Hp & Hfind & Hlo & Hhi & Hmax).
  rewrite Hfind.
  pose proof (prefixNet_wf s p Hs Hp) as Hwf.
  pose proof (netLo_le_hi _ Hwf) as Hlh.
  destruct (netHi (prefixNet s p) =? ipVal e) eqn:Heq.
  - apply Z.eqb_eq in Heq.
    exists [prefixNet s p]. split; [reflexivity|]. split.
    + constructor; [split; [exact Hwf | reflexivity] | constructor].
    + simpl. repeat split; try assumption; try reflexivity.
  - apply Z.eqb_neq in Heq.
    set (next := mkIP (ipFam s) (netHi (prefixNet s p) + 1)).
    assert (Hnv : validIP next).
    { unfold validIP, next. simpl. destruct Hs as [Hs0 _]. destruct He as [_ He1].
      rewrite Hf. split; lia. }
    destruct (IH next Hnv He Hf ltac:(unfold next; simpl; lia)
                ltac:(unfold next; simpl; lia)) as (rest & Hrest & Hall & Hchain).
    rewrite Hrest.
    exists (prefixNet s p :: rest). split; [reflexivity|]. split.
    + constructor; [split; [exact Hwf | reflexivity] | exact Hall].
    + simpl. split; [reflexivity|]. split; [exact Hlo|]. split; [exact Hhi|].
      split; [exact Hmax|].
      destruct rest as [|b rest']; [destruct Hchain|].
      split; [lia | exact Hchain].
Qed.

(** More fuel does not change a result. *)
Lemma splitLoop_fuel_mono (fuel fuel' : nat) (s e : IP) (blocks : list IPNet) :
  splitLoop fuel s e = Some blocks -> (fuel <= fuel')%nat ->
  splitLoop fuel' s e = Some blocks.
Proof.
  revert fuel' s blocks.
  induction fuel as [|fuel IH]; intros fuel' s blocks H Hle; [discriminate|].
  destruct fuel' as [|fuel']; [lia|].
  simpl in *.
  destruct (findTheFirstLargestCidr s e) as [[b [next|]]|]; try discriminate; [|exact H].
  destruct (splitLoop fuel next e) as [rest|] eqn:Hr; [|discriminate].
  rewrite (IH fuel' next rest Hr ltac:(lia)). exact H.
Qed.

(** The loop only stops on a block whose last address is [end]. *)
Lemma splitLoop_stops_at_end (fuel : nat) (s e : IP) (blocks : list IPNet) :
  splitLoop fuel s e = Some blocks ->
  exists b, last blocks = Some b /\ LastIP b = Some e.
Proof.
  revert s blocks. induction fuel as [|fuel IH]; intros s blocks H; [discriminate|].
  simpl in H.
  destruct (findTheFirstLargestCidr s e) as [[b [next|]]|] eqn:Hfind; try discriminate.
  - destruct (splitLoop fuel next e) as [rest|] eqn:Hr; [|discriminate].
    injection H as <-.
    destruct (IH next rest Hr) as (b' & Hlast & Hb').
    exists b'. split; [|exact Hb'].
    destruct rest as [|r rest']; [discriminate|]. exact Hlast.
  - injection H as <-. exists b. split; [reflexivity|].
    (* the loop of findTheFirstLargestCidr returned nil as next start *)
    unfold findTheFirstLargestCidr in Hfind.
    destruct (calculateIPLastZeroBits s) as [z|]; [|discriminate].
    revert Hfind.
    generalize (Z.to_nat (if isV4 s then bitLen V4 else bitLen V6) + 1)%nat.
    generalize ((if isV4 s then bitLen V4 else bitLen V6) - z).
    generalize (if isV4 s then bitLen V4 else bitLen V6).
    intros w p n. revert w p.
    induction n as [|n IHn]; intros w p Hl; [discriminate|].
    simpl in Hl.
    destruct (CIDRMask p w) as [m|]; [|discriminate].
    destruct (LastIP (mkIPNet s m)) as [tmpEnd|] eqn:Hlast; [|discriminate].
    destruct (Equal tmpEnd e) eqn:Heq.
    + injection Hl as <-. apply Equal_eq in Heq. subst tmpEnd. exact Hlast.
    + destruct (Contains (mkIPNet s m) e); [|discriminate].
      exact (IHn _ _ Hl).
Qed.

(** With [start > end] no block ever ends at [end]: the loop never stops. *)
Lemma splitLoop_diverges (fuel : nat) (s e : IP) :
  validIP e -> ipFam s = ipFam e -> ipVal e < ipVal s ->
  splitLoop fuel s e = None.
Proof.
  intros He. revert s. induction fuel as [|fuel IH]; intros s Hf Hlt; [reflexivity|].
  simpl. destruct (findTheFirstLargestCidr s e) as [[b [next|]]|] eqn:Hfind;
    [| |reflexivity].
  - (* a next start: it lies above the start *)
    assert (Hn : ipFam next = ipFam e /\ ipVal e < ipVal next); [|destruct Hn as [Hnf Hnl];
      rewrite (IH next Hnf Hnl); reflexivity].
    unfold findTheFirstLargestCidr in Hfind.
    destruct (calculateIPLastZeroBits s) as [z|] eqn:Hz; [|discriminate].
    destruct (classic_validIP s) as [Hs|Hs];
      [|rewrite (calculateIPLastZeroBits_invalid s Hs) in Hz; discriminate].
    destruct (calculateIPLastZeroBits_spec s Hs) as (z' & Hz' & Hzr & Hzal & _).
    rewrite Hz in Hz'. injection Hz' as <-.
    rewrite isV4_bitLen in Hfind.
    assert (Hfu : (0 < Z.to_nat (bitLen (ipFam s)) + 1)%nat) by lia.
    destruct (Z.to_nat (bitLen (ipFam s)) + 1)%nat as [|n]; [lia|].
    simpl in Hfind. rewrite CIDRMask_ok in Hfind by lia.
    fold (prefixNet s (bitLen (ipFam s) - z)) in Hfind.
    pose proof (prefixNet_wf s (bitLen (ipFam s) - z) Hs ltac:(lia)) as Hwf.
    rewrite (LastIP_wf _ Hwf) in Hfind. simpl in Hfind.
    pose proof (netLo_le_ip _ Hwf) as Hip. simpl in Hip.
    destruct (Equal _ e) eqn:Heq.
    { apply Equal_eq in Heq. rewrite <- Heq in Hlt. simpl in Hlt. lia. }
    destruct (Contains _ e) eqn:Hc.
    { apply (Contains_iff _ _ Hwf He) in Hc. destruct Hc as [_ Hc].
      rewrite prefixNet_lo in Hc; [lia | lia |].
      replace (bitLen (ipFam s) - (bitLen (ipFam s) - z)) with z by lia. exact Hzal. }
    injection Hfind as _ <-. unfold NextIP. simpl. split; [exact Hf | lia].
  - (* no next start: the block would end at [end], below its own start *)
    exfalso.
    assert (Hsp : splitLoop 1 s e = Some [b]) by (simpl; rewrite Hfind; reflexivity).
    destruct (splitLoop_stops_at_end _ _ _ _ Hsp) as (b' & Hl & Hb'). simpl in Hl.
    injection Hl as <-.
    unfold findTheFirstLargestCidr in Hfind.
    destruct (calculateIPLastZeroBits s) as [z|] eqn:Hz; [|discriminate].
    destruct (classic_validIP s) as [Hs|Hs];
      [|rewrite (calculateIPLastZeroBits_invalid s Hs) in Hz; discriminate].
    destruct (calculateIPLastZeroBits_spec s Hs) as (z' & Hz' & Hzr & Hzal & _).
    rewrite Hz in Hz'. injection Hz' as <-.
    rewrite isV4_bitLen in Hfind.
    destruct (Z.to_nat (bitLen (ipFam s)) + 1)%nat as [|n]; [discriminate|].
    simpl in Hfind. rewrite CIDRMask_ok in Hfind by lia.
    fold (prefixNet s (bitLen (ipFam s) - z)) in Hfind.
    pose proof (prefixNet_wf s (bitLen (ipFam s) - z) Hs ltac:(lia)) as Hwf.
    rewrite (LastIP_wf _ Hwf) in Hfind. simpl in Hfind.
    pose proof (netLo_le_ip _ Hwf) as Hip. simpl in Hip.
    destruct (Equal _ e) eqn:Heq.
    { apply Equal_eq in Heq. rewrite <- Heq in Hlt. simpl in Hlt. lia. }
    destruct (Contains _ e) eqn:Hc; [|discriminate].
    apply (Contains_iff _ _ Hwf He) in Hc. destruct Hc as [_ Hc].
    rewrite prefixNet_lo in Hc; [lia | lia |].
    replace (bitLen (ipFam s) - (bitLen (ipFam s) - z)) with z by lia. exact Hzal.
Qed.

End Split.

(** ** Greedy chains: cover, order, maximality, minimal length *)

Section Chains.

Lemma greedyChain_bounds (s e : Z) (l : list IPNet) :
  Forall wfNet l -> greedyChain s e l ->
  s <= e /\ forall b, In b l -> s <= netLo b /\ netHi b <= e.
Proof.
  revert s. induction l as [|b rest IH]; intros s Hwf Hc; [destruct Hc|].
  inversion Hwf as [|? ? Hb Hrest]; subst.
  destruct Hc as (_ & Hlo & Hhi & _ & Hnext).
  pose proof (netLo_le_hi b Hb) as Hlh.
  split; [lia|].
  intros b' [<-|Hin]; [lia|].
  destruct rest as [|b2 rest']; [destruct Hin|].
  destruct Hnext as [Hlt Hch].
  destruct (IH _ Hrest Hch) as [_ Hall].
  specialize (Hall b' Hin). lia.
Qed.

(** The blocks of a chain lie one after the other. *)
Lemma greedyChain_ordered (s e : Z) (l : list IPNet) :
  Forall wfNet l -> greedyChain s e l ->
  forall (i j : nat) (a b : IPNet),
    (i < j)%nat -> l !! i = Some a -> l !! j = Some b -> netHi a < netLo b.
Proof.
  revert s. induction l as [|b0 rest IH]; intros s Hwf Hc i j a b Hij Ha Hb;
    [destruct Hc|].
  inversion Hwf as [|? ? Hb0 Hrest]; subst.
  destruct Hc as (_ & Hlo & Hhi & _ & Hnext).
  destruct rest as [|b1 rest']; [destruct j as [|[|j]]; [lia|discriminate|discriminate]|].
  destruct Hnext as [Hlt Hch].
  destruct j as [|j]; [lia|]. simpl in Hb.
  destruct i as [|i].
  - simpl in Ha. injection Ha as <-.
    destruct (greedyChain_bounds _ _ _ Hrest Hch) as [_ Hall].
    apply list_elem_of_lookup_2, list_elem_of_In in Hb.
    specialize (Hall b Hb). lia.
  - simpl in Ha. eapply (IH _ Hrest Hch i j); eauto. lia.
Qed.

(** The blocks of a chain cover exactly the interval from [s] to [e]. *)
Lemma greedyChain_cover (s e : Z) (l : list IPNet) (x : Z) :
  Forall wfNet l -> greedyChain s e l ->
  (s <= x <= e <-> exists b, In b l /\ netLo b <= x <= netHi b).
Proof.
  revert s. induction l as [|b0 rest IH]; intros s Hwf Hc; [destruct Hc|].
  pose proof (greedyChain_bounds _ _ _ Hwf Hc) as [Hse Hall].
  split.
  - intros Hx.
    inversion Hwf as [|? ? Hb0 Hrest]; subst.
    destruct Hc as (_ & Hlo & Hhi & _ & Hnext).
    destruct (Z_le_gt_dec x (netHi b0)) as [Hle|Hgt].
    + exists b0. split; [left; reflexivity | lia].
    + destruct rest as [|b1 rest']; [lia|].
      destruct Hnext as [Hlt Hch].
      destruct (proj1 (IH _ Hrest Hch) ltac:(lia)) as (b & Hin & Hb).
      exists b. split; [right; exact Hin | exact Hb].
  - intros (b & Hin & Hb). specialize (Hall b Hin). lia.
Qed.

(** Every block of a chain from [c], taken inside [[s0, e]], is a largest
    network inside [[s0, e]], provided no network inside [[s0, e]] reaches
    across the boundary at [c]. All networks have masks of [w] bits. *)
Lemma greedyChain_maximal (w s0 c e : Z) (l : list IPNet) :
  Forall wfNet l -> Forall (fun b => maskBits (netMask b) = w) l ->
  greedyChain c e l ->
  (forall t, wfNet t -> maskBits (netMask t) = w -> s0 <= netLo t -> netHi t <= e ->
             ~ (netLo t < c <= netHi t)) ->
  forall g t, In g l -> wfNet t -> maskBits (netMask t) = w ->
    s0 <= netLo t -> netHi t <= e ->
    netLo t <= netLo g -> netHi g <= netHi t ->
    netLo t = netLo g /\ netHi t = netHi g.
Proof.
  revert c. induction l as [|b rest IH];
    intros c Hwf Hw Hc Hstr g t Hin Ht Hbits Hs0 He Hlo Hhi; [destruct Hin|].
  apply Forall_cons in Hwf as [Hb Hrest].
  apply Forall_cons in Hw as [Hbw Hwrest].
  pose proof Hc as (_ & Hblo & Hbhi & Hmax & Hnext).
  pose proof (netLo_le_hi b Hb) as Hblh.
  (* the head block is maximal *)
  assert (Hhead : forall t', wfNet t' -> maskBits (netMask t') = w ->
            s0 <= netLo t' -> netHi t' <= e ->
            netLo t' <= netLo b -> netHi b <= netHi t' ->
            netLo t' = netLo b /\ netHi t' = netHi b).
  { intros t' Ht' Hbits' Hs0' He' Hlo' Hhi'.
    assert (Hlc : netLo t' = c).
    { specialize (Hstr t' Ht' Hbits' Hs0' He'). lia. }
    split; [lia|].
    destruct (Z_le_gt_dec (hostBits t') (hostBits b)) as [Hk|Hk].
    - pose proof (pow2_le_mono (hostBits t') (hostBits b)
                    ltac:(pose proof (hostBits_nonneg t' Ht'); lia)).
      unfold netHi in *. lia.
    - exfalso.
      assert (Hkw : hostBits t' <= maskBits (netMask b)).
      { destruct Ht' as (_ & _ & Ho). unfold hostBits. lia. }
      clear IH.
      destruct (Hmax (hostBits t') ltac:(lia)) as [Hm|Hm].
      + apply Hm. rewrite <- Hlc. apply netLo_aligned, Ht'.
      + unfold netHi in He'. lia. }
  destruct Hin as [<-|Hin]; [apply Hhead; assumption|].
  destruct rest as [|b1 rest']; [destruct Hin|].
  destruct Hnext as [Hlt Hch].
  apply (IH (netHi b + 1) Hrest Hwrest Hch); try assumption.
  (* nothing inside [s0, e] reaches across the end of the head block *)
  intros t' Ht' Hbits' Hs0' He' Hcross.
  destruct (Z_le_gt_dec (hostBits b) (hostBits t')) as [Hk|Hk].
  - destruct (nets_nested b t' (netHi b) Hb Ht' ltac:(lia) ltac:(lia) Hk) as [Hl Hh].
    destruct (Hhead t' Ht' Hbits' Hs0' He' Hl Hh) as [_ Heq]. lia.
  - destruct (nets_nested t' b (netHi b) Ht' Hb ltac:(lia) ltac:(lia) ltac:(lia))
      as [Hl Hh]. lia.
Qed.

End Chains.

(** ** Minimal length of the greedy decomposition *)

Section Minimality.

(** A chain is no longer than any list that has a non-empty network inside
    each of its blocks. *)
Lemma greedyChain_count (c e : Z) (l S : list IPNet) :
  Forall wfNet l -> greedyChain c e l ->
  (forall g, In g l ->
     exists t, In t S /\ netLo t <= netHi t /\ netLo g <= netLo t /\ netHi t <= netHi g) ->
  (length l <= length S)%nat.
Proof.
  revert c S. induction l as [|g rest IH]; intros c S Hwf Hc Hcov; [destruct Hc|].
  apply Forall_cons in Hwf as [Hg Hrest].
  destruct Hc as (_ & Hlo & Hhi & _ & Hnext).
  set (inside := fun t : IPNet => (netLo g <=? netLo t) && (netHi t <=? netHi g)).
  pose proof (List.filter_length inside S) as Hlen.
  assert (Hin1 : (1 <= length (List.filter inside S))%nat).
  { destruct (Hcov g (or_introl eq_refl)) as (t & Ht & _ & Hl & Hh).
    assert (Hf : In t (List.filter inside S)).
    { apply List.filter_In. split; [exact Ht|]. unfold inside.
      apply andb_true_iff. split; apply Z.leb_le; lia. }
    destruct (List.filter inside S); [destruct Hf | simpl; lia]. }
  destruct rest as [|g1 rest'].
  - simpl. lia.
  - destruct Hnext as [Hlt Hch].
    assert (Hrec : (length (g1 :: rest') <=
                    length (List.filter (fun t => negb (inside t)) S))%nat).
    { apply (IH (netHi g + 1)); [exact Hrest | exact Hch |].
      intros g' Hg'.
      destruct (Hcov g' (or_intror Hg')) as (t & Ht & Hne & Hl & Hh).
      exists t. split; [|auto].
      apply List.filter_In. split; [exact Ht|].
      destruct (greedyChain_bounds _ _ _ Hrest Hch) as [_ Hall].
      specialize (Hall g' Hg').
      unfold inside. apply negb_true_iff, andb_false_iff. right.
      apply Z.leb_gt. lia. }
    simpl in *. lia.
Qed.

End Minimality.

(** ** The claims about the calculator *)

Section CalculatorClaims.

Lemma wfRange_inv (ir : IPRange) :
  wfRange ir ->
  validIP (start ir) /\ validIP (end_ ir) /\ ipFam (start ir) = ipFam (end_ ir)
  /\ ipVal (start ir) <= ipVal (end_ ir).
Proof.
  intros (Hs & He & Hf & Hc).
  split; [exact Hs|]. split; [exact He|]. split; [exact Hf|].
  apply Cmp_le in Hc. exact Hc.
Qed.

Lemma blockOf_wf (f : Family) (l : list IPNet) :
  Forall (blockOf f) l ->
  Forall wfNet l /\ Forall (fun b => maskBits (netMask b) = bitLen f) l.
Proof.
  intros H. split; eapply Forall_impl; try exact H; intros b [Hb Hf]; [exact Hb|].
  destruct Hb as (_ & Hm & _). rewrite Hm, Hf. reflexivity.
Qed.

(** What the chain of a well-formed range yields in terms of [Contains]. *)
Lemma chain_pairwiseDisjoint (f : Family) (s e : Z) (l : list IPNet) :
  Forall (blockOf f) l -> greedyChain s e l -> pairwiseDisjoint l.
Proof.
  intros Hb Hc i j a b x Hij Ha Hbj Hx Hca Hcb.
  destruct (blockOf_wf f l Hb) as [Hwf _].
  assert (Hawf : wfNet a).
  { eapply Forall_forall in Hwf; [exact Hwf|]. eapply list_elem_of_lookup_2; eauto. }
  assert (Hbwf : wfNet b).
  { eapply Forall_forall in Hwf; [exact Hwf|]. eapply list_elem_of_lookup_2; eauto. }
  apply (Contains_iff a x Hawf Hx) in Hca. apply (Contains_iff b x Hbwf Hx) in Hcb.
  destruct (Nat.lt_total i j) as [Hlt|[Heq|Hgt]]; [|contradiction|].
  - pose proof (greedyChain_ordered s e l Hwf Hc i j a b Hlt Ha Hbj). lia.
  - pose proof (greedyChain_ordered s e l Hwf Hc j i b a Hgt Hbj Ha). lia.
Qed.

Lemma chain_union (s e : IP) (l : list IPNet) (x : IP) :
  Forall (blockOf (ipFam s)) l -> greedyChain (ipVal s) (ipVal e) l -> validIP x ->
  (inSomeNet l x <-> ipFam x = ipFam s /\ ipVal s <= ipVal x <= ipVal e).
Proof.
  intros Hb Hc Hx. destruct (blockOf_wf _ l Hb) as [Hwf _].
  split.
  - intros (n & Hin & Hn).
    assert (Hnb : blockOf (ipFam s) n).
    { eapply Forall_forall in Hb; [exact Hb|]. apply list_elem_of_In. exact Hin. }
    destruct Hnb as [Hnwf Hnf].
    apply (Contains_iff n x Hnwf Hx) in Hn. destruct Hn as [Hf Hr].
    split; [congruence|].
    apply (greedyChain_cover _ _ l (ipVal x) Hwf Hc). exists n. auto.
  - intros [Hf Hr].
    apply (greedyChain_cover _ _ l (ipVal x) Hwf Hc) in Hr.
    destruct Hr as (n & Hin & Hn). exists n. split; [exact Hin|].
    assert (Hnb : blockOf (ipFam s) n).
    { eapply Forall_forall in Hb; [exact Hb|]. apply list_elem_of_In. exact Hin. }
    destruct Hnb as [Hnwf Hnf].
    apply (Contains_iff n x Hnwf Hx). split; [congruence | exact Hn].
Qed.

(** A list of networks whose union is the interval of a range keeps inside
    it, in its family. *)
Lemma cover_inside (ir : IPRange) (S : list IPNet) (t : IPNet) :
  Forall wfNet S ->
  (forall x, validIP x -> (inSomeNet S x <-> inRange ir x)) ->
  In t S ->
  wfNet t /\ ipFam (netIP t) = ipFam (start ir)
  /\ ipVal (start ir) <= netLo t /\ netHi t <= ipVal (end_ ir).
Proof.
  intros Hwf Hcov Hin.
  assert (Ht : wfNet t).
  { eapply Forall_forall in Hwf; [exact Hwf|]. apply list_elem_of_In. exact Hin. }
  pose proof (netLo_nonneg t Ht) as H0. pose proof (netHi_bound t Ht) as H1.
  pose proof (netLo_le_hi t Ht) as Hlh.
  set (xl := mkIP (ipFam (netIP t)) (netLo t)).
  set (xh := mkIP (ipFam (netIP t)) (netHi t)).
  assert (Hxl : validIP xl) by (unfold validIP, xl; simpl; lia).
  assert (Hxh : validIP xh) by (unfold validIP, xh; simpl; lia).
  assert (Hcl : inRange ir xl).
  { apply (Hcov xl Hxl). exists t. split; [exact Hin|].
    apply (Contains_iff t xl Ht Hxl). simpl. split; [reflexivity | lia]. }
  assert (Hch : inRange ir xh).
  { apply (Hcov xh Hxh). exists t. split; [exact Hin|].
    apply (Contains_iff t xh Ht Hxh). simpl. split; [reflexivity | lia]. }
  destruct Hcl as [Hf Hl]. destruct Hch as [_ Hh]. simpl in *.
  repeat split; try assumption; try apply Ht; lia.
Qed.

(** The chain of a range is no longer than any cover of the range by
    networks. *)
Lemma chain_minimal (ir : IPRange) (l S : list IPNet) :
  wfRange ir ->
  Forall (blockOf (ipFam (start ir))) l ->
  greedyChain (ipVal (start ir)) (ipVal (end_ ir)) l ->
  Forall wfNet S ->
  (forall x, validIP x -> (inSomeNet S x <-> inRange ir x)) ->
  (length l <= length S)%nat.
Proof.
  intros Hir Hb Hc HS Hcov.
  destruct (wfRange_inv ir Hir) as (Hs & He & Hf & Hle).
  destruct (blockOf_wf _ l Hb) as [Hwf Hw].
  apply (greedyChain_count _ _ l S Hwf Hc).
  intros g Hg.
  assert (Hgb : blockOf (ipFam (start ir)) g).
  { eapply Forall_forall in Hb; [exact Hb|]. apply list_elem_of_In. exact Hg. }
  destruct Hgb as [Hgwf Hgf].
  destruct (greedyChain_bounds _ _ l Hwf Hc) as [_ Hall].
  specialize (Hall g Hg).
  pose proof (netLo_le_hi g Hgwf) as Hglh.
  set (x := mkIP (ipFam (start ir)) (netLo g)).
  assert (Hx : validIP x).
  { unfold validIP, x. simpl. destruct Hs as [Hs0 _]. destruct He as [_ He1].
    rewrite Hf. split; lia. }
  assert (Hxr : inRange ir x) by (unfold inRange, x; simpl; split; [reflexivity | lia]).
  apply (Hcov x Hx) in Hxr. destruct Hxr as (t & Ht & Hct).
  destruct (cover_inside ir S t HS Hcov Ht) as (Htwf & Htf & Htl & Hth).
  apply (Contains_iff t x Htwf Hx) in Hct. destruct Hct as [_ Hct]. simpl in Hct.
  exists t. split; [exact Ht|]. split; [apply netLo_le_hi, Htwf|].
  destruct (Z_le_gt_dec (hostBits g) (hostBits t)) as [Hk|Hk].
  - destruct (nets_nested g t (netLo g) Hgwf Htwf ltac:(lia) Hct Hk) as [Hl Hh].
    assert (Htw : maskBits (netMask t) = bitLen (ipFam (start ir))).
    { destruct Htwf as (_ & Hm & _). rewrite Hm, Htf. reflexivity. }
    destruct (greedyChain_maximal (bitLen (ipFam (start ir))) (ipVal (start ir))
                (ipVal (start ir)) (ipVal (end_ ir)) l Hwf Hw Hc
                ltac:(intros; lia) g t Hg Htwf Htw Htl Hth Hl Hh) as [E1 E2].
    lia.
  - destruct (nets_nested t g (netLo g) Htwf Hgwf Hct ltac:(lia) ltac:(lia)) as [Hl Hh].
    lia.
Qed.

(** C2. For every range with [start <= end] and both ends in one family,
    [splitIPRangeToIPBlocks] returns blocks that are pairwise disjoint, whose
    union is exactly the interval of the range, that form the greedy chain
    (each block anchored at the current start address, as large as the
    alignment of that address allows without passing [end]), and that are no
    more than the networks of any list whose union is exactly the interval. *)
Theorem splitIPRangeToIPBlocks_greedy_minimal (ir : IPRange) :
  wfRange ir ->
  exists blocks,
    splitIPRangeToIPBlocks (splitFuel ir) ir = Some blocks
    /\ Forall (blockOf (ipFam (start ir))) blocks
    /\ pairwiseDisjoint blocks
    /\ (forall x, validIP x -> (inSomeNet blocks x <-> inRange ir x))
    /\ greedyChain (ipVal (start ir)) (ipVal (end_ ir)) blocks
    /\ (forall S : list IPNet,
          Forall wfNet S ->
          (forall x, validIP x -> (inSomeNet S x <-> inRange ir x)) ->
          (length blocks <= length S)%nat).
Proof.
  intros Hir. destruct (wfRange_inv ir Hir) as (Hs & He & Hf & Hle).
  destruct (splitLoop_spec (splitFuel ir) (start ir) (end_ ir) Hs He Hf Hle
              ltac:(unfold splitFuel; lia)) as (blocks & Hsp & Hb & Hc).
  exists blocks. split; [exact Hsp|]. split; [exact Hb|].
  split; [exact (chain_pairwiseDisjoint _ _ _ _ Hb Hc)|].
  split; [intros x Hx; exact (chain_union _ _ _ x Hb Hc Hx)|].
  split; [exact Hc|].
  intros S HS Hcov. exact (chain_minimal ir blocks S Hir Hb Hc HS Hcov).
Qed.

Lemma splitIPRangeToIPBlocks_greedy_minimal_witness :
  let ir := mkIPRange (v4 10 0 0 0) (v4 10 0 0 9) in
  exists blocks,
    splitIPRangeToIPBlocks (splitFuel ir) ir = Some blocks
    /\ Forall (blockOf (ipFam (start ir))) blocks
    /\ pairwiseDisjoint blocks
    /\ (forall x, validIP x -> (inSomeNet blocks x <-> inRange ir x))
    /\ greedyChain (ipVal (start ir)) (ipVal (end_ ir)) blocks
    /\ (forall S : list IPNet,
          Forall wfNet S ->
          (forall x, validIP x -> (inSomeNet S x <-> inRange ir x)) ->
          (length blocks <= length S)%nat).
Proof.
  intros ir. apply (splitIPRangeToIPBlocks_greedy_minimal ir).
  unfold ir. split; [unfold validIP; simpl; lia|].
  split; [unfold validIP; simpl; lia|]. split; [reflexivity|].
  apply Cmp_le. simpl. lia.
Defined.


(** C10. On a range with [start <= end] and both ends in one family every
    call of [findTheFirstLargestCidr] from a start address inside the range
    returns a block whose last address does not pass [end] and, unless that
    last address is [end], a next start strictly above the current one and
    not above [end]; with enough fuel (one round per address of the range)
    the loop of [splitIPRangeToIPBlocks] returns, and more fuel gives the same
    blocks. The loop only stops on a block whose last address is [end]: with
    the two ends of a range of more than one address swapped it never
    returns. *)
Theorem splitIPRangeToIPBlocks_terminates (ir : IPRange) :
  wfRange ir ->
  (forall c, validIP c -> ipFam c = ipFam (start ir) ->
     ipVal (start ir) <= ipVal c <= ipVal (end_ ir) ->
     exists b next hi,
       findTheFirstLargestCidr c (end_ ir) = Some (b, next)
       /\ LastIP b = Some hi
       /\ ipVal c <= ipVal hi <= ipVal (end_ ir)
       /\ match next with
          | None => hi = end_ ir
          | Some n => n = NextIP hi /\ validIP n /\ ipFam n = ipFam (end_ ir)
                      /\ ipVal c < ipVal n <= ipVal (end_ ir)
          end)
  /\ (exists blocks, forall fuel, (splitFuel ir <= fuel)%nat ->
        splitIPRangeToIPBlocks fuel ir = Some blocks)
  /\ (forall fuel blocks, splitIPRangeToIPBlocks fuel ir = Some blocks ->
        exists b, last blocks = Some b /\ LastIP b = Some (end_ ir))
  /\ (ipVal (start ir) < ipVal (end_ ir) ->
      forall fuel, splitIPRangeToIPBlocks fuel (mkIPRange (end_ ir) (start ir)) = None).
Proof.
  intros Hir. destruct (wfRange_inv ir Hir) as (Hs & He & Hf & Hle).
  split; [|split; [|split]].
  - intros c Hc Hcf Hcr.
    destruct (findTheFirstLargestCidr_spec c (end_ ir) Hc He ltac:(congruence) ltac:(lia))
      as (p & Hp & Hfind & Hlo & Hhi & _).
    pose proof (prefixNet_wf c p Hc Hp) as Hwf.
    pose proof (netLo_le_hi _ Hwf) as Hlh.
    exists (prefixNet c p).
    exists (if netHi (prefixNet c p) =? ipVal (end_ ir) then None
            else Some (mkIP (ipFam c) (netHi (prefixNet c p) + 1))).
    exists (mkIP (ipFam c) (netHi (prefixNet c p))).
    split; [exact Hfind|]. split; [exact (LastIP_wf _ Hwf)|].
    split; [simpl; lia|].
    destruct (netHi (prefixNet c p) =? ipVal (end_ ir)) eqn:Heq.
    + apply Z.eqb_eq in Heq. destruct (end_ ir) as [fe ve]. simpl in *.
      f_equal; congruence.
    + apply Z.eqb_neq in Heq. split; [reflexivity|].
      split; [|split; [simpl; congruence | simpl; lia]].
      unfold validIP. simpl. destruct Hc as [Hc0 _]. destruct He as [_ He1].
      replace (ipFam c) with (ipFam (end_ ir)) by congruence. lia.
  - destruct (splitLoop_spec (splitFuel ir) (start ir) (end_ ir) Hs He Hf Hle
                ltac:(unfold splitFuel; lia)) as (blocks & Hsp & _).
    exists blocks. intros fuel Hfuel.
    exact (splitLoop_fuel_mono _ _ _ _ _ Hsp Hfuel).
  - intros fuel blocks Hsp. exact (splitLoop_stops_at_end _ _ _ _ Hsp).
  - intros Hlt fuel. unfold splitIPRangeToIPBlocks. simpl.
    apply splitLoop_diverges; [exact Hs | congruence | exact Hlt].
Qed.

Lemma splitIPRangeToIPBlocks_terminates_witness :
  let ir := mkIPRange (v4 10 0 0 21) (v4 10 0 0 253) in
  (exists blocks, forall fuel, (splitFuel ir <= fuel)%nat ->
      splitIPRangeToIPBlocks fuel ir = Some blocks)
  /\ (forall fuel, splitIPRangeToIPBlocks fuel (mkIPRange (end_ ir) (start ir)) = None).
Proof.
  intros ir.
  assert (Hir : wfRange ir).
  { unfold ir. split; [unfold validIP; simpl; lia|].
    split; [unfold validIP; simpl; lia|]. split; [reflexivity|].
    apply Cmp_le. simpl. lia. }
  destruct (splitIPRangeToIPBlocks_terminates ir Hir) as (_ & Hterm & _ & Hdiv).
  split; [exact Hterm|]. apply Hdiv. simpl. lia.
Defined.

(** C4. On a range with [start <= end], [TryAddIP] succeeds and moves
    [start] down by one when given the address just before [start], succeeds
    and moves [end] up by one when given the address just after [end],
    succeeds and leaves the range as it is when given an address of the
    range, and fails leaving the range as it is for every other address. On
    the range from 10 to 20: 9 yields 9 to 20, 21 yields 10 to 21, 15
    succeeds with the range unchanged, 25 fails. *)
Theorem TryAddIP_cases (ir : IPRange) (ipAddr : IP) :
  Cmp (start ir) (end_ ir) <= 0 ->
  (ipAddr = PrevIP (start ir) ->
     TryAddIP ir ipAddr = (mkIPRange (PrevIP (start ir)) (end_ ir), true))
  /\ (ipAddr = NextIP (end_ ir) ->
     TryAddIP ir ipAddr = (mkIPRange (start ir) (NextIP (end_ ir)), true))
  /\ (Cmp (start ir) ipAddr <= 0 /\ Cmp ipAddr (end_ ir) <= 0 ->
     TryAddIP ir ipAddr = (ir, true))
  /\ (ipAddr <> PrevIP (start ir) -> ipAddr <> NextIP (end_ ir) ->
      ~ (Cmp (start ir) ipAddr <= 0 /\ Cmp ipAddr (end_ ir) <= 0) ->
     TryAddIP ir ipAddr = (ir, false))
  /\ (let r := mkIPRange (mkIP V4 10) (mkIP V4 20) in
      TryAddIP r (mkIP V4 9) = (mkIPRange (mkIP V4 9) (mkIP V4 20), true)
      /\ TryAddIP r (mkIP V4 21) = (mkIPRange (mkIP V4 10) (mkIP V4 21), true)
      /\ TryAddIP r (mkIP V4 15) = (r, true)
      /\ TryAddIP r (mkIP V4 25) = (r, false)).
Proof.
  intros Hle. apply Cmp_le in Hle.
  unfold TryAddIP.
  split; [|split; [|split; [|split]]].
  - intros ->. replace (Equal _ _) with true by (symmetry; apply Equal_eq; reflexivity).
    reflexivity.
  - intros ->.
    replace (Equal (NextIP (end_ ir)) (PrevIP (start ir))) with false.
    2:{ symmetry. apply Equal_neq. intros H. injection H as _ H. lia. }
    replace (Equal _ _) with true by (symmetry; apply Equal_eq; reflexivity).
    reflexivity.
  - intros [H1 H2]. apply Cmp_le in H1, H2.
    replace (Equal ipAddr (PrevIP (start ir))) with false.
    2:{ symmetry. apply Equal_neq. intros ->. simpl in *. lia. }
    replace (Equal ipAddr (NextIP (end_ ir))) with false.
    2:{ symmetry. apply Equal_neq. intros ->. simpl in *. lia. }
    replace (Cmp ipAddr (start ir) >=? 0) with true.
    2:{ symmetry. apply Z.geb_le. pose proof (proj2 (Cmp_ge ipAddr (start ir)) H1). lia. }
    replace (Cmp ipAddr (end_ ir) <=? 0) with true.
    2:{ symmetry. apply Z.leb_le. apply Cmp_le. exact H2. }
    reflexivity.
  - intros Hp Hn Hout.
    replace (Equal ipAddr (PrevIP (start ir))) with false
      by (symmetry; apply Equal_neq; exact Hp).
    replace (Equal ipAddr (NextIP (end_ ir))) with false
      by (symmetry; apply Equal_neq; exact Hn).
    destruct ((Cmp ipAddr (start ir) >=? 0) && (Cmp ipAddr (end_ ir) <=? 0)) eqn:Hin;
      [|reflexivity].
    exfalso. apply Hout. apply andb_true_iff in Hin. destruct Hin as [H1 H2].
    apply Z.geb_le in H1. apply Z.leb_le in H2.
    split; [|exact H2]. apply Cmp_le. apply Cmp_ge. lia.
  - repeat split.
Qed.

Lemma TryAddIP_cases_witness :
  let r := mkIPRange (mkIP V4 10) (mkIP V4 20) in
  TryAddIP r (PrevIP (start r)) = (mkIPRange (mkIP V4 9) (mkIP V4 20), true)
  /\ TryAddIP r (NextIP (end_ r)) = (mkIPRange (mkIP V4 10) (mkIP V4 21), true).
Proof.
  intros r.
  assert (Hle : Cmp (start r) (end_ r) <= 0) by (apply Cmp_le; simpl; lia).
  split.
  - exact (proj1 (TryAddIP_cases r (PrevIP (start r)) Hle) eq_refl).
  - exact (proj1 (proj2 (TryAddIP_cases r (NextIP (end_ r)) Hle)) eq_refl).
Defined.

End CalculatorClaims.

(** ** Sorting the included ranges *)

Section Sorting.

Context {A : Type} (less : A -> A -> bool).

Lemma insertSlice_Permutation (x : A) (l : list A) :
  Permutation (insertSlice less x l) (x :: l).
Proof.
  induction l as [|y l IH]; simpl; [reflexivity|].
  destruct (less x y); [reflexivity|].
  rewrite IH. apply perm_swap.
Qed.

Lemma sortSlice_Permutation (l : list A) : Permutation (sortSlice less l) l.
Proof.
  induction l as [|x l IH]; simpl; [reflexivity|].
  rewrite insertSlice_Permutation. constructor. exact IH.
Qed.

End Sorting.

Section SortedByStart.

Lemma lessByStart_false (a b : IPRange) : lessByStart a b = false -> startLe b a.
Proof.
  unfold lessByStart, startLe. intros H. apply Z.ltb_ge in H.
  pose proof (proj1 (Cmp_ge a.(start) b.(start))). lia.
Qed.

Lemma lessByStart_true (a b : IPRange) : lessByStart a b = true -> startLe a b.
Proof.
  unfold lessByStart, startLe. intros H. apply Z.ltb_lt in H.
  apply Cmp_lt in H. lia.
Qed.

Lemma insertSlice_sorted (x : IPRange) (l : list IPRange) :
  StronglySorted startLe l -> StronglySorted startLe (insertSlice lessByStart x l).
Proof.
  induction l as [|y l IH]; intros Hs; simpl.
  - repeat constructor.
  - apply StronglySorted_inv in Hs as [Hl Hy].
    destruct (lessByStart x y) eqn:Hxy.
    + constructor; [constructor; assumption|].
      apply lessByStart_true in Hxy.
      constructor; [exact Hxy|].
      eapply Forall_impl; [exact Hy|]. unfold startLe in *. intros; lia.
    + constructor; [apply IH; exact Hl|].
      rewrite insertSlice_Permutation.
      constructor; [apply lessByStart_false; exact Hxy | exact Hy].
Qed.

Lemma sortSlice_sorted (l : list IPRange) :
  StronglySorted startLe (sortSlice lessByStart l).
Proof.
  induction l as [|x l IH]; simpl; [constructor|].
  apply insertSlice_sorted, IH.
Qed.

End SortedByStart.

(** ** The first loop: the complement of the included ranges *)

Section Complement.

Lemma Cmp_gtb (a b : IP) : (Cmp a b >? 0) = (ipVal b <? ipVal a).
Proof.
  unfold Cmp. destruct (Z.compare_spec (ipVal a) (ipVal b)) as [H|H|H]; cbv iota.
  - symmetry. apply Z.ltb_ge. lia.
  - symmetry. apply Z.ltb_ge. lia.
  - symmetry. apply Z.ltb_lt. lia.
Qed.

Lemma Cmp_ltb (a b : IP) : (Cmp a b <? 0) = (ipVal a <? ipVal b).
Proof.
  unfold Cmp. destruct (Z.compare_spec (ipVal a) (ipVal b)) as [H|H|H]; cbv iota.
  - symmetry. apply Z.ltb_ge. lia.
  - symmetry. apply Z.ltb_lt. lia.
  - symmetry. apply Z.ltb_ge. lia.
Qed.

Lemma Cmp_geb (a b : IP) : (Cmp a b >=? 0) = (ipVal b <=? ipVal a).
Proof.
  unfold Cmp. destruct (Z.compare_spec (ipVal a) (ipVal b)) as [H|H|H]; cbv iota.
  - symmetry. apply Z.leb_le. lia.
  - symmetry. apply Z.leb_gt. lia.
  - symmetry. apply Z.leb_le. lia.
Qed.

Lemma Cmp_leb (a b : IP) : (Cmp a b <=? 0) = (ipVal a <=? ipVal b).
Proof.
  unfold Cmp. destruct (Z.compare_spec (ipVal a) (ipVal b)) as [H|H|H]; cbv iota.
  - symmetry. apply Z.leb_le. lia.
  - symmetry. apply Z.leb_le. lia.
  - symmetry. apply Z.leb_gt. lia.
Qed.

Lemma CreateIPRange_Some (s e : IP) :
  CreateIPRange (Some s) (Some e) =
  Ok (if ipVal e <? ipVal s then None else Some (mkIPRange s e)).
Proof.
  unfold CreateIPRange. rewrite Cmp_gtb. destruct (ipVal e <? ipVal s); reflexivity.
Qed.

(** One round of the loop. *)
Lemma complementLoop_cons (cs ce : IP) (isFirst : bool) (cur : IPRange)
    (rest acc : list IPRange) :
  complementLoop cs ce isFirst (cur :: rest) acc =
  if (ipVal (start cur) <? ipVal cs) || (ipVal ce <? ipVal (end_ cur))
  then Err ErrOutOfCidr
  else if match rest with
          | next :: _ => ipVal (start next) <=? ipVal (end_ cur)
          | [] => false
          end
  then Err ErrOverlapped
  else
    complementLoop cs ce false rest
      ((acc ++ (if isFirst then gapBefore cs cur else []))
       ++ (let hi := match rest with [] => ce | next :: _ => PrevIP (start next) end in
           if ipVal hi <? ipVal (NextIP (end_ cur)) then []
           else [mkIPRange (NextIP (end_ cur)) hi])).
Proof.
  assert (Hg : forall o : bool,
             (acc ++ (if isFirst then gapBefore cs cur else [])) =
             match (if isFirst
                    then (if ipVal (PrevIP (start cur)) <? ipVal cs
                          then None else Some (mkIPRange cs (PrevIP (start cur))))
                    else None) with
             | Some r => acc ++ [r]
             | None => acc
             end).
  { intros _. unfold gapBefore. rewrite Cmp_gtb. destruct isFirst; [|apply app_nil_r].
    destruct (_ <? _); [apply app_nil_r | reflexivity]. }
  specialize (Hg true).
  cbn [complementLoop]. rewrite Cmp_ltb, Cmp_gtb.
  destruct (_ || _); [reflexivity|].
  destruct rest as [|next rest'].
  - rewrite Hg, !CreateIPRange_Some.
    destruct isFirst; [destruct (ipVal (PrevIP (start cur)) <? ipVal cs)|];
      destruct (ipVal ce <? ipVal (NextIP (end_ cur))); rewrite ?app_nil_r; reflexivity.
  - rewrite Cmp_geb.
    destruct (ipVal (start next) <=? ipVal (end_ cur)); [reflexivity|].
    rewrite Hg, !CreateIPRange_Some.
    destruct isFirst; [destruct (ipVal (PrevIP (start cur)) <? ipVal cs)|];
      destruct (ipVal (PrevIP (start next)) <? ipVal (NextIP (end_ cur)));
      rewrite ?app_nil_r; reflexivity.
Qed.

Lemma gapsAfter_cons (cur : IPRange) (rest : list IPRange) (ce : IP) :
  gapsAfter cur rest ce =
  (let hi := match rest with [] => ce | next :: _ => PrevIP (start next) end in
   if ipVal hi <? ipVal (NextIP (end_ cur)) then []
   else [mkIPRange (NextIP (end_ cur)) hi])
  ++ match rest with
     | [] => []
     | next :: rest' => gapsAfter next rest' ce
     end.
Proof. destruct rest; cbn [gapsAfter]; rewrite Cmp_gtb; reflexivity. Qed.

(** The loop passes exactly when every range keeps between the two bounds and
    ends before the next one starts; it then returns the gaps. *)
Lemma complementLoop_false_ok (cs ce : IP) (cur : IPRange) (rest acc : list IPRange) :
  Forall (between (ipVal cs) (ipVal ce)) (cur :: rest) ->
  consecutiveOk (cur :: rest) ->
  complementLoop cs ce false (cur :: rest) acc = Ok (acc ++ gapsAfter cur rest ce).
Proof.
  revert cur acc. induction rest as [|next rest IH]; intros cur acc Hb Hc.
  - apply Forall_cons in Hb as [[Hb1 Hb2] _].
    rewrite complementLoop_cons, gapsAfter_cons.
    replace (ipVal (start cur) <? ipVal cs) with false by (symmetry; apply Z.ltb_ge; lia).
    replace (ipVal ce <? ipVal (end_ cur)) with false by (symmetry; apply Z.ltb_ge; lia).
    cbn [orb complementLoop]. rewrite !app_nil_r. reflexivity.
  - apply Forall_cons in Hb as [[Hb1 Hb2] Hrest].
    destruct Hc as [Hlt Hc].
    rewrite complementLoop_cons, gapsAfter_cons.
    replace (ipVal (start cur) <? ipVal cs) with false by (symmetry; apply Z.ltb_ge; lia).
    replace (ipVal ce <? ipVal (end_ cur)) with false by (symmetry; apply Z.ltb_ge; lia).
    replace (ipVal (start next) <=? ipVal (end_ cur)) with false
      by (symmetry; apply Z.leb_gt; lia).
    cbn [orb]. rewrite (IH next _ Hrest Hc). rewrite app_nil_r, <- app_assoc.
    reflexivity.
Qed.

Lemma complementLoop_true_ok (cs ce : IP) (cur : IPRange) (rest : list IPRange) :
  Forall (between (ipVal cs) (ipVal ce)) (cur :: rest) ->
  consecutiveOk (cur :: rest) ->
  complementLoop cs ce true (cur :: rest) [] =
  Ok (gapBefore cs cur ++ gapsAfter cur rest ce).
Proof.
  intros Hb Hc.
  pose proof (complementLoop_false_ok cs ce cur rest (gapBefore cs cur) Hb Hc) as Hf.
  rewrite complementLoop_cons in *.
  destruct (_ || _); [discriminate|].
  destruct (match rest with [] => false | _ => _ end); [discriminate|].
  rewrite app_nil_r in Hf. exact Hf.
Qed.

(** A result without error means that the checks passed. *)
Lemma complementLoop_ok_inv (cs ce : IP) (isFirst : bool) (ranges acc res : list IPRange) :
  complementLoop cs ce isFirst ranges acc = Ok res ->
  Forall (between (ipVal cs) (ipVal ce)) ranges /\ consecutiveOk ranges.
Proof.
  revert isFirst acc. induction ranges as [|cur rest IH]; intros isFirst acc H.
  - split; [constructor | exact I].
  - rewrite complementLoop_cons in H.
    destruct (ipVal (start cur) <? ipVal cs) eqn:H1; [discriminate|].
    destruct (ipVal ce <? ipVal (end_ cur)) eqn:H2; [discriminate|].
    apply Z.ltb_ge in H1, H2. cbn [orb] in H.
    destruct (match rest with [] => false | next :: _ => _ end) eqn:H3; [discriminate|].
    apply IH in H. destruct H as [Hb Hc].
    split; [constructor; [split; lia | exact Hb]|].
    destruct rest as [|next rest']; [exact I|].
    apply Z.leb_gt in H3. split; [lia | exact Hc].
Qed.

End Complement.

(** ** The gaps between the included ranges *)

Section Gaps.

Lemma consecutiveOk_later (r : IPRange) (l : list IPRange) :
  consecutiveOk (r :: l) ->
  Forall (fun r' => ipVal (start r') <= ipVal (end_ r')) (r :: l) ->
  Forall (fun r' => ipVal (end_ r) < ipVal (start r')) l.
Proof.
  revert r. induction l as [|n l IH]; intros r Hc Hw; [constructor|].
  destruct Hc as [Hlt Hc].
  apply Forall_cons in Hw as [Hr Hw]. pose proof Hw as Hw'.
  apply Forall_cons in Hw' as [Hn _].
  constructor; [exact Hlt|].
  eapply Forall_impl; [exact (IH n Hc Hw)|]. cbn. intros; lia.
Qed.

Lemma consecutiveOk_tail (r : IPRange) (l : list IPRange) :
  consecutiveOk (r :: l) -> consecutiveOk l.
Proof. destruct l; [intros; exact I | intros [_ H]; exact H]. Qed.

Lemma rangeOf_le (cidr : IPNet) (l : list IPRange) :
  Forall (rangeOf cidr) l ->
  Forall (fun r' => ipVal (start r') <= ipVal (end_ r')) l.
Proof.
  intros H. eapply Forall_impl; [exact H|]. intros r [Hr _].
  apply wfRange_inv in Hr. tauto.
Qed.

Section WithCidr.

Context (cidr : IPNet) (ce : IP).
Hypothesis Hce : validIP ce.
Hypothesis Hcef : ipFam ce = ipFam (netIP cidr).

Lemma gapsAfter_props (cur : IPRange) (rest : list IPRange) :
  Forall (rangeOf cidr) (cur :: rest) ->
  consecutiveOk (cur :: rest) ->
  Forall (between 0 (ipVal ce)) (cur :: rest) ->
  Forall (rangeOf cidr) (gapsAfter cur rest ce)
  /\ Forall (fun g => ipVal (end_ cur) < ipVal (start g) /\ ipVal (end_ g) <= ipVal ce)
            (gapsAfter cur rest ce)
  /\ StronglySorted apart (gapsAfter cur rest ce)
  /\ (forall x, ipVal (end_ cur) < x <= ipVal ce ->
        ((exists g, In g (gapsAfter cur rest ce) /\ valIn g x)
         <-> ~ (exists r, In r rest /\ valIn r x))).
Proof.
  revert cur. induction rest as [|next rest IH]; intros cur Hr Hc Hb.
  - rewrite gapsAfter_cons. cbn zeta. rewrite app_nil_r.
    apply Forall_cons in Hr as [[Hcur Hcurf] _].
    apply Forall_cons in Hb as [[Hb0 Hb1] _].
    destruct (wfRange_inv cur Hcur) as (Hs & He & Hf & Hle).
    destruct (ipVal ce <? ipVal (NextIP (end_ cur))) eqn:Hgap.
    + apply Z.ltb_lt in Hgap. simpl in Hgap.
      split; [constructor|]. split; [constructor|]. split; [constructor|].
      intros x Hx. lia.
    + apply Z.ltb_ge in Hgap. simpl in Hgap.
      split.
      { constructor; [|constructor]. split; [|simpl; congruence].
        split; [unfold validIP; simpl; destruct He as [He0 _]; destruct Hce as [_ Hce1];
                replace (ipFam (end_ cur)) with (ipFam ce) by congruence; lia|].
        split; [exact Hce|]. split; [simpl; congruence|].
        apply Cmp_le. simpl. lia. }
      split; [constructor; [simpl; lia | constructor]|].
      split; [repeat constructor|].
      intros x Hx. split.
      * intros _ (r & [] & _).
      * intros _. eexists. split; [left; reflexivity|]. unfold valIn. simpl. lia.
  - rewrite gapsAfter_cons. cbn zeta.
    pose proof (consecutiveOk_later cur (next :: rest) Hc (rangeOf_le cidr _ Hr)) as Hlater.
    pose proof (consecutiveOk_later next rest (consecutiveOk_tail _ _ Hc)
                  (rangeOf_le cidr _ (Forall_inv_tail Hr))) as Hlater'.
    apply Forall_cons in Hr as [[Hcur Hcurf] Hr].
    apply Forall_cons in Hb as [[Hb0 Hb1] Hb].
    destruct Hc as [Hlt Hc].
    destruct (IH next Hr Hc Hb) as (IHwf & IHbd & IHs & IHcov).
    pose proof Hr as Hr'. apply Forall_cons in Hr' as [[Hnext Hnextf] _].
    pose proof Hb as Hb'. apply Forall_cons in Hb' as [[Hnb0 Hnb1] _].
    destruct (wfRange_inv cur Hcur) as (Hs & He & Hf & Hle).
    destruct (wfRange_inv next Hnext) as (Hns & Hne & Hnf & Hnle).
    assert (Hbd' : Forall (fun g => ipVal (end_ cur) < ipVal (start g)
                                    /\ ipVal (end_ g) <= ipVal ce)
                          (gapsAfter next rest ce)).
    { eapply Forall_impl; [exact IHbd|]. cbn. intros g [H1 H2]. lia. }
    destruct (ipVal (PrevIP (start next)) <? ipVal (NextIP (end_ cur))) eqn:Hgap.
    + apply Z.ltb_lt in Hgap. simpl in Hgap. simpl app.
      split; [exact IHwf|]. split; [exact Hbd'|]. split; [exact IHs|].
      intros x Hx.
      destruct (Z_le_gt_dec x (ipVal (end_ next))) as [Hxn|Hxn].
      * split.
        -- intros (g & Hg & Hgx). eapply Forall_forall in IHbd;
             [|apply list_elem_of_In; exact Hg]. unfold valIn in Hgx. cbn in IHbd. lia.
        -- intros Hno. exfalso. apply Hno. exists next. split; [left; reflexivity|].
           unfold valIn. lia.
      * rewrite (IHcov x ltac:(lia)). split.
        -- intros Hno (r & [<-|Hin] & Hrx); [unfold valIn in Hrx; lia|].
           apply Hno. exists r. auto.
        -- intros Hno (r & Hin & Hrx). apply Hno. exists r. split; [right; exact Hin | exact Hrx].
    + apply Z.ltb_ge in Hgap. simpl in Hgap. simpl app.
      set (gap := mkIPRange (NextIP (end_ cur)) (PrevIP (start next))).
      assert (Hgwf : rangeOf cidr gap).
      { split; [|simpl; congruence].
        split; [unfold validIP; simpl; destruct He as [He0 _]; destruct Hns as [_ Hns1];
                replace (ipFam (end_ cur)) with (ipFam (start next)) by congruence; lia|].
        split; [unfold validIP; simpl; destruct He as [He0 _]; destruct Hns as [_ Hns1]; lia|].
        split; [simpl; congruence|].
        apply Cmp_le. simpl. lia. }
      split; [constructor; assumption|].
      split; [constructor; [simpl; lia | exact Hbd']|].
      split.
      { constructor; [exact IHs|].
        eapply Forall_impl; [exact IHbd|]. unfold apart. cbn. intros g [H1 H2]. lia. }
      intros x Hx.
      destruct (Z_lt_le_dec x (ipVal (start next))) as [Hx1|Hx1].
      * split.
        -- intros _ (r & [<-|Hin] & Hrx); [unfold valIn in Hrx; lia|].
           eapply Forall_forall in Hlater'; [|apply list_elem_of_In; exact Hin].
           unfold valIn in Hrx. cbn in Hlater'. lia.
        -- intros _. exists gap. split; [left; reflexivity|]. unfold valIn, gap. simpl. lia.
      * destruct (Z_le_gt_dec x (ipVal (end_ next))) as [Hxn|Hxn].
        -- split.
           ++ intros (g & [<-|Hg] & Hgx); [unfold valIn, gap in Hgx; simpl in Hgx; lia|].
              eapply Forall_forall in IHbd; [|apply list_elem_of_In; exact Hg].
              unfold valIn in Hgx. cbn in IHbd. lia.
           ++ intros Hno. exfalso. apply Hno. exists next. split; [left; reflexivity|].
              unfold valIn. lia.
        -- split.
           ++ intros (g & [<-|Hg] & Hgx); [unfold valIn, gap in Hgx; simpl in Hgx; lia|].
              assert (Hex : exists g, In g (gapsAfter next rest ce) /\ valIn g x) by eauto.
              apply (IHcov x ltac:(lia)) in Hex.
              intros (r & [<-|Hin] & Hrx); [unfold valIn in Hrx; lia|].
              apply Hex. exists r. auto.
           ++ intros Hno.
              assert (Hno' : ~ (exists r, In r rest /\ valIn r x)).
              { intros (r & Hin & Hrx). apply Hno. exists r. split; [right; exact Hin | exact Hrx]. }
              apply (IHcov x ltac:(lia)) in Hno'. destruct Hno' as (g & Hg & Hgx).
              exists g. split; [right; exact Hg | exact Hgx].
Qed.

End WithCidr.

End Gaps.

(** ** Folding addresses into the exclusion ranges, and splitting them *)

Section Folding.

Lemma TryAddIP_inside (g : IPRange) (ip : IP) :
  valIn g (ipVal ip) -> TryAddIP g ip = (g, true).
Proof.
  intros [H1 H2]. unfold TryAddIP.
  replace (Equal ip (PrevIP (start g))) with false.
  2:{ symmetry. apply Equal_neq. intros ->. simpl in *. lia. }
  replace (Equal ip (NextIP (end_ g))) with false.
  2:{ symmetry. apply Equal_neq. intros ->. simpl in *. lia. }
  rewrite Cmp_geb, Cmp_leb.
  replace (ipVal (start g) <=? ipVal ip) with true by (symmetry; apply Z.leb_le; lia).
  replace (ipVal ip <=? ipVal (end_ g)) with true by (symmetry; apply Z.leb_le; lia).
  reflexivity.
Qed.

Lemma TryAddIP_far (g : IPRange) (ip : IP) :
  ipVal (start g) <= ipVal (end_ g) -> ipVal (end_ g) + 1 < ipVal ip ->
  TryAddIP g ip = (g, false).
Proof.
  intros Hle Hfar. unfold TryAddIP.
  replace (Equal ip (PrevIP (start g))) with false.
  2:{ symmetry. apply Equal_neq. intros ->. simpl in *. lia. }
  replace (Equal ip (NextIP (end_ g))) with false.
  2:{ symmetry. apply Equal_neq. intros ->. simpl in *. lia. }
  rewrite Cmp_geb, Cmp_leb.
  replace (ipVal ip <=? ipVal (end_ g)) with false by (symmetry; apply Z.leb_gt; lia).
  rewrite andb_false_r. reflexivity.
Qed.

(** An address of one of the ranges, which lie apart, changes none of them. *)
Lemma tryAddToRanges_inside (G : list IPRange) (ip : IP) :
  StronglySorted apart G ->
  Forall (fun g => ipVal (start g) <= ipVal (end_ g)) G ->
  (exists g, In g G /\ valIn g (ipVal ip)) ->
  tryAddToRanges G ip = Some G.
Proof.
  induction G as [|g0 G IH]; intros Hs Hw (g & Hin & Hg); [destruct Hin|].
  apply StronglySorted_inv in Hs as [Hs Hap].
  apply Forall_cons in Hw as [Hw0 Hw].
  cbn [tryAddToRanges].
  destruct Hin as [<-|Hin].
  - rewrite (TryAddIP_inside g0 ip Hg). reflexivity.
  - eapply Forall_forall in Hap; [|apply list_elem_of_In; exact Hin].
    unfold apart in Hap. destruct Hg as [Hg1 Hg2].
    rewrite (TryAddIP_far g0 ip Hw0 ltac:(lia)).
    rewrite (IH Hs Hw); [reflexivity|]. exists g. split; [exact Hin | split; assumption].
Qed.

Lemma foldExcludedIPs_inside (ips : list IP) (G : list IPRange) :
  StronglySorted apart G ->
  Forall (fun g => ipVal (start g) <= ipVal (end_ g)) G ->
  Forall (fun ip => exists g, In g G /\ valIn g (ipVal ip)) ips ->
  foldExcludedIPs ips G = Some (Ok G).
Proof.
  intros Hs Hw. induction ips as [|ip ips IH]; intros Hin; [reflexivity|].
  apply Forall_cons in Hin as [Hip Hin].
  cbn [foldExcludedIPs]. rewrite (tryAddToRanges_inside G ip Hs Hw Hip).
  exact (IH Hin).
Qed.

Lemma greedyChain_sorted (s e : Z) (l : list IPNet) :
  Forall wfNet l -> greedyChain s e l -> StronglySorted netBefore l.
Proof.
  revert s. induction l as [|b rest IH]; intros s Hwf Hc; [constructor|].
  apply Forall_cons in Hwf as [Hb Hrest].
  destruct Hc as (_ & Hlo & Hhi & _ & Hnext).
  destruct rest as [|b1 rest']; [repeat constructor|].
  destruct Hnext as [Hlt Hch].
  constructor; [exact (IH _ Hrest Hch)|].
  destruct (greedyChain_bounds _ _ _ Hrest Hch) as [_ Hall].
  apply Forall_forall. intros b' Hb'. apply list_elem_of_In in Hb'.
  specialize (Hall b' Hb'). unfold netBefore. lia.
Qed.

(** The blocks of ranges that lie one after the other. *)
Lemma splitAll_spec (cidr : IPNet) (fuel : nat) (G : list IPRange) :
  Forall (rangeOf cidr) G ->
  StronglySorted apart G ->
  Forall (fun g => (splitFuel g <= fuel)%nat) G ->
  exists blocks,
    splitAll fuel G = Some blocks
    /\ Forall (blockOf (ipFam (netIP cidr))) blocks
    /\ StronglySorted netBefore blocks
    /\ (forall x, (exists b, In b blocks /\ netLo b <= x <= netHi b)
                  <-> (exists g, In g G /\ valIn g x)).
Proof.
  induction G as [|g G IH]; intros Hr Hs Hfu.
  - exists []. split; [reflexivity|]. split; [constructor|]. split; [constructor|].
    intros x. split; intros (? & [] & _).
  - apply Forall_cons in Hr as [[Hg Hgf] Hr].
    apply StronglySorted_inv in Hs as [Hs Hap].
    apply Forall_cons in Hfu as [Hfu0 Hfu].
    destruct (IH Hr Hs Hfu) as (more & Hmore & Hmb & Hms & Hmcov).
    destruct (wfRange_inv g Hg) as (Hgs & Hge & Hgff & Hgle).
    destruct (splitLoop_spec (splitFuel g) (start g) (end_ g) Hgs Hge Hgff Hgle
                ltac:(unfold splitFuel; lia)) as (blocks & Hsp & Hb & Hc).
    pose proof (splitLoop_fuel_mono _ _ _ _ _ Hsp Hfu0) as Hsp'.
    rewrite Hgf in Hb.
    destruct (blockOf_wf _ blocks Hb) as [Hwf _].
    exists (blocks ++ more).
    split; [cbn [splitAll]; unfold splitIPRangeToIPBlocks; rewrite Hsp', Hmore; reflexivity|].
    split; [apply Forall_app; split; assumption|].
    split.
    + apply StronglySorted_app_2; [|exact (greedyChain_sorted _ _ _ Hwf Hc) | exact Hms].
      intros b1 b2 Hb1 Hb2. apply list_elem_of_In in Hb1, Hb2.
      destruct (greedyChain_bounds _ _ _ Hwf Hc) as [_ Hall].
      specialize (Hall b1 Hb1).
      destruct (proj1 (Hmcov (netLo b2))) as (g' & Hg' & Hgx).
      { exists b2. split; [exact Hb2|].
        assert (Hb2wf : wfNet b2).
        { eapply Forall_forall in Hmb; [|apply list_elem_of_In; exact Hb2]. apply Hmb. }
        pose proof (netLo_le_hi b2 Hb2wf). lia. }
      eapply Forall_forall in Hap; [|apply list_elem_of_In; exact Hg'].
      unfold apart in Hap. unfold valIn in Hgx. unfold netBefore. lia.
    + intros x. split.
      * intros (b & Hin & Hbx). apply in_app_iff in Hin. destruct Hin as [Hin|Hin].
        -- exists g. split; [left; reflexivity|]. unfold valIn.
           apply (greedyChain_cover _ _ blocks x Hwf Hc). exists b. auto.
        -- destruct (proj1 (Hmcov x)) as (g' & Hg' & Hgx); [exists b; auto|].
           exists g'. split; [right; exact Hg' | exact Hgx].
      * intros (g' & [<-|Hg'] & Hgx).
        -- apply (greedyChain_cover _ _ blocks x Hwf Hc) in Hgx.
           destruct Hgx as (b & Hin & Hbx). exists b. split; [|exact Hbx].
           apply in_app_iff. left. exact Hin.
        -- destruct (proj2 (Hmcov x)) as (b & Hin & Hbx); [exists g'; auto|].
           exists b. split; [|exact Hbx]. apply in_app_iff. right. exact Hin.
Qed.

(** Networks that lie one after the other share no address. *)
Lemma sorted_pairwiseDisjoint (f : Family) (l : list IPNet) :
  Forall (blockOf f) l -> StronglySorted netBefore l -> pairwiseDisjoint l.
Proof.
  intros Hb Hs.
  assert (Hord : forall i j a b, (i < j)%nat -> l !! i = Some a -> l !! j = Some b ->
                                 netBefore a b).
  { clear Hb. induction Hs as [|a0 l Hs IH Hall]; intros i j a b Hij Ha Hbj;
      [rewrite lookup_nil in Ha; discriminate|].
    destruct j as [|j]; [lia|]. simpl in Hbj.
    destruct i as [|i].
    - simpl in Ha. injection Ha as <-.
      eapply Forall_forall in Hall; [exact Hall|].
      eapply list_elem_of_lookup_2; exact Hbj.
    - simpl in Ha. apply (IH i j); [lia | assumption | assumption]. }
  intros i j a b x Hij Ha Hbj Hx Hca Hcb.
  destruct (blockOf_wf f l Hb) as [Hwf _].
  assert (Hawf : wfNet a).
  { eapply Forall_forall in Hwf; [exact Hwf|]. eapply list_elem_of_lookup_2; eauto. }
  assert (Hbwf : wfNet b).
  { eapply Forall_forall in Hwf; [exact Hwf|]. eapply list_elem_of_lookup_2; eauto. }
  apply (Contains_iff a x Hawf Hx) in Hca. apply (Contains_iff b x Hbwf Hx) in Hcb.
  destruct (Nat.lt_total i j) as [Hlt|[Heq|Hgt]]; [|contradiction|].
  - pose proof (Hord i j a b Hlt Ha Hbj) as H. unfold netBefore in H. lia.
  - pose proof (Hord j i b a Hgt Hbj Ha) as H. unfold netBefore in H. lia.
Qed.

End Folding.

(** ** [FindSubnetExcludeIPBlocks] as a whole *)

Section FindSubnetExcludeIPBlocks.

Lemma StronglySorted_lookup_lt {A} (R : A -> A -> Prop) (l : list A) :
  StronglySorted R l ->
  forall (i j : nat) (a b : A),
    (i < j)%nat -> l !! i = Some a -> l !! j = Some b -> R a b.
Proof.
  induction 1 as [|a0 l Hs IH Hall]; intros i j a b Hij Ha Hbj;
    [rewrite lookup_nil in Ha; discriminate|].
  destruct j as [|j]; [lia|]. simpl in Hbj.
  destruct i as [|i].
  - simpl in Ha. injection Ha as <-.
    eapply Forall_forall in Hall; [exact Hall|].
    eapply list_elem_of_lookup_2; exact Hbj.
  - simpl in Ha. apply (IH i j); [lia | assumption | assumption].
Qed.

Lemma overlap_sym (a b : IPRange) : overlap a b -> overlap b a.
Proof. intros (x & H1 & H2). exists x. auto. Qed.

Lemma someTwoOverlap_perm (l l' : list IPRange) :
  Permutation l l' -> someTwoOverlap l -> someTwoOverlap l'.
Proof.
  intros Hp (i & j & r1 & r2 & Hij & Hi & Hj & Ho).
  apply Permutation_inj in Hp as [_ (f & Hinj & Hf)].
  exists (f i), (f j), r1, r2.
  split; [intros E; apply Hij, Hinj, E|].
  rewrite <- !Hf. auto.
Qed.

Lemma someTwoOverlap_tail (r : IPRange) (l : list IPRange) :
  someTwoOverlap l -> someTwoOverlap (r :: l).
Proof.
  intros (i & j & r1 & r2 & Hij & Hi & Hj & Ho).
  exists (S i), (S j), r1, r2. split; [lia|]. auto.
Qed.

(** Among ranges sorted by start, no two overlap exactly when each ends
    before the next one starts. *)
Lemma sorted_consecutiveOk (l : list IPRange) :
  StronglySorted startLe l ->
  Forall (fun r => ipVal (start r) <= ipVal (end_ r)) l ->
  ~ someTwoOverlap l -> consecutiveOk l.
Proof.
  induction l as [|r l IH]; intros Hs Hw Hno; [exact I|].
  apply StronglySorted_inv in Hs as [Hs Hall].
  apply Forall_cons in Hw as [Hr Hw].
  destruct l as [|next l']; [exact I|].
  split.
  - destruct (Z_lt_le_dec (ipVal (end_ r)) (ipVal (start next))) as [?|Hge]; [assumption|].
    exfalso. apply Hno. exists 0%nat, 1%nat, r, next.
    split; [lia|]. split; [reflexivity|]. split; [reflexivity|].
    apply Forall_cons in Hall as [Hle _]. apply Forall_cons in Hw as [Hn _].
    unfold startLe in Hle. exists (ipVal (start next)). lia.
  - apply IH; [exact Hs | exact Hw |].
    intros Ho. apply Hno. apply someTwoOverlap_tail. exact Ho.
Qed.

Lemma consecutiveOk_sorted (l : list IPRange) :
  consecutiveOk l ->
  Forall (fun r => ipVal (start r) <= ipVal (end_ r)) l ->
  StronglySorted (fun a b => ipVal (end_ a) < ipVal (start b)) l.
Proof.
  induction l as [|r l IH]; intros Hc Hw; [constructor|].
  constructor.
  - apply IH; [exact (consecutiveOk_tail _ _ Hc) | exact (Forall_inv_tail Hw)].
  - exact (consecutiveOk_later r l Hc Hw).
Qed.

Lemma consecutiveOk_no_overlap (l : list IPRange) :
  consecutiveOk l ->
  Forall (fun r => ipVal (start r) <= ipVal (end_ r)) l ->
  ~ someTwoOverlap l.
Proof.
  intros Hc Hw (i & j & r1 & r2 & Hij & Hi & Hj & (x & H1 & H2)).
  pose proof (StronglySorted_lookup_lt _ l (consecutiveOk_sorted l Hc Hw)) as Hord.
  destruct (Nat.lt_total i j) as [Hlt|[Heq|Hgt]]; [|contradiction|].
  - pose proof (Hord i j r1 r2 Hlt Hi Hj). cbn in *. lia.
  - pose proof (Hord j i r2 r1 Hgt Hj Hi). cbn in *. lia.
Qed.

(** An error of the first loop names a range outside the bounds or two
    neighbours of which the first does not end before the second starts. *)
Lemma complementLoop_err_inv (cs ce : IP) (isFirst : bool) (ranges acc : list IPRange)
    (e : Error) :
  complementLoop cs ce isFirst ranges acc = Err e ->
  Exists (fun r => ipVal (start r) < ipVal cs \/ ipVal ce < ipVal (end_ r)) ranges
  \/ exists (k : nat) (r next : IPRange),
       ranges !! k = Some r /\ ranges !! S k = Some next
       /\ ipVal (start next) <= ipVal (end_ r).
Proof.
  revert isFirst acc. induction ranges as [|cur rest IH]; intros isFirst acc H;
    [discriminate|].
  rewrite complementLoop_cons in H.
  destruct (ipVal (start cur) <? ipVal cs) eqn:H1.
  { left. constructor. left. apply Z.ltb_lt. exact H1. }
  destruct (ipVal ce <? ipVal (end_ cur)) eqn:H2.
  { left. constructor. right. apply Z.ltb_lt. exact H2. }
  cbn [orb] in H.
  destruct rest as [|next rest'].
  - discriminate.
  - destruct (ipVal (start next) <=? ipVal (end_ cur)) eqn:H3.
    + right. exists 0%nat, cur, next. split; [reflexivity|]. split; [reflexivity|].
      apply Z.leb_le. exact H3.
    + apply IH in H. destruct H as [Hex|(k & r & n & Hk & Hk' & Hle)].
      * left. apply Exists_cons. right. exact Hex.
      * right. exists (S k), r, n. auto.
Qed.

Lemma foldExcludedIPs_no_error (ips : list IP) (G : list IPRange) (e : Error) :
  foldExcludedIPs ips G <> Some (Err e).
Proof.
  revert G. induction ips as [|ip ips IH]; intros G; [discriminate|].
  cbn [foldExcludedIPs]. destruct (tryAddToRanges G ip); [apply IH|].
  rewrite CreateIPRange_Some. rewrite Z.ltb_irrefl. apply IH.
Qed.

Lemma between_not_outside (cidr : IPNet) (cs ce : IP) (r : IPRange) :
  ipVal cs = netLo cidr -> ipVal ce = netHi cidr ->
  (between (ipVal cs) (ipVal ce) r <-> ~ outsideCidr cidr r).
Proof. intros -> ->. unfold between, outsideCidr. lia. Qed.

(** The first loop fails exactly on a range that starts below the lower
    bound or ends above the upper one, or on two ranges that share an
    address. *)
Lemma complementLoop_error_bounds (cs ce : IP) (includedRanges : list IPRange) :
  Forall (fun r => ipVal (start r) <= ipVal (end_ r)) includedRanges ->
  (exists e, complementLoop cs ce true (sortSlice lessByStart includedRanges) [] = Err e)
  <-> (Exists (fun r => ipVal (start r) < ipVal cs \/ ipVal ce < ipVal (end_ r))
              includedRanges
       \/ someTwoOverlap includedRanges).
Proof.
  intros Hw.
  pose proof (sortSlice_Permutation lessByStart includedRanges) as Hperm.
  assert (Hle : Forall (fun r => ipVal (start r) <= ipVal (end_ r))
                       (sortSlice lessByStart includedRanges))
    by (rewrite Hperm; exact Hw).
  split.
  - intros [e He]. apply complementLoop_err_inv in He.
    destruct He as [Hex|(k & r & next & Hk & Hk' & Hov)].
    + left. rewrite <- Hperm. exact Hex.
    + right. apply (someTwoOverlap_perm _ _ Hperm).
      exists k, (S k), r, next. split; [lia|]. split; [exact Hk|]. split; [exact Hk'|].
      pose proof (StronglySorted_lookup_lt _ _ (sortSlice_sorted includedRanges)
                    k (S k) r next ltac:(lia) Hk Hk') as Hst.
      unfold startLe in Hst.
      assert (Hn : ipVal (start next) <= ipVal (end_ next)).
      { eapply Forall_forall in Hle; [exact Hle|]. eapply list_elem_of_lookup_2; exact Hk'. }
      exists (ipVal (start next)). lia.
  - intros Hbad.
    destruct (complementLoop cs ce true (sortSlice lessByStart includedRanges) [])
      as [res|e] eqn:Hres; [|eauto].
    exfalso. apply complementLoop_ok_inv in Hres. destruct Hres as [Hb Hc].
    destruct Hbad as [Hout|Hov].
    + rewrite <- Hperm in Hout. apply Exists_exists in Hout.
      destruct Hout as (r & Hin & Hr).
      eapply Forall_forall in Hb; [|exact Hin].
      destruct Hb as [Hb1 Hb2]. lia.
    + apply (consecutiveOk_no_overlap _ Hc Hle).
      apply (someTwoOverlap_perm includedRanges); [symmetry; exact Hperm | exact Hov].
Qed.

Section WithInput.

Context (cidr : IPNet) (includedRanges : list IPRange).
Hypothesis Hcidr : wfNet cidr.
Hypothesis Hranges : Forall (rangeOf cidr) includedRanges.

Let cs : IP := netIP cidr.
Let ce : IP := mkIP (ipFam (netIP cidr)) (netHi cidr).
Let sorted : list IPRange := sortSlice lessByStart includedRanges.

Lemma sorted_perm : Permutation sorted includedRanges.
Proof. apply sortSlice_Permutation. Qed.

Lemma sorted_rangeOf : Forall (rangeOf cidr) sorted.
Proof. rewrite sorted_perm. exact Hranges. Qed.

Lemma LastIP_cidr : LastIP cidr = Some ce.
Proof. apply LastIP_wf, Hcidr. Qed.

Lemma ce_valid : validIP ce.
Proof.
  pose proof Hcidr as Hwf. unfold validIP, ce. simpl.
  pose proof (netLo_nonneg cidr Hwf). pose proof (netLo_le_hi cidr Hwf).
  pose proof (netHi_bound cidr Hwf). lia.
Qed.

(** The exclusion ranges of a non-empty sorted input that passes the checks:
    they lie apart, between the bounds, and hold exactly the address values
    between the bounds that no included range holds. *)
Lemma exclusion_props (cur : IPRange) (rest : list IPRange) :
  sorted = cur :: rest ->
  Forall (between (ipVal cs) (ipVal ce)) sorted ->
  consecutiveOk sorted ->
  let G := gapBefore cs cur ++ gapsAfter cur rest ce in
  Forall (rangeOf cidr) G
  /\ StronglySorted apart G
  /\ Forall (between (ipVal cs) (ipVal ce)) G
  /\ (forall x, ipVal cs <= x <= ipVal ce ->
        ((exists g, In g G /\ valIn g x) <-> ~ (exists r, In r sorted /\ valIn r x))).
Proof.
  intros Hsorted Hb Hc G.
  pose proof sorted_rangeOf as Hr. rewrite Hsorted in Hr, Hb, Hc |- *.
  assert (Hb0 : Forall (between 0 (ipVal ce)) (cur :: rest)).
  { eapply Forall_impl; [exact Hb|]. intros r [H1 H2]. split; [|exact H2].
    destruct Hcidr as [[Hv0 _] _]. unfold cs in H1. lia. }
  destruct (gapsAfter_props cidr ce ce_valid eq_refl cur rest Hr Hc Hb0)
    as (Hwf & Hbd & Hs & Hcov).
  pose proof Hr as Hr'. apply Forall_cons in Hr' as [[Hcur Hcurf] _].
  pose proof Hb as Hb'. apply Forall_cons in Hb' as [[Hcb0 Hcb1] _].
  destruct (wfRange_inv cur Hcur) as (Hcs & Hce & Hcf & Hcle).
  assert (Hbd' : Forall (between (ipVal cs) (ipVal ce)) (gapsAfter cur rest ce)).
  { eapply Forall_impl; [exact Hbd|]. cbn. intros g [H1 H2]. split; lia. }
  unfold G, gapBefore. rewrite Cmp_gtb.
  destruct (ipVal (PrevIP (start cur)) <? ipVal cs) eqn:Hgap.
  - apply Z.ltb_lt in Hgap. simpl in Hgap. simpl app.
    split; [exact Hwf|]. split; [exact Hs|]. split; [exact Hbd'|].
    intros x Hx.
    destruct (Z_le_gt_dec x (ipVal (end_ cur))) as [Hxc|Hxc].
    + split.
      * intros (g & Hg & Hgx). eapply Forall_forall in Hbd;
          [|apply list_elem_of_In; exact Hg]. unfold valIn in Hgx. cbn in Hbd. lia.
      * intros Hno. exfalso. apply Hno. exists cur. split; [left; reflexivity|].
        unfold valIn. lia.
    + rewrite (Hcov x ltac:(lia)). split.
      * intros Hno (r & [<-|Hin] & Hrx); [unfold valIn in Hrx; lia|].
        apply Hno. exists r. auto.
      * intros Hno (r & Hin & Hrx). apply Hno. exists r. split; [right; exact Hin | exact Hrx].
  - apply Z.ltb_ge in Hgap. simpl in Hgap. simpl app.
    set (gap := mkIPRange cs (PrevIP (start cur))).
    assert (Hgwf : rangeOf cidr gap).
    { pose proof Hcidr as (Hv & _ & _).
      split; [|reflexivity].
      split; [exact Hv|].
      split; [unfold validIP; simpl; destruct Hv as [Hv0 _]; destruct Hcs as [_ Hcs1];
              unfold cs in Hgap; lia|].
      split; [simpl; symmetry; exact Hcurf|].
      apply Cmp_le. simpl. exact Hgap. }
    split; [constructor; assumption|].
    split.
    { constructor; [exact Hs|].
      eapply Forall_impl; [exact Hbd|]. unfold apart. cbn. intros g [H1 H2]. lia. }
    split.
    { constructor; [|exact Hbd'].
      change (ipVal cs <= ipVal cs /\ ipVal (start cur) - 1 <= ipVal ce). lia. }
    intros x Hx.
    destruct (Z_lt_le_dec x (ipVal (start cur))) as [Hx1|Hx1].
    + split.
      * intros _ (r & [<-|Hin] & Hrx); [unfold valIn in Hrx; lia|].
        pose proof (consecutiveOk_later cur rest Hc (rangeOf_le cidr _ Hr)) as Hlater.
        eapply Forall_forall in Hlater; [|apply list_elem_of_In; exact Hin].
        unfold valIn in Hrx. cbn in Hlater. lia.
      * intros _. exists gap. split; [left; reflexivity|]. unfold valIn, gap. simpl. lia.
    + destruct (Z_le_gt_dec x (ipVal (end_ cur))) as [Hxc|Hxc].
      * split.
        -- intros (g & [<-|Hg] & Hgx); [unfold valIn, gap in Hgx; simpl in Hgx; lia|].
           eapply Forall_forall in Hbd; [|apply list_elem_of_In; exact Hg].
           unfold valIn in Hgx. cbn in Hbd. lia.
        -- intros Hno. exfalso. apply Hno. exists cur. split; [left; reflexivity|].
           unfold valIn. lia.
      * split.
        -- intros (g & [<-|Hg] & Hgx); [unfold valIn, gap in Hgx; simpl in Hgx; lia|].
           assert (Hex : exists g, In g (gapsAfter cur rest ce) /\ valIn g x) by eauto.
           apply (Hcov x ltac:(lia)) in Hex.
           intros (r & [<-|Hin] & Hrx); [unfold valIn in Hrx; lia|].
           apply Hex. exists r. auto.
        -- intros Hno.
           assert (Hno' : ~ (exists r, In r rest /\ valIn r x)).
           { intros (r & Hin & Hrx). apply Hno. exists r. split; [right; exact Hin | exact Hrx]. }
           apply (Hcov x ltac:(lia)) in Hno'. destruct Hno' as (g & Hg & Hgx).
           exists g. split; [right; exact Hg | exact Hgx].
Qed.

End WithInput.

Lemma valIn_list_dec (l : list IPRange) (x : Z) :
  (exists r, In r l /\ valIn r x) \/ ~ (exists r, In r l /\ valIn r x).
Proof.
  induction l as [|r l IH].
  - right. intros (? & [] & _).
  - destruct IH as [(r' & Hin & Hr')|Hno].
    + left. exists r'. split; [right; exact Hin | exact Hr'].
    + destruct (Z_le_gt_dec (ipVal (start r)) x) as [H1|H1];
        [destruct (Z_le_gt_dec x (ipVal (end_ r))) as [H2|H2]|].
      * left. exists r. split; [left; reflexivity | split; assumption].
      * right. intros (r' & [<-|Hin] & Hr'); [unfold valIn in Hr'; lia|].
        apply Hno. eauto.
      * right. intros (r' & [<-|Hin] & Hr'); [unfold valIn in Hr'; lia|].
        apply Hno. eauto.
Qed.

End FindSubnetExcludeIPBlocks.

(** ** The claims about [FindSubnetExcludeIPBlocks] *)

Section FindSubnetExcludeIPBlocksClaims.

Lemma inRange_valIn (cidr : IPNet) (r : IPRange) (x : IP) :
  rangeOf cidr r -> ipFam x = ipFam (netIP cidr) ->
  (inRange r x <-> valIn r (ipVal x)).
Proof.
  intros [_ Hf] Hx. unfold inRange, valIn. rewrite Hf, Hx. tauto.
Qed.

(** C3, amended. For a network with a mask of the length of its family and
    included ranges with [start <= end] (as [CreateIPRange] hands them out),
    [FindSubnetExcludeIPBlocks] returns an error if and only if some included
    range starts below the address of the network as it is given ([cidr.IP],
    host bits included) or ends above the last address of the network, or
    some two included ranges share an address. When the address of the
    network is its first address these bounds are those of the network; when
    it has host bits set, a range of the network below that address is
    refused too. Two ranges that are adjacent with no gap between them are
    accepted. [CreateIPRange] yields neither a range nor an error for
    [start > end], so an empty contribution to the exclusion list is skipped
    and never reported. *)
Theorem FindSubnetExcludeIPBlocks_error_iff (fuel : nat) (cidr : IPNet)
    (includedRanges : list IPRange) (gateway : option IP) (excludeIPs : list IP) :
  wfNet cidr ->
  Forall (fun r => Cmp (start r) (end_ r) <= 0) includedRanges ->
  ((exists e, FindSubnetExcludeIPBlocks fuel cidr includedRanges gateway excludeIPs
              = Some (Err e))
   <-> (Exists (outsideBounds cidr) includedRanges \/ someTwoOverlap includedRanges))
  /\ (alignedNet cidr -> forall r, outsideBounds cidr r <-> outsideCidr cidr r)
  /\ (forall s e : IP, Cmp s e > 0 -> CreateIPRange (Some s) (Some e) = Ok None).
Proof.
  intros Hwf Hr.
  assert (Hle : Forall (fun r => ipVal (start r) <= ipVal (end_ r)) includedRanges).
  { eapply Forall_impl; [exact Hr|]. intros r. apply Cmp_le. }
  split; [|split].
  - unfold FindSubnetExcludeIPBlocks. rewrite (LastIP_wf cidr Hwf).
    pose proof (complementLoop_error_bounds (netIP cidr)
                  (mkIP (ipFam (netIP cidr)) (netHi cidr)) includedRanges Hle) as Hloop.
    cbn [ipVal] in Hloop. fold (outsideBounds cidr) in Hloop. rewrite <- Hloop.
    destruct (complementLoop _ _ true _ []) as [G|e0] eqn:Hres.
    + split; [|intros [e He]; discriminate].
      intros [e He]. exfalso.
      destruct (foldExcludedIPs _ G) as [[G'|e1]|] eqn:Hfold.
      * destruct (splitAll fuel G'); discriminate.
      * exact (foldExcludedIPs_no_error _ _ _ Hfold).
      * discriminate.
    + split; intros _; eauto.
  - intros [_ Hal] r. unfold outsideBounds, outsideCidr. rewrite Hal. tauto.
  - intros s e Hgt. unfold CreateIPRange.
    replace (Cmp s e >? 0) with true by (symmetry; apply Z.gtb_lt; lia).
    reflexivity.
Qed.

Lemma FindSubnetExcludeIPBlocks_error_iff_witness :
  let cidr := mkIPNet (v4 10 0 0 5) (mkMask 24 32) in
  let r := mkIPRange (v4 10 0 0 1) (v4 10 0 0 3) in
  (exists e, FindSubnetExcludeIPBlocks 300 cidr [r] None [] = Some (Err e))
  /\ Contains cidr (start r) = true /\ Contains cidr (end_ r) = true
  /\ ((exists e, FindSubnetExcludeIPBlocks 300 cidr [r] None [] = Some (Err e))
      <-> (Exists (outsideBounds cidr) [r] \/ someTwoOverlap [r])).
Proof.
  intros cidr r.
  assert (Hwf : wfNet cidr).
  { split; [unfold validIP; simpl; lia | split; [reflexivity | simpl; lia]]. }
  assert (Hr : Forall (fun r => Cmp (start r) (end_ r) <= 0) [r]).
  { repeat constructor. apply Cmp_le. simpl. lia. }
  pose proof (proj1 (FindSubnetExcludeIPBlocks_error_iff 300 cidr [r] None [] Hwf Hr))
    as Hiff.
  split; [|split; [vm_compute; reflexivity | split; [vm_compute; reflexivity | exact Hiff]]].
  apply Hiff. left. constructor. left. simpl. lia.
Defined.

(** C3 as stated fails: two adjacent included ranges, 10.0.0.10 to 10.0.0.20
    and 10.0.0.21 to 10.0.0.30, are accepted. *)
Lemma FindSubnetExcludeIPBlocks_adjacent_accepted :
  let cidr := slash (v4 10 0 0 0) 24 in
  let r1 := mkIPRange (v4 10 0 0 10) (v4 10 0 0 20) in
  let r2 := mkIPRange (v4 10 0 0 21) (v4 10 0 0 30) in
  NextIP (end_ r1) = start r2
  /\ FindSubnetExcludeIPBlocks 300 cidr [r1; r2] None [] =
     Some (Ok [slash (v4 10 0 0 0) 29; slash (v4 10 0 0 8) 31;
               slash (v4 10 0 0 31) 32; slash (v4 10 0 0 32) 27;
               slash (v4 10 0 0 64) 26; slash (v4 10 0 0 128) 25]).
Proof. split; vm_compute; reflexivity. Qed.

(** C1, amended. For a network whose address is its first address, a
    non-empty list of included ranges of its family that lie inside it and of
    which no two share an address, and excluded addresses (gateway included)
    inside the network and outside every included range,
    [FindSubnetExcludeIPBlocks] returns, given fuel for the size of the
    network, blocks that are pairwise disjoint, none of which meets an
    included range, and whose union with the included ranges is exactly the
    address set of the network. *)
Theorem FindSubnetExcludeIPBlocks_complement (fuel : nat) (cidr : IPNet)
    (includedRanges : list IPRange) (gateway : option IP) (excludeIPs : list IP) :
  alignedNet cidr ->
  includedRanges <> [] ->
  Forall (rangeOf cidr) includedRanges ->
  Forall (fun r => ~ outsideCidr cidr r) includedRanges ->
  ~ someTwoOverlap includedRanges ->
  Forall (fun ip => validIP ip /\ Contains cidr ip = true
                    /\ ~ inSomeRange includedRanges ip)
         (allExcluded gateway excludeIPs) ->
  (cidrFuel cidr <= fuel)%nat ->
  exists blocks,
    FindSubnetExcludeIPBlocks fuel cidr includedRanges gateway excludeIPs
    = Some (Ok blocks)
    /\ pairwiseDisjoint blocks
    /\ (forall x, validIP x -> inSomeNet blocks x -> ~ inSomeRange includedRanges x)
    /\ (forall x, validIP x ->
          (inSomeNet blocks x \/ inSomeRange includedRanges x
           <-> Contains cidr x = true)).
Proof.
  intros Hcidr Hne Hr Hin Hno Hex Hfuel.
  pose proof Hcidr as [Hwf Hal].
  pose proof (exclusion_props cidr includedRanges Hwf Hr) as Hprops.
  pose proof (sorted_perm includedRanges) as Hperm.
  pose proof (sorted_rangeOf cidr includedRanges Hr) as Hsr.
  pose proof (sortSlice_sorted includedRanges) as Hss.
  unfold FindSubnetExcludeIPBlocks. rewrite (LastIP_cidr cidr Hwf).
  remember (sortSlice lessByStart includedRanges) as sorted eqn:Hsd.
  remember (mkIP (ipFam (netIP cidr)) (netHi cidr)) as ce eqn:Hced.
  remember (netIP cidr) as cs eqn:Hcsd.
  pose proof (rangeOf_le cidr _ Hsr) as Hsle.
  assert (Hcs : ipVal cs = netLo cidr) by (subst cs; lia).
  assert (Hce : ipVal ce = netHi cidr) by (subst ce; reflexivity).
  (* the checks of the first loop pass *)
  assert (Hb : Forall (between (ipVal cs) (ipVal ce)) sorted).
  { rewrite Hperm. eapply Forall_impl; [exact Hin|].
    intros r. apply (between_not_outside cidr cs ce r Hcs Hce). }
  assert (Hc : consecutiveOk sorted).
  { apply sorted_consecutiveOk; [exact Hss | exact Hsle |].
    intros Ho. apply Hno. exact (someTwoOverlap_perm _ _ Hperm Ho). }
  destruct sorted as [|cur rest].
  { exfalso. apply Hne. apply Permutation_nil. exact Hperm. }
  rewrite (complementLoop_true_ok cs ce cur rest Hb Hc).
  destruct (Hprops cur rest eq_refl Hb Hc) as (HGr & HGs & HGb & HGcov).
  clear Hprops.
  remember (gapBefore cs cur ++ gapsAfter cur rest ce) as G eqn:HGd.
  (* membership of an address of the network's family *)
  assert (Hmem : forall x, validIP x -> ipFam x = ipFam (netIP cidr) ->
            (inSomeRange includedRanges x
             <-> exists r, In r (cur :: rest) /\ valIn r (ipVal x))).
  { intros x Hx Hxf. split.
    - intros (r & Hrin & Hrx). exists r.
      split; [eapply Permutation_in; [symmetry; exact Hperm | exact Hrin]|].
      assert (Hrr : rangeOf cidr r).
      { eapply Forall_forall in Hr; [exact Hr|]. apply list_elem_of_In. exact Hrin. }
      exact (proj1 (inRange_valIn cidr r x Hrr Hxf) Hrx).
    - intros (r & Hrin & Hrx). exists r.
      assert (Hrin' : In r includedRanges) by (eapply Permutation_in; eauto).
      split; [exact Hrin'|].
      assert (Hrr : rangeOf cidr r).
      { eapply Forall_forall in Hr; [exact Hr|]. apply list_elem_of_In. exact Hrin'. }
      exact (proj2 (inRange_valIn cidr r x Hrr Hxf) Hrx). }
  (* the excluded addresses change nothing *)
  assert (Hfold : foldExcludedIPs (allExcluded gateway excludeIPs) G = Some (Ok G)).
  { apply foldExcludedIPs_inside; [exact HGs | exact (rangeOf_le cidr _ HGr) |].
    eapply Forall_impl; [exact Hex|]. intros ip (Hv & Hcon & Hout).
    apply (Contains_iff cidr ip Hwf Hv) in Hcon. destruct Hcon as [Hipf Hipr].
    apply (HGcov (ipVal ip) ltac:(lia)).
    intros Hr'. apply Hout. apply (Hmem ip Hv Hipf). exact Hr'. }
  (* the blocks *)
  assert (HGfuel : Forall (fun g => (splitFuel g <= fuel)%nat) G).
  { eapply Forall_impl; [exact HGb|]. intros g [Hg1 Hg2].
    unfold splitFuel. unfold cidrFuel in Hfuel.
    pose proof (pow2_pos _ (hostBits_nonneg cidr Hwf)).
    unfold netHi in Hce. lia. }
  destruct (splitAll_spec cidr fuel G HGr HGs HGfuel) as (blocks & Hsp & Hbl & Hbs & Hbcov).
  exists blocks.
  split.
  { unfold allExcluded in Hfold. rewrite Hfold, Hsp. reflexivity. }
  split; [exact (sorted_pairwiseDisjoint _ _ Hbl Hbs)|].
  (* membership in the blocks *)
  assert (Hblk : forall x, validIP x ->
            (inSomeNet blocks x
             <-> ipFam x = ipFam (netIP cidr) /\ exists g, In g G /\ valIn g (ipVal x))).
  { intros x Hx. split.
    - intros (b & Hbin & Hbx).
      assert (Hbb : blockOf (ipFam (netIP cidr)) b).
      { eapply Forall_forall in Hbl; [exact Hbl|]. apply list_elem_of_In. exact Hbin. }
      destruct Hbb as [Hbwf Hbf].
      apply (Contains_iff b x Hbwf Hx) in Hbx. destruct Hbx as [Hxf Hxr].
      split; [congruence|]. apply Hbcov. exists b. auto.
    - intros [Hxf Hg]. apply Hbcov in Hg. destruct Hg as (b & Hbin & Hbx).
      exists b. split; [exact Hbin|].
      assert (Hbb : blockOf (ipFam (netIP cidr)) b).
      { eapply Forall_forall in Hbl; [exact Hbl|]. apply list_elem_of_In. exact Hbin. }
      destruct Hbb as [Hbwf Hbf].
      apply (Contains_iff b x Hbwf Hx). split; [congruence | exact Hbx]. }
  assert (HGin : forall g x, In g G -> valIn g x -> ipVal cs <= x <= ipVal ce).
  { intros g x Hg [H1 H2]. eapply Forall_forall in HGb; [|apply list_elem_of_In; exact Hg].
    destruct HGb as [H3 H4]. lia. }
  split.
  - intros x Hx Hxb Hxr. apply (Hblk x Hx) in Hxb. destruct Hxb as [Hxf (g & Hg & Hgx)].
    apply (Hmem x Hx Hxf) in Hxr.
    pose proof (HGin g _ Hg Hgx) as Hxin.
    apply (proj1 (HGcov (ipVal x) Hxin)); [eauto | exact Hxr].
  - intros x Hx. rewrite (Contains_iff cidr x Hwf Hx). split.
    + intros [Hxb|Hxr].
      * apply (Hblk x Hx) in Hxb. destruct Hxb as [Hxf (g & Hg & Hgx)].
        split; [exact Hxf|]. pose proof (HGin g _ Hg Hgx). lia.
      * destruct Hxr as (r & Hrin & Hrf & Hrx).
        assert (Hrr : rangeOf cidr r).
        { eapply Forall_forall in Hr; [exact Hr|]. apply list_elem_of_In. exact Hrin. }
        assert (Hri : ~ outsideCidr cidr r).
        { eapply Forall_forall in Hin; [exact Hin|]. apply list_elem_of_In. exact Hrin. }
        destruct Hrr as [_ Hrfam]. unfold outsideCidr in Hri.
        split; [congruence | lia].
    + intros [Hxf Hxr].
      destruct (valIn_list_dec (cur :: rest) (ipVal x)) as [Hyes|Hnot].
      * right. apply (Hmem x Hx Hxf). exact Hyes.
      * left. apply (Hblk x Hx). split; [exact Hxf|].
        apply (HGcov (ipVal x) ltac:(lia)). exact Hnot.
Qed.


Lemma FindSubnetExcludeIPBlocks_complement_witness :
  let cidr := slash (v4 10 0 0 0) 24 in
  let ranges := [mkIPRange (v4 10 0 0 10) (v4 10 0 0 20)] in
  exists blocks,
    FindSubnetExcludeIPBlocks 300 cidr ranges (Some (v4 10 0 0 1)) [v4 10 0 0 254]
    = Some (Ok blocks)
    /\ pairwiseDisjoint blocks
    /\ (forall x, validIP x -> inSomeNet blocks x -> ~ inSomeRange ranges x)
    /\ (forall x, validIP x ->
          (inSomeNet blocks x \/ inSomeRange ranges x <-> Contains cidr x = true)).
Proof.
  intros cidr ranges.
  apply (FindSubnetExcludeIPBlocks_complement 300 cidr ranges
           (Some (v4 10 0 0 1)) [v4 10 0 0 254]).
  - split; [split; [unfold validIP; simpl; lia | split; [reflexivity | simpl; lia]]
           | reflexivity].
  - discriminate.
  - repeat constructor; try (unfold validIP; simpl; lia); try (apply Cmp_le; simpl; lia).
  - repeat constructor. unfold outsideCidr. vm_compute. intros [H|H]; discriminate.
  - intros (i & j & r1 & r2 & Hij & Hi & Hj & _).
    destruct i as [|i]; destruct j as [|j]; try discriminate. apply Hij. reflexivity.
  - repeat constructor; try (unfold validIP; simpl; lia);
      intros (r & [<-|[]] & [_ Hr]); simpl in Hr; lia.
  - vm_compute. lia.
Defined.

(** C1 as stated fails. With no included range at all nothing is returned,
    so 10.0.0.0 of the network is in no block and in no range; and an excluded
    address inside an included range, 10.0.0.15 in 10.0.0.10 to 10.0.0.20,
    comes back as a block of its own that meets that range. *)
Lemma FindSubnetExcludeIPBlocks_not_complement :
  let cidr := slash (v4 10 0 0 0) 24 in
  let r := mkIPRange (v4 10 0 0 10) (v4 10 0 0 20) in
  (FindSubnetExcludeIPBlocks 300 cidr [] None [] = Some (Ok [])
   /\ Contains cidr (v4 10 0 0 0) = true)
  /\ (exists blocks,
        FindSubnetExcludeIPBlocks 300 cidr [r] None [v4 10 0 0 15] = Some (Ok blocks)
        /\ In (slash (v4 10 0 0 15) 32) blocks
        /\ Contains (slash (v4 10 0 0 15) 32) (v4 10 0 0 15) = true
        /\ inRange r (v4 10 0 0 15)).
Proof.
  split; [split; vm_compute; reflexivity|].
  eexists. split; [vm_compute; reflexivity|].
  split; [simpl; tauto|]. split; [vm_compute; reflexivity|].
  split; [reflexivity | simpl; lia].
Qed.

End FindSubnetExcludeIPBlocksClaims.

(** ** Running computations on the kernel *)

Section Monad.

Lemma bind_inv {A B} (m : M A) (f : A -> M B) (k k' : Kernel) (r : Res B) :
  bind m f k = (k', r) ->
  (exists k1 a, m k = (k1, ROk a) /\ f a k1 = (k', r))
  \/ (exists e, m k = (k', RErr e) /\ r = RErr e).
Proof.
  unfold bind. destruct (m k) as [k1 [a|e]]; intros H.
  - left. eauto.
  - right. injection H as <- <-. eauto.
Qed.

Lemma bind_ok_inv {A B} (m : M A) (f : A -> M B) (k k' : Kernel) (b : B) :
  bind m f k = (k', ROk b) ->
  exists k1 a, m k = (k1, ROk a) /\ f a k1 = (k', ROk b).
Proof.
  intros H. apply bind_inv in H as [H|(e & _ & He)]; [exact H | discriminate].
Qed.

Lemma ret_inv {A} (a : A) (k k' : Kernel) (r : Res A) :
  ret a k = (k', r) -> k' = k /\ r = ROk a.
Proof. unfold ret. intros [= <- <-]. auto. Qed.

Lemma fail_inv {A} (e : Errno) (k k' : Kernel) (r : Res A) :
  fail e k = (k', r) -> k' = k /\ r = RErr e.
Proof. unfold fail. intros [= <- <-]. auto. Qed.

Lemma sameState_refl (k : Kernel) : sameState k k.
Proof. repeat split. Qed.

Lemma sameState_trans (k1 k2 k3 : Kernel) :
  sameState k1 k2 -> sameState k2 k3 -> sameState k1 k3.
Proof.
  intros (a1 & a2 & a3 & a4 & a5) (b1 & b2 & b3 & b4 & b5).
  repeat split; congruence.
Qed.

(** A netlink call either fails by fate, or runs on the state with that fate
    consumed. *)
Lemma call_inv {A} (op : M A) (k k' : Kernel) (r : Res A) :
  call op k = (k', r) ->
  (r = RErr ENetlink /\ sameState k k' /\ kLog k' = kLog k ++ [EvFailed])
  \/ (exists k0 k1,
        sameState k k0 /\ kLog k0 = kLog k
        /\ ((exists a, op k0 = (k1, ROk a) /\ r = ROk a /\ k' = k1)
            \/ (exists e, op k0 = (k1, RErr e) /\ r = RErr e
                          /\ k' = logEvent k1 EvFailed))).
Proof.
  unfold call. intros H.
  assert (Hrun : forall f,
            match op (setFaults k f) with
            | (k1, ROk a) => (k1, ROk a)
            | (k1, RErr e) => (logEvent k1 EvFailed, RErr e)
            end = (k', r) ->
            exists k0 k1,
              sameState k k0 /\ kLog k0 = kLog k
              /\ ((exists a, op k0 = (k1, ROk a) /\ r = ROk a /\ k' = k1)
                  \/ (exists e, op k0 = (k1, RErr e) /\ r = RErr e
                                /\ k' = logEvent k1 EvFailed))).
  { intros f Hf. exists (setFaults k f).
    destruct (op (setFaults k f)) as [k1 [a|e]] eqn:Hop; exists k1;
      (split; [repeat split|]); (split; [reflexivity|]); injection Hf as <- <-.
    - left. eauto.
    - right. eauto. }
  destruct (kFaults k) as [|[|] rest].
  - right. apply (Hrun _ H).
  - left. injection H as <- <-. repeat split.
  - right. apply (Hrun _ H).
Qed.

(** Without failures ahead a call is the operation itself. *)
Lemma call_no_fault {A} (op : M A) (k : Kernel) :
  kFaults k = [] ->
  call op k = match op k with
              | (k', ROk a) => (k', ROk a)
              | (k', RErr e) => (logEvent k' EvFailed, RErr e)
              end.
Proof.
  intros Hf. unfold call. rewrite Hf. simpl.
  replace (setFaults k []) with k; [reflexivity|].
  destruct k; simpl in *; subst; reflexivity.
Qed.

End Monad.

(** ** Rule priorities *)

Section RulePriority.

Lemma RuleList_ok (k k' : Kernel) (l : list Rule.t) :
  RuleList k = (k', ROk l) -> l = kRules k /\ sameState k k' /\ kLog k' = kLog k.
Proof.
  intros H. apply call_inv in H as [(Hr & _)|(k0 & k1 & Hs & Hl & [(a & Hop & Ha & ->)|(e & _ & He & _)])];
    try discriminate.
  injection Hop as <- <-. injection Ha as ->.
  destruct Hs as (h1 & h2 & h3 & h4 & h5). repeat split; congruence.
Qed.

Lemma scanRules_foldl (l : list Rule.t) : scanRules l = foldl scanStep (∅, 0) l.
Proof. reflexivity. Qed.

Lemma scan_used (l : list Rule.t) (acc : gset Z * Z) (p : Z) :
  p ∈ fst (foldl scanStep acc l)
  <-> (p ∈ fst acc \/ exists r, In r l /\ realRulePriority (Rule.Priority r) = p).
Proof.
  revert acc. induction l as [|r l IH]; intros acc; simpl.
  - split; [auto | intros [H|(? & [] & _)]; exact H].
  - rewrite IH. destruct acc as [m n]. simpl. rewrite elem_of_union, elem_of_singleton.
    split.
    + intros [[->|H]|(r' & Hin & Hr')]; eauto.
    + intros [H|(r' & [<-|Hin] & Hr')]; eauto.
Qed.

Lemma scan_local (l1 l2 : list Rule.t) (rule : Rule.t) (acc : gset Z * Z) :
  Rule.Table rule = NodeLocalTableNum ->
  Forall (fun r => Rule.Table r <> NodeLocalTableNum) l2 ->
  snd (foldl scanStep acc (l1 ++ rule :: l2)) = realRulePriority (Rule.Priority rule).
Proof.
  intros Ht Hl2. rewrite foldl_app. simpl.
  generalize (foldl scanStep acc l1). intros [m n].
  unfold scanStep at 2. rewrite Ht, Z.eqb_refl.
  generalize ({[realRulePriority (Rule.Priority rule)]} ∪ m). clear m.
  induction l2 as [|r l2 IH]; intros m; simpl; [reflexivity|].
  apply Forall_cons in Hl2 as [Hr Hl2].
  replace (Rule.Table r =? NodeLocalTableNum) with false
    by (symmetry; apply Z.eqb_neq; exact Hr).
  apply IH. exact Hl2.
Qed.

Lemma priorityLoop_Some (fuel : nat) (start : Z) (used : gset Z) (local p : Z) :
  priorityLoop fuel start used local = Some p ->
  start <= p <= MaxRulePriority /\ (p ∉ used) /\ local < p.
Proof.
  revert start. induction fuel as [|fuel IH]; intros start H; [discriminate|].
  simpl in H. destruct (start <=? MaxRulePriority) eqn:Hle; [|discriminate].
  apply Z.leb_le in Hle.
  destruct (negb (bool_decide (start ∈ used)) && (start >? local)) eqn:Hc.
  - injection H as <-. apply andb_true_iff in Hc as [Hu Hl].
    apply negb_true_iff, bool_decide_eq_false in Hu.
    apply Z.gtb_lt in Hl. repeat split; try lia; assumption.
  - apply IH in H. destruct H as (H1 & H2 & H3). repeat split; try lia; assumption.
Qed.

Lemma realRulePriority_ge (p : Z) : p <= realRulePriority p.
Proof.
  unfold realRulePriority. destruct (p =? -1) eqn:E; [apply Z.eqb_eq in E|]; lia.
Qed.

(** [realRulePriority] reads a listed priority as the kernel has it. *)
Lemma realRulePriority_kernel (rule : Rule.t) :
  realRulePriority (Rule.Priority rule) = kernelPriority rule.
Proof.
  unfold realRulePriority, kernelPriority.
  destruct (Rule.Priority rule) as [|q|q]; try reflexivity.
  destruct q; reflexivity.
Qed.

(** C7. Whenever [findHighestUnusedRulePriority] returns without error, the
    priority lies between 0 and 32767, is the priority of no rule of the
    kernel (neither as listed nor as the kernel has it, where a rule listed
    with -1 has priority 0), and is strictly above the priority, as the
    kernel has it, of the rule that points at table 255 (the last one in the
    list, should there be several): for a node-local rule of priority 0,
    listed as -1, the priority returned is not 0. *)
Theorem findHighestUnusedRulePriority_above_local (family : Z) (k k' : Kernel) (p : Z) :
  findHighestUnusedRulePriority family k = (k', ROk p) ->
  0 <= p <= 32767
  /\ (forall rule, In rule (kRules k) ->
        Rule.Priority rule <> p /\ kernelPriority rule <> p)
  /\ (forall l1 rule l2,
        kRules k = l1 ++ rule :: l2 ->
        Rule.Table rule = 255 ->
        Forall (fun r => Rule.Table r <> 255) l2 ->
        Rule.Priority rule < p /\ kernelPriority rule < p).
Proof.
  intros H. unfold findHighestUnusedRulePriority in H.
  apply bind_ok_inv in H as (k1 & l & Hl & H).
  apply RuleList_ok in Hl as (-> & _ & _).
  rewrite scanRules_foldl in H.
  destruct (foldl scanStep (∅, 0) (kRules k)) as [used local] eqn:Hscan.
  destruct (priorityLoop _ 0 used local) as [q|] eqn:Hloop;
    [|apply fail_inv in H as [_ H]; discriminate].
  apply ret_inv in H as [_ H]. injection H as Hq. subst q.
  apply priorityLoop_Some in Hloop as (Hr & Hu & Hloc).
  unfold MaxRulePriority in Hr.
  split; [lia|]. split.
  - intros rule Hin.
    assert (Hreal : realRulePriority (Rule.Priority rule) <> p).
    { intros E. apply Hu.
      pose proof (proj2 (scan_used (kRules k) (∅, 0) p)) as Hs.
      rewrite Hscan in Hs. apply Hs. right. exists rule. auto. }
    split; [|rewrite <- realRulePriority_kernel; exact Hreal].
    intros E. unfold realRulePriority in Hreal.
    destruct (Rule.Priority rule =? -1) eqn:E1; [apply Z.eqb_eq in E1; lia | congruence].
  - intros l1 rule l2 Hk Ht Hl2.
    pose proof (scan_local l1 l2 rule (∅, 0) Ht Hl2) as Hs.
    rewrite <- Hk, Hscan in Hs. simpl in Hs.
    pose proof (realRulePriority_ge (Rule.Priority rule)).
    rewrite <- realRulePriority_kernel. lia.
Qed.

Lemma findHighestUnusedRulePriority_above_local_witness :
  let local := Rule.mk None 255 (-1) 0 0 in
  let k := mkKernel V4 [local; Rule.mk None 254 32766 0 0;
                        Rule.mk None 253 32767 0 0] ∅ [] [] [] [] in
  snd (findHighestUnusedRulePriority FAMILY_V4 k) = ROk 1
  /\ kernelPriority local = 0
  /\ Rule.Priority local < 1 /\ kernelPriority local < 1.
Proof.
  intros local k.
  assert (Hrun : findHighestUnusedRulePriority FAMILY_V4 k = (k, ROk 1))
    by (vm_compute; reflexivity).
  split; [rewrite Hrun; reflexivity|]. split; [reflexivity|].
  apply (proj2 (proj2 (findHighestUnusedRulePriority_above_local FAMILY_V4 k k 1 Hrun))
           [] local [Rule.mk None 254 32766 0 0; Rule.mk None 253 32767 0 0]).
  - reflexivity.
  - reflexivity.
  - repeat constructor; discriminate.
Defined.

End RulePriority.

(** ** Dumps of routes, and empty route tables *)

Section Tables.

Lemma dstKey_dstOf (fam : Family) (d : DstKey) : dstKey (dstOf fam d) = d.
Proof.
  destruct d as [[a p]|]; reflexivity.
Qed.

Lemma routeKey_shown (fam : Family) (kk : RouteKey) (a : RouteAttrs) :
  routeKey (shown fam (kk, a)) = kk.
Proof.
  destruct kk as [t d]. unfold routeKey, shown. simpl. rewrite dstKey_dstOf. reflexivity.
Qed.

Lemma shown_inj (fam : Family) (e1 e2 : RouteKey * RouteAttrs) :
  shown fam e1 = shown fam e2 -> e1 = e2.
Proof.
  destruct e1 as [kk1 [l1 s1 g1 r1 t1]], e2 as [kk2 [l2 s2 g2 r2 t2]]. intros H.
  assert (Hk : kk1 = kk2).
  { rewrite <- (routeKey_shown fam kk1 (mkAttrs l1 s1 g1 r1 t1)),
            <- (routeKey_shown fam kk2 (mkAttrs l2 s2 g2 r2 t2)), H. reflexivity. }
  subst kk2. unfold shown in H. simpl in H. injection H as -> -> -> -> ->. reflexivity.
Qed.

(** The routes of a dump are the kept routes of the kernel. *)
Lemma In_dump (k : Kernel) (keep : Route.t -> bool) (r : Route.t) :
  In r (dump k keep) <->
  keep r = true /\ exists kk a, kRoutes k !! kk = Some a /\ r = shown (kFamily k) (kk, a).
Proof.
  unfold dump. rewrite List.filter_In, <- list_elem_of_In, list_elem_of_fmap.
  split.
  - intros [([kk a] & -> & Hin) Hk]. apply elem_of_map_to_list in Hin.
    split; [exact Hk|]. eauto.
  - intros [Hk (kk & a & Hl & ->)]. split; [|exact Hk].
    exists (kk, a). split; [reflexivity|]. apply elem_of_map_to_list. exact Hl.
Qed.

Lemma NoDup_dump (k : Kernel) (keep : Route.t -> bool) : List.NoDup (dump k keep).
Proof.
  unfold dump. apply List.NoDup_filter. apply NoDup_ListNoDup.
  apply NoDup_fmap_2; [intros x y; apply shown_inj | apply NoDup_map_to_list].
Qed.

Lemma dump_sameState (k k' : Kernel) (keep : Route.t -> bool) :
  sameState k k' -> dump k' keep = dump k keep.
Proof. intros (Hf & _ & Hr & _). unfold dump. rewrite Hf, Hr. reflexivity. Qed.

Lemma tableEmpty_sameState (k k' : Kernel) (t : Z) :
  sameState k k' -> (tableEmpty k' t <-> tableEmpty k t).
Proof. intros (_ & _ & Hr & _). unfold tableEmpty. rewrite Hr. tauto. Qed.

(** The dump of a table is empty exactly when the table holds no route. *)
Lemma dump_table_nil (k : Kernel) (t : Z) :
  dump k (fun r => Route.Table r =? t) = [] <-> tableEmpty k t.
Proof.
  split.
  - intros Hd d. destruct (kRoutes k !! (t, d)) as [a|] eqn:Hl; [|reflexivity].
    exfalso.
    assert (Hin : In (shown (kFamily k) ((t, d), a)) (dump k (fun r => Route.Table r =? t))).
    { apply In_dump. split; [simpl; apply Z.eqb_refl | eauto]. }
    rewrite Hd in Hin. exact Hin.
  - intros He. destruct (dump k _) as [|r l] eqn:Hd; [reflexivity|].
    exfalso.
    assert (Hin : In r (dump k (fun r => Route.Table r =? t))) by (rewrite Hd; left; reflexivity).
    apply In_dump in Hin as [Ht ([t' d] & a & Hl & ->)].
    simpl in Ht. apply Z.eqb_eq in Ht. subst t'. rewrite He in Hl. discriminate.
Qed.

Lemma tableEmpty_dec (k : Kernel) (t : Z) : tableEmpty k t \/ ~ tableEmpty k t.
Proof.
  rewrite <- dump_table_nil. destruct (dump k _); [left; reflexivity | right; discriminate].
Qed.

(** A netlink call that only reads. *)
Lemma read_inv {A} (v : Kernel -> A) (k k' : Kernel) (r : Res A) :
  call (fun k0 => (k0, ROk (v k0))) k = (k', r) ->
  sameState k k'
  /\ ((exists k0, sameState k k0 /\ r = ROk (v k0) /\ kLog k' = kLog k)
      \/ (r = RErr ENetlink /\ kLog k' = kLog k ++ [EvFailed])).
Proof.
  intros H. apply call_inv in H
    as [(Hr & Hs & Hl)|(k0 & k1 & Hs & Hl & [(a & Hop & Ha & ->)|(e & Hop & _)])].
  - split; [exact Hs|]. right. auto.
  - injection Hop as <- <-. split; [exact Hs|]. left. exists k0. auto.
  - discriminate.
Qed.

Lemma RouteListByTable_inv (t : Z) (k k' : Kernel) (r : Res (list Route.t)) :
  RouteListByTable t k = (k', r) ->
  sameState k k'
  /\ ((r = ROk (dump k (fun x => Route.Table x =? t)) /\ kLog k' = kLog k)
      \/ (r = RErr ENetlink /\ kLog k' = kLog k ++ [EvFailed])).
Proof.
  intros H. apply read_inv in H as [Hs [(k0 & Hs0 & -> & Hl)|H]].
  - split; [exact Hs|]. left. rewrite (dump_sameState k k0 _ Hs0). auto.
  - split; [exact Hs|]. right. exact H.
Qed.

Lemma checkIfRouteTableEmpty_inv (t family : Z) (k k' : Kernel) (r : Res bool) :
  checkIfRouteTableEmpty t family k = (k', r) ->
  sameState k k'
  /\ ((exists b, r = ROk b /\ (b = true <-> tableEmpty k t) /\ kLog k' = kLog k)
      \/ (r = RErr ENetlink /\ kLog k' = kLog k ++ [EvFailed])).
Proof.
  unfold checkIfRouteTableEmpty. intros H.
  apply bind_inv in H as [(k1 & l & Hl & H)|(e & Hl & ->)].
  - apply RouteListByTable_inv in Hl as [Hs [[Hr Hlog]|[Hr _]]]; [|discriminate].
    injection Hr as ->. apply ret_inv in H as [-> ->].
    split; [exact Hs|]. left. eexists. split; [reflexivity|]. split; [|exact Hlog].
    rewrite <- dump_table_nil. destruct (dump k _); simpl; split; congruence.
  - apply RouteListByTable_inv in Hl as [Hs [[Hr _]|[Hr Hlog]]]; [discriminate|].
    injection Hr as ->. split; [exact Hs|]. right. auto.
Qed.

(** The loop of [findEmptyRouteTable], for every outcome. *)
Lemma emptyTableLoop_inv (fuel : nat) (i family : Z) (k k' : Kernel) (r : Res Z) :
  (Z.to_nat (MaxRouteTableNum - i) < fuel)%nat ->
  emptyTableLoop fuel i family k = (k', r) ->
  sameState k k'
  /\ match r with
     | ROk t => i <= t < MaxRouteTableNum /\ tableEmpty k t
                /\ (forall j, i <= j < t -> ~ tableEmpty k j)
                /\ kLog k' = kLog k
     | RErr e => (e = ENetlink /\ exists t, i <= t < MaxRouteTableNum
                                            /\ (forall j, i <= j < t -> ~ tableEmpty k j))
                 \/ (e = ENoEmptyTable
                     /\ forall j, i <= j < MaxRouteTableNum -> ~ tableEmpty k j)
     end.
Proof.
  revert i k. induction fuel as [|fuel IH]; intros i k Hfu H; [lia|].
  cbn [emptyTableLoop] in H.
  destruct (i <? MaxRouteTableNum) eqn:Hi.
  - apply Z.ltb_lt in Hi.
    apply bind_inv in H as [(k1 & b & Hc & H)|(e & Hc & ->)].
    + apply checkIfRouteTableEmpty_inv in Hc as [Hs [(b' & Hb & Hiff & Hlog)|[Hb _]]];
        [|discriminate].
      injection Hb as <-.
      destruct b.
      * apply ret_inv in H as [-> ->]. split; [exact Hs|].
        split; [lia|]. split; [apply Hiff; reflexivity|]. split; [intros; lia | exact Hlog].
      * assert (Hne : ~ tableEmpty k i) by (intros He; apply Hiff in He; discriminate).
        apply IH in H as [Hs1 Hr]; [|lia].
        split; [exact (sameState_trans _ _ _ Hs Hs1)|].
        destruct r as [t|e].
        -- destruct Hr as (Ht & He & Hj & Hlog1).
           split; [lia|]. split; [apply (tableEmpty_sameState k k1 t Hs); exact He|].
           split; [|congruence].
           intros j Hjr. destruct (Z.eq_dec j i) as [->|]; [exact Hne|].
           rewrite <- (tableEmpty_sameState k k1 j Hs). apply Hj. lia.
        -- destruct Hr as [[-> (t & Ht & Hj)]|[-> Hj]].
           ++ left. split; [reflexivity|]. exists t. split; [lia|].
              intros j Hjr. destruct (Z.eq_dec j i) as [->|]; [exact Hne|].
              rewrite <- (tableEmpty_sameState k k1 j Hs). apply Hj. lia.
           ++ right. split; [reflexivity|].
              intros j Hjr. destruct (Z.eq_dec j i) as [->|]; [exact Hne|].
              rewrite <- (tableEmpty_sameState k k1 j Hs). apply Hj. lia.
    + apply checkIfRouteTableEmpty_inv in Hc as [Hs [(b' & Hb & _)|[Hb _]]];
        [discriminate|].
      injection Hb as ->. split; [exact Hs|]. left. split; [reflexivity|].
      exists i. split; [lia | intros; lia].
  - apply Z.ltb_ge in Hi. apply fail_inv in H as [-> ->].
    split; [apply sameState_refl|]. right. split; [reflexivity | intros; lia].
Qed.

(** With no failing call ahead the loop never reports a netlink failure. *)
Lemma emptyTableLoop_no_fault (fuel : nat) (i family : Z) (k : Kernel) :
  kFaults k = [] ->
  snd (emptyTableLoop fuel i family k) <> RErr ENetlink.
Proof.
  intros Hf. revert i. induction fuel as [|fuel IH]; intros i; [discriminate|].
  cbn [emptyTableLoop]. destruct (i <? MaxRouteTableNum); [|discriminate].
  unfold bind, checkIfRouteTableEmpty, bind, RouteListByTable.
  rewrite call_no_fault by exact Hf. cbn [ret].
  destruct (Nat.eqb _ 0); [discriminate | apply IH].
Qed.

(** C8, amended. Whenever [findEmptyRouteTable] returns without error, the
    table lies in the pool from 10000 to 39999, held no route when it was
    scanned, and every table of the pool before it held one. It returns an
    error when a listing fails before an empty table is found, or when every
    table of the pool holds a route; with no failing call ahead, exactly in
    the second case. *)
Theorem findEmptyRouteTable_first_empty (family : Z) (k : Kernel) :
  (forall k' t, findEmptyRouteTable family k = (k', ROk t) ->
     10000 <= t < 40000 /\ tableEmpty k t
     /\ (forall j, 10000 <= j < t -> ~ tableEmpty k j)
     /\ sameState k k')
  /\ (forall k' e, findEmptyRouteTable family k = (k', RErr e) ->
        e = ENetlink
        \/ (e = ENoEmptyTable /\ forall j, 10000 <= j < 40000 -> ~ tableEmpty k j))
  /\ (kFaults k = [] ->
      ((exists e, snd (findEmptyRouteTable family k) = RErr e)
       <-> (forall j, 10000 <= j < 40000 -> ~ tableEmpty k j))).
Proof.
  assert (Hfuel : (Z.to_nat (MaxRouteTableNum - MinRouteTableNum)
                   < Z.to_nat (MaxRouteTableNum - MinRouteTableNum) + 1)%nat) by lia.
  split; [|split].
  - intros k' t H. apply emptyTableLoop_inv in H as [Hs (Ht & He & Hj & _)]; [|exact Hfuel].
    unfold MinRouteTableNum, MaxRouteTableNum in *. auto.
  - intros k' e H. apply emptyTableLoop_inv in H as [Hs [[-> _]|[-> Hj]]]; [| |exact Hfuel].
    + left. reflexivity.
    + right. unfold MinRouteTableNum, MaxRouteTableNum in *. auto.
  - intros Hf.
    pose proof (emptyTableLoop_no_fault
                  (Z.to_nat (MaxRouteTableNum - MinRouteTableNum) + 1)
                  MinRouteTableNum family k Hf) as Hnf.
    fold (findEmptyRouteTable family) in Hnf.
    destruct (findEmptyRouteTable family k) as [k' r] eqn:Hrun.
    apply emptyTableLoop_inv in Hrun as [Hs Hr]; [|exact Hfuel].
    cbn [snd] in *. unfold MinRouteTableNum, MaxRouteTableNum in *.
    destruct r as [t|e].
    + destruct Hr as (Ht & He & _). split; [intros [e He']; discriminate|].
      intros Hall. exfalso. exact (Hall t Ht He).
    + destruct Hr as [[-> _]|[-> Hj]]; [congruence|].
      split; [intros _; exact Hj | intros _; eauto].
Qed.

(** C8 as stated fails: the listing of table 10000 fails although the table,
    like every other, holds no route. *)
Lemma findEmptyRouteTable_listing_fails :
  let k := mkKernel V4 [] ∅ [] [] [true] [] in
  snd (findEmptyRouteTable FAMILY_V4 k) = RErr ENetlink
  /\ tableEmpty k 10000.
Proof.
  split; [vm_compute; reflexivity|]. intros d. apply lookup_empty.
Qed.

End Tables.

Lemma findEmptyRouteTable_first_empty_witness :
  let k := mkKernel V4 [] {[ (10000, None) := mkAttrs 2 0 None None 1 ]} [] [] [] [] in
  snd (findEmptyRouteTable FAMILY_V4 k) = ROk 10001
  /\ 10000 <= 10001 < 40000 /\ tableEmpty k 10001
  /\ (forall j, 10000 <= j < 10001 -> ~ tableEmpty k j)
  /\ sameState k (fst (findEmptyRouteTable FAMILY_V4 k)).
Proof.
  intros k. split; [vm_compute; reflexivity|].
  apply (proj1 (findEmptyRouteTable_first_empty FAMILY_V4 k)
               (fst (findEmptyRouteTable FAMILY_V4 k)) 10001).
  vm_compute. reflexivity.
Defined.

(** ** Following a computation step by step *)

Section Steps.

Context (Q : Kernel -> Kernel -> bool -> Prop) `{!Sequential Q}.

Lemma post_ret {A} (a : A) : post Q (ret a).
Proof. intros k k' r H. apply ret_inv in H as [-> ->]. apply seq_refl. Qed.

Lemma post_fail {A} (e : Errno) : post Q (@fail A e).
Proof. intros k k' r H. apply fail_inv in H as [-> ->]. apply seq_refl. Qed.

Lemma post_bind {A B} (m : M A) (f : A -> M B) :
  post Q m -> (forall a, post Q (f a)) -> post Q (bind m f).
Proof.
  intros Hm Hf k k' r H. apply bind_inv in H as [(k1 & a & H1 & H2)|(e & H1 & ->)].
  - apply (seq_trans k k1 k'); [exact (Hm _ _ _ H1) | exact (Hf a _ _ _ H2)].
  - exact (Hm _ _ _ H1).
Qed.

Lemma post_forEach {A} (l : list A) (body : A -> M unit) :
  (forall x, In x l -> post Q (body x)) -> post Q (forEach l body).
Proof.
  induction l as [|x l IH]; intros Hb; cbn [forEach].
  - apply post_ret.
  - apply post_bind; [apply Hb; left; reflexivity|].
    intros _. apply IH. intros y Hy. apply Hb. right. exact Hy.
Qed.

Lemma post_liftRes {A} (r : Res A) : post Q (liftRes r).
Proof. destruct r; [apply post_ret | apply post_fail]. Qed.

(** A netlink call does what its operation does, or fails. *)
Lemma post_call {A} (op : M A) : post Q op -> post Q (call op).
Proof.
  intros Hop k k' r H. unfold call in H.
  assert (Hrun : forall f,
            match op (setFaults k f) with
            | (k1, ROk a) => (k1, ROk a)
            | (k1, RErr e) => (logEvent k1 EvFailed, RErr e)
            end = (k', r) -> Q k k' (isOk r)).
  { intros f Hf. destruct (op (setFaults k f)) as [k1 [a|e]] eqn:Hk1;
      injection Hf as <- <-; pose proof (Hop _ _ _ Hk1) as Hq; simpl in Hq |- *.
    - apply (seq_trans k (setFaults k f)); [apply seq_faults | exact Hq].
    - apply (seq_trans k (setFaults k f)); [apply seq_faults|].
      apply seq_failed. exact Hq. }
  destruct (kFaults k) as [|[|] rest].
  - apply (Hrun _ H).
  - injection H as <- <-. simpl.
    apply (seq_trans k (setFaults k rest)); [apply seq_faults|].
    apply seq_failed, seq_refl.
  - apply (Hrun _ H).
Qed.

(** Calls that only read. *)
Lemma post_read {A} (v : Kernel -> Res A) : post Q (call (fun k => (k, v k))).
Proof. apply post_call. intros k k' r [= <- <-]. apply seq_refl. Qed.

Lemma post_RuleList : post Q RuleList.
Proof. apply (post_read (fun k => ROk _)). Qed.

Lemma post_RouteListByTable (t : Z) : post Q (RouteListByTable t).
Proof. apply (post_read (fun k => ROk _)). Qed.

Lemma post_RouteListByTableType (t ty : Z) : post Q (RouteListByTableType t ty).
Proof. apply (post_read (fun k => ROk _)). Qed.

Lemma post_RouteListByOifDst (i : Z) (d : option IPNet) : post Q (RouteListByOifDst i d).
Proof. apply (post_read (fun k => ROk _)). Qed.

Lemma post_RouteListMain : post Q RouteListMain.
Proof. apply (post_read (fun k => ROk _)). Qed.

Lemma post_LinkList : post Q LinkList.
Proof. apply (post_read (fun k => ROk _)). Qed.

Lemma post_AddrListAll : post Q AddrListAll.
Proof. apply (post_read (fun k => ROk _)). Qed.

Lemma post_AddrList (link : Link.t) : post Q (AddrList link).
Proof. apply (post_read (fun k => ROk _)). Qed.

Lemma post_LinkByName (name : string) : post Q (LinkByName name).
Proof.
  apply post_call. intros k k' r H.
  destruct (List.find _ _); injection H as <- <-; apply seq_refl.
Qed.

Lemma post_checkIfRuleExist (src : option IPNet) (table family : Z) :
  post Q (checkIfRuleExist src table family).
Proof.
  apply post_bind; [apply post_RuleList|]. intros l.
  destruct (List.find _ _); apply post_ret.
Qed.

Lemma post_findHighestUnusedRulePriority (family : Z) :
  post Q (findHighestUnusedRulePriority family).
Proof.
  apply post_bind; [apply post_RuleList|]. intros l.
  destruct (scanRules l) as [pm nl].
  destruct (priorityLoop _ _ _ _); [apply post_ret | apply post_fail].
Qed.

Lemma post_checkIfRouteTableEmpty (t family : Z) : post Q (checkIfRouteTableEmpty t family).
Proof. apply post_bind; [apply post_RouteListByTable|]. intros l. apply post_ret. Qed.

Lemma post_emptyTableLoop (fuel : nat) (i family : Z) : post Q (emptyTableLoop fuel i family).
Proof.
  revert i. induction fuel as [|fuel IH]; intros i; cbn [emptyTableLoop].
  - apply post_fail.
  - destruct (i <? MaxRouteTableNum); [|apply post_fail].
    apply post_bind; [apply post_checkIfRouteTableEmpty|].
    intros [|]; [apply post_ret | apply IH].
Qed.

Lemma post_findEmptyRouteTable (family : Z) : post Q (findEmptyRouteTable family).
Proof. apply post_emptyTableLoop. Qed.

Lemma post_chooseTable (ruleExist : bool) (existRule : option Rule.t) (family : Z) :
  post Q (chooseTable ruleExist existRule family).
Proof.
  unfold chooseTable. destruct ruleExist; simpl.
  - destruct existRule; apply post_ret.
  - apply post_findEmptyRouteTable.
Qed.

End Steps.

Section RouteSteps.

Lemma sameButRoutes_refl (k : Kernel) : sameButRoutes k k.
Proof. repeat split. Qed.

Lemma sameButRoutes_trans (k1 k2 k3 : Kernel) :
  sameButRoutes k1 k2 -> sameButRoutes k2 k3 -> sameButRoutes k1 k3.
Proof.
  intros (a1 & a2 & a3 & a4) (b1 & b2 & b3 & b4). repeat split; congruence.
Qed.

Lemma isRouteEvent_routeOrFailed (evs : list Event) :
  Forall isRouteEvent evs -> Forall routeOrFailed evs.
Proof. intros H. eapply Forall_impl; [exact H|]. intros e He. left. exact He. Qed.

#[global] Instance routeStep_Sequential : Sequential routeStep.
Proof.
  split.
  - intros k b. split; [apply sameButRoutes_refl|].
    exists []. rewrite app_nil_r. auto.
  - intros k1 k2 k3 b (Hs1 & e1 & Hl1 & Hf1 & Hok1) (Hs2 & e2 & Hl2 & Hf2 & Hok2).
    split; [exact (sameButRoutes_trans _ _ _ Hs1 Hs2)|].
    exists (e1 ++ e2). rewrite Hl2, Hl1, app_assoc.
    split; [reflexivity|]. split.
    + apply Forall_app. auto.
    + intros Hb. apply Forall_app. auto.
  - intros k f. split; [repeat split|]. exists []. simpl. rewrite app_nil_r. auto.
  - intros k k' (Hs & evs & Hl & Hf & _).
    split; [exact Hs|]. exists (evs ++ [EvFailed]). simpl. rewrite Hl, app_assoc.
    split; [reflexivity|]. split; [|discriminate].
    apply Forall_app. split; [exact Hf|]. constructor; [right; reflexivity | constructor].
Qed.

Lemma routeStep_RouteReplace (route : Route.t) : post routeStep (RouteReplace route).
Proof.
  apply post_call; [exact _|]. intros k k' r [= <- <-].
  split; [repeat split|]. exists [EvRouteReplace route].
  split; [reflexivity|]. split; [|intros _]; repeat constructor.
Qed.

Lemma routeStep_RouteDel (route : Route.t) : post routeStep (RouteDel route).
Proof.
  apply post_call; [exact _|]. intros k k' r H.
  destruct (kRoutes k !! routeKey route); injection H as <- <-.
  - split; [repeat split|]. exists [EvRouteDel route].
    split; [reflexivity|]. split; [|intros _]; repeat constructor.
  - apply seq_refl.
Qed.

End RouteSteps.

(** ** Enhanced addresses *)

Section AddrSteps.

#[global] Instance addrStep_Sequential : Sequential addrStep.
Proof.
  split.
  - intros k b. split; [exists []; rewrite app_nil_r; auto | auto].
  - intros k1 k2 k3 b [(e1 & Hl1 & Hf1) Ha1] [(e2 & Hl2 & Hf2) Ha2]. split.
    + exists (e1 ++ e2). rewrite Hl2, Hl1, app_assoc. split; [reflexivity|].
      apply Forall_app. auto.
    + intros a Ha. destruct (Ha2 a Ha) as [H|H]; [apply Ha1, H | right; exact H].
  - intros k f. split; [exists []; simpl; rewrite app_nil_r; auto | auto].
  - intros k k' [(evs & Hl & Hf) Ha]. split; [|exact Ha].
    exists (evs ++ [EvFailed]). simpl. rewrite Hl, app_assoc. split; [reflexivity|].
    apply Forall_app. split; [exact Hf | repeat constructor].
Qed.

Lemma addrStep_AddrDel (link : Link.t) (addr : Addr.t) : post addrStep (AddrDel link addr).
Proof.
  apply post_call; [exact _|]. intros k k' r H.
  destruct (existsb _ _); injection H as <- <-; [|apply seq_refl]. split.
  - eexists [_]. split; [reflexivity | repeat constructor].
  - intros a Ha. simpl in Ha. apply List.filter_In in Ha as [Ha _]. left. exact Ha.
Qed.

Lemma installsOnly_AddrAdd (link : Link.t) (addr : Addr.t) (k k' : Kernel) (r : Res unit) :
  AddrAdd link addr k = (k', r) -> installsOnly addr k k'.
Proof.
  intros H. apply call_inv in H
    as [(_ & Hs & Hl)|(k0 & k1 & Hs & Hl & [(a & Hop & _ & ->)|(e & Hop & _)])].
  - destruct Hs as (_ & _ & _ & _ & Ha). split.
    + exists [EvFailed]. split; [exact Hl | repeat constructor].
    + intros a Hin. left. rewrite <- Ha. exact Hin.
  - injection Hop as <- _. destruct Hs as (_ & _ & _ & _ & Ha). split.
    + eexists [_]. simpl. rewrite Hl. split; [reflexivity|].
      repeat constructor.
    + intros x Hin. simpl in Hin. rewrite Ha in Hin.
      apply List.in_app_or in Hin as [Hin|[<-|[]]].
      * left. exact Hin.
      * right. repeat split.
  - discriminate.
Qed.

Lemma installsOnly_addrStep (addr : Addr.t) (k k' : Kernel) (b : bool) :
  linkScoped addr -> installsOnly addr k k' -> addrStep k k' b.
Proof.
  intros [Hsc Hfl] [(evs & Hl & Hf) Ha].
  assert (Hg : forall a, asGiven addr a -> linkScoped a).
  { intros a (_ & H1 & H2). split; congruence. }
  split.
  - exists evs. split; [exact Hl|]. eapply Forall_impl; [exact Hf|].
    intros e He. destruct e; simpl in *; auto.
  - intros a Hin. destruct (Ha a Hin) as [H|H]; auto.
Qed.

(** The helper modelled from the spec installs the address it is given. *)
Lemma installsOnly_FromSpec (link : Link.t) (addr : Addr.t) (old : option Addr.t)
    (family : Z) (k k' : Kernel) (r : Res unit) :
  ensureSubnetEnhancedAddrFromSpec link addr old family k = (k', r) ->
  installsOnly addr k k'.
Proof.
  unfold ensureSubnetEnhancedAddrFromSpec. intros H.
  apply bind_inv in H as [(k1 & [] & H1 & H2)|(e & H1 & ->)].
  - apply installsOnly_AddrAdd in H1 as [(e1 & Hl1 & Hf1) Ha1].
    assert (Hdel : exists evs, kLog k' = kLog k1 ++ evs
                     /\ Forall (addsGiven addr) evs
                     /\ (forall a, In a (kAddrs k') -> In a (kAddrs k1))).
    { destruct old as [o|].
      - apply call_inv in H2
          as [(_ & Hs & Hl)|(k0 & k2 & Hs & Hl & [(u & Hop & _ & ->)|(e & Hop & _ & ->)])].
        + exists [EvFailed]. destruct Hs as (_ & _ & _ & _ & Ha).
          split; [exact Hl|]. split; [repeat constructor|]. intros a. rewrite Ha. auto.
        + destruct Hs as (_ & _ & _ & _ & Ha).
          destruct (existsb _ _); [|discriminate]. injection Hop as <- _.
          eexists [_]. simpl. rewrite Hl. split; [reflexivity|].
          split; [repeat constructor|].
          intros x Hin. apply List.filter_In in Hin as [Hin _]. rewrite <- Ha. exact Hin.
        + destruct Hs as (_ & _ & _ & _ & Ha).
          destruct (existsb _ _); [discriminate|]. injection Hop as <- _.
          exists [EvFailed]. simpl. rewrite Hl. split; [reflexivity|].
          split; [repeat constructor|]. intros a. rewrite Ha. auto.
      - apply ret_inv in H2 as [-> _]. exists []. rewrite app_nil_r. auto. }
    destruct Hdel as (e2 & Hl2 & Hf2 & Ha2). split.
    + exists (e1 ++ e2). rewrite Hl2, Hl1, app_assoc. split; [reflexivity|].
      apply Forall_app. auto.
    + intros a Hin. apply Ha1, Ha2, Hin.
  - apply installsOnly_AddrAdd in H1. exact H1.
Qed.

End AddrSteps.

Section SyncAddresses.

Context (CheckIfContainerNetworkLink : string -> bool)
        (checkIfEnhancedAddr : Link.t -> Addr.t -> Z -> Res bool)
        (getIPInstanceByAddress : IP -> Res (option string))
        (ensureSubnetEnhancedAddr : Link.t -> Addr.t -> option Addr.t -> Z -> M unit).

Hypothesis ensureSubnetEnhancedAddr_installsOnly :
  forall link addr old family k k' r,
    ensureSubnetEnhancedAddr link addr old family k = (k', r) -> installsOnly addr k k'.

Lemma addrStep_classifyAddrs (m : Manager) (link : Link.t) (l : list Addr.t) (ex : Exist) :
  post addrStep (classifyAddrs checkIfEnhancedAddr m link l ex).
Proof.
  revert ex. induction l as [|a l IH]; intros ex; cbn [classifyAddrs].
  - apply post_ret; exact _.
  - apply post_bind; [exact _ | apply post_liftRes; exact _|]. intros b. apply IH.
Qed.

Lemma addrStep_collectExist (m : Manager) (l : list Link.t) (ex : Exist) :
  post addrStep (collectExist CheckIfContainerNetworkLink checkIfEnhancedAddr m l ex).
Proof.
  revert ex. induction l as [|link l IH]; intros ex; cbn [collectExist].
  - apply post_ret; exact _.
  - destruct (CheckIfContainerNetworkLink _); [apply IH|].
    apply post_bind; [exact _ | apply post_AddrList; exact _|]. intros addrs.
    apply post_bind; [exact _ | apply addrStep_classifyAddrs|]. intros ex1. apply IH.
Qed.

Lemma addrStep_clearEnhanced (m : Manager) (ex : Exist) : post addrStep (clearEnhanced m ex).
Proof.
  apply post_forEach; [exact _|]. intros [name sub] _. simpl.
  destruct (interfaceToSubnetMap m !! name) as [target|].
  - apply post_forEach; [exact _|]. intros [text a] _. simpl.
    destruct (target !! text); [apply post_ret; exact _ | apply addrStep_AddrDel].
  - apply post_forEach; [exact _|]. intros [text a] _. apply addrStep_AddrDel.
Qed.

Lemma addrStep_outOfDate (m : Manager) (ex : Exist) (name : string) (text : NetText)
    (podIP : IP) :
  post addrStep (outOfDate getIPInstanceByAddress m ex name text podIP).
Proof.
  unfold outOfDate.
  destruct (lookup2 name text (existManualAddrSubnetMap ex)); [apply post_ret; exact _|].
  destruct (lookup2 name text (existEnhancedAddrMap ex)) as [a|]; [|apply post_ret; exact _].
  destruct (Equal _ _); [apply post_ret; exact _|].
  apply post_bind; [exact _ | apply post_liftRes; exact _|].
  intros [node|]; [|apply post_ret; exact _].
  destruct (String.eqb _ _); apply post_ret; exact _.
Qed.

Lemma addrStep_ensureOne (m : Manager) (ex : Exist) (name : string) (link : Link.t)
    (text : NetText) (podIP : IP) :
  post addrStep (ensureOne getIPInstanceByAddress ensureSubnetEnhancedAddr
                           m ex name link text podIP).
Proof.
  apply post_bind; [exact _ | apply addrStep_outOfDate|].
  intros [old|]; [|apply post_ret; exact _].
  apply post_bind; [exact _ | apply post_liftRes; exact _|]. intros mask k k' r H.
  apply ensureSubnetEnhancedAddr_installsOnly in H.
  eapply installsOnly_addrStep; [|exact H]. split; reflexivity.
Qed.

Lemma addrStep_ensureEnhanced (m : Manager) (ex : Exist) :
  post addrStep (ensureEnhanced getIPInstanceByAddress ensureSubnetEnhancedAddr m ex).
Proof.
  apply post_forEach; [exact _|]. intros [name sub] _.
  apply post_bind; [exact _ | apply post_LinkByName; exact _|]. intros link.
  apply post_forEach; [exact _|]. intros [text podIP] _. apply addrStep_ensureOne.
Qed.

(** C9. Whatever [SyncAddresses] finds and however its calls fare, every
    address it adds, for every interface, subnet and pod address it tracks, is
    of scope RT_SCOPE_LINK and carries the flag IFA_F_NOPREFIXROUTE, given
    that [ensureSubnetEnhancedAddr] adds no address but the one it is handed:
    the requests logged by the call add such addresses only, and every
    address of the kernel after the call was there before or is such an
    address. *)
Theorem SyncAddresses_link_scope (m : Manager) (k k' : Kernel) (r : Res unit) :
  SyncAddresses CheckIfContainerNetworkLink checkIfEnhancedAddr getIPInstanceByAddress
                ensureSubnetEnhancedAddr m k = (k', r) ->
  (exists evs, kLog k' = kLog k ++ evs
     /\ Forall (fun e => match e with
                         | EvAddrAdd a => Addr.Scope a = RT_SCOPE_LINK
                                          /\ Addr.Flags a = IFA_F_NOPREFIXROUTE
                         | _ => True
                         end) evs)
  /\ (forall a, In a (kAddrs k') ->
        In a (kAddrs k)
        \/ (Addr.Scope a = RT_SCOPE_LINK /\ Addr.Flags a = IFA_F_NOPREFIXROUTE)).
Proof.
  intros H.
  assert (Hp : post addrStep
                 (SyncAddresses CheckIfContainerNetworkLink checkIfEnhancedAddr
                                getIPInstanceByAddress ensureSubnetEnhancedAddr m)).
  { apply post_bind; [exact _ | apply post_LinkList; exact _|]. intros links.
    apply post_bind; [exact _ | apply addrStep_collectExist|]. intros ex.
    apply post_bind; [exact _ | apply addrStep_clearEnhanced|]. intros _.
    apply addrStep_ensureEnhanced. }
  exact (Hp _ _ _ H).
Qed.

End SyncAddresses.

Lemma SyncAddresses_link_scope_witness :
  let m := mkManager FAMILY_V4 "node1"
             {[ "eth0"%string := {[ (32, 167772160, 24) := mkIP V4 167772165 ]} ]} in
  let k := mkKernel V4 [] ∅ [Link.mk "eth0" 2] [] [] [] in
  let k' := fst (SyncAddresses (fun _ => false) (fun _ _ _ => ROk false)
                               (fun _ => ROk None) ensureSubnetEnhancedAddrFromSpec m k) in
  kLog k' = [EvAddrAdd (Addr.mk (mkIPNet (mkIP V4 167772165) (mkMask 24 32)) EmptyString
                                IFA_F_NOPREFIXROUTE RT_SCOPE_LINK 2)]
  /\ forall a, In a (kAddrs k') ->
       In a (kAddrs k)
       \/ (Addr.Scope a = RT_SCOPE_LINK /\ Addr.Flags a = IFA_F_NOPREFIXROUTE).
Proof.
  intros m k k'. split; [vm_compute; reflexivity|].
  assert (Hrun : SyncAddresses (fun _ => false) (fun _ _ _ => ROk false)
                   (fun _ => ROk None) ensureSubnetEnhancedAddrFromSpec m k
                 = (k', snd (SyncAddresses (fun _ => false) (fun _ _ _ => ROk false)
                               (fun _ => ROk None) ensureSubnetEnhancedAddrFromSpec m k)))
    by (vm_compute; reflexivity).
  exact (proj2 (SyncAddresses_link_scope (fun _ => false) (fun _ _ _ => ROk false)
                  (fun _ => ROk None) ensureSubnetEnhancedAddrFromSpec
                  installsOnly_FromSpec m k k' _ Hrun)).
Defined.

(** ** The rule of a subnet comes last *)

Section RuleLast.

Lemma GetDefaultRoute_inv (family : Z) (k k' : Kernel) (r : Res Route.t) :
  GetDefaultRoute family k = (k', r) ->
  sameState k k'
  /\ ((kLog k' = kLog k
       /\ ((exists route,
              r = ROk route
              /\ List.find (fun x => IsDefaultRoute x family)
                           (dump k (fun x => Route.Table x =? RT_TABLE_MAIN)) = Some route)
           \/ (r = RErr ENotExist
               /\ List.find (fun x => IsDefaultRoute x family)
                            (dump k (fun x => Route.Table x =? RT_TABLE_MAIN)) = None)))
      \/ (kLog k' = kLog k ++ [EvFailed] /\ r = RErr ENetlink)).
Proof.
  unfold GetDefaultRoute. intros H.
  apply bind_inv in H as [(k1 & l & Hl & H)|(e & Hl & ->)].
  - apply RouteListByTable_inv in Hl as [Hs [[Hr Hlog]|[Hr _]]]; [|discriminate].
    injection Hr as ->.
    destruct (List.find _ _) as [route|] eqn:Hfind.
    + apply ret_inv in H as [-> ->]. split; [exact Hs|]. left. split; [exact Hlog|].
      left. eauto.
    + apply fail_inv in H as [-> ->]. split; [exact Hs|]. left. split; [exact Hlog|].
      right. auto.
  - apply RouteListByTable_inv in Hl as [Hs [[Hr _]|[Hr Hlog]]]; [discriminate|].
    injection Hr as ->. split; [exact Hs|]. right. auto.
Qed.

Lemma sameState_routeStep (k k' : Kernel) :
  sameState k k' -> kLog k' = kLog k -> routeStep k k' true.
Proof.
  intros (H1 & H2 & H3 & H4 & H5) Hl. split; [repeat split; assumption|].
  exists []. rewrite app_nil_r. auto.
Qed.

Lemma routeStep_ensureExcludedIPBlockRoutes (X : list (NetText * IPNet)) (table family : Z) :
  post routeStep (ensureExcludedIPBlockRoutes X table family).
Proof.
  apply post_bind; [exact _ | apply post_RouteListByTableType; exact _|]. intros l.
  apply post_bind; [exact _| |].
  - apply post_forEach; [exact _|]. intros route _.
    destruct (match Route.Dst route with Some _ => _ | None => _ end);
      [apply post_ret; exact _ | apply routeStep_RouteDel].
  - intros _. apply post_forEach; [exact _|]. intros entry _. apply routeStep_RouteReplace.
Qed.

Lemma routeStep_ensureRoutesForVxlanSubnet (link : Link.t) (cidr : IPNet) (table : Z)
    (nat : bool) (family : Z) (U : SubnetInfoMap) (X : list (NetText * IPNet)) :
  post routeStep (ensureRoutesForVxlanSubnet link cidr table nat family U X).
Proof.
  apply post_bind; [exact _ | apply post_RouteListByTable; exact _|]. intros l.
  destruct (negb nat).
  - apply post_bind; [exact _ | apply routeStep_RouteReplace|]. intros _.
    apply post_forEach; [exact _|]. intros route _.
    destruct (Route.Dst route); [apply routeStep_RouteDel | apply post_ret; exact _].
  - apply post_bind; [exact _| |].
    + apply post_forEach; [exact _|]. intros route _.
      destruct (isExcludeRoute route); [apply post_ret; exact _|].
      destruct (Route.Dst route) as [dst|]; [|apply routeStep_RouteDel].
      destruct (hasKey U _); [apply post_ret; exact _ | apply routeStep_RouteDel].
    + intros _. apply post_bind; [exact _| |].
      * apply post_forEach; [exact _|]. intros entry _. apply routeStep_RouteReplace.
      * intros _. apply routeStep_ensureExcludedIPBlockRoutes.
Qed.

Lemma try_inv {A} (m : M A) (k k' : Kernel) (r : Res (Res A)) :
  try m k = (k', r) -> exists r0, m k = (k', r0) /\ r = ROk r0.
Proof.
  unfold try. destruct (m k) as [k1 r0]. intros [= <- <-]. eauto.
Qed.

(** What follows the look at the default route in
    [ensureRoutesForVlanSubnet]. *)
Lemma routeStep_vlan_src (link : Link.t) (cidr : IPNet) (gateway : option IP)
    (res : Res Route.t) :
  post routeStep
    (let* _ := match res with
               | RErr ENotExist => ret tt
               | RErr e => fail e
               | ROk defaultRoute =>
                   if (Route.LinkIndex defaultRoute =? Link.Index link)
                      && match Route.Gw defaultRoute with
                         | Some _ => negb (equalOpt (Route.Gw defaultRoute) gateway)
                         | None => false
                         end
                   then fail EGatewayConflict
                   else ret tt
               end in
     let* directRouteList := RouteListByOifDst (Link.Index link) (Some cidr) in
     match directRouteList with
     | [] => fail ENoDirectRoute
     | first :: _ => ret (Route.Src first)
     end).
Proof.
  apply post_bind; [exact _| |].
  - destruct res as [route|e].
    + destruct (_ && _); [apply post_fail | apply post_ret]; exact _.
    + destruct e; try (apply post_fail; exact _). apply post_ret; exact _.
  - intros _. apply post_bind; [exact _ | apply post_RouteListByOifDst; exact _|].
    intros [|first l]; [apply post_fail | apply post_ret]; exact _.
Qed.

Lemma routeStep_ensureRoutesForVlanSubnet (link : Link.t) (cidr : IPNet)
    (gateway : option IP) (table family : Z) :
  post routeStep (ensureRoutesForVlanSubnet link cidr gateway table family).
Proof.
  apply post_bind; [exact _ | apply post_AddrListAll; exact _|]. intros addrs.
  destruct (negb (containsOpt cidr gateway)); [apply post_fail; exact _|].
  apply post_bind; [exact _| |].
  - destruct (existsb _ addrs); [|apply post_ret; exact _].
    intros k k' r H.
    apply bind_inv in H as [(k1 & res & Ht & H)|(e & Ht & _)].
    + apply try_inv in Ht as (r0 & Hg & [= ->]).
      apply GetDefaultRoute_inv in Hg as [Hs [[Hl Hr]|[Hl ->]]].
      * apply (seq_trans k k1 k'); [apply sameState_routeStep; assumption|].
        exact (routeStep_vlan_src link cidr gateway r0 _ _ _ H).
      * cbv [bind fail] in H. injection H as <- <-.
        destruct Hs as (H1 & H2 & H3 & H4 & H5). split; [repeat split; assumption|].
        exists [EvFailed]. split; [exact Hl|]. split; [|discriminate].
        constructor; [right; reflexivity | constructor].
    + apply try_inv in Ht as (r0 & _ & [=]).
  - intros src. apply post_bind; [exact _ | apply routeStep_RouteReplace|].
    intros _. apply routeStep_RouteReplace.
Qed.

Lemma routeStep_ensureRoutesByMode (link : Link.t) (cidr : IPNet) (gateway : option IP)
    (nat : bool) (table family : Z) (U : SubnetInfoMap) (X : list (NetText * IPNet))
    (mode : NetworkMode) :
  post routeStep (ensureRoutesByMode link cidr gateway nat table family U X mode).
Proof.
  destruct mode; simpl.
  - apply routeStep_ensureRoutesForVxlanSubnet.
  - apply routeStep_ensureRoutesForVlanSubnet.
  - apply routeStep_RouteReplace.
  - apply routeStep_RouteReplace.
  - apply post_fail; exact _.
Qed.

(** A step that touched nothing but routes added no rule. *)
Lemma routeStep_no_rule (k k' : Kernel) (b : bool) :
  routeStep k k' b ->
  exists evs, kLog k' = kLog k ++ evs
              /\ kRules k' = kRules k /\ Forall (fun e => ~ isRuleAdd e) evs.
Proof.
  intros ((_ & Hr & _) & evs & Hl & Hf & _). exists evs.
  split; [exact Hl|]. split; [exact Hr|].
  eapply Forall_impl; [exact Hf|]. intros e [He| ->]; [|simpl; tauto].
  destruct e; simpl in *; tauto.
Qed.

Lemma checkIfRuleExist_inv (src : option IPNet) (table family : Z) (k k' : Kernel)
    (r : Res (bool * option Rule.t)) :
  checkIfRuleExist src table family k = (k', r) ->
  sameState k k'
  /\ ((kLog k' = kLog k
       /\ r = ROk match List.find (fun rule => sameSrc src (Rule.Src rule)
                                     && (if table >? 0 then Rule.Table rule =? table
                                         else true)) (kRules k) with
                  | Some rule => (true, Some rule)
                  | None => (false, None)
                  end)
      \/ (kLog k' = kLog k ++ [EvFailed] /\ r = RErr ENetlink)).
Proof.
  unfold checkIfRuleExist. intros H.
  apply bind_inv in H as [(k1 & l & Hl & H)|(e & Hl & ->)].
  - apply read_inv in Hl as [Hs [(k0 & Hs0 & [= ->] & Hlog)|[[=] _]]].
    destruct Hs0 as (_ & Hrules & _). rewrite Hrules in H.
    destruct (List.find _ _); apply ret_inv in H as [-> ->];
      (split; [exact Hs|]); left; auto.
  - apply read_inv in Hl as [Hs [(k0 & _ & [=] & _)|[[= ->] Hlog]]].
    split; [exact Hs|]. right. auto.
Qed.

#[global] Instance readStep_Sequential : Sequential readStep.
Proof.
  split.
  - intros k b. split; [apply sameState_refl | reflexivity].
  - intros k1 k2 k3 b [Hs1 Hl1] [Hs2 Hl2].
    split; [exact (sameState_trans _ _ _ Hs1 Hs2)|].
    intros Hb. rewrite (Hl2 Hb). apply Hl1. reflexivity.
  - intros k f. split; [repeat split | reflexivity].
  - intros k k' [Hs _]. split; [exact Hs | discriminate].
Qed.

Lemma readStep_routeStep (k k' : Kernel) : readStep k k' true -> routeStep k k' true.
Proof. intros [Hs Hl]. apply sameState_routeStep; [exact Hs | apply Hl; reflexivity]. Qed.

Lemma failed_routeStep (k k' : Kernel) :
  sameState k k' -> kLog k' = kLog k ++ [EvFailed] -> routeStep k k' false.
Proof.
  intros (H1 & H2 & H3 & H4 & H5) Hl. split; [repeat split; assumption|].
  exists [EvFailed]. split; [exact Hl|]. split; [|discriminate].
  constructor; [right; reflexivity | constructor].
Qed.

(** C6. In every run of [ensureFromPodSubnetRuleAndRoutes], whatever the
    fate of its calls: either no rule is added, or exactly one rule, with the
    subnet as its source, is added by the last request of the run, after the
    route function of the mode has returned without error for the table of
    the rule and with every request before it a route request that
    succeeded, and then no rule of that source existed at the start. A run
    that returns an error has added no rule. *)
Theorem ensureFromPodSubnetRuleAndRoutes_rule_last
    (fromRuleMask : Z) (forwardNodeIfName : string) (cidr : IPNet) (gateway : option IP)
    (autoNatOutgoing : bool) (family : Z) (underlaySubnetInfoMap : SubnetInfoMap)
    (underlayExcludeIPBlockMap : list (NetText * IPNet)) (mode : NetworkMode)
    (k k' : Kernel) (r : Res unit) :
  ensureFromPodSubnetRuleAndRoutes fromRuleMask forwardNodeIfName cidr gateway
    autoNatOutgoing family underlaySubnetInfoMap underlayExcludeIPBlockMap mode k
    = (k', r) ->
  exists evs,
    kLog k' = kLog k ++ evs
    /\ ((kRules k' = kRules k /\ Forall (fun e => ~ isRuleAdd e) evs)
        \/ (exists pre rule forwardLink k1 k2,
              evs = pre ++ [EvRuleAdd rule]
              /\ Forall isRouteEvent pre
              /\ kRules k' = kRules k ++ [rule]
              /\ Rule.Src rule = Some cidr
              /\ r = ROk tt
              /\ (forall r0, In r0 (kRules k) -> ~ ruleFor cidr r0)
              /\ sameState k k1
              /\ ensureRoutesByMode forwardLink cidr gateway autoNatOutgoing
                   (Rule.Table rule) family underlaySubnetInfoMap
                   underlayExcludeIPBlockMap mode k1 = (k2, ROk tt)
              /\ kLog k2 = kLog k ++ pre
              /\ kRoutes k' = kRoutes k2))
    /\ (forall e, r = RErr e ->
          kRules k' = kRules k /\ Forall (fun e => ~ isRuleAdd e) evs).
Proof.
  intros H.
  enough (Hmain : exists evs,
            kLog k' = kLog k ++ evs
            /\ ((kRules k' = kRules k /\ Forall (fun e => ~ isRuleAdd e) evs)
                \/ (exists pre rule forwardLink k1 k2,
                      evs = pre ++ [EvRuleAdd rule]
                      /\ Forall isRouteEvent pre
                      /\ kRules k' = kRules k ++ [rule]
                      /\ Rule.Src rule = Some cidr
                      /\ r = ROk tt
                      /\ (forall r0, In r0 (kRules k) -> ~ ruleFor cidr r0)
                      /\ sameState k k1
                      /\ ensureRoutesByMode forwardLink cidr gateway autoNatOutgoing
                           (Rule.Table rule) family underlaySubnetInfoMap
                           underlayExcludeIPBlockMap mode k1 = (k2, ROk tt)
                      /\ kLog k2 = kLog k ++ pre
                      /\ kRoutes k' = kRoutes k2))).
  { destruct Hmain as (evs & Hl & Hd). exists evs. split; [exact Hl|]. split; [exact Hd|].
    intros e ->. destruct Hd as [Hd|(pre & rule & fl & k1 & k2 & _ & _ & _ & _ & Hr & _)];
      [exact Hd | discriminate]. }
  assert (Hnone : forall b, routeStep k k' b ->
            exists evs,
              kLog k' = kLog k ++ evs
              /\ ((kRules k' = kRules k /\ Forall (fun e => ~ isRuleAdd e) evs)
                  \/ (exists pre rule forwardLink k1 k2,
                        evs = pre ++ [EvRuleAdd rule]
                        /\ Forall isRouteEvent pre
                        /\ kRules k' = kRules k ++ [rule]
                        /\ Rule.Src rule = Some cidr
                        /\ r = ROk tt
                        /\ (forall r0, In r0 (kRules k) -> ~ ruleFor cidr r0)
                        /\ sameState k k1
                        /\ ensureRoutesByMode forwardLink cidr gateway autoNatOutgoing
                             (Rule.Table rule) family underlaySubnetInfoMap
                             underlayExcludeIPBlockMap mode k1 = (k2, ROk tt)
                        /\ kLog k2 = kLog k ++ pre
                        /\ kRoutes k' = kRoutes k2))).
  { intros b Hb. apply routeStep_no_rule in Hb as (evs & Hl & Hr & Hf).
    exists evs. split; [exact Hl|]. left. auto. }
  unfold ensureFromPodSubnetRuleAndRoutes in H.
  apply bind_inv in H as [(k1 & [ruleExist existRule] & H1 & H)|(e & H1 & ->)];
    [|apply (Hnone false); exact (post_checkIfRuleExist routeStep _ _ _ _ _ _ H1)].
  pose proof (post_checkIfRuleExist readStep _ _ _ _ _ _ H1) as R1. simpl in R1.
  apply bind_inv in H as [(k2 & table & H2 & H)|(e & H2 & ->)];
    [|apply (Hnone false); apply (seq_trans k k1 k');
      [apply readStep_routeStep, R1 | exact (post_chooseTable routeStep _ _ _ _ _ _ H2)]].
  pose proof (seq_trans _ _ _ _ R1 (post_chooseTable readStep _ _ _ _ _ _ H2)) as R2.
  simpl in R2.
  apply bind_inv in H as [(k3 & forwardLink & H3 & H)|(e & H3 & ->)];
    [|apply (Hnone false); apply (seq_trans k k2 k');
      [apply readStep_routeStep, R2 | exact (post_LinkByName routeStep _ _ _ _ H3)]].
  pose proof (seq_trans _ _ _ _ R2 (post_LinkByName readStep _ _ _ _ H3)) as R3.
  simpl in R3.
  apply bind_inv in H as [(k4 & [] & H4 & H)|(e & H4 & ->)];
    [|apply (Hnone false); apply (seq_trans k k3 k');
      [apply readStep_routeStep, R3
      | exact (routeStep_ensureRoutesByMode _ _ _ _ _ _ _ _ _ _ _ _ H4)]].
  pose proof (seq_trans _ _ _ _ (readStep_routeStep _ _ R3)
                (routeStep_ensureRoutesByMode _ _ _ _ _ _ _ _ _ _ _ _ H4)) as T4.
  simpl in T4.
  destruct ruleExist; simpl in H.
  { apply ret_inv in H as [-> ->]. apply (Hnone true). exact T4. }
  unfold appendHighestUnusedPriorityRuleIfNotExist in H.
  apply bind_inv in H as [(k5 & res2 & H5 & H)|(e & H5 & ->)];
    [|apply (Hnone false); apply (seq_trans k k4 k');
      [exact T4 | exact (post_checkIfRuleExist routeStep _ _ _ _ _ _ H5)]].
  pose proof (post_checkIfRuleExist readStep _ _ _ _ _ _ H5) as R5. simpl in R5.
  destruct (fst res2).
  { apply ret_inv in H as [-> ->]. apply (Hnone true).
    apply (seq_trans k k4 k5); [exact T4 | apply readStep_routeStep, R5]. }
  apply bind_inv in H as [(k6 & priority & H6 & H)|(e & H6 & ->)];
    [|apply (Hnone false); apply (seq_trans k k4 k'); [exact T4|];
      apply (seq_trans k4 k5 k'); [apply readStep_routeStep, R5|];
      exact (post_findHighestUnusedRulePriority routeStep _ _ _ _ H6)].
  pose proof (seq_trans _ _ _ _ R5
                (post_findHighestUnusedRulePriority readStep _ _ _ _ H6)) as R6.
  simpl in R6.
  pose proof (seq_trans _ _ _ _ T4 (readStep_routeStep _ _ R6)) as T6.
  apply call_inv in H
    as [(-> & Hs & Hl)|(k0 & k7 & Hs & Hl & [(u & Hop & -> & ->)|(e & Hop & _)])].
  - apply (Hnone false). apply (seq_trans k k6 k'); [exact T6|].
    apply failed_routeStep; assumption.
  - injection Hop as <- _. destruct u.
    destruct T6 as ((_ & Hrules & _) & pre & Hlog & _ & Hpre).
    destruct R6 as [(_ & _ & Hroutes & _) Hlog6].
    destruct Hs as (_ & Hrules0 & Hroutes0 & _).
    exists (pre ++ [EvRuleAdd (Rule.mk (Some cidr) table priority fromRuleMark fromRuleMask)]).
    split; [simpl; rewrite Hl, Hlog, app_assoc; reflexivity|].
    right. exists pre, (Rule.mk (Some cidr) table priority fromRuleMark fromRuleMask),
             forwardLink, k3, k4.
    split; [reflexivity|]. split; [apply Hpre; reflexivity|].
    split; [simpl; rewrite Hrules0, Hrules; reflexivity|].
    split; [reflexivity|]. split; [reflexivity|].
    split.
    { apply checkIfRuleExist_inv in H1 as [_ [[_ Hres]|[_ Hres]]]; [|discriminate].
      injection Hres as Hres.
      destruct (List.find _ (kRules k)) eqn:Hfind; [discriminate|].
      intros r0 Hin Hfor. pose proof (List.find_none _ _ Hfind r0 Hin) as Hno.
      unfold ruleFor, sameSrc in Hfor. cbv beta in Hno. rewrite Hfor in Hno.
      discriminate. }
    split; [exact (proj1 R3)|].
    split; [exact H4|].
    split; [rewrite <- Hlog, (Hlog6 eq_refl); reflexivity|].
    simpl. rewrite Hroutes0, Hroutes. reflexivity.
  - discriminate.
Qed.

Lemma ensureFromPodSubnetRuleAndRoutes_rule_last_witness :
  let k := mkKernel V4 [Rule.mk None 255 0 0 0; Rule.mk None 254 32766 0 0;
                        Rule.mk None 253 32767 0 0]
                    ∅ [Link.mk "eth0" 2] [] [] [] in
  let cidr := mkIPNet (mkIP V4 167772160) (mkMask 24 32) in
  let run := ensureFromPodSubnetRuleAndRoutes 24576 "eth0" cidr (Some (mkIP V4 167772161))
               false FAMILY_V4 [] [] NetworkModeBGP k in
  kRules (fst run) = kRules k ++ [Rule.mk (Some cidr) 10000 1 0 24576]
  /\ exists evs,
       kLog (fst run) = kLog k ++ evs
       /\ ((kRules (fst run) = kRules k /\ Forall (fun e => ~ isRuleAdd e) evs)
           \/ (exists pre rule forwardLink k1 k2,
                 evs = pre ++ [EvRuleAdd rule]
                 /\ Forall isRouteEvent pre
                 /\ kRules (fst run) = kRules k ++ [rule]
                 /\ Rule.Src rule = Some cidr
                 /\ snd run = ROk tt
                 /\ (forall r0, In r0 (kRules k) -> ~ ruleFor cidr r0)
                 /\ sameState k k1
                 /\ ensureRoutesByMode forwardLink cidr (Some (mkIP V4 167772161)) false
                      (Rule.Table rule) FAMILY_V4 [] [] NetworkModeBGP k1 = (k2, ROk tt)
                 /\ kLog k2 = kLog k ++ pre
                 /\ kRoutes (fst run) = kRoutes k2))
       /\ (forall e, snd run = RErr e ->
             kRules (fst run) = kRules k /\ Forall (fun e => ~ isRuleAdd e) evs).
Proof.
  intros k cidr run. split; [vm_compute; reflexivity|].
  assert (Hrun : ensureFromPodSubnetRuleAndRoutes 24576 "eth0" cidr
                   (Some (mkIP V4 167772161)) false FAMILY_V4 [] [] NetworkModeBGP k
                 = (fst run, snd run)) by (vm_compute; reflexivity).
  exact (ensureFromPodSubnetRuleAndRoutes_rule_last 24576 "eth0" cidr
           (Some (mkIP V4 167772161)) false FAMILY_V4 [] [] NetworkModeBGP k
           (fst run) (snd run) Hrun).
Defined.

End RuleLast.

(** ** Runs that return no error *)

Section Success.

Lemma call_ok_inv {A} (op : M A) (k k' : Kernel) (a : A) :
  call op k = (k', ROk a) ->
  exists k0, sameState k k0 /\ kLog k0 = kLog k /\ op k0 = (k', ROk a).
Proof.
  intros H. apply call_inv in H
    as [([=] & _)|(k0 & k1 & Hs & Hl & [(a' & Hop & [= <-] & ->)|(e & _ & [=] & _)])].
  eauto.
Qed.

Lemma read_ok {A} (v : Kernel -> A) (k k' : Kernel) (a : A) :
  call (fun k0 => (k0, ROk (v k0))) k = (k', ROk a) ->
  sameState k k' /\ kLog k' = kLog k /\ a = v k'.
Proof.
  intros H. apply call_ok_inv in H as (k0 & Hs & Hl & [= <- <-]). auto.
Qed.

Lemma sameState_sameButRoutes (k k' : Kernel) : sameState k k' -> sameButRoutes k k'.
Proof. intros (H1 & H2 & H3 & H4 & H5). repeat split; assumption. Qed.

Lemma sameState_sym (k k' : Kernel) : sameState k k' -> sameState k' k.
Proof. intros (H1 & H2 & H3 & H4 & H5). repeat split; congruence. Qed.

Lemma RouteListByTable_ok (t : Z) (k k' : Kernel) (l : list Route.t) :
  RouteListByTable t k = (k', ROk l) ->
  sameState k k' /\ l = dump k (fun x => Route.Table x =? t).
Proof.
  intros H. apply read_ok in H as (Hs & _ & ->).
  split; [exact Hs | apply dump_sameState, Hs].
Qed.

Lemma RouteListByTableType_ok (t ty : Z) (k k' : Kernel) (l : list Route.t) :
  RouteListByTableType t ty k = (k', ROk l) ->
  sameState k k'
  /\ l = dump k (fun x => (Route.Table x =? t) && (Route.Type_ x =? ty)).
Proof.
  intros H. apply read_ok in H as (Hs & _ & ->).
  split; [exact Hs | apply dump_sameState, Hs].
Qed.

Lemma RouteListByOifDst_ok (i : Z) (d : option IPNet) (k k' : Kernel) (l : list Route.t) :
  RouteListByOifDst i d k = (k', ROk l) ->
  sameState k k'
  /\ l = dump k (fun r => (Route.Table r =? RT_TABLE_MAIN) && (Route.LinkIndex r =? i)
                          && DstKey_eqb (dstKey (Route.Dst r)) (dstKey d)).
Proof.
  intros H. apply read_ok in H as (Hs & _ & ->).
  split; [exact Hs | apply dump_sameState, Hs].
Qed.

Lemma AddrListAll_ok (k k' : Kernel) (l : list Addr.t) :
  AddrListAll k = (k', ROk l) -> sameState k k' /\ l = kAddrs k.
Proof.
  intros H. apply read_ok in H as (Hs & _ & ->). split; [exact Hs|].
  destruct Hs as (_ & _ & _ & _ & Ha). exact Ha.
Qed.

Lemma LinkByName_ok (name : string) (k k' : Kernel) (link : Link.t) :
  LinkByName name k = (k', ROk link) ->
  sameState k k'
  /\ List.find (fun l => String.eqb (Link.Name l) name) (kLinks k) = Some link.
Proof.
  intros H. apply call_ok_inv in H as (k0 & Hs & _ & H).
  destruct Hs as (H1 & H2 & H3 & H4 & H5). rewrite H4 in H.
  destruct (List.find _ _) as [l|]; [|discriminate].
  injection H as <- <-. split; [repeat split; assumption | reflexivity].
Qed.

Lemma RouteReplace_ok (route : Route.t) (k k' : Kernel) (u : unit) :
  RouteReplace route k = (k', ROk u) ->
  sameButRoutes k k'
  /\ kRoutes k' = <[routeKey route := attrsOf route]> (kRoutes k).
Proof.
  intros H. apply call_ok_inv in H as (k0 & Hs & _ & [= <- _]).
  destruct Hs as (H1 & H2 & H3 & H4 & H5). simpl.
  split; [repeat split; assumption | rewrite H3; reflexivity].
Qed.

Lemma RouteDel_ok (route : Route.t) (k k' : Kernel) (u : unit) :
  RouteDel route k = (k', ROk u) ->
  sameButRoutes k k'
  /\ kRoutes k' = delete (routeKey route) (kRoutes k).
Proof.
  intros H. apply call_ok_inv in H as (k0 & Hs & _ & H).
  destruct Hs as (H1 & H2 & H3 & H4 & H5).
  destruct (kRoutes k0 !! routeKey route); [|discriminate].
  injection H as <- _. simpl.
  split; [repeat split; assumption | rewrite H3; reflexivity].
Qed.

(** A loop whose rounds change the routes by [g]. *)
Lemma forEach_ok {A} (g : gmap RouteKey RouteAttrs -> A -> gmap RouteKey RouteAttrs)
    (l : list A) (body : A -> M unit) :
  (forall x k k' u, In x l -> body x k = (k', ROk u) ->
     sameButRoutes k k' /\ kRoutes k' = g (kRoutes k) x) ->
  forall k k' u, forEach l body k = (k', ROk u) ->
    sameButRoutes k k' /\ kRoutes k' = foldl g (kRoutes k) l.
Proof.
  induction l as [|x l IH]; intros Hb k k' u H; cbn [forEach] in H.
  - apply ret_inv in H as [-> _]. split; [apply sameButRoutes_refl | reflexivity].
  - apply bind_ok_inv in H as (k1 & u1 & H1 & H2).
    apply Hb in H1 as [Hs1 Hr1]; [|left; reflexivity].
    apply IH in H2 as [Hs2 Hr2]; [|intros y ka kb ub Hy; apply Hb; right; exact Hy].
    split; [exact (sameButRoutes_trans _ _ _ Hs1 Hs2)|].
    simpl. rewrite Hr2, Hr1. reflexivity.
Qed.

Lemma foldl_delIf_lookup (sel : Route.t -> bool) (l : list Route.t)
    (m : gmap RouteKey RouteAttrs) (kk : RouteKey) :
  foldl (delIf sel) m l !! kk
  = if existsb (fun r => sel r && bool_decide (routeKey r = kk)) l then None else m !! kk.
Proof.
  revert m. induction l as [|r l IH]; intros m; simpl; [reflexivity|].
  rewrite IH. unfold delIf.
  destruct (existsb _ l); [rewrite orb_true_r; reflexivity|]. rewrite orb_false_r.
  destruct (sel r); simpl; [|reflexivity].
  destruct (bool_decide (routeKey r = kk)) eqn:Hd.
  - apply bool_decide_eq_true in Hd. rewrite Hd. apply lookup_delete_eq.
  - apply bool_decide_eq_false in Hd. apply lookup_delete_ne. exact Hd.
Qed.

Lemma foldl_putAt_lookup {A} (key : A -> RouteKey) (v : RouteAttrs) (l : list A)
    (m : gmap RouteKey RouteAttrs) (kk : RouteKey) :
  foldl (putAt key v) m l !! kk = if keyIn key l kk then Some v else m !! kk.
Proof.
  revert m. induction l as [|x l IH]; intros m; simpl; [reflexivity|].
  rewrite IH. unfold keyIn, putAt. simpl.
  destruct (existsb _ l); [rewrite orb_true_r; reflexivity|]. rewrite orb_false_r.
  destruct (bool_decide (key x = kk)) eqn:Hd.
  - apply bool_decide_eq_true in Hd. rewrite Hd. apply lookup_insert_eq.
  - apply bool_decide_eq_false in Hd. apply lookup_insert_ne. exact Hd.
Qed.

(** Whether a dump holds a route of key [kk] that [sel] selects. *)
Lemma existsb_dump (k : Kernel) (keep sel : Route.t -> bool) (kk : RouteKey) :
  existsb (fun r => sel r && bool_decide (routeKey r = kk)) (dump k keep)
  = match kRoutes k !! kk with
    | Some a => keep (shown (kFamily k) (kk, a)) && sel (shown (kFamily k) (kk, a))
    | None => false
    end.
Proof.
  apply eq_true_iff_eq. rewrite List.existsb_exists. split.
  - intros (r & Hin & Hr). apply andb_true_iff in Hr as [Hsel Hkey].
    apply bool_decide_eq_true in Hkey.
    apply In_dump in Hin as [Hkeep (kk' & a & Hl & ->)].
    rewrite routeKey_shown in Hkey. subst kk'. rewrite Hl, Hkeep, Hsel. reflexivity.
  - destruct (kRoutes k !! kk) as [a|] eqn:Hl; [|discriminate].
    intros H. apply andb_true_iff in H as [Hkeep Hsel].
    exists (shown (kFamily k) (kk, a)). split.
    + apply In_dump. split; [exact Hkeep | eauto].
    + rewrite Hsel, routeKey_shown. simpl. apply bool_decide_eq_true. reflexivity.
Qed.

End Success.

(** ** The routes of a subnet, mode by mode *)

Section Modes.

Lemma default_dstKey (family : Z) : dstKey (Some (defaultRouteDstByFamily family)) = None.
Proof. unfold defaultRouteDstByFamily. destruct (family =? FAMILY_V6); reflexivity. Qed.

Lemma hasDst_shown (fam : Family) (t : Z) (d : DstKey) (a : RouteAttrs) :
  hasDst (shown fam ((t, d), a)) = match d with Some _ => true | None => false end.
Proof. destruct d as [[x p]|]; reflexivity. Qed.

(** Without [autoNatOutgoing] the table is left with the default route. *)
Lemma ensureRoutesForVxlanSubnet_overlay (link : Link.t) (cidr : IPNet) (t family : Z)
    (U : SubnetInfoMap) (X : list (NetText * IPNet)) (k k' : Kernel) (u : unit) :
  ensureRoutesForVxlanSubnet link cidr t false family U X k = (k', ROk u) ->
  sameButRoutes k k'
  /\ forall kk, kRoutes k' !! kk = overlayRoute t (Link.Index link) kk (kRoutes k !! kk).
Proof.
  unfold ensureRoutesForVxlanSubnet. intros H.
  apply bind_ok_inv in H as (k1 & l & Hl & H).
  apply RouteListByTable_ok in Hl as [Hs1 ->]. cbn [negb] in H.
  apply bind_ok_inv in H as (k2 & u2 & Hr & H).
  apply RouteReplace_ok in Hr as [Hs2 Hr2].
  apply (forEach_ok (delIf hasDst)) in H as [Hs3 Hr3].
  2: { intros x ka kb ub _ Hx. unfold delIf, hasDst.
       destruct (Route.Dst x); [exact (RouteDel_ok _ _ _ _ Hx)|].
       apply ret_inv in Hx as [-> _]. split; [apply sameButRoutes_refl | reflexivity]. }
  split.
  { apply (sameButRoutes_trans k k1); [apply sameState_sameButRoutes, Hs1|].
    exact (sameButRoutes_trans _ _ _ Hs2 Hs3). }
  intros kk. rewrite Hr3, foldl_delIf_lookup, existsb_dump, Hr2.
  destruct Hs1 as (_ & _ & -> & _).
  unfold routeKey. cbn [Route.Table Route.Dst]. rewrite default_dstKey.
  unfold overlayRoute, hasDst.
  destruct (kRoutes k !! kk) as [a|] eqn:Hlook; destruct kk as [t' d];
    cbn [shown Route.Table Route.Dst fst snd]; destruct (t' =? t) eqn:Ht;
    try (apply Z.eqb_eq in Ht; subst t'); destruct d as [[x p]|]; cbn [andb dstOf];
    try reflexivity; try apply lookup_insert_eq;
    try (rewrite lookup_insert_ne; [exact Hlook|]; intros [= Ht'];
         try discriminate; rewrite Ht', Z.eqb_refl in Ht; discriminate).
Qed.

Lemma ensureExcludedIPBlockRoutes_ok (X : list (NetText * IPNet)) (t family : Z)
    (k k' : Kernel) (u : unit) :
  ensureExcludedIPBlockRoutes X t family k = (k', ROk u) ->
  sameButRoutes k k'
  /\ forall kk,
       kRoutes k' !! kk
       = if keyIn (excludeKey t) X kk then Some (mkAttrs 0 0 None None RTN_THROW)
         else match kRoutes k !! kk with
              | Some a => if (fst kk =? t) && (aType a =? RTN_THROW)
                             && uselessExcludeRoute X (shown (kFamily k) (kk, a))
                          then None else Some a
              | None => None
              end.
Proof.
  unfold ensureExcludedIPBlockRoutes. intros H.
  apply bind_ok_inv in H as (k1 & l & Hl & H).
  apply RouteListByTableType_ok in Hl as [Hs1 ->].
  apply bind_ok_inv in H as (k2 & u2 & Hdel & H).
  apply (forEach_ok (delIf (uselessExcludeRoute X))) in Hdel as [Hs2 Hr2].
  2: { intros x ka kb ub _ Hx. unfold delIf, uselessExcludeRoute.
       destruct (match Route.Dst x with Some _ => _ | None => _ end); cbn [negb].
       - apply ret_inv in Hx as [-> _]. split; [apply sameButRoutes_refl | reflexivity].
       - exact (RouteDel_ok _ _ _ _ Hx). }
  apply (forEach_ok (putAt (excludeKey t) (mkAttrs 0 0 None None RTN_THROW)))
    in H as [Hs3 Hr3].
  2: { intros x ka kb ub _ Hx. exact (RouteReplace_ok _ _ _ _ Hx). }
  split.
  { apply (sameButRoutes_trans k k1); [apply sameState_sameButRoutes, Hs1|].
    exact (sameButRoutes_trans _ _ _ Hs2 Hs3). }
  intros kk. rewrite Hr3, foldl_putAt_lookup, Hr2, foldl_delIf_lookup, existsb_dump.
  destruct Hs1 as (_ & _ & -> & _).
  destruct (keyIn _ X kk); [reflexivity|].
  destruct (kRoutes k !! kk) as [a|]; [|reflexivity].
  cbn [shown Route.Table Route.Type_ fst snd]. reflexivity.
Qed.

(** With [autoNatOutgoing] every entry of the routes becomes its
    [natRoute]. *)
Lemma ensureRoutesForVxlanSubnet_nat (link : Link.t) (cidr : IPNet) (t family : Z)
    (U : SubnetInfoMap) (X : list (NetText * IPNet)) (k k' : Kernel) (u : unit) :
  ensureRoutesForVxlanSubnet link cidr t true family U X k = (k', ROk u) ->
  sameButRoutes k k'
  /\ forall kk, kRoutes k' !! kk
                = natRoute (kFamily k) t (Link.Index link) U X kk (kRoutes k !! kk).
Proof.
  unfold ensureRoutesForVxlanSubnet. intros H.
  apply bind_ok_inv in H as (k1 & l & Hl & H).
  apply RouteListByTable_ok in Hl as [Hs1 ->]. cbn [negb] in H.
  apply bind_ok_inv in H as (k2 & u2 & Hdel & H).
  apply (forEach_ok (delIf (uselessOverlayRoute U))) in Hdel as [Hs2 Hr2].
  2: { intros x ka kb ub _ Hx. unfold delIf, uselessOverlayRoute.
       destruct (isExcludeRoute x); cbn [negb andb].
       - apply ret_inv in Hx as [-> _]. split; [apply sameButRoutes_refl | reflexivity].
       - destruct (Route.Dst x) as [dst|] eqn:Hdst.
         + destruct (hasKey U _); cbn [negb].
           * apply ret_inv in Hx as [-> _].
             split; [apply sameButRoutes_refl | reflexivity].
           * exact (RouteDel_ok _ _ _ _ Hx).
         + apply RouteDel_ok in Hx as [Hsx Hrx]. split; [exact Hsx|].
           rewrite Hrx. unfold routeKey. cbn [Route.Table Route.Dst].
           rewrite default_dstKey, Hdst. reflexivity. }
  apply bind_ok_inv in H as (k3 & u3 & Hput & H).
  apply (forEach_ok (putAt (underlayKey t)
                           (mkAttrs (Link.Index link) SCOPE_UNIVERSE None None RTN_UNICAST)))
    in Hput as [Hs3 Hr3].
  2: { intros x ka kb ub _ Hx. exact (RouteReplace_ok _ _ _ _ Hx). }
  apply ensureExcludedIPBlockRoutes_ok in H as [Hs4 Hr4].
  assert (Hs13 : sameButRoutes k k3).
  { apply (sameButRoutes_trans k k1); [apply sameState_sameButRoutes, Hs1|].
    exact (sameButRoutes_trans _ _ _ Hs2 Hs3). }
  split; [exact (sameButRoutes_trans _ _ _ Hs13 Hs4)|].
  intros kk. rewrite Hr4, Hr3, foldl_putAt_lookup, Hr2, foldl_delIf_lookup, existsb_dump.
  destruct Hs13 as (-> & _). destruct Hs1 as (_ & _ & -> & _).
  unfold natRoute. cbn zeta.
  destruct (keyIn (excludeKey t) X kk); [reflexivity|].
  destruct (keyIn (underlayKey t) U kk); [reflexivity|].
  destruct (kRoutes k !! kk) as [a|]; [|reflexivity].
  cbn [shown Route.Table fst snd].
  destruct ((fst kk =? t) && uselessOverlayRoute U _); reflexivity.
Qed.

Lemma overlayRoute_idem (t i : Z) (kk : RouteKey) (o : option RouteAttrs) :
  overlayRoute t i kk (overlayRoute t i kk o) = overlayRoute t i kk o.
Proof. unfold overlayRoute. destruct (fst kk =? t); reflexivity. Qed.

Lemma natRoute_idem (fam : Family) (t i : Z) (U : SubnetInfoMap) (X : list (NetText * IPNet))
    (kk : RouteKey) (o : option RouteAttrs) :
  natRoute fam t i U X kk (natRoute fam t i U X kk o) = natRoute fam t i U X kk o.
Proof.
  unfold natRoute. cbn zeta.
  destruct (keyIn (excludeKey t) X kk) eqn:Hx.
  - reflexivity.
  - destruct (keyIn (underlayKey t) U kk) eqn:Hu.
    + reflexivity.
    + destruct o as [a|]; [|reflexivity].
      destruct ((fst kk =? t) && uselessOverlayRoute U (shown fam (kk, a))) eqn:H1;
        [reflexivity|].
      destruct ((fst kk =? t) && (aType a =? RTN_THROW)
                && uselessExcludeRoute X (shown fam (kk, a))) eqn:H3; [reflexivity|].
      rewrite H1, H3. reflexivity.
Qed.

End Modes.

(** ** A second run of the routes of a subnet *)

Section Idempotence.

Lemma NetText_eqb_refl (t : NetText) : NetText_eqb t t = true.
Proof. unfold NetText_eqb. rewrite !Z.eqb_refl. reflexivity. Qed.

Lemma find_app_none {A} (P : A -> bool) (l l' : list A) :
  List.find P l = None -> List.find P (l ++ l') = List.find P l'.
Proof.
  induction l as [|x l IH]; simpl; [reflexivity|].
  destruct (P x); [discriminate | exact IH].
Qed.

Lemma find_ext_eq {A} (P Q : A -> bool) (l : list A) :
  (forall x, P x = Q x) -> List.find P l = List.find Q l.
Proof.
  intros H. induction l as [|x l IH]; simpl; [reflexivity|].
  rewrite H, IH. reflexivity.
Qed.

(** The vlan routes of a subnet: the direct route and the default route. *)
Lemma ensureRoutesForVlanSubnet_ok (link : Link.t) (cidr : IPNet) (gateway : option IP)
    (t family : Z) (k k' : Kernel) (u : unit) :
  ensureRoutesForVlanSubnet link cidr gateway t family k = (k', ROk u) ->
  sameButRoutes k k'
  /\ exists src, vlanSrc k (Link.Index link) cidr src
                 /\ kRoutes k' = vlanRoutes t (Link.Index link) cidr gateway src (kRoutes k).
Proof.
  unfold ensureRoutesForVlanSubnet. intros H.
  apply bind_ok_inv in H as (k1 & addrs & Ha & H).
  apply AddrListAll_ok in Ha as [Hs1 ->].
  destruct (negb (containsOpt cidr gateway)); [apply fail_inv in H as [_ [=]]|].
  apply bind_ok_inv in H as (k2 & src & Hsrc & H).
  assert (Hsrc' : sameState k1 k2 /\ vlanSrc k (Link.Index link) cidr src).
  { unfold vlanSrc, isLocalSubnet. destruct (existsb _ (kAddrs k)).
    - apply bind_ok_inv in Hsrc as (ka & res & Ht & Hsrc).
      apply try_inv in Ht as (r0 & Hg & [= ->]).
      apply GetDefaultRoute_inv in Hg as [Hsa _].
      apply bind_ok_inv in Hsrc as (kb & ub & Hm & Hsrc).
      assert (kb = ka) as ->.
      { destruct r0 as [route|e].
        - destruct (_ && _); [apply fail_inv in Hm as [_ [=]]|].
          apply ret_inv in Hm as [-> _]. reflexivity.
        - destruct e; try (apply fail_inv in Hm as [_ [=]]).
          apply ret_inv in Hm as [-> _]. reflexivity. }
      apply bind_ok_inv in Hsrc as (kc & l & Hl & Hsrc).
      apply RouteListByOifDst_ok in Hl as [Hsc ->].
      destruct (dump ka _) as [|first rest] eqn:Hd; [apply fail_inv in Hsrc as [_ [=]]|].
      apply ret_inv in Hsrc as [-> [= ->]].
      split; [exact (sameState_trans _ _ _ Hsa Hsc)|].
      assert (Hin : In first (dump ka (fun r =>
                      (Route.Table r =? RT_TABLE_MAIN)
                      && (Route.LinkIndex r =? Link.Index link)
                      && DstKey_eqb (dstKey (Route.Dst r)) (dstKey (Some cidr)))))
        by (rewrite Hd; left; reflexivity).
      apply In_dump in Hin as [Hkeep (kk & a & Hlook & ->)].
      apply andb_true_iff in Hkeep as [Hkeep Hdst].
      apply andb_true_iff in Hkeep as [Htab Hidx].
      apply Z.eqb_eq in Htab, Hidx. apply bool_decide_eq_true in Hdst.
      pose proof (routeKey_shown (kFamily ka) kk a) as Hkey.
      unfold routeKey in Hkey. rewrite Htab, Hdst in Hkey.
      exists a. subst kk.
      destruct Hsa as (_ & _ & Hra & _). destruct Hs1 as (_ & _ & Hr1 & _).
      rewrite <- Hr1, <- Hra. split; [exact Hlook|]. split; [exact Hidx | reflexivity].
    - apply ret_inv in Hsrc as [-> [= ->]]. split; [apply sameState_refl | reflexivity]. }
  destruct Hsrc' as [Hs2 Hv].
  apply bind_ok_inv in H as (k3 & u3 & Hr3 & H).
  apply RouteReplace_ok in Hr3 as [Hs3 Hr3].
  apply RouteReplace_ok in H as [Hs4 Hr4].
  split.
  { apply (sameButRoutes_trans k k2);
      [apply sameState_sameButRoutes, (sameState_trans _ _ _ Hs1 Hs2)|].
    exact (sameButRoutes_trans _ _ _ Hs3 Hs4). }
  exists src. split; [exact Hv|].
  rewrite Hr4, Hr3. destruct Hs2 as (_ & _ & -> & _). destruct Hs1 as (_ & _ & -> & _).
  reflexivity.
Qed.

(** A second pass of the vlan routes changes nothing. *)
Lemma vlanRoutes_again (k k1 : Kernel) (t i : Z) (cidr : IPNet) (gateway : option IP)
    (src src' : option IP) :
  vlanSrc k i cidr src ->
  kRoutes k1 = vlanRoutes t i cidr gateway src (kRoutes k) ->
  kAddrs k1 = kAddrs k ->
  vlanSrc k1 i cidr src' ->
  vlanRoutes t i cidr gateway src' (kRoutes k1) = kRoutes k1.
Proof.
  intros Hv Hr Ha Hv'. unfold vlanRoutes in *.
  destruct (dstKey (Some cidr)) as [dk|] eqn:Hdk.
  - assert (src' = src) as ->.
    { unfold vlanSrc in *. rewrite Ha in Hv'. rewrite Hdk in Hv, Hv'.
      destruct (isLocalSubnet cidr (kAddrs k)); [|congruence].
      destruct Hv as (a & Hl & Hi & ->). destruct Hv' as (a' & Hl' & _ & ->).
      rewrite Hr in Hl'. rewrite lookup_insert_ne in Hl' by discriminate.
      destruct (Z.eq_dec t RT_TABLE_MAIN) as [->|Hne].
      - rewrite lookup_insert_eq in Hl'. injection Hl' as <-. reflexivity.
      - rewrite lookup_insert_ne in Hl' by (intros [= Ht]; congruence).
        congruence. }
    rewrite (insert_id (kRoutes k1) (t, Some dk)).
    + apply insert_id. rewrite Hr. apply lookup_insert_eq.
    + rewrite Hr. rewrite lookup_insert_ne by discriminate. apply lookup_insert_eq.
  - rewrite insert_insert_eq. apply insert_id. rewrite Hr. apply lookup_insert_eq.
Qed.

(** The routes of a subnet, set a second time on what the first time left,
    stay as they are. *)
Lemma ensureRoutesByMode_again (link : Link.t) (cidr : IPNet) (gateway : option IP)
    (nat : bool) (t family : Z) (U : SubnetInfoMap) (X : list (NetText * IPNet))
    (mode : NetworkMode) (ka kb kc kd : Kernel) (u u' : unit) :
  ensureRoutesByMode link cidr gateway nat t family U X mode ka = (kb, ROk u) ->
  kFamily kc = kFamily kb -> kRoutes kc = kRoutes kb -> kAddrs kc = kAddrs kb ->
  ensureRoutesByMode link cidr gateway nat t family U X mode kc = (kd, ROk u') ->
  kRoutes kd = kRoutes kb.
Proof.
  intros H1 Hf Hr Ha H2. destruct mode; cbn [ensureRoutesByMode] in H1, H2.
  - destruct nat.
    + apply ensureRoutesForVxlanSubnet_nat in H1 as [(Hf1 & _) Hr1].
      apply ensureRoutesForVxlanSubnet_nat in H2 as [_ Hr2].
      apply map_eq. intros kk.
      rewrite Hr2, Hf, Hr, Hf1, Hr1. apply natRoute_idem.
    + apply ensureRoutesForVxlanSubnet_overlay in H1 as [_ Hr1].
      apply ensureRoutesForVxlanSubnet_overlay in H2 as [_ Hr2].
      apply map_eq. intros kk.
      rewrite Hr2, Hr, Hr1. apply overlayRoute_idem.
  - apply ensureRoutesForVlanSubnet_ok in H1 as [(_ & _ & _ & Ha1) (src & Hv & Hr1)].
    apply ensureRoutesForVlanSubnet_ok in H2 as [_ (src' & Hv' & Hr2)].
    rewrite Hr2, <- Hr.
    apply (vlanRoutes_again ka kc t (Link.Index link) cidr gateway src src' Hv).
    + rewrite Hr. exact Hr1.
    + congruence.
    + exact Hv'.
  - apply RouteReplace_ok in H1 as [_ Hr1]. apply RouteReplace_ok in H2 as [_ Hr2].
    rewrite Hr2, Hr, Hr1. apply insert_insert_eq.
  - apply RouteReplace_ok in H1 as [_ Hr1]. apply RouteReplace_ok in H2 as [_ Hr2].
    rewrite Hr2, Hr, Hr1. apply insert_insert_eq.
  - apply fail_inv in H1 as [_ [=]].
Qed.

End Idempotence.

Section TwoRuns.

Context (fromRuleMask : Z) (forwardNodeIfName : string) (cidr : IPNet)
        (gateway : option IP) (autoNatOutgoing : bool) (family : Z)
        (underlaySubnetInfoMap : SubnetInfoMap)
        (underlayExcludeIPBlockMap : list (NetText * IPNet)) (mode : NetworkMode).

(** What a run without error did: the routes of the mode for the table of
    the rule of the subnet, and that rule added if there was none. *)
Lemma ensureFromPodSubnetRuleAndRoutes_ok (k k1 : Kernel) (u : unit) :
  ensureFromPodSubnetRuleAndRoutes fromRuleMask forwardNodeIfName cidr gateway
    autoNatOutgoing family underlaySubnetInfoMap underlayExcludeIPBlockMap mode k
    = (k1, ROk u) ->
  exists forwardLink table kc kd,
    List.find (fun l => String.eqb (Link.Name l) forwardNodeIfName) (kLinks k)
      = Some forwardLink
    /\ sameState k kc
    /\ ensureRoutesByMode forwardLink cidr gateway autoNatOutgoing table family
         underlaySubnetInfoMap underlayExcludeIPBlockMap mode kc = (kd, ROk tt)
    /\ sameButRoutes k kd
    /\ kFamily k1 = kFamily k /\ kLinks k1 = kLinks k /\ kAddrs k1 = kAddrs k
    /\ kRoutes k1 = kRoutes kd
    /\ ((exists rule,
           List.find (fun rule => sameSrc (Some cidr) (Rule.Src rule)) (kRules k) = Some rule
           /\ table = Rule.Table rule /\ kRules k1 = kRules k)
        \/ (List.find (fun rule => sameSrc (Some cidr) (Rule.Src rule)) (kRules k) = None
            /\ exists rule, Rule.Src rule = Some cidr /\ Rule.Table rule = table
                            /\ kRules k1 = kRules k ++ [rule])).
Proof.
  unfold ensureFromPodSubnetRuleAndRoutes. intros H.
  apply bind_ok_inv in H as (k2 & [ruleExist existRule] & H1 & H).
  apply checkIfRuleExist_inv in H1 as [Hs1 [[_ Hres]|[_ [=]]]].
  injection Hres as Hres.
  assert (Hfind : match List.find (fun rule => sameSrc (Some cidr) (Rule.Src rule))
                                  (kRules k) with
                  | Some rule => (true, Some rule)
                  | None => (false, None)
                  end = (ruleExist, existRule)).
  { rewrite Hres. erewrite find_ext_eq; [reflexivity|].
    intros r. cbn. rewrite andb_true_r. reflexivity. }
  clear Hres.
  apply bind_ok_inv in H as (k3 & table & H2 & H).
  pose proof (post_chooseTable readStep _ _ _ _ _ _ H2) as [Hs2 _].
  apply bind_ok_inv in H as (k4 & forwardLink & H3 & H).
  apply LinkByName_ok in H3 as [Hs3 Hlink].
  assert (Hs14 : sameState k k4).
  { exact (sameState_trans _ _ _ Hs1 (sameState_trans _ _ _ Hs2 Hs3)). }
  assert (Hlink' : List.find (fun l => String.eqb (Link.Name l) forwardNodeIfName)
                             (kLinks k) = Some forwardLink).
  { destruct Hs1 as (_ & _ & _ & Hl1 & _). destruct Hs2 as (_ & _ & _ & Hl2 & _).
    rewrite <- Hl1, <- Hl2. exact Hlink. }
  apply bind_ok_inv in H as (k5 & [] & H4 & H).
  pose proof (routeStep_ensureRoutesByMode _ _ _ _ _ _ _ _ _ _ _ _ H4) as [Hs5 _].
  assert (Hs15 : sameButRoutes k k5).
  { exact (sameButRoutes_trans _ _ _ (sameState_sameButRoutes _ _ Hs14) Hs5). }
  exists forwardLink, table, k4, k5.
  split; [exact Hlink'|]. split; [exact Hs14|]. split; [exact H4|]. split; [exact Hs15|].
  destruct (List.find (fun rule => sameSrc (Some cidr) (Rule.Src rule)) (kRules k))
    as [rule0|] eqn:Hf0; injection Hfind as <- <-; cbn [negb] in H.
  - apply ret_inv in H as [-> _].
    unfold chooseTable in H2. cbn [negb] in H2. apply ret_inv in H2 as [_ [= ->]].
    destruct Hs15 as (Ha & Hb & Hc & Hd).
    split; [exact Ha|]. split; [exact Hc|]. split; [exact Hd|]. split; [reflexivity|].
    left. exists rule0. auto.
  - unfold appendHighestUnusedPriorityRuleIfNotExist in H.
    apply bind_ok_inv in H as (k6 & res2 & H5 & H).
    apply checkIfRuleExist_inv in H5 as [Hs6 [[_ Hres2]|[_ [=]]]].
    injection Hres2 as ->.
    destruct Hs15 as (Ha & Hb & Hc & Hd).
    destruct (List.find _ (kRules k5)) as [r5|] eqn:Hf5.
    { exfalso. apply List.find_some in Hf5 as [Hin Hp].
      apply andb_true_iff in Hp as [Hp _].
      rewrite Hb in Hin.
      pose proof (List.find_none _ _ Hf0 r5 Hin) as Hno. cbv beta in Hno.
      change (sameSrc (Some cidr) (Rule.Src r5) = true) in Hp. congruence. }
    cbn [fst] in H.
    apply bind_ok_inv in H as (k7 & priority & H6 & H).
    pose proof (post_findHighestUnusedRulePriority readStep _ _ _ _ H6) as [Hs7 _].
    apply call_ok_inv in H as (k8 & Hs8 & _ & [= <- _]).
    pose proof (sameState_trans _ _ _ Hs6 (sameState_trans _ _ _ Hs7 Hs8))
      as (Ha8 & Hb8 & Hc8 & Hd8 & He8).
    cbn [logEvent setRules kFamily kRules kRoutes kLinks kAddrs].
    split; [congruence|]. split; [congruence|]. split; [congruence|].
    split; [exact Hc8|].
    right. split; [reflexivity|].
    exists (Rule.mk (Some cidr) table priority fromRuleMark fromRuleMask).
    split; [reflexivity|]. split; [reflexivity|]. rewrite Hb8, Hb. reflexivity.
Qed.

(** C5, amended. When a call of [ensureFromPodSubnetRuleAndRoutes] returns
    without error and a second call in a row with the same input returns
    without error too, the second call leaves the kernel as the first left
    it: the same rules, so no second rule and no other table, and the same
    routes. *)
Theorem ensureFromPodSubnetRuleAndRoutes_idempotent (k k1 k2 : Kernel) :
  ensureFromPodSubnetRuleAndRoutes fromRuleMask forwardNodeIfName cidr gateway
    autoNatOutgoing family underlaySubnetInfoMap underlayExcludeIPBlockMap mode k
    = (k1, ROk tt) ->
  ensureFromPodSubnetRuleAndRoutes fromRuleMask forwardNodeIfName cidr gateway
    autoNatOutgoing family underlaySubnetInfoMap underlayExcludeIPBlockMap mode k1
    = (k2, ROk tt) ->
  kRules k2 = kRules k1 /\ kRoutes k2 = kRoutes k1 /\ sameState k1 k2.
Proof.
  intros H1 H2.
  apply ensureFromPodSubnetRuleAndRoutes_ok in H1
    as (link & t & kc & kd & Hlink & Hsc & Hmode & Hsd & Hf1 & Hl1 & Ha1 & Hr1 & Hrule).
  apply ensureFromPodSubnetRuleAndRoutes_ok in H2
    as (link' & t' & kc' & kd' & Hlink' & Hsc' & Hmode' & Hsd' & Hf2 & Hl2 & Ha2 & Hr2
        & Hrule').
  rewrite Hl1, Hlink in Hlink'. injection Hlink' as <-.
  assert (Hsame : t' = t /\ kRules k2 = kRules k1).
  { assert (Hfound : exists rule,
              List.find (fun rule => sameSrc (Some cidr) (Rule.Src rule)) (kRules k1)
                = Some rule /\ Rule.Table rule = t).
    { destruct Hrule as [(rule & Hf & -> & ->)|(Hnone & rule & Hsrc & Htab & ->)].
      - eauto.
      - exists rule. rewrite (find_app_none _ _ _ Hnone). cbn [List.find].
        rewrite Hsrc. cbn [sameSrc]. rewrite NetText_eqb_refl. auto. }
    destruct Hfound as (rule & Hf & Htab).
    destruct Hrule' as [(rule' & Hf' & -> & Hrules)|(Hnone & _)]; [|congruence].
    rewrite Hf in Hf'. injection Hf' as <-. auto. }
  destruct Hsame as [-> Hrules].
  assert (Hroutes : kRoutes kd' = kRoutes kd).
  { destruct Hsc' as (Hfc & _ & Hrc & _ & Hac). destruct Hsd as (Hfd & _ & _ & Had).
    apply (ensureRoutesByMode_again link cidr gateway autoNatOutgoing t family
             underlaySubnetInfoMap underlayExcludeIPBlockMap mode kc kd kc' kd' tt tt
             Hmode); [| | |exact Hmode']; congruence. }
  split; [exact Hrules|]. split; [congruence|].
  repeat split; congruence.
Qed.

End TwoRuns.

Lemma ensureFromPodSubnetRuleAndRoutes_idempotent_witness :
  let k := mkKernel V4 [Rule.mk None 255 0 0 0; Rule.mk None 254 32766 0 0;
                        Rule.mk None 253 32767 0 0]
                    {[ (10000, Some (3232235520, 16%positive)) := mkAttrs 7 0 None None 1 ]}
                    [Link.mk "eth0" 2] [] [] [] in
  let cidr := mkIPNet (mkIP V4 167772160) (mkMask 24 32) in
  let underlay := mkIPNet (mkIP V4 2886729728) (mkMask 16 32) in
  let U := [((32, 2886729728, 16),
             SubnetInfo.mk underlay None [] [] "eth0" false true NetworkModeVlan)] in
  let X := [((32, 2886729984, 24), mkIPNet (mkIP V4 2886729984) (mkMask 24 32))] in
  let run1 := ensureFromPodSubnetRuleAndRoutes 24576 "eth0" cidr None true FAMILY_V4
                U X NetworkModeVxlan k in
  let run2 := ensureFromPodSubnetRuleAndRoutes 24576 "eth0" cidr None true FAMILY_V4
                U X NetworkModeVxlan (fst run1) in
  snd run1 = ROk tt /\ snd run2 = ROk tt
  /\ kRules (fst run1) = kRules k ++ [Rule.mk (Some cidr) 10001 1 0 24576]
  /\ kRules (fst run2) = kRules (fst run1) /\ kRoutes (fst run2) = kRoutes (fst run1)
  /\ sameState (fst run1) (fst run2).
Proof.
  intros k cidr underlay U X run1 run2.
  split; [vm_compute; reflexivity|]. split; [vm_compute; reflexivity|].
  split; [vm_compute; reflexivity|].
  assert (H1 : ensureFromPodSubnetRuleAndRoutes 24576 "eth0" cidr None true FAMILY_V4
                 U X NetworkModeVxlan k = (fst run1, ROk tt)) by (vm_compute; reflexivity).
  assert (H2 : ensureFromPodSubnetRuleAndRoutes 24576 "eth0" cidr None true FAMILY_V4
                 U X NetworkModeVxlan (fst run1) = (fst run2, ROk tt))
    by (vm_compute; reflexivity).
  exact (ensureFromPodSubnetRuleAndRoutes_idempotent 24576 "eth0" cidr None true FAMILY_V4
           U X NetworkModeVxlan k (fst run1) (fst run2) H1 H2).
Defined.

(** C5 as stated fails: with every priority above that of the rule of the
    node-local table in use, a first call fills table 10000 and returns an
    error with no rule added; the second call, finding no rule and table
    10000 in use, fills table 10001. *)
Lemma ensureFromPodSubnetRuleAndRoutes_table_churn :
  let k := mkKernel V4 [Rule.mk None 255 32767 0 0] ∅ [Link.mk "eth0" 2] [] [] [] in
  let cidr := mkIPNet (mkIP V4 167772160) (mkMask 24 32) in
  let gateway := Some (mkIP V4 167772161) in
  let run1 := ensureFromPodSubnetRuleAndRoutes 24576 "eth0" cidr gateway false FAMILY_V4
                [] [] NetworkModeBGP k in
  let run2 := ensureFromPodSubnetRuleAndRoutes 24576 "eth0" cidr gateway false FAMILY_V4
                [] [] NetworkModeBGP (fst run1) in
  snd run1 = RErr ENoUnusedPriority /\ snd run2 = RErr ENoUnusedPriority
  /\ kRoutes (fst run1) !! (10000, None) = Some (mkAttrs 2 0 gateway None 1)
  /\ kRoutes (fst run1) !! (10001, None) = None
  /\ kRoutes (fst run2) !! (10000, None) = Some (mkAttrs 2 0 gateway None 1)
  /\ kRoutes (fst run2) !! (10001, None) = Some (mkAttrs 2 0 gateway None 1)
  /\ kRoutes (fst run2) <> kRoutes (fst run1).
Proof.
  intros k cidr gateway run1 run2.
  assert (H1 : kRoutes (fst run1) !! (10001, None) = None) by (vm_compute; reflexivity).
  assert (H2 : kRoutes (fst run2) !! (10001, None) = Some (mkAttrs 2 0 gateway None 1))
    by (vm_compute; reflexivity).
  split; [vm_compute; reflexivity|]. split; [vm_compute; reflexivity|].
  split; [vm_compute; reflexivity|]. split; [exact H1|].
  split; [vm_compute; reflexivity|]. split; [exact H2|].
  intros Heq. rewrite Heq, H1 in H2. discriminate H2.
Qed.

(** ** What the route functions leave alone *)

Section Frames.

#[global] Instance stateStep_Sequential : Sequential stateStep.
Proof.
  split.
  - intros k b. apply sameState_refl.
  - intros k1 k2 k3 b. apply sameState_trans.
  - intros k f. repeat split.
  - intros k k' H. exact H.
Qed.

#[global] Instance tableStep_Sequential (t : Z) : Sequential (tableStep t).
Proof.
  split.
  - intros k b. split; [apply sameButRoutes_refl | reflexivity].
  - intros k1 k2 k3 b [Hs1 Hr1] [Hs2 Hr2].
    split; [exact (sameButRoutes_trans _ _ _ Hs1 Hs2)|].
    intros kk Hk. rewrite (Hr2 kk Hk). apply Hr1, Hk.
  - intros k f. split; [repeat split | reflexivity].
  - intros k k' H. exact H.
Qed.

Lemma sameState_tableStep (t : Z) (k k' : Kernel) (b : bool) :
  sameState k k' -> tableStep t k k' b.
Proof.
  intros Hs. split; [apply sameState_sameButRoutes, Hs|].
  destruct Hs as (_ & _ & -> & _). reflexivity.
Qed.

Lemma tableStep_RouteReplace (t : Z) (route : Route.t) :
  Route.Table route = t -> post (tableStep t) (RouteReplace route).
Proof.
  intros Ht. apply post_call; [exact _|]. intros k k' r [= <- <-].
  split; [repeat split|]. intros kk Hk. simpl.
  apply lookup_insert_ne. intros <-. apply Hk. exact Ht.
Qed.

Lemma tableStep_RouteDel (t : Z) (route : Route.t) :
  Route.Table route = t -> post (tableStep t) (RouteDel route).
Proof.
  intros Ht. apply post_call; [exact _|]. intros k k' r H.
  destruct (kRoutes k !! routeKey route); injection H as <- <-; [|apply seq_refl].
  split; [repeat split|]. intros kk Hk. simpl.
  apply lookup_delete_ne. intros <-. apply Hk. exact Ht.
Qed.

(** What follows the listing of a table works on routes of that table. *)
Lemma tableStep_after_list {A} (t : Z) (keep : Route.t -> bool) (f : list Route.t -> M A) :
  (forall x, keep x = true -> Route.Table x = t) ->
  (forall l, (forall x, In x l -> Route.Table x = t) -> post (tableStep t) (f l)) ->
  post (tableStep t) (bind (call (fun k => (k, ROk (dump k keep)))) f).
Proof.
  intros Hkeep Hf k k' r H.
  apply bind_inv in H as [(k1 & l & Hl & H)|(e & Hl & ->)].
  - apply read_ok in Hl as (Hs & _ & ->).
    apply (seq_trans k k1 k'); [apply sameState_tableStep, Hs|].
    apply (Hf _ (fun x Hx => Hkeep x (proj1 (proj1 (In_dump _ _ _) Hx))) _ _ _ H).
  - apply sameState_tableStep. exact (proj1 (read_inv _ _ _ _ Hl)).
Qed.

Lemma stateStep_vlan_src (link : Link.t) (cidr : IPNet) (gateway : option IP) (family : Z)
    (isLocal : bool) :
  post stateStep
    (if isLocal then
       let* res := try (GetDefaultRoute family) in
       let* _ :=
         match res with
         | RErr ENotExist => ret tt
         | RErr e => fail e
         | ROk defaultRoute =>
             if (Route.LinkIndex defaultRoute =? Link.Index link)
                && match Route.Gw defaultRoute with
                   | Some _ => negb (equalOpt (Route.Gw defaultRoute) gateway)
                   | None => false
                   end
             then fail EGatewayConflict
             else ret tt
         end in
       let* directRouteList := RouteListByOifDst (Link.Index link) (Some cidr) in
       match directRouteList with
       | [] => fail ENoDirectRoute
       | first :: _ => ret (Route.Src first)
       end
     else ret None).
Proof.
  destruct isLocal; [|apply post_ret; exact _].
  intros k k' r H.
  apply bind_inv in H as [(k1 & res & Ht & H)|(e & Ht & _)].
  - apply try_inv in Ht as (r0 & Hg & [= ->]).
    apply GetDefaultRoute_inv in Hg as [Hs _].
    apply (sameState_trans k k1 k' Hs).
    revert H. apply (post_bind stateStep).
    + destruct r0 as [route|e].
      * destruct (_ && _); [apply post_fail | apply post_ret]; exact _.
      * destruct e; try (apply post_fail; exact _). apply post_ret; exact _.
    + intros _. apply post_bind; [exact _ | apply post_RouteListByOifDst; exact _|].
      intros [|first l]; [apply post_fail | apply post_ret]; exact _.
  - apply try_inv in Ht as (r0 & _ & [=]).
Qed.

Lemma tableStep_ensureRoutesForVlanSubnet (link : Link.t) (cidr : IPNet)
    (gateway : option IP) (t family : Z) :
  post (tableStep t) (ensureRoutesForVlanSubnet link cidr gateway t family).
Proof.
  apply post_bind; [exact _ | apply post_AddrListAll; exact _|]. intros addrs.
  destruct (negb (containsOpt cidr gateway)); [apply post_fail; exact _|].
  apply post_bind; [exact _| |].
  - intros k k' r H. apply sameState_tableStep.
    exact (stateStep_vlan_src link cidr gateway family _ _ _ _ H).
  - intros src. apply post_bind; [exact _ | apply tableStep_RouteReplace; reflexivity|].
    intros _. apply tableStep_RouteReplace. reflexivity.
Qed.

Lemma tableStep_ensureExcludedIPBlockRoutes (X : list (NetText * IPNet)) (t family : Z) :
  post (tableStep t) (ensureExcludedIPBlockRoutes X t family).
Proof.
  apply (tableStep_after_list t).
  { intros x Hx. apply andb_true_iff in Hx as [Hx _]. apply Z.eqb_eq, Hx. }
  intros l Hl. apply post_bind; [exact _| |].
  - apply post_forEach; [exact _|]. intros route Hin.
    destruct (match Route.Dst route with Some _ => _ | None => _ end);
      [apply post_ret; exact _ | apply tableStep_RouteDel, Hl, Hin].
  - intros _. apply post_forEach; [exact _|]. intros entry _.
    apply tableStep_RouteReplace. reflexivity.
Qed.

Lemma tableStep_ensureRoutesForVxlanSubnet (link : Link.t) (cidr : IPNet) (t : Z)
    (nat : bool) (family : Z) (U : SubnetInfoMap) (X : list (NetText * IPNet)) :
  post (tableStep t) (ensureRoutesForVxlanSubnet link cidr t nat family U X).
Proof.
  apply (tableStep_after_list t).
  { intros x Hx. apply Z.eqb_eq, Hx. }
  intros l Hl. destruct (negb nat).
  - apply post_bind; [exact _ | apply tableStep_RouteReplace; reflexivity|]. intros _.
    apply post_forEach; [exact _|]. intros route Hin.
    destruct (Route.Dst route);
      [apply tableStep_RouteDel, Hl, Hin | apply post_ret; exact _].
  - apply post_bind; [exact _| |].
    + apply post_forEach; [exact _|]. intros route Hin.
      destruct (isExcludeRoute route); [apply post_ret; exact _|].
      destruct (Route.Dst route) as [dst|];
        [|apply tableStep_RouteDel; simpl; apply Hl, Hin].
      destruct (hasKey U _); [apply post_ret; exact _ | apply tableStep_RouteDel, Hl, Hin].
    + intros _. apply post_bind; [exact _| |].
      * apply post_forEach; [exact _|]. intros entry _.
        apply tableStep_RouteReplace. reflexivity.
      * intros _. apply tableStep_ensureExcludedIPBlockRoutes.
Qed.

(** X1. Whatever the outcome, the route functions of the modes change
    nothing but routes of the table they are given: rules, interfaces and
    addresses stay, and so does every route of every other table. *)
Theorem ensureRoutesByMode_other_tables (link : Link.t) (cidr : IPNet)
    (gateway : option IP) (nat : bool) (table family : Z) (U : SubnetInfoMap)
    (X : list (NetText * IPNet)) (mode : NetworkMode) (k k' : Kernel) (r : Res unit) :
  ensureRoutesByMode link cidr gateway nat table family U X mode k = (k', r) ->
  kRules k' = kRules k /\ kLinks k' = kLinks k /\ kAddrs k' = kAddrs k
  /\ forall t d, t <> table -> kRoutes k' !! (t, d) = kRoutes k !! (t, d).
Proof.
  intros H.
  assert (Hp : post (tableStep table)
                 (ensureRoutesByMode link cidr gateway nat table family U X mode)).
  { destruct mode; simpl.
    - apply tableStep_ensureRoutesForVxlanSubnet.
    - apply tableStep_ensureRoutesForVlanSubnet.
    - apply tableStep_RouteReplace. reflexivity.
    - apply tableStep_RouteReplace. reflexivity.
    - apply post_fail; exact _. }
  destruct (Hp _ _ _ H) as [(_ & Hr & Hl & Ha) Ht].
  split; [exact Hr|]. split; [exact Hl|]. split; [exact Ha|].
  intros t d Hne. apply (Ht (t, d)). exact Hne.
Qed.

Lemma ensureRoutesByMode_other_tables_witness :
  let k := mkKernel V4 [] {[ (254, None) := mkAttrs 2 0 None None 1;
                             (10000, Some (3232235520, 16%positive))
                               := mkAttrs 7 0 None None 1 ]}
                    [Link.mk "eth0" 2] [] [] [] in
  let run := ensureRoutesByMode (Link.mk "eth0" 2) (mkIPNet (mkIP V4 167772160) (mkMask 24 32))
               None false 10000 FAMILY_V4 [] [] NetworkModeVxlan k in
  kRoutes (fst run) !! (10000, Some (3232235520, 16%positive)) = None
  /\ kRules (fst run) = kRules k /\ kLinks (fst run) = kLinks k
  /\ kAddrs (fst run) = kAddrs k
  /\ forall t d, t <> 10000 -> kRoutes (fst run) !! (t, d) = kRoutes k !! (t, d).
Proof.
  intros k run. split; [vm_compute; reflexivity|].
  assert (Hrun : ensureRoutesByMode (Link.mk "eth0" 2)
                   (mkIPNet (mkIP V4 167772160) (mkMask 24 32))
                   None false 10000 FAMILY_V4 [] [] NetworkModeVxlan k
                 = (fst run, snd run)) by (vm_compute; reflexivity).
  exact (ensureRoutesByMode_other_tables _ _ _ _ _ _ _ _ _ _ _ _ Hrun).
Defined.

End Frames.

(** ** Clearing a route table *)

Section NoFault.

Lemma setFaults_id (k : Kernel) : kFaults k = [] -> setFaults k [] = k.
Proof. intros H. destruct k; simpl in *; subst; reflexivity. Qed.

(** Without failures ahead a reading call returns what it reads and changes
    nothing at all. *)
Lemma read_no_fault {A} (v : Kernel -> A) (k : Kernel) :
  kFaults k = [] -> call (fun k0 => (k0, ROk (v k0))) k = (k, ROk (v k)).
Proof. intros Hf. rewrite call_no_fault by exact Hf. reflexivity. Qed.

Lemma RouteDel_no_fault (route : Route.t) (k : Kernel) (a : RouteAttrs) :
  kFaults k = [] -> kRoutes k !! routeKey route = Some a ->
  RouteDel route k
  = (logEvent (setRoutes k (delete (routeKey route) (kRoutes k))) (EvRouteDel route), ROk tt).
Proof.
  intros Hf Hl. unfold RouteDel. rewrite call_no_fault by exact Hf. rewrite Hl. reflexivity.
Qed.

Lemma RouteReplace_no_fault (route : Route.t) (k : Kernel) :
  kFaults k = [] ->
  RouteReplace route k
  = (logEvent (setRoutes k (<[routeKey route := attrsOf route]> (kRoutes k)))
              (EvRouteReplace route), ROk tt).
Proof. intros Hf. unfold RouteReplace. rewrite call_no_fault by exact Hf. reflexivity. Qed.

(** The routes of a dump have different keys, all of them in use. *)
Lemma NoDup_dump_keys (k : Kernel) (keep : Route.t -> bool) :
  List.NoDup (List.map routeKey (dump k keep)).
Proof.
  assert (Hinj : forall l : list Route.t,
            List.NoDup l ->
            (forall x y, In x l -> In y l -> routeKey x = routeKey y -> x = y) ->
            List.NoDup (List.map routeKey l)).
  { induction l as [|x l IH]; intros Hnd Hk; simpl; constructor.
    - apply List.NoDup_cons_iff in Hnd as [Hx _]. intros Hin.
      apply List.in_map_iff in Hin as (y & Hy & Hyl).
      assert (y = x) by (apply Hk; [right; exact Hyl | left; reflexivity | exact Hy]).
      subst y. exact (Hx Hyl).
    - apply List.NoDup_cons_iff in Hnd as [_ Hl]. apply IH; [exact Hl|].
      intros a b Ha Hb. apply Hk; right; assumption. }
  apply Hinj; [apply NoDup_dump|].
  intros x y Hx Hy Hxy.
  apply In_dump in Hx as [_ (kx & ax & Hlx & ->)].
  apply In_dump in Hy as [_ (ky & ay & Hly & ->)].
  rewrite !routeKey_shown in Hxy. subst ky. congruence.
Qed.

Lemma dump_key_used (k : Kernel) (keep : Route.t -> bool) (r : Route.t) :
  In r (dump k keep) -> is_Some (kRoutes k !! routeKey r).
Proof.
  intros Hin. apply In_dump in Hin as [_ (kk & a & Hl & ->)].
  rewrite routeKey_shown. eauto.
Qed.

(** A loop that deletes some of the routes of a list of different keys, all
    in use, meets no missing route. *)
Lemma forEach_delete_no_fault (sel : Route.t -> bool) (body : Route.t -> M unit)
    (l : list Route.t) :
  (forall r k, sel r = false -> body r k = (k, ROk tt)) ->
  (forall r k, sel r = true ->
     exists r', routeKey r' = routeKey r /\ body r k = RouteDel r' k) ->
  List.NoDup (List.map routeKey l) ->
  forall k, kFaults k = [] ->
    (forall r, In r l -> sel r = true -> is_Some (kRoutes k !! routeKey r)) ->
    exists k', forEach l body k = (k', ROk tt) /\ kFaults k' = [].
Proof.
  intros Hskip Hdel. induction l as [|x l IH]; intros Hnd k Hf Hused; cbn [forEach].
  - exists k. auto.
  - apply List.NoDup_cons_iff in Hnd as [Hx Hnd]. unfold bind.
    destruct (sel x) eqn:Hsel.
    + destruct (Hdel x k Hsel) as (x' & Hkey & ->).
      destruct (Hused x (or_introl eq_refl) Hsel) as [a Ha]. rewrite <- Hkey in Ha.
      rewrite (RouteDel_no_fault x' k a Hf Ha).
      apply IH; [exact Hnd | exact Hf|].
      intros r Hin Hr. cbn [logEvent setRoutes kRoutes].
      rewrite lookup_delete_ne; [apply Hused; [right; exact Hin | exact Hr]|].
      rewrite Hkey. intros Heq. apply Hx. rewrite Heq. apply List.in_map, Hin.
    + rewrite (Hskip x k Hsel). apply IH; [exact Hnd | exact Hf|].
      intros r Hin. apply Hused. right. exact Hin.
Qed.

(** A loop of replacements meets no failure. *)
Lemma forEach_replace_no_fault {A} (f : A -> Route.t) (l : list A) (k : Kernel) :
  kFaults k = [] ->
  exists k', forEach l (fun x => RouteReplace (f x)) k = (k', ROk tt) /\ kFaults k' = [].
Proof.
  revert k. induction l as [|x l IH]; intros k Hf; cbn [forEach].
  - exists k. auto.
  - unfold bind. rewrite (RouteReplace_no_fault _ k Hf). apply IH. exact Hf.
Qed.

End NoFault.

Section ClearRouteTable.

Lemma clear_key (family : Z) (r : Route.t) :
  routeKey match Route.Dst r with
           | None => Route.mk (Some (defaultRouteDstByFamily family)) (Route.LinkIndex r)
                              (Route.Table r) (Route.Scope r) (Route.Gw r) (Route.Src r)
                              (Route.Type_ r)
           | Some _ => r
           end = routeKey r.
Proof.
  destruct (Route.Dst r) eqn:Hd; [reflexivity|].
  unfold routeKey. cbn [Route.Table Route.Dst]. rewrite default_dstKey, Hd. reflexivity.
Qed.

Lemma delete_listed (k : Kernel) (t : Z) (kk : RouteKey) :
  fst kk = t ->
  foldl (delIf (fun _ => true)) (kRoutes k) (dump k (fun x => Route.Table x =? t)) !! kk
  = None.
Proof.
  intros Hk. rewrite foldl_delIf_lookup, existsb_dump.
  destruct (kRoutes k !! kk) as [a|] eqn:Hlook; [|reflexivity].
  cbn [shown Route.Table fst snd]. rewrite Hk, Z.eqb_refl. reflexivity.
Qed.

Lemma clearRouteTable_ok (table family : Z) (k k' : Kernel) (u : unit) :
  clearRouteTable table family k = (k', ROk u) -> tableEmpty k' table.
Proof.
  unfold clearRouteTable. intros H.
  apply bind_ok_inv in H as (k1 & l & Hl & H).
  apply RouteListByTable_ok in Hl as [Hs1 ->].
  apply (forEach_ok (delIf (fun _ => true))) in H as [_ Hr3].
  2: { intros x ka kb ub _ Hx. apply RouteDel_ok in Hx as [Hsx Hrx].
       split; [exact Hsx|]. rewrite Hrx, clear_key. reflexivity. }
  intros d. rewrite Hr3. destruct Hs1 as (_ & _ & -> & _).
  apply delete_listed. reflexivity.
Qed.

(** X2. Whatever the outcome, [clearRouteTable] touches nothing but routes
    of its table; and when it returns without error, the table holds no route
    any more. *)
Theorem clearRouteTable_clears (table family : Z) (k k' : Kernel) (r : Res unit) :
  clearRouteTable table family k = (k', r) ->
  kRules k' = kRules k /\ kAddrs k' = kAddrs k
  /\ (forall t d, t <> table -> kRoutes k' !! (t, d) = kRoutes k !! (t, d))
  /\ (r = ROk tt -> tableEmpty k' table).
Proof.
  intros H.
  assert (Hp : post (tableStep table) (clearRouteTable table family)).
  { apply (tableStep_after_list table).
    { intros x Hx. apply Z.eqb_eq, Hx. }
    intros l Hl. apply post_forEach; [exact _|]. intros x Hin.
    apply tableStep_RouteDel. destruct (Route.Dst x); simpl; apply Hl, Hin. }
  destruct (Hp _ _ _ H) as [(_ & Hr & _ & Ha) Ht].
  split; [exact Hr|]. split; [exact Ha|].
  split; [intros t d Hne; apply (Ht (t, d)); exact Hne|].
  intros ->. exact (clearRouteTable_ok _ _ _ _ _ H).
Qed.

Lemma clearRouteTable_clears_witness :
  let k := mkKernel V4 [] {[ (10000, None) := mkAttrs 2 0 None None 1;
                             (10000, Some (3232235520, 16%positive))
                               := mkAttrs 7 0 None None 9;
                             (10001, None) := mkAttrs 2 0 None None 1 ]}
                    [] [] [] [] in
  let run := clearRouteTable 10000 FAMILY_V4 k in
  snd run = ROk tt
  /\ kRules (fst run) = kRules k /\ kAddrs (fst run) = kAddrs k
  /\ (forall t d, t <> 10000 -> kRoutes (fst run) !! (t, d) = kRoutes k !! (t, d))
  /\ (snd run = ROk tt -> tableEmpty (fst run) 10000).
Proof.
  intros k run. split; [vm_compute; reflexivity|].
  assert (Hrun : clearRouteTable 10000 FAMILY_V4 k = (fst run, snd run))
    by (vm_compute; reflexivity).
  exact (clearRouteTable_clears _ _ _ _ _ Hrun).
Defined.

(** X3. With no failing netlink call ahead, [clearRouteTable] returns
    without error: every route it deletes is there, as the routes listed
    have different destinations; and [findEmptyRouteTable], called next for a
    table of the pool, then finds a table, that one or one before it. *)
Theorem clearRouteTable_no_fault (table family : Z) (k : Kernel) :
  kFaults k = [] ->
  exists k',
    clearRouteTable table family k = (k', ROk tt)
    /\ kFaults k' = []
    /\ (10000 <= table < 40000 ->
        exists k'' t, findEmptyRouteTable family k' = (k'', ROk t) /\ 10000 <= t <= table).
Proof.
  intros Hf. unfold clearRouteTable, bind at 1, RouteListByTable.
  rewrite (read_no_fault _ k Hf).
  destruct (forEach_delete_no_fault (fun _ => true)
              (fun r => RouteDel
                 match Route.Dst r with
                 | None => Route.mk (Some (defaultRouteDstByFamily family))
                                    (Route.LinkIndex r) (Route.Table r) (Route.Scope r)
                                    (Route.Gw r) (Route.Src r) (Route.Type_ r)
                 | Some _ => r
                 end)
              (dump k (fun x => Route.Table x =? table)))
    with (k := k) as (k' & Hrun & Hf').
  - discriminate.
  - intros r k0 _. eexists. split; [apply clear_key | reflexivity].
  - apply NoDup_dump_keys.
  - exact Hf.
  - intros r Hin _. exact (dump_key_used _ _ _ Hin).
  - exists k'. split; [exact Hrun|]. split; [exact Hf'|].
    intros Ht.
    assert (Hclear : clearRouteTable table family k = (k', ROk tt)).
    { unfold clearRouteTable, bind at 1, RouteListByTable.
      rewrite (read_no_fault _ k Hf). exact Hrun. }
    pose proof (clearRouteTable_ok _ _ _ _ _ Hclear) as Hempty.
    destruct (findEmptyRouteTable family k') as [k'' [t|e]] eqn:Hfind.
    + exists k'', t. split; [reflexivity|].
      apply emptyTableLoop_inv in Hfind as [_ (Hr & _ & Hbefore & _)];
        [|unfold MaxRouteTableNum, MinRouteTableNum; lia].
      unfold MinRouteTableNum, MaxRouteTableNum in *. split; [lia|].
      destruct (Z_le_gt_dec t table) as [Hle|Hgt]; [exact Hle|].
      exfalso. apply (Hbefore table); [lia | exact Hempty].
    + exfalso.
      pose proof (emptyTableLoop_no_fault
                    (Z.to_nat (MaxRouteTableNum - MinRouteTableNum) + 1)
                    MinRouteTableNum family k' Hf') as Hnf.
      fold (findEmptyRouteTable family) in Hnf. rewrite Hfind in Hnf. cbn [snd] in Hnf.
      apply emptyTableLoop_inv in Hfind as [_ [[-> _]|[_ Hall]]];
        [congruence| |unfold MaxRouteTableNum, MinRouteTableNum; lia].
      unfold MinRouteTableNum, MaxRouteTableNum in *. exact (Hall table Ht Hempty).
Qed.

Lemma clearRouteTable_no_fault_witness :
  let k := mkKernel V4 [] {[ (10000, None) := mkAttrs 2 0 None None 1;
                             (10001, None) := mkAttrs 2 0 None None 1 ]}
                    [] [] [] [] in
  snd (clearRouteTable 10001 FAMILY_V4 k) = ROk tt
  /\ exists k',
       clearRouteTable 10001 FAMILY_V4 k = (k', ROk tt)
       /\ kFaults k' = []
       /\ (10000 <= 10001 < 40000 ->
           exists k'' t, findEmptyRouteTable FAMILY_V4 k' = (k'', ROk t)
                         /\ 10000 <= t <= 10001).
Proof.
  intros k. split; [vm_compute; reflexivity|].
  apply (clearRouteTable_no_fault 10001 FAMILY_V4 k). reflexivity.
Defined.

End ClearRouteTable.

(** ** Rules: priorities, the rule of a subnet, and the checks for it *)

Section RulesMore.

Lemma priorityLoop_lowest (fuel : nat) (start : Z) (used : gset Z) (local : Z) :
  (Z.to_nat (MaxRulePriority + 1 - start) < fuel)%nat ->
  match priorityLoop fuel start used local with
  | Some p => forall q, start <= q < p -> q ∈ used \/ q <= local
  | None => forall q, start <= q <= MaxRulePriority -> q ∈ used \/ q <= local
  end.
Proof.
  revert start. induction fuel as [|fuel IH]; intros start Hf; [lia|].
  cbn [priorityLoop]. destruct (start <=? MaxRulePriority) eqn:Hle.
  - apply Z.leb_le in Hle.
    destruct (negb (bool_decide (start ∈ used)) && (start >? local)) eqn:Hc.
    + intros q Hq. lia.
    + assert (Hstart : start ∈ used \/ start <= local).
      { apply andb_false_iff in Hc as [Hc|Hc].
        - left. apply negb_false_iff, bool_decide_eq_true in Hc. exact Hc.
        - right. rewrite Z.gtb_ltb in Hc. apply Z.ltb_ge in Hc. exact Hc. }
      specialize (IH (start + 1) ltac:(lia)).
      destruct (priorityLoop fuel (start + 1) used local) as [p|].
      * intros q Hq. destruct (Z.eq_dec q start) as [->|Hne]; [exact Hstart|].
        apply IH. lia.
      * intros q Hq. destruct (Z.eq_dec q start) as [->|Hne]; [exact Hstart|].
        apply IH. lia.
  - apply Z.leb_gt in Hle. intros q Hq. lia.
Qed.

Lemma scan_used_rules (rules : list Rule.t) (q : Z) :
  q ∈ fst (scanRules rules)
  <-> exists rule, In rule rules /\ kernelPriority rule = q.
Proof.
  rewrite scanRules_foldl, scan_used. cbn [fst]. split.
  - intros [H|(rule & Hin & Hq)]; [exfalso; revert H; apply not_elem_of_empty|].
    exists rule. rewrite <- realRulePriority_kernel. auto.
  - intros (rule & Hin & Hq). right. exists rule. rewrite realRulePriority_kernel. auto.
Qed.

(** What the first loop keeps as the priority of the node-local rule: the
    kernel priority of the last rule of table 255, and 0 when there is
    none. *)
Lemma scan_nodeLocalRule (rules : list Rule.t) :
  snd (scanRules rules)
  = match nodeLocalRule rules with
    | Some rule => kernelPriority rule
    | None => 0
    end.
Proof.
  induction rules as [|rule rules IH] using rev_ind; [reflexivity|].
  unfold scanRules, nodeLocalRule in *. rewrite foldl_app, rev_unit. cbn [foldl List.find].
  destruct (foldl scanStep (∅, 0) rules) as [used local]. cbn [snd scanStep] in *.
  unfold NodeLocalTableNum.
  destruct (Rule.Table rule =? 255); [apply realRulePriority_kernel | exact IH].
Qed.

(** X4. The priority [findHighestUnusedRulePriority] returns is the lowest
    candidate: it is itself the priority of no rule and above that of the
    node-local rule, and every priority below it is the priority, as the
    kernel has it, of some rule, or is not above that of the node-local rule
    (the last rule listed for table 255), or, when there is no node-local
    rule, is 0, which is then never returned. With no failing call ahead, it returns an
    error exactly when this is so for every priority up to 32767. *)
Theorem findHighestUnusedRulePriority_lowest (family : Z) (k : Kernel) :
  (forall k' p, findHighestUnusedRulePriority family k = (k', ROk p) ->
     (forall q, 0 <= q < p -> priorityTaken (kRules k) q)
     /\ ~ priorityTaken (kRules k) p
     /\ (nodeLocalRule (kRules k) = None -> 0 < p))
  /\ (kFaults k = [] ->
      ((exists e, snd (findHighestUnusedRulePriority family k) = RErr e)
       <-> forall q, 0 <= q <= 32767 -> priorityTaken (kRules k) q)).
Proof.
  assert (Hfuel : (Z.to_nat (MaxRulePriority + 1 - 0) < Z.to_nat (MaxRulePriority + 2))%nat)
    by (unfold MaxRulePriority; lia).
  pose proof (scan_nodeLocalRule (kRules k)) as Hlocal.
  assert (Htaken : forall q, q ∈ fst (scanRules (kRules k)) \/ q <= snd (scanRules (kRules k))
                             -> priorityTaken (kRules k) q).
  { intros q [H|H]; [left; apply scan_used_rules, H|].
    right. rewrite Hlocal in H. destruct (nodeLocalRule (kRules k)); exact H. }
  assert (Hfree : forall p, priorityTaken (kRules k) p ->
                    p ∉ fst (scanRules (kRules k)) -> snd (scanRules (kRules k)) < p -> False).
  { intros p [H|H] Hu Hl; [apply Hu, scan_used_rules, H|].
    rewrite Hlocal in Hl. destruct (nodeLocalRule (kRules k)); lia. }
  split.
  - intros k' p H. unfold findHighestUnusedRulePriority in H.
    apply bind_ok_inv in H as (k1 & l & Hl & H).
    apply RuleList_ok in Hl as (-> & _ & _).
    pose proof (priorityLoop_lowest _ 0 (fst (scanRules (kRules k)))
                  (snd (scanRules (kRules k))) Hfuel) as Hlow.
    destruct (scanRules (kRules k)) as [used local] eqn:Hscan. cbn [fst snd] in *.
    destruct (priorityLoop _ 0 used local) as [p'|] eqn:Hloop;
      [|apply fail_inv in H as [_ [=]]].
    apply ret_inv in H as [_ [= ->]].
    pose proof (priorityLoop_Some _ _ _ _ _ Hloop) as (_ & Hu & Hloc).
    split; [|split].
    + intros q Hq. apply Htaken, Hlow, Hq.
    + intros Ht. exact (Hfree _ Ht Hu Hloc).
    + intros Hnone. rewrite Hnone in Hlocal. lia.
  - intros Hf. unfold findHighestUnusedRulePriority, bind, RuleList.
    rewrite (read_no_fault _ k Hf).
    pose proof (priorityLoop_lowest _ 0 (fst (scanRules (kRules k)))
                  (snd (scanRules (kRules k))) Hfuel) as Hlow.
    destruct (scanRules (kRules k)) as [used local] eqn:Hscan. cbn [fst snd] in *.
    destruct (priorityLoop _ 0 used local) as [p|] eqn:Hloop; cbn [ret fail snd].
    + split; [intros [e [=]]|]. intros Hall. exfalso.
      apply priorityLoop_Some in Hloop as (Hr & Hu & Hloc).
      unfold MaxRulePriority in Hr. exact (Hfree p (Hall p Hr) Hu Hloc).
    + split; [|eauto]. intros _ q Hq. apply Htaken, Hlow. exact Hq.
Qed.

Lemma findHighestUnusedRulePriority_lowest_witness :
  let k := mkKernel V4 [Rule.mk None 255 (-1) 0 0; Rule.mk None 254 1 0 0;
                        Rule.mk None 253 32767 0 0] ∅ [] [] [] [] in
  snd (findHighestUnusedRulePriority FAMILY_V4 k) = ROk 2
  /\ nodeLocalRule (kRules k) = Some (Rule.mk None 255 (-1) 0 0)
  /\ forall q, 0 <= q < 2 -> priorityTaken (kRules k) q.
Proof.
  intros k.
  assert (Hrun : findHighestUnusedRulePriority FAMILY_V4 k = (k, ROk 2))
    by (vm_compute; reflexivity).
  split; [rewrite Hrun; reflexivity|]. split; [reflexivity|].
  exact (proj1 (proj1 (findHighestUnusedRulePriority_lowest FAMILY_V4 k) k 2 Hrun)).
Defined.

Lemma sameSrc_refl (src : option IPNet) : sameSrc src src = true.
Proof. destruct src; [apply NetText_eqb_refl | reflexivity]. Qed.

Lemma find_app_some {A} (P : A -> bool) (l l' : list A) (x : A) :
  List.find P l = Some x -> List.find P (l ++ l') = Some x.
Proof.
  induction l as [|y l IH]; simpl; [discriminate|].
  destruct (P y); [auto | exact IH].
Qed.

(** X5. [appendHighestUnusedPriorityRuleIfNotExist] adds at most one rule,
    at the end of the list and only when no rule matched; when it returns
    without error a matching rule is there, and a second call, whatever its
    fate, adds none. *)
Theorem appendHighestUnusedPriorityRuleIfNotExist_once (src : option IPNet)
    (table family mark mask : Z) (k k1 : Kernel) (r : Res unit) :
  appendHighestUnusedPriorityRuleIfNotExist src table family mark mask k = (k1, r) ->
  (kRules k1 = kRules k
   \/ (exists priority,
         kRules k1 = kRules k ++ [Rule.mk src table priority mark mask]
         /\ r = ROk tt
         /\ forall rule, In rule (kRules k) -> ~ ruleMatches src table rule))
  /\ (r = ROk tt ->
      (exists rule, In rule (kRules k1) /\ ruleMatches src table rule)
      /\ forall k2 r2,
           appendHighestUnusedPriorityRuleIfNotExist src table family mark mask k1
             = (k2, r2) ->
           kRules k2 = kRules k1).
Proof.
  intros H.
  assert (Hpred : forall rule,
            sameSrc src (Rule.Src rule)
            && (if table >? 0 then Rule.Table rule =? table else true) = true
            <-> ruleMatches src table rule).
  { intros rule. unfold ruleMatches. rewrite andb_true_iff.
    destruct (table >? 0) eqn:Ht.
    - apply Z.gtb_lt in Ht. rewrite Z.eqb_eq. tauto.
    - rewrite Z.gtb_ltb in Ht. apply Z.ltb_ge in Ht.
      split; [intros [Hs _]; split; [exact Hs | lia] | intros [Hs _]; auto]. }
  assert (Hagain : forall ka, (exists rule, In rule (kRules ka) /\ ruleMatches src table rule) ->
            forall k2 r2,
              appendHighestUnusedPriorityRuleIfNotExist src table family mark mask ka
                = (k2, r2) -> kRules k2 = kRules ka).
  { intros ka (rule & Hin & Hm) k2 r2 H2.
    unfold appendHighestUnusedPriorityRuleIfNotExist in H2.
    apply bind_inv in H2 as [(k3 & res & Hc & H2)|(e & Hc & _)].
    - apply checkIfRuleExist_inv in Hc as [Hs [[_ [= ->]]|[_ [=]]]].
      destruct (List.find _ (kRules ka)) as [found|] eqn:Hfind.
      + cbn [fst] in H2. apply ret_inv in H2 as [-> _]. exact (proj1 (proj2 Hs)).
      + exfalso. pose proof (List.find_none _ _ Hfind rule Hin) as Hno. cbv beta in Hno.
        apply Hpred in Hm. congruence.
    - apply checkIfRuleExist_inv in Hc as [Hs _]. exact (proj1 (proj2 Hs)). }
  unfold appendHighestUnusedPriorityRuleIfNotExist in H.
  apply bind_inv in H as [(k2 & res & Hc & H)|(e & Hc & ->)].
  - apply checkIfRuleExist_inv in Hc as [Hs [[_ [= ->]]|[_ [=]]]].
    destruct Hs as (_ & Hrules & _).
    destruct (List.find _ (kRules k)) as [found|] eqn:Hfind; cbn [fst] in H.
    + apply ret_inv in H as [-> ->]. split; [left; exact Hrules|]. intros _.
      apply List.find_some in Hfind as [Hin Hp]. apply Hpred in Hp.
      assert (Hex : exists rule, In rule (kRules k2) /\ ruleMatches src table rule)
        by (exists found; rewrite Hrules; auto).
      split; [exact Hex | exact (Hagain k2 Hex)].
    + apply bind_inv in H as [(k3 & priority & Hp & H)|(e & Hp & ->)].
      * pose proof (post_findHighestUnusedRulePriority stateStep _ _ _ _ Hp)
          as (_ & Hrules3 & _).
        apply call_inv in H
          as [(-> & Hs & _)|(k0 & k4 & Hs & _ & [(u & Hop & -> & ->)|(e & Hop & _)])].
        -- split; [|discriminate]. left. destruct Hs as (_ & -> & _). congruence.
        -- injection Hop as <- _. destruct u. destruct Hs as (_ & Hrules0 & _).
           assert (Hnew : kRules (logEvent (setRules k0 (kRules k0 ++
                                   [Rule.mk src table priority mark mask]))
                                   (EvRuleAdd (Rule.mk src table priority mark mask)))
                          = kRules k ++ [Rule.mk src table priority mark mask]).
           { cbn [logEvent setRules kRules]. congruence. }
           split.
           ++ right. exists priority. split; [exact Hnew|]. split; [reflexivity|].
              intros rule Hin Hm. apply Hpred in Hm.
              pose proof (List.find_none _ _ Hfind rule Hin) as Hno. cbv beta in Hno.
              congruence.
           ++ intros _.
              assert (Hex : exists rule,
                        In rule (kRules (logEvent (setRules k0 (kRules k0 ++
                                   [Rule.mk src table priority mark mask]))
                                   (EvRuleAdd (Rule.mk src table priority mark mask))))
                        /\ ruleMatches src table rule).
              { exists (Rule.mk src table priority mark mask). rewrite Hnew. split.
                - apply List.in_or_app. right. left. reflexivity.
                - split; [apply sameSrc_refl | reflexivity]. }
              split; [exact Hex | exact (Hagain _ Hex)].
        -- discriminate.
      * pose proof (post_findHighestUnusedRulePriority stateStep _ _ _ _ Hp)
          as (_ & Hrules3 & _).
        split; [left; congruence | discriminate].
  - apply checkIfRuleExist_inv in Hc as [(_ & Hrules & _) _].
    split; [left; exact Hrules | discriminate].
Qed.

Lemma appendHighestUnusedPriorityRuleIfNotExist_once_witness :
  let k := mkKernel V4 [Rule.mk None 255 0 0 0] ∅ [] [] [] [] in
  let cidr := mkIPNet (mkIP V4 167772160) (mkMask 24 32) in
  let run := appendHighestUnusedPriorityRuleIfNotExist (Some cidr) 10000 FAMILY_V4 0 24576 k in
  kRules (fst run) = kRules k ++ [Rule.mk (Some cidr) 10000 1 0 24576]
  /\ (snd run = ROk tt ->
      (exists rule, In rule (kRules (fst run)) /\ ruleMatches (Some cidr) 10000 rule)
      /\ forall k2 r2,
           appendHighestUnusedPriorityRuleIfNotExist (Some cidr) 10000 FAMILY_V4 0 24576
             (fst run) = (k2, r2) ->
           kRules k2 = kRules (fst run)).
Proof.
  intros k cidr run. split; [vm_compute; reflexivity|].
  assert (Hrun : appendHighestUnusedPriorityRuleIfNotExist (Some cidr) 10000 FAMILY_V4
                   0 24576 k = (fst run, snd run)) by (vm_compute; reflexivity).
  exact (proj2 (appendHighestUnusedPriorityRuleIfNotExist_once _ _ _ _ _ _ _ _ Hrun)).
Defined.

End RulesMore.

(** ** The rule of a subnet as the other functions see it *)

Section RuleChecks.

#[global] Instance rulesGrow_Sequential (P : Rule.t -> Prop) : Sequential (rulesGrow P).
Proof.
  split.
  - intros k b. exists []. rewrite app_nil_r. auto.
  - intros k1 k2 k3 b (a1 & H1 & P1) (a2 & H2 & P2).
    exists (a1 ++ a2). rewrite H2, H1, app_assoc. split; [reflexivity|].
    apply Forall_app. auto.
  - intros k f. exists []. simpl. rewrite app_nil_r. auto.
  - intros k k' H. exact H.
Qed.

Lemma routeStep_rulesGrow {A} (P : Rule.t -> Prop) (m : M A) :
  post routeStep m -> post (rulesGrow P) m.
Proof.
  intros Hm k k' r H. destruct (Hm _ _ _ H) as [(_ & Hr & _) _].
  exists []. rewrite app_nil_r. auto.
Qed.

(** A step that may depend on what the step before returned. *)
Lemma post_bind_val {A B} (Q : Kernel -> Kernel -> bool -> Prop) `{!Sequential Q}
    (V : A -> Prop) (m : M A) (f : A -> M B) :
  (forall k k1 a, m k = (k1, ROk a) -> V a) ->
  post Q m -> (forall a, V a -> post Q (f a)) -> post Q (bind m f).
Proof.
  intros Hv Hm Hf k k' r H. apply bind_inv in H as [(k1 & a & H1 & H2)|(e & H1 & ->)].
  - apply (seq_trans k k1 k'); [exact (Hm _ _ _ H1) | exact (Hf a (Hv _ _ _ H1) _ _ _ H2)].
  - exact (Hm _ _ _ H1).
Qed.

(** X6. Whatever the outcome, every rule [ensureFromPodSubnetRuleAndRoutes]
    adds is one that [checkIsFromPodSubnetRule] recognises: its source is the
    subnet, its mask [fromRuleMask], its table one of the pool. *)
Theorem ensureFromPodSubnetRuleAndRoutes_rule_recognised
    (fromRuleMask : Z) (forwardNodeIfName : string) (cidr : IPNet) (gateway : option IP)
    (autoNatOutgoing : bool) (family : Z) (underlaySubnetInfoMap : SubnetInfoMap)
    (underlayExcludeIPBlockMap : list (NetText * IPNet)) (mode : NetworkMode)
    (k k' : Kernel) (r : Res unit) :
  ensureFromPodSubnetRuleAndRoutes fromRuleMask forwardNodeIfName cidr gateway
    autoNatOutgoing family underlaySubnetInfoMap underlayExcludeIPBlockMap mode k
    = (k', r) ->
  exists added,
    kRules k' = kRules k ++ added
    /\ Forall (fun rule => checkIsFromPodSubnetRule fromRuleMask rule = true
                           /\ Rule.Src rule = Some cidr
                           /\ 10000 <= Rule.Table rule < 40000) added.
Proof.
  set (P := fun rule => checkIsFromPodSubnetRule fromRuleMask rule = true
                        /\ Rule.Src rule = Some cidr
                        /\ 10000 <= Rule.Table rule < 40000).
  intros H.
  assert (Hp : post (rulesGrow P)
                 (ensureFromPodSubnetRuleAndRoutes fromRuleMask forwardNodeIfName cidr
                    gateway autoNatOutgoing family underlaySubnetInfoMap
                    underlayExcludeIPBlockMap mode)).
  { apply post_bind; [exact _ | apply post_checkIfRuleExist; exact _|].
    intros [ruleExist existRule].
    apply (post_bind_val (rulesGrow P)
             (fun table => ruleExist = false -> 10000 <= table < 40000)).
    { intros ka kb table Hc ->. cbn [chooseTable negb] in Hc.
      apply emptyTableLoop_inv in Hc as [_ (Ht & _)];
        [|unfold MaxRouteTableNum, MinRouteTableNum; lia].
      unfold MaxRouteTableNum, MinRouteTableNum in Ht. exact Ht. }
    { apply post_chooseTable; exact _. }
    intros table Htable.
    apply post_bind; [exact _ | apply post_LinkByName; exact _|]. intros link.
    apply post_bind; [exact _ | apply routeStep_rulesGrow, routeStep_ensureRoutesByMode|].
    intros _. destruct ruleExist; cbn [negb]; [apply post_ret; exact _|].
    apply post_bind; [exact _ | apply post_checkIfRuleExist; exact _|]. intros res.
    destruct (fst res); [apply post_ret; exact _|].
    apply post_bind; [exact _ | apply post_findHighestUnusedRulePriority; exact _|].
    intros priority. apply post_call; [exact _|]. intros ka kb rb [= <- <-].
    exists [Rule.mk (Some cidr) table priority fromRuleMark fromRuleMask].
    split; [reflexivity|]. constructor; [|constructor].
    specialize (Htable eq_refl). unfold P, checkIsFromPodSubnetRule.
    cbn [Rule.Src Rule.Mask Rule.Table]. rewrite Z.eqb_refl.
    split; [|split; [reflexivity | exact Htable]].
    unfold MinRouteTableNum, MaxRouteTableNum. cbn [andb].
    apply andb_true_iff. split; [apply Z.geb_le | apply Z.leb_le]; lia. }
  exact (Hp _ _ _ H).
Qed.

Lemma ensureFromPodSubnetRuleAndRoutes_rule_recognised_witness :
  let k := mkKernel V4 [Rule.mk None 255 0 0 0] ∅ [Link.mk "eth0" 2] [] [] [] in
  let cidr := mkIPNet (mkIP V4 167772160) (mkMask 24 32) in
  let run := ensureFromPodSubnetRuleAndRoutes 24576 "eth0" cidr (Some (mkIP V4 167772161))
               false FAMILY_V4 [] [] NetworkModeBGP k in
  kRules (fst run) = kRules k ++ [Rule.mk (Some cidr) 10000 1 0 24576]
  /\ exists added,
       kRules (fst run) = kRules k ++ added
       /\ Forall (fun rule => checkIsFromPodSubnetRule 24576 rule = true
                              /\ Rule.Src rule = Some cidr
                              /\ 10000 <= Rule.Table rule < 40000) added.
Proof.
  intros k cidr run. split; [vm_compute; reflexivity|].
  assert (Hrun : ensureFromPodSubnetRuleAndRoutes 24576 "eth0" cidr
                   (Some (mkIP V4 167772161)) false FAMILY_V4 [] [] NetworkModeBGP k
                 = (fst run, snd run)) by (vm_compute; reflexivity).
  exact (ensureFromPodSubnetRuleAndRoutes_rule_recognised _ _ _ _ _ _ _ _ _ _ _ _ Hrun).
Defined.

(** The default route of a table shows in its listing. *)
Lemma default_route_listed (k : Kernel) (t family : Z) (a : RouteAttrs) :
  kRoutes k !! (t, None) = Some a ->
  existsb (fun route => IsDefaultRoute route family)
          (dump k (fun x => Route.Table x =? t)) = true.
Proof.
  intros Hl. apply List.existsb_exists.
  exists (shown (kFamily k) ((t, None), a)). split; [|reflexivity].
  apply In_dump. split; [cbn; apply Z.eqb_refl | eauto].
Qed.

(** The default route a route function of a mode leaves in its table (none
    for vxlan with [autoNatOutgoing]). *)
Lemma ensureRoutesByMode_default (link : Link.t) (cidr : IPNet) (gateway : option IP)
    (nat : bool) (t family : Z) (U : SubnetInfoMap) (X : list (NetText * IPNet))
    (mode : NetworkMode) (k k' : Kernel) (u : unit) :
  ensureRoutesByMode link cidr gateway nat t family U X mode k = (k', ROk u) ->
  (mode = NetworkModeVxlan -> nat = false) ->
  exists a, kRoutes k' !! (t, None) = Some a /\ aLinkIndex a = Link.Index link.
Proof.
  intros H Hmode. destruct mode; cbn [ensureRoutesByMode] in H.
  - rewrite (Hmode eq_refl) in H.
    apply ensureRoutesForVxlanSubnet_overlay in H as [_ Hr].
    specialize (Hr (t, None)). unfold overlayRoute in Hr. cbn [fst snd] in Hr.
    rewrite Z.eqb_refl in Hr. eauto.
  - apply ensureRoutesForVlanSubnet_ok in H as [_ (src & _ & Hr)].
    eexists. split; [rewrite Hr; unfold vlanRoutes; apply lookup_insert_eq | reflexivity].
  - apply RouteReplace_ok in H as [_ Hr].
    eexists. split; [rewrite Hr; apply lookup_insert_eq | reflexivity].
  - apply RouteReplace_ok in H as [_ Hr].
    eexists. split; [rewrite Hr; apply lookup_insert_eq | reflexivity].
  - apply fail_inv in H as [_ [=]].
Qed.

(** X7. After [ensureFromPodSubnetRuleAndRoutes] has returned without
    error, and with no failing call ahead, [CheckPodRuleExist] finds the rule
    of the subnet and its table, and, in every mode but vxlan with
    [autoNatOutgoing], [CheckDefaultRouteExist] finds a default route in
    that table. *)
Theorem checks_after_ensureFromPodSubnetRuleAndRoutes
    (fromRuleMask : Z) (forwardNodeIfName : string) (cidr : IPNet) (gateway : option IP)
    (autoNatOutgoing : bool) (family : Z) (underlaySubnetInfoMap : SubnetInfoMap)
    (underlayExcludeIPBlockMap : list (NetText * IPNet)) (mode : NetworkMode)
    (k k1 : Kernel) :
  ensureFromPodSubnetRuleAndRoutes fromRuleMask forwardNodeIfName cidr gateway
    autoNatOutgoing family underlaySubnetInfoMap underlayExcludeIPBlockMap mode k
    = (k1, ROk tt) ->
  kFaults k1 = [] ->
  exists table,
    CheckPodRuleExist cidr family k1 = (k1, ROk (true, table))
    /\ ((mode = NetworkModeVxlan -> autoNatOutgoing = false) ->
        CheckDefaultRouteExist table family k1 = (k1, ROk true)).
Proof.
  intros H Hf.
  apply ensureFromPodSubnetRuleAndRoutes_ok in H
    as (link & t & kc & kd & _ & _ & Hmode & _ & _ & _ & _ & Hr1 & Hrule).
  assert (Hfound : exists rule,
            List.find (fun rule => sameSrc (Some cidr) (Rule.Src rule)) (kRules k1)
              = Some rule /\ Rule.Table rule = t).
  { destruct Hrule as [(rule & Hfd & -> & ->)|(Hnone & rule & Hsrc & Htab & ->)].
    - eauto.
    - exists rule. rewrite (find_app_none _ _ _ Hnone). cbn [List.find].
      rewrite Hsrc. cbn [sameSrc]. rewrite NetText_eqb_refl. auto. }
  destruct Hfound as (rule & Hfind & Htab).
  exists t. split.
  - unfold CheckPodRuleExist, bind, RuleList. rewrite (read_no_fault _ k1 Hf).
    erewrite find_ext_eq; [rewrite Hfind, Htab; reflexivity|].
    intros x. cbn [sameSrc]. reflexivity.
  - intros Hm.
    destruct (ensureRoutesByMode_default _ _ _ _ _ _ _ _ _ _ _ _ Hmode Hm) as (a & Ha & _).
    unfold CheckDefaultRouteExist, bind, RouteListByTable.
    rewrite (read_no_fault _ k1 Hf). unfold ret.
    rewrite (default_route_listed k1 t family a); [reflexivity|].
    rewrite Hr1. exact Ha.
Qed.

Lemma checks_after_ensureFromPodSubnetRuleAndRoutes_witness :
  let k := mkKernel V4 [Rule.mk None 255 0 0 0] ∅ [Link.mk "eth0" 2] [] [] [] in
  let cidr := mkIPNet (mkIP V4 167772160) (mkMask 24 32) in
  let k1 := fst (ensureFromPodSubnetRuleAndRoutes 24576 "eth0" cidr
                   (Some (mkIP V4 167772161)) false FAMILY_V4 [] [] NetworkModeBGP k) in
  CheckPodRuleExist cidr FAMILY_V4 k1 = (k1, ROk (true, 10000))
  /\ exists table,
       CheckPodRuleExist cidr FAMILY_V4 k1 = (k1, ROk (true, table))
       /\ ((NetworkModeBGP = NetworkModeVxlan -> false = false) ->
           CheckDefaultRouteExist table FAMILY_V4 k1 = (k1, ROk true)).
Proof.
  intros k cidr k1. split; [vm_compute; reflexivity|].
  assert (Hrun : ensureFromPodSubnetRuleAndRoutes 24576 "eth0" cidr
                   (Some (mkIP V4 167772161)) false FAMILY_V4 [] [] NetworkModeBGP k
                 = (k1, ROk tt)) by (vm_compute; reflexivity).
  assert (Hf : kFaults k1 = []) by (vm_compute; reflexivity).
  exact (checks_after_ensureFromPodSubnetRuleAndRoutes _ _ _ _ _ _ _ _ _ _ _ Hrun Hf).
Defined.

End RuleChecks.

(** ** The tables the route functions leave *)

Section ModeResults.

Lemma NetText_eqb_eq (a b : NetText) : NetText_eqb a b = true -> a = b.
Proof.
  destruct a as [[a1 a2] a3], b as [[b1 b2] b3]. unfold NetText_eqb. cbn [fst snd].
  intros H. apply andb_true_iff in H as [H H3]. apply andb_true_iff in H as [H1 H2].
  apply Z.eqb_eq in H1, H2, H3. congruence.
Qed.

(** A network whose text is that of a listed destination has its key. *)
Lemma text_dstKey (n dst : IPNet) (fam : Family) (d : DstKey) :
  dstOf fam d = Some dst -> IPNet_String n = IPNet_String dst -> dstKey (Some n) = d.
Proof.
  destruct d as [[x p]|]; [|discriminate]. intros [= <-]. unfold IPNet_String.
  cbn [netIP netMask ipFam ipVal maskOnes]. intros [= _ Hx Hp].
  unfold dstKey. rewrite Hx, Hp. reflexivity.
Qed.

Lemma hasKey_excludeKey (X : list (NetText * IPNet)) (t : Z) (fam : Family) (d : DstKey)
    (dst : IPNet) :
  wellKeyed X -> dstOf fam d = Some dst -> hasKey X (IPNet_String dst) = true ->
  keyIn (excludeKey t) X (t, d) = true.
Proof.
  intros Hw Hd Hk. apply List.existsb_exists in Hk as (entry & Hin & Hk).
  apply NetText_eqb_eq in Hk. apply List.existsb_exists. exists entry.
  split; [exact Hin|]. apply bool_decide_eq_true. unfold excludeKey. f_equal.
  apply (text_dstKey _ dst fam); [exact Hd|].
  rewrite <- Hk. symmetry.
  exact (proj1 (List.Forall_forall _ _) Hw entry Hin).
Qed.

Lemma hasKey_underlayKey (U : SubnetInfoMap) (t : Z) (fam : Family) (d : DstKey)
    (dst : IPNet) :
  wellKeyedSubnets U -> dstOf fam d = Some dst -> hasKey U (IPNet_String dst) = true ->
  keyIn (underlayKey t) U (t, d) = true.
Proof.
  intros Hw Hd Hk. apply List.existsb_exists in Hk as (entry & Hin & Hk).
  apply NetText_eqb_eq in Hk. apply List.existsb_exists. exists entry.
  split; [exact Hin|]. apply bool_decide_eq_true. unfold underlayKey. f_equal.
  apply (text_dstKey _ dst fam); [exact Hd|].
  rewrite <- Hk. symmetry.
  exact (proj1 (List.Forall_forall _ _) Hw entry Hin).
Qed.

(** X8. When [ensureRoutesForVxlanSubnet] without [autoNatOutgoing] returns
    without error, its table holds the default route through the forward
    interface and no other route. *)
Theorem ensureRoutesForVxlanSubnet_default_only (link : Link.t) (cidr : IPNet)
    (table family : Z) (U : SubnetInfoMap) (X : list (NetText * IPNet))
    (k k' : Kernel) :
  ensureRoutesForVxlanSubnet link cidr table false family U X k = (k', ROk tt) ->
  kRoutes k' !! (table, None)
    = Some (mkAttrs (Link.Index link) SCOPE_UNIVERSE None None RTN_UNICAST)
  /\ forall d, kRoutes k' !! (table, Some d) = None.
Proof.
  intros H. apply ensureRoutesForVxlanSubnet_overlay in H as [_ Hr]. split.
  - specialize (Hr (table, None)). unfold overlayRoute in Hr. cbn [fst snd] in Hr.
    rewrite Z.eqb_refl in Hr. exact Hr.
  - intros d. specialize (Hr (table, Some d)). unfold overlayRoute in Hr.
    cbn [fst snd] in Hr. rewrite Z.eqb_refl in Hr. exact Hr.
Qed.

Lemma ensureRoutesForVxlanSubnet_default_only_witness :
  let k := mkKernel V4 [] {[ (10000, Some (3232235520, 16%positive))
                               := mkAttrs 7 0 None None 1 ]} [] [] [] [] in
  let run := ensureRoutesForVxlanSubnet (Link.mk "eth0" 2)
               (mkIPNet (mkIP V4 167772160) (mkMask 24 32)) 10000 false FAMILY_V4 [] [] k in
  snd run = ROk tt
  /\ kRoutes (fst run) !! (10000, None)
       = Some (mkAttrs 2 SCOPE_UNIVERSE None None RTN_UNICAST)
  /\ forall d, kRoutes (fst run) !! (10000, Some d) = None.
Proof.
  intros k run. split; [vm_compute; reflexivity|].
  assert (Hrun : ensureRoutesForVxlanSubnet (Link.mk "eth0" 2)
                   (mkIPNet (mkIP V4 167772160) (mkMask 24 32)) 10000 false FAMILY_V4
                   [] [] k = (fst run, ROk tt)) by (vm_compute; reflexivity).
  exact (ensureRoutesForVxlanSubnet_default_only _ _ _ _ _ _ _ _ Hrun).
Defined.

(** X9. When [ensureRoutesForVxlanSubnet] with [autoNatOutgoing] returns
    without error, and the maps are keyed by the texts of their networks, its
    table holds a throw route for every excluded block, a route through the
    forward interface for every underlay subnet that is no excluded block,
    and no other route. *)
Theorem ensureRoutesForVxlanSubnet_nat_table (link : Link.t) (cidr : IPNet)
    (table family : Z) (U : SubnetInfoMap) (X : list (NetText * IPNet))
    (k k' : Kernel) :
  wellKeyedSubnets U -> wellKeyed X ->
  ensureRoutesForVxlanSubnet link cidr table true family U X k = (k', ROk tt) ->
  forall d : DstKey,
    kRoutes k' !! (table, d)
    = if keyIn (excludeKey table) X (table, d)
      then Some (mkAttrs 0 0 None None RTN_THROW)
      else if keyIn (underlayKey table) U (table, d)
           then Some (mkAttrs (Link.Index link) SCOPE_UNIVERSE None None RTN_UNICAST)
           else None.
Proof.
  intros HU HX H d. apply ensureRoutesForVxlanSubnet_nat in H as [_ Hr].
  etransitivity; [exact (Hr (table, d))|]. unfold natRoute. cbn zeta.
  destruct (keyIn (excludeKey table) X (table, d)) eqn:Hx; [reflexivity|].
  destruct (keyIn (underlayKey table) U (table, d)) eqn:Hu;
    [cbn [fst aType]; rewrite Z.eqb_refl; reflexivity|].
  match goal with
  | |- context [@lookup ?K ?A ?M ?L ?kk (kRoutes k)] =>
      destruct (@lookup K A M L kk (kRoutes k)) as [a|]
  end; [|reflexivity].
  cbn [fst]. rewrite Z.eqb_refl. cbn [andb].
  unfold uselessOverlayRoute, uselessExcludeRoute, isExcludeRoute.
  cbn [shown Route.Type_ Route.Dst fst snd].
  destruct (aType a =? RTN_THROW) eqn:Hthrow; cbn [negb andb].
  - rewrite Hthrow. cbn [andb].
    destruct (dstOf (kFamily k) d) as [dst|] eqn:Hd; [|reflexivity].
    destruct (hasKey X (IPNet_String dst)) eqn:Hk; [|reflexivity].
    rewrite (hasKey_excludeKey X table _ d dst HX Hd Hk) in Hx. discriminate.
  - destruct (dstOf (kFamily k) d) as [dst|] eqn:Hd; [|reflexivity].
    destruct (hasKey U (IPNet_String dst)) eqn:Hk; [|reflexivity].
    rewrite (hasKey_underlayKey U table _ d dst HU Hd Hk) in Hu. discriminate.
Qed.

Lemma ensureRoutesForVxlanSubnet_nat_table_witness :
  let k := mkKernel V4 [] {[ (10000, None) := mkAttrs 7 0 None None 1;
                             (10000, Some (3232235520, 16%positive))
                               := mkAttrs 7 0 None None 9 ]} [] [] [] [] in
  let underlay := mkIPNet (mkIP V4 2886729728) (mkMask 16 32) in
  let U := [((32, 2886729728, 16),
             SubnetInfo.mk underlay None [] [] "eth0" false true NetworkModeVlan)] in
  let X := [((32, 2886729984, 24), mkIPNet (mkIP V4 2886729984) (mkMask 24 32))] in
  let run := ensureRoutesForVxlanSubnet (Link.mk "eth0" 2)
               (mkIPNet (mkIP V4 167772160) (mkMask 24 32)) 10000 true FAMILY_V4 U X k in
  snd run = ROk tt
  /\ forall d : DstKey,
       kRoutes (fst run) !! (10000, d)
       = if keyIn (excludeKey 10000) X (10000, d)
         then Some (mkAttrs 0 0 None None RTN_THROW)
         else if keyIn (underlayKey 10000) U (10000, d)
              then Some (mkAttrs 2 SCOPE_UNIVERSE None None RTN_UNICAST)
              else None.
Proof.
  intros k underlay U X run. split; [vm_compute; reflexivity|].
  assert (Hrun : ensureRoutesForVxlanSubnet (Link.mk "eth0" 2)
                   (mkIPNet (mkIP V4 167772160) (mkMask 24 32)) 10000 true FAMILY_V4
                   U X k = (fst run, ROk tt)) by (vm_compute; reflexivity).
  assert (HU : wellKeyedSubnets U) by (repeat constructor).
  assert (HX : wellKeyed X) by (repeat constructor).
  exact (ensureRoutesForVxlanSubnet_nat_table (Link.mk "eth0" 2)
           (mkIPNet (mkIP V4 167772160) (mkMask 24 32)) 10000 FAMILY_V4 U X k (fst run)
           HU HX Hrun).
Defined.

(** X10. When [ensureExcludedIPBlockRoutes] returns without error for a map
    keyed by the texts of its blocks, the throw routes of the table are
    those of the blocks of the map, and the routes that are no throw routes
    and no block of the map are as before. *)
Theorem ensureExcludedIPBlockRoutes_throw_routes (X : list (NetText * IPNet))
    (table family : Z) (k k' : Kernel) :
  wellKeyed X ->
  ensureExcludedIPBlockRoutes X table family k = (k', ROk tt) ->
  forall d : DstKey,
    (keyIn (excludeKey table) X (table, d) = true ->
     kRoutes k' !! (table, d) = Some (mkAttrs 0 0 None None RTN_THROW))
    /\ (keyIn (excludeKey table) X (table, d) = false ->
        match kRoutes k !! (table, d) with
        | Some a => if aType a =? RTN_THROW then kRoutes k' !! (table, d) = None
                    else kRoutes k' !! (table, d) = Some a
        | None => kRoutes k' !! (table, d) = None
        end).
Proof.
  intros HX H d. apply ensureExcludedIPBlockRoutes_ok in H as [_ Hr].
  split.
  { intros Hx. etransitivity; [exact (Hr (table, d))|]. rewrite Hx. reflexivity. }
  intros Hx. pose proof (Hr (table, d)) as Hd. rewrite Hx in Hd.
  cbn [fst] in Hd. rewrite Z.eqb_refl in Hd. cbn [andb] in Hd. revert Hd.
  match goal with
  | |- context [@lookup ?K ?A ?M ?L ?kk (kRoutes k)] =>
      change (@lookup K A M L kk (kRoutes k)) with (kRoutes k !! (table, d));
      destruct (kRoutes k !! (table, d)) as [a|]
  end; [|intros Hd; exact Hd].
  destruct (aType a =? RTN_THROW) eqn:Hthrow; cbn [andb]; [|intros Hd; exact Hd].
  unfold uselessExcludeRoute. cbn [shown Route.Dst fst snd].
  destruct (dstOf (kFamily k) d) as [dst|] eqn:Hdst; [|intros Hd; exact Hd].
  destruct (hasKey X (IPNet_String dst)) eqn:Hk; [|intros Hd; exact Hd].
  rewrite (hasKey_excludeKey X table _ d dst HX Hdst Hk) in Hx. discriminate.
Qed.

Lemma ensureExcludedIPBlockRoutes_throw_routes_witness :
  let k := mkKernel V4 [] {[ (10000, None) := mkAttrs 7 0 None None 1;
                             (10000, Some (3232235520, 16%positive))
                               := mkAttrs 0 0 None None 9 ]} [] [] [] [] in
  let X := [((32, 2886729984, 24), mkIPNet (mkIP V4 2886729984) (mkMask 24 32))] in
  let run := ensureExcludedIPBlockRoutes X 10000 FAMILY_V4 k in
  snd run = ROk tt
  /\ kRoutes (fst run) !! (10000, Some (3232235520, 16%positive)) = None
  /\ forall d : DstKey,
       (keyIn (excludeKey 10000) X (10000, d) = true ->
        kRoutes (fst run) !! (10000, d) = Some (mkAttrs 0 0 None None RTN_THROW))
       /\ (keyIn (excludeKey 10000) X (10000, d) = false ->
           match kRoutes k !! (10000, d) with
           | Some a => if aType a =? RTN_THROW then kRoutes (fst run) !! (10000, d) = None
                       else kRoutes (fst run) !! (10000, d) = Some a
           | None => kRoutes (fst run) !! (10000, d) = None
           end).
Proof.
  intros k X run. split; [vm_compute; reflexivity|]. split; [vm_compute; reflexivity|].
  assert (Hrun : ensureExcludedIPBlockRoutes X 10000 FAMILY_V4 k = (fst run, ROk tt))
    by (vm_compute; reflexivity).
  assert (HX : wellKeyed X) by (repeat constructor).
  exact (ensureExcludedIPBlockRoutes_throw_routes X 10000 FAMILY_V4 k (fst run) HX Hrun).
Defined.

End ModeResults.

(** ** The vlan routes, and the default route of the main table *)

Section VlanAndDefault.

Lemma RouteReplace_err (route : Route.t) (k k' : Kernel) (e : Errno) :
  RouteReplace route k = (k', RErr e) -> e = ENetlink.
Proof.
  intros H. apply call_inv in H
    as [([= ->] & _)|(k0 & k1 & _ & _ & [(u & _ & [=] & _)|(e' & [=] & _)])].
  reflexivity.
Qed.

(** X11. When [ensureRoutesForVlanSubnet] returns without error, the
    gateway lies in the subnet, the table holds the default route through
    the gateway and, for a subnet that is not the default destination, the
    direct route of the subnet with link scope, its source address that of
    the direct route of the main table when the subnet is local; every other
    route of the kernel is as before. *)
Theorem ensureRoutesForVlanSubnet_routes (link : Link.t) (cidr : IPNet)
    (gateway : option IP) (table family : Z) (k k' : Kernel) :
  ensureRoutesForVlanSubnet link cidr gateway table family k = (k', ROk tt) ->
  containsOpt cidr gateway = true
  /\ kRoutes k' !! (table, None)
     = Some (mkAttrs (Link.Index link) SCOPE_UNIVERSE gateway None RTN_UNICAST)
  /\ (dstKey (Some cidr) <> None ->
      exists src,
        kRoutes k' !! (table, dstKey (Some cidr))
        = Some (mkAttrs (Link.Index link) SCOPE_LINK None src RTN_UNICAST)
        /\ vlanSrc k (Link.Index link) cidr src)
  /\ (forall kk : RouteKey,
        kk <> (table, None) -> kk <> (table, dstKey (Some cidr)) ->
        kRoutes k' !! kk = kRoutes k !! kk).
Proof.
  intros H.
  assert (Hc : containsOpt cidr gateway = true).
  { unfold ensureRoutesForVlanSubnet in H.
    apply bind_ok_inv in H as (k1 & addrs & _ & H).
    destruct (containsOpt cidr gateway); [reflexivity|].
    apply fail_inv in H as [_ [=]]. }
  apply ensureRoutesForVlanSubnet_ok in H as [_ (src & Hv & Hr)].
  split; [exact Hc|]. rewrite Hr. unfold vlanRoutes.
  split; [apply lookup_insert_eq|]. split.
  - intros Hd. exists src. split; [|exact Hv].
    rewrite lookup_insert_ne; [apply lookup_insert_eq|].
    intros [= Heq]. apply Hd. symmetry. exact Heq.
  - intros kk H1 H2. rewrite lookup_insert_ne by (intros Heq; apply H1; symmetry; exact Heq).
    apply lookup_insert_ne. intros Heq. apply H2. symmetry. exact Heq.
Qed.

Lemma ensureRoutesForVlanSubnet_routes_witness :
  let cidr := mkIPNet (mkIP V4 167772160) (mkMask 24 32) in
  let gateway := Some (mkIP V4 167772161) in
  let k := mkKernel V4 []
             {[ (254, Some (167772160, 24%positive))
                  := mkAttrs 2 253 None (Some (mkIP V4 167772170)) 1 ]}
             [Link.mk "eth0" 2]
             [Addr.mk (mkIPNet (mkIP V4 167772170) (mkMask 24 32)) "eth0" 0 0 2] [] [] in
  let run := ensureRoutesForVlanSubnet (Link.mk "eth0" 2) cidr gateway 10000 FAMILY_V4 k in
  kRoutes (fst run) !! (10000, Some (167772160, 24%positive))
    = Some (mkAttrs 2 SCOPE_LINK None (Some (mkIP V4 167772170)) RTN_UNICAST)
  /\ containsOpt cidr gateway = true
  /\ kRoutes (fst run) !! (10000, None)
     = Some (mkAttrs 2 SCOPE_UNIVERSE gateway None RTN_UNICAST)
  /\ (dstKey (Some cidr) <> None ->
      exists src,
        kRoutes (fst run) !! (10000, dstKey (Some cidr))
        = Some (mkAttrs 2 SCOPE_LINK None src RTN_UNICAST)
        /\ vlanSrc k 2 cidr src)
  /\ (forall kk : RouteKey,
        kk <> (10000, None) -> kk <> (10000, dstKey (Some cidr)) ->
        kRoutes (fst run) !! kk = kRoutes k !! kk).
Proof.
  intros cidr gateway k run. split; [vm_compute; reflexivity|].
  assert (Hrun : ensureRoutesForVlanSubnet (Link.mk "eth0" 2) cidr gateway 10000
                   FAMILY_V4 k = (fst run, ROk tt)) by (vm_compute; reflexivity).
  exact (ensureRoutesForVlanSubnet_routes (Link.mk "eth0" 2) cidr gateway 10000
           FAMILY_V4 k (fst run) Hrun).
Defined.

(** X12. With no gateway, or a gateway outside the subnet,
    [ensureRoutesForVlanSubnet] returns an error; and whenever its error is
    not that of a failed netlink call, it has left the kernel as it was. *)
Theorem ensureRoutesForVlanSubnet_errors (link : Link.t) (cidr : IPNet)
    (gateway : option IP) (table family : Z) (k k' : Kernel) (r : Res unit) :
  ensureRoutesForVlanSubnet link cidr gateway table family k = (k', r) ->
  (containsOpt cidr gateway = false ->
   (r = RErr ENetlink \/ r = RErr EGatewayOutside) /\ sameState k k')
  /\ (forall e, r = RErr e -> e <> ENetlink -> sameState k k').
Proof.
  unfold ensureRoutesForVlanSubnet. intros H.
  apply bind_inv in H as [(k1 & addrs & Ha & H)|(e & Ha & ->)].
  - apply AddrListAll_ok in Ha as [Hs1 ->].
    destruct (containsOpt cidr gateway) eqn:Hc; cbn [negb] in H.
    + split; [discriminate|]. intros e -> Hne.
      apply bind_inv in H as [(k2 & src & Hsrc & H)|(e' & Hsrc & _)].
      * exfalso. apply bind_inv in H as [(k3 & u3 & H3 & H)|(e' & H3 & [= ->])].
        -- apply RouteReplace_err in H. exact (Hne H).
        -- apply RouteReplace_err in H3. exact (Hne H3).
      * apply (sameState_trans k k1 k' Hs1).
        exact (stateStep_vlan_src link cidr gateway family _ _ _ _ Hsrc).
    + apply fail_inv in H as [-> ->]. split; [auto|]. intros e _ _. exact Hs1.
  - apply read_inv in Ha as [Hs [(k0 & _ & [=] & _)|[[= ->] _]]].
    split; [auto|]. intros e [= <-] Hne. exfalso. apply Hne. reflexivity.
Qed.

Lemma ensureRoutesForVlanSubnet_errors_witness :
  let cidr := mkIPNet (mkIP V4 167772160) (mkMask 24 32) in
  let gateway := Some (mkIP V4 3232235521) in
  let k := mkKernel V4 [] ∅ [Link.mk "eth0" 2] [] [] [] in
  let run := ensureRoutesForVlanSubnet (Link.mk "eth0" 2) cidr gateway 10000 FAMILY_V4 k in
  snd run = RErr EGatewayOutside
  /\ (snd run = RErr ENetlink \/ snd run = RErr EGatewayOutside)
  /\ sameState k (fst run).
Proof.
  intros cidr gateway k run. split; [vm_compute; reflexivity|].
  assert (Hrun : ensureRoutesForVlanSubnet (Link.mk "eth0" 2) cidr gateway 10000
                   FAMILY_V4 k = (fst run, snd run)) by (vm_compute; reflexivity).
  apply (proj1 (ensureRoutesForVlanSubnet_errors (Link.mk "eth0" 2) cidr gateway 10000
                  FAMILY_V4 k (fst run) (snd run) Hrun)).
  vm_compute. reflexivity.
Defined.

Lemma IsDefaultRoute_shown (fam : Family) (kk : RouteKey) (a : RouteAttrs) (family : Z) :
  IsDefaultRoute (shown fam (kk, a)) family
  = match snd kk with None => true | Some _ => false end.
Proof.
  destruct kk as [t [[x p]|]]; [|reflexivity].
  unfold IsDefaultRoute. cbn [shown Route.Dst dstOf fst snd].
  unfold NetText_eqb, IPNet_String, defaultRouteDstByFamily.
  destruct (family =? FAMILY_V6); cbn [fst snd netIP netMask ipVal maskOnes];
    apply andb_false_r.
Qed.

(** The first route of a dump that [P] accepts, when [P] accepts the routes
    of one key among those kept. *)
Lemma find_dump_key (k : Kernel) (keep P : Route.t -> bool) (kk : RouteKey) :
  (forall kk' a, keep (shown (kFamily k) (kk', a)) = true ->
     (P (shown (kFamily k) (kk', a)) = true <-> kk' = kk)) ->
  List.find P (dump k keep)
  = match kRoutes k !! kk with
    | Some a => if keep (shown (kFamily k) (kk, a))
                then Some (shown (kFamily k) (kk, a)) else None
    | None => None
    end.
Proof.
  intros HP. destruct (List.find P (dump k keep)) as [r|] eqn:Hfind.
  - apply List.find_some in Hfind as [Hin Hp].
    apply In_dump in Hin as [Hkeep (kk' & a & Hl & ->)].
    apply (HP _ _ Hkeep) in Hp. subst kk'. rewrite Hl, Hkeep. reflexivity.
  - destruct (kRoutes k !! kk) as [a|] eqn:Hl; [|reflexivity].
    destruct (keep (shown (kFamily k) (kk, a))) eqn:Hkeep; [|reflexivity].
    exfalso.
    assert (Hin : In (shown (kFamily k) (kk, a)) (dump k keep))
      by (apply In_dump; eauto).
    pose proof (List.find_none _ _ Hfind _ Hin) as Hno.
    rewrite (proj2 (HP kk a Hkeep) eq_refl) in Hno. discriminate.
Qed.

Lemma GetDefaultRoute_run (family : Z) (k : Kernel) :
  kFaults k = [] ->
  GetDefaultRoute family k
  = (k, match kRoutes k !! (RT_TABLE_MAIN, None) with
        | Some a => ROk (Route.mk None (aLinkIndex a) RT_TABLE_MAIN (aScope a) (aGw a)
                                  (aSrc a) (aType a))
        | None => RErr ENotExist
        end).
Proof.
  intros Hf. unfold GetDefaultRoute, bind, RouteListMain.
  rewrite (read_no_fault _ k Hf).
  rewrite (find_dump_key k _ _ (RT_TABLE_MAIN, None)).
  - match goal with
    | |- context [@lookup ?K ?A ?M ?L ?kk (kRoutes k)] =>
        change (@lookup K A M L kk (kRoutes k)) with (kRoutes k !! (RT_TABLE_MAIN, None));
        destruct (kRoutes k !! (RT_TABLE_MAIN, None)) as [a|]
    end; reflexivity.
  - intros kk' a Hkeep. rewrite IsDefaultRoute_shown.
    cbn [shown Route.Table fst snd] in Hkeep. apply Z.eqb_eq in Hkeep.
    destruct kk' as [t [d|]]; cbn [fst snd] in *.
    + split; [discriminate | intros [=]].
    + subst t. split; reflexivity.
Qed.

(** X13. With no failing call ahead, [GetDefaultRoute] changes nothing and
    returns the default route of the main table when there is one, and
    [NotExist] when there is none; it returns no route of another table and
    no route to another destination. *)
Theorem GetDefaultRoute_main_table (family : Z) (k : Kernel) :
  kFaults k = [] ->
  GetDefaultRoute family k
  = (k, match kRoutes k !! (RT_TABLE_MAIN, None) with
        | Some a => ROk (Route.mk None (aLinkIndex a) RT_TABLE_MAIN (aScope a) (aGw a)
                                  (aSrc a) (aType a))
        | None => RErr ENotExist
        end).
Proof. exact (GetDefaultRoute_run family k). Qed.

Lemma GetDefaultRoute_main_table_witness :
  let k := mkKernel V4 [] {[ (254, None) := mkAttrs 2 0 (Some (mkIP V4 167772161)) None 1;
                             (10000, None) := mkAttrs 3 0 None None 1 ]} [] [] [] [] in
  GetDefaultRoute FAMILY_V4 k
  = (k, ROk (Route.mk None 2 RT_TABLE_MAIN 0 (Some (mkIP V4 167772161)) None 1)).
Proof.
  intros k. rewrite (GetDefaultRoute_main_table FAMILY_V4 k eq_refl).
  vm_compute. reflexivity.
Defined.

End VlanAndDefault.

(** ** Runs without failing calls *)

Section SecondRun.

Lemma ensureExcludedIPBlockRoutes_no_fault (X : list (NetText * IPNet)) (t family : Z)
    (k : Kernel) :
  kFaults k = [] ->
  exists k', ensureExcludedIPBlockRoutes X t family k = (k', ROk tt) /\ kFaults k' = [].
Proof.
  intros Hf. unfold ensureExcludedIPBlockRoutes, bind at 1, RouteListByTableType.
  rewrite (read_no_fault _ k Hf). unfold bind.
  destruct (forEach_delete_no_fault (uselessExcludeRoute X)
              (fun route =>
                 if match Route.Dst route with
                    | Some dst => hasKey X (IPNet_String dst)
                    | None => false
                    end
                 then ret tt else RouteDel route)
              (dump k (fun r => (Route.Table r =? t) && (Route.Type_ r =? RTN_THROW))))
    with (k := k) as (k1 & Hrun & Hf1).
  - intros r k0 Hsel. unfold uselessExcludeRoute in Hsel.
    apply negb_false_iff in Hsel. rewrite Hsel. reflexivity.
  - intros r k0 Hsel. unfold uselessExcludeRoute in Hsel.
    apply negb_true_iff in Hsel. rewrite Hsel. exists r. auto.
  - apply NoDup_dump_keys.
  - exact Hf.
  - intros r Hin _. exact (dump_key_used _ _ _ Hin).
  - rewrite Hrun. apply forEach_replace_no_fault. exact Hf1.
Qed.

Lemma ensureRoutesForVxlanSubnet_no_fault (link : Link.t) (cidr : IPNet) (t : Z)
    (nat : bool) (family : Z) (U : SubnetInfoMap) (X : list (NetText * IPNet))
    (k : Kernel) :
  kFaults k = [] ->
  exists k', ensureRoutesForVxlanSubnet link cidr t nat family U X k = (k', ROk tt)
             /\ kFaults k' = [].
Proof.
  intros Hf. unfold ensureRoutesForVxlanSubnet, bind at 1, RouteListByTable.
  rewrite (read_no_fault _ k Hf). destruct nat; cbn [negb].
  - unfold bind at 1.
    destruct (forEach_delete_no_fault (uselessOverlayRoute U)
                (fun route =>
                   if isExcludeRoute route then ret tt
                   else match Route.Dst route with
                        | Some dst =>
                            if hasKey U (IPNet_String dst) then ret tt else RouteDel route
                        | None =>
                            RouteDel (Route.mk (Some (defaultRouteDstByFamily family))
                                               (Route.LinkIndex route) (Route.Table route)
                                               (Route.Scope route) (Route.Gw route)
                                               (Route.Src route) (Route.Type_ route))
                        end)
                (dump k (fun x => Route.Table x =? t)))
      with (k := k) as (k1 & Hrun & Hf1).
    + intros r k0 Hsel. unfold uselessOverlayRoute in Hsel.
      destruct (isExcludeRoute r); [reflexivity|]. cbn [negb andb] in Hsel.
      destruct (Route.Dst r); [|discriminate].
      apply negb_false_iff in Hsel. rewrite Hsel. reflexivity.
    + intros r k0 Hsel. unfold uselessOverlayRoute in Hsel.
      destruct (isExcludeRoute r); [discriminate|]. cbn [negb andb] in Hsel.
      destruct (Route.Dst r) eqn:Hd.
      * apply negb_true_iff in Hsel. rewrite Hsel. exists r. auto.
      * eexists. split; [|reflexivity].
        unfold routeKey. cbn [Route.Table Route.Dst]. rewrite default_dstKey, Hd.
        reflexivity.
    + apply NoDup_dump_keys.
    + exact Hf.
    + intros r Hin _. exact (dump_key_used _ _ _ Hin).
    + rewrite Hrun. unfold bind at 1.
      destruct (forEach_replace_no_fault
                  (fun entry : NetText * SubnetInfo.t =>
                     Route.mk (Some (SubnetInfo.cidr (snd entry))) (Link.Index link) t
                              SCOPE_UNIVERSE None None 0)
                  U k1 Hf1) as (k2 & Hrun2 & Hf2).
      rewrite Hrun2. apply ensureExcludedIPBlockRoutes_no_fault. exact Hf2.
  - unfold bind at 1. rewrite (RouteReplace_no_fault _ k Hf).
    apply (forEach_delete_no_fault hasDst).
    + intros r k0 Hsel. unfold hasDst in Hsel. destruct (Route.Dst r); [discriminate|].
      reflexivity.
    + intros r k0 Hsel. unfold hasDst in Hsel. destruct (Route.Dst r); [|discriminate].
      exists r. auto.
    + apply NoDup_dump_keys.
    + exact Hf.
    + intros r Hin _. cbn [logEvent setRoutes kRoutes].
      destruct (dump_key_used _ _ _ Hin) as [a Ha].
      destruct (decide (routeKey r = routeKey
                  (Route.mk (Some (defaultRouteDstByFamily family)) (Link.Index link) t
                            SCOPE_UNIVERSE None None 0))) as [Heq|Hne].
      * rewrite Heq, lookup_insert_eq. eauto.
      * rewrite lookup_insert_ne by (intros E; apply Hne; symmetry; exact E). eauto.
Qed.

(** X14. With no failing netlink call ahead, the route functions for vxlan
    and BGP subnets return without error from every state of the kernel: a
    route they delete is always there. *)
Theorem ensureRoutesByMode_no_fault (link : Link.t) (cidr : IPNet) (gateway : option IP)
    (nat : bool) (table family : Z) (U : SubnetInfoMap) (X : list (NetText * IPNet))
    (mode : NetworkMode) (k : Kernel) :
  kFaults k = [] ->
  mode = NetworkModeVxlan \/ mode = NetworkModeBGP \/ mode = NetworkModeGlobalBGP ->
  exists k', ensureRoutesByMode link cidr gateway nat table family U X mode k = (k', ROk tt)
             /\ kFaults k' = [].
Proof.
  intros Hf [->|[->| ->]]; cbn [ensureRoutesByMode].
  - apply ensureRoutesForVxlanSubnet_no_fault. exact Hf.
  - unfold ensureRoutesForBGPSubnet. rewrite (RouteReplace_no_fault _ k Hf). eauto.
  - unfold ensureRoutesForBGPSubnet. rewrite (RouteReplace_no_fault _ k Hf). eauto.
Qed.

Lemma ensureRoutesByMode_no_fault_witness :
  let k := mkKernel V4 [] {[ (10000, None) := mkAttrs 7 0 None None 1;
                             (10000, Some (3232235520, 16%positive))
                               := mkAttrs 7 0 None None 9 ]} [] [] [] [] in
  exists k', ensureRoutesByMode (Link.mk "eth0" 2)
               (mkIPNet (mkIP V4 167772160) (mkMask 24 32)) None true 10000 FAMILY_V4
               [] [] NetworkModeVxlan k = (k', ROk tt)
             /\ kFaults k' = [].
Proof.
  intros k.
  apply (ensureRoutesByMode_no_fault (Link.mk "eth0" 2)
           (mkIPNet (mkIP V4 167772160) (mkMask 24 32)) None true 10000 FAMILY_V4
           [] [] NetworkModeVxlan k eq_refl).
  left. reflexivity.
Defined.


Lemma find_default_main (k : Kernel) (family : Z) :
  List.find (fun route => IsDefaultRoute route family)
            (dump k (fun x => Route.Table x =? RT_TABLE_MAIN))
  = match kRoutes k !! (RT_TABLE_MAIN, None) with
    | Some a => Some (shown (kFamily k) ((RT_TABLE_MAIN, None), a))
    | None => None
    end.
Proof.
  rewrite (find_dump_key k _ _ (RT_TABLE_MAIN, None)).
  - match goal with
    | |- context [@lookup ?K ?A ?M ?L ?kk (kRoutes k)] =>
        change (@lookup K A M L kk (kRoutes k)) with (kRoutes k !! (RT_TABLE_MAIN, None));
        destruct (kRoutes k !! (RT_TABLE_MAIN, None)) as [a|]
    end; reflexivity.
  - intros kk' a Hkeep. rewrite IsDefaultRoute_shown.
    cbn [shown Route.Table fst snd] in Hkeep. apply Z.eqb_eq in Hkeep.
    destruct kk' as [t [d|]]; cbn [fst snd] in *.
    + split; [discriminate | intros [=]].
    + subst t. split; reflexivity.
Qed.

(** What the checks of a vlan run without error have found. *)
Lemma ensureRoutesForVlanSubnet_checked (link : Link.t) (cidr : IPNet)
    (gateway : option IP) (t family : Z) (k k' : Kernel) (u : unit) :
  ensureRoutesForVlanSubnet link cidr gateway t family k = (k', ROk u) ->
  containsOpt cidr gateway = true
  /\ (isLocalSubnet cidr (kAddrs k) = true ->
      defaultRouteAgrees k (Link.Index link) gateway).
Proof.
  unfold ensureRoutesForVlanSubnet. intros H.
  apply bind_ok_inv in H as (k1 & addrs & Ha & H).
  apply AddrListAll_ok in Ha as [Hs1 ->].
  destruct (containsOpt cidr gateway); [|apply fail_inv in H as [_ [=]]].
  split; [reflexivity|]. intros Hlocal. cbn [negb] in H.
  apply bind_ok_inv in H as (k2 & src & Hsrc & _).
  unfold isLocalSubnet in Hlocal. rewrite Hlocal in Hsrc.
  apply bind_ok_inv in Hsrc as (ka & res & Ht & Hsrc).
  apply try_inv in Ht as (r0 & Hg & [= ->]).
  apply GetDefaultRoute_inv in Hg as [Hsa Hg].
  apply bind_ok_inv in Hsrc as (kb & ub & Hm & _).
  unfold defaultRouteAgrees.
  destruct Hs1 as (Hfam & _ & Hroutes & _).
  destruct (kRoutes k !! (RT_TABLE_MAIN, None)) as [a|] eqn:Hlook; [|exact I].
  destruct Hg as [[_ [(route & -> & Hfind)|[-> Hfind]]]|[_ ->]].
  - rewrite find_default_main, Hroutes, Hlook in Hfind. injection Hfind as <-.
    cbn [shown Route.LinkIndex Route.Gw fst snd] in Hm.
    destruct (_ && _); [apply fail_inv in Hm as [_ [=]] | reflexivity].
  - rewrite find_default_main, Hroutes, Hlook in Hfind. discriminate.
  - apply fail_inv in Hm as [_ [=]].
Qed.

Lemma equalOpt_refl (a : option IP) : equalOpt a a = true.
Proof. destruct a as [g|]; [apply Equal_eq; reflexivity | reflexivity]. Qed.

(** A vlan run with no failing call ahead, where the checks pass. *)
Lemma ensureRoutesForVlanSubnet_no_fault (link : Link.t) (cidr : IPNet)
    (gateway : option IP) (t family : Z) (k : Kernel) :
  kFaults k = [] ->
  containsOpt cidr gateway = true ->
  (isLocalSubnet cidr (kAddrs k) = true ->
   defaultRouteAgrees k (Link.Index link) gateway
   /\ exists a, kRoutes k !! (RT_TABLE_MAIN, dstKey (Some cidr)) = Some a
                /\ aLinkIndex a = Link.Index link) ->
  exists k', ensureRoutesForVlanSubnet link cidr gateway t family k = (k', ROk tt)
             /\ kFaults k' = [].
Proof.
  intros Hf Hc Hlocal. unfold ensureRoutesForVlanSubnet, bind at 1, AddrListAll.
  rewrite (read_no_fault _ k Hf). rewrite Hc. cbn [negb].
  assert (Hsrc : exists src,
            (if existsb (fun address =>
                           Contains cidr (Addr.IP_ address)
                           && (Z.land (Addr.Flags address) IFA_F_NOPREFIXROUTE =? 0))
                        (kAddrs k)
             then
               let* res := try (GetDefaultRoute family) in
               let* _ :=
                 match res with
                 | RErr ENotExist => ret tt
                 | RErr e => fail e
                 | ROk defaultRoute =>
                     if (Route.LinkIndex defaultRoute =? Link.Index link)
                        && match Route.Gw defaultRoute with
                           | Some _ => negb (equalOpt (Route.Gw defaultRoute) gateway)
                           | None => false
                           end
                     then fail EGatewayConflict
                     else ret tt
                 end in
               let* directRouteList :=
                 RouteListByOifDst (Link.Index link) (Some cidr) in
               match directRouteList with
               | [] => fail ENoDirectRoute
               | first :: _ => ret (Route.Src first)
               end
             else ret None) k = (k, ROk src)).
  { fold (isLocalSubnet cidr (kAddrs k)).
    destruct (isLocalSubnet cidr (kAddrs k)) eqn:Hl; [|exists None; reflexivity].
    destruct (Hlocal eq_refl) as [Hagree (a & Ha & Hidx)].
    unfold bind at 1, try. rewrite (GetDefaultRoute_run family k Hf).
    assert (Hcheck : (let* _ :=
                        match
                          match kRoutes k !! (RT_TABLE_MAIN, None) with
                          | Some a0 => ROk (Route.mk None (aLinkIndex a0) RT_TABLE_MAIN
                                              (aScope a0) (aGw a0) (aSrc a0) (aType a0))
                          | None => RErr ENotExist
                          end
                        with
                        | RErr ENotExist => ret tt
                        | RErr e => fail e
                        | ROk defaultRoute =>
                            if (Route.LinkIndex defaultRoute =? Link.Index link)
                               && match Route.Gw defaultRoute with
                                  | Some _ => negb (equalOpt (Route.Gw defaultRoute) gateway)
                                  | None => false
                                  end
                            then fail EGatewayConflict
                            else ret tt
                        end in ret tt) k = (k, ROk tt)).
    { unfold defaultRouteAgrees in Hagree.
      destruct (kRoutes k !! (RT_TABLE_MAIN, None)) as [a0|]; [|reflexivity].
      cbn [Route.LinkIndex Route.Gw]. rewrite Hagree. reflexivity. }
    unfold bind in Hcheck |- *.
    destruct (match
                match kRoutes k !! (RT_TABLE_MAIN, None) with
                | Some a0 => ROk (Route.mk None (aLinkIndex a0) RT_TABLE_MAIN
                                    (aScope a0) (aGw a0) (aSrc a0) (aType a0))
                | None => RErr ENotExist
                end
              with
              | RErr ENotExist => ret tt
              | RErr e => fail e
              | ROk defaultRoute => _
              end k) as [kx [ux|ex]]; [|discriminate].
    injection Hcheck as ->.
    unfold RouteListByOifDst. rewrite (read_no_fault _ k Hf).
    destruct (dump k _) as [|first rest] eqn:Hd.
    - exfalso.
      assert (Hin : In (shown (kFamily k) ((RT_TABLE_MAIN, dstKey (Some cidr)), a))
                       (dump k (fun r => (Route.Table r =? RT_TABLE_MAIN)
                                         && (Route.LinkIndex r =? Link.Index link)
                                         && DstKey_eqb (dstKey (Route.Dst r))
                                                       (dstKey (Some cidr))))).
      { apply In_dump. split; [|eauto].
        cbn [shown Route.Table Route.LinkIndex Route.Dst fst snd].
        rewrite dstKey_dstOf, Hidx, !Z.eqb_refl. cbn [andb].
        apply bool_decide_eq_true. reflexivity. }
      rewrite Hd in Hin. exact Hin.
    - eexists. reflexivity. }
  destruct Hsrc as (src & Hsrc). unfold bind at 1. rewrite Hsrc.
  unfold bind. rewrite (RouteReplace_no_fault _ k Hf).
  rewrite RouteReplace_no_fault by exact Hf. eauto.
Qed.


(** The route function of a mode, run a second time with no failing call
    ahead on what a run without error left, returns without error. *)
Lemma ensureRoutesByMode_second_run (link : Link.t) (cidr : IPNet) (gateway : option IP)
    (nat : bool) (t family : Z) (U : SubnetInfoMap) (X : list (NetText * IPNet))
    (mode : NetworkMode) (ka kb kc : Kernel) (u : unit) :
  ensureRoutesByMode link cidr gateway nat t family U X mode ka = (kb, ROk u) ->
  kRoutes kc = kRoutes kb -> kAddrs kc = kAddrs ka ->
  kFaults kc = [] ->
  exists kd, ensureRoutesByMode link cidr gateway nat t family U X mode kc = (kd, ROk tt)
             /\ kFaults kd = [].
Proof.
  intros H1 Hr Ha Hf. destruct mode; cbn [ensureRoutesByMode] in H1 |- *.
  - apply ensureRoutesForVxlanSubnet_no_fault. exact Hf.
  - destruct (ensureRoutesForVlanSubnet_checked _ _ _ _ _ _ _ _ H1) as [Hc Hagree].
    apply ensureRoutesForVlanSubnet_ok in H1 as [_ (src & Hv & Hr1)].
    apply ensureRoutesForVlanSubnet_no_fault; [exact Hf | exact Hc|].
    rewrite Ha. intros Hlocal. specialize (Hagree Hlocal).
    unfold vlanSrc in Hv. rewrite Hlocal in Hv. destruct Hv as (a & Hla & Hidx & _).
    unfold defaultRouteAgrees in *. rewrite Hr, Hr1. unfold vlanRoutes.
    destruct (Z.eq_dec t RT_TABLE_MAIN) as [->|Hne].
    + rewrite lookup_insert_eq. cbn [aLinkIndex aGw]. split.
      * rewrite Z.eqb_refl. cbn [andb].
        destruct gateway; [rewrite equalOpt_refl|]; reflexivity.
      * destruct (dstKey (Some cidr)) as [dk|].
        -- rewrite lookup_insert_ne by discriminate. rewrite lookup_insert_eq. eauto.
        -- rewrite lookup_insert_eq. eauto.
    + rewrite !lookup_insert_ne by (intros [= E]; congruence).
      split; [exact Hagree|]. eauto.
  - unfold ensureRoutesForBGPSubnet. rewrite (RouteReplace_no_fault _ kc Hf). eauto.
  - unfold ensureRoutesForBGPSubnet. rewrite (RouteReplace_no_fault _ kc Hf). eauto.
  - apply fail_inv in H1 as [_ [=]].
Qed.

(** X15. After [ensureFromPodSubnetRuleAndRoutes] has returned without
    error, a second call with the same input and no failing netlink call
    ahead returns without error too, and leaves the rules and the routes as
    the first call left them. *)
Theorem ensureFromPodSubnetRuleAndRoutes_second_call
    (fromRuleMask : Z) (forwardNodeIfName : string) (cidr : IPNet) (gateway : option IP)
    (autoNatOutgoing : bool) (family : Z) (underlaySubnetInfoMap : SubnetInfoMap)
    (underlayExcludeIPBlockMap : list (NetText * IPNet)) (mode : NetworkMode)
    (k k1 : Kernel) :
  ensureFromPodSubnetRuleAndRoutes fromRuleMask forwardNodeIfName cidr gateway
    autoNatOutgoing family underlaySubnetInfoMap underlayExcludeIPBlockMap mode k
    = (k1, ROk tt) ->
  kFaults k1 = [] ->
  exists k2,
    ensureFromPodSubnetRuleAndRoutes fromRuleMask forwardNodeIfName cidr gateway
      autoNatOutgoing family underlaySubnetInfoMap underlayExcludeIPBlockMap mode k1
      = (k2, ROk tt)
    /\ kRules k2 = kRules k1 /\ kRoutes k2 = kRoutes k1.
Proof.
  intros H Hf.
  apply ensureFromPodSubnetRuleAndRoutes_ok in H
    as (link & t & kc & kd & Hlink & Hsc & Hmode & Hsd & Hf1 & Hl1 & Ha1 & Hr1 & Hrule).
  assert (Hfound : exists rule,
            List.find (fun rule => sameSrc (Some cidr) (Rule.Src rule)) (kRules k1)
              = Some rule /\ Rule.Table rule = t).
  { destruct Hrule as [(rule & Hfd & -> & ->)|(Hnone & rule & Hsrc & Htab & ->)].
    - eauto.
    - exists rule. rewrite (find_app_none _ _ _ Hnone). cbn [List.find].
      rewrite Hsrc. cbn [sameSrc]. rewrite NetText_eqb_refl. auto. }
  destruct Hfound as (rule & Hfind & Htab).
  destruct Hsc as (Hfc & _ & Hrc & _ & Hac).
  destruct (ensureRoutesByMode_second_run _ _ _ _ _ _ _ _ _ kc kd k1 tt Hmode Hr1
              ltac:(congruence) Hf) as (k2 & Hmode2 & Hf2).
  exists k2. split; [|split].
  - unfold ensureFromPodSubnetRuleAndRoutes, bind at 1, checkIfRuleExist, bind at 1, RuleList.
    rewrite (read_no_fault _ k1 Hf).
    erewrite find_ext_eq; [rewrite Hfind|intros x; cbn; apply andb_true_r].
    unfold ret at 1, bind at 1. cbn [chooseTable negb]. unfold ret at 1.
    unfold bind at 1, LinkByName. rewrite call_no_fault by exact Hf.
    rewrite Hl1, Hlink, Htab. unfold bind. rewrite Hmode2. reflexivity.
  - pose proof (routeStep_ensureRoutesByMode _ _ _ _ _ _ _ _ _ _ _ _ Hmode2)
      as [(_ & Hrules & _) _]. exact Hrules.
  - rewrite Hr1.
    destruct Hsd as (Hfd & _ & _ & Had).
    apply (ensureRoutesByMode_again link cidr gateway autoNatOutgoing t family
             underlaySubnetInfoMap underlayExcludeIPBlockMap mode kc kd k1 k2 tt tt
             Hmode); [| | |exact Hmode2]; congruence.
Qed.

Lemma ensureFromPodSubnetRuleAndRoutes_second_call_witness :
  let k := mkKernel V4 [Rule.mk None 255 0 0 0] ∅ [Link.mk "eth0" 2] [] [] [] in
  let cidr := mkIPNet (mkIP V4 167772160) (mkMask 24 32) in
  let k1 := fst (ensureFromPodSubnetRuleAndRoutes 24576 "eth0" cidr None false FAMILY_V4
                   [] [] NetworkModeVxlan k) in
  kRules k1 = kRules k ++ [Rule.mk (Some cidr) 10000 1 0 24576]
  /\ exists k2,
       ensureFromPodSubnetRuleAndRoutes 24576 "eth0" cidr None false FAMILY_V4
         [] [] NetworkModeVxlan k1 = (k2, ROk tt)
       /\ kRules k2 = kRules k1 /\ kRoutes k2 = kRoutes k1.
Proof.
  intros k cidr k1. split; [vm_compute; reflexivity|].
  assert (Hrun : ensureFromPodSubnetRuleAndRoutes 24576 "eth0" cidr None false FAMILY_V4
                   [] [] NetworkModeVxlan k = (k1, ROk tt)) by (vm_compute; reflexivity).
  assert (Hf : kFaults k1 = []) by (vm_compute; reflexivity).
  exact (ensureFromPodSubnetRuleAndRoutes_second_call _ _ _ _ _ _ _ _ _ _ _ Hrun Hf).
Defined.

End SecondRun.

(** ** Maps keyed by the texts of networks *)

Section Maps.

Lemma NetText_eqb_iff (a b : NetText) : NetText_eqb a b = true <-> a = b.
Proof. split; [apply NetText_eqb_eq | intros ->; apply NetText_eqb_refl]. Qed.

Lemma NetText_eqb_sym (a b : NetText) : NetText_eqb a b = NetText_eqb b a.
Proof.
  apply eq_true_iff_eq. rewrite !NetText_eqb_iff. split; congruence.
Qed.

Lemma mapGet_cons {V} (key0 : NetText) (v0 : V) (m : list (NetText * V)) (key : NetText) :
  mapGet ((key0, v0) :: m) key = if NetText_eqb key0 key then Some v0 else mapGet m key.
Proof. unfold mapGet. cbn [List.find fst]. destruct (NetText_eqb key0 key); reflexivity. Qed.

Lemma hasKey_mapGet {V} (m : list (NetText * V)) (key : NetText) :
  hasKey m key = true <-> exists v, mapGet m key = Some v.
Proof.
  induction m as [|[key0 v0] m IH]; [split; [discriminate | intros [v [=]]]|].
  rewrite mapGet_cons. unfold hasKey in *. cbn [existsb fst].
  destruct (NetText_eqb key0 key); cbn [orb]; [split; eauto | exact IH].
Qed.

Lemma mapGet_None {V} (m : list (NetText * V)) (key : NetText) :
  hasKey m key = false <-> mapGet m key = None.
Proof.
  split.
  - intros Hk. destruct (mapGet m key) as [v|] eqn:Hg; [|reflexivity].
    assert (Ht : hasKey m key = true) by (apply hasKey_mapGet; eauto). congruence.
  - intros Hg. destruct (hasKey m key) eqn:Hk; [|reflexivity].
    apply hasKey_mapGet in Hk as [v Hv]. congruence.
Qed.

Lemma mapGet_replace_same {V} (m : list (NetText * V)) (key : NetText) (v : V) :
  hasKey m key = true ->
  mapGet (List.map (fun kv => if NetText_eqb (fst kv) key then (key, v) else kv) m) key
  = Some v.
Proof.
  induction m as [|[key0 v0] m IH]; [discriminate|].
  unfold hasKey in *. cbn [existsb List.map fst].
  destruct (NetText_eqb key0 key) eqn:H0; cbn [orb]; intros Hk.
  - rewrite mapGet_cons, NetText_eqb_refl. reflexivity.
  - rewrite mapGet_cons, H0. exact (IH Hk).
Qed.

Lemma mapGet_replace_other {V} (m : list (NetText * V)) (key key' : NetText) (v : V) :
  NetText_eqb key key' = false ->
  mapGet (List.map (fun kv => if NetText_eqb (fst kv) key then (key, v) else kv) m) key'
  = mapGet m key'.
Proof.
  intros Hne. induction m as [|[key0 v0] m IH]; [reflexivity|].
  cbn [List.map fst]. destruct (NetText_eqb key0 key) eqn:H0.
  - apply NetText_eqb_eq in H0. subst key0. rewrite !mapGet_cons, Hne. exact IH.
  - rewrite !mapGet_cons, IH. reflexivity.
Qed.

Lemma mapGet_app_new {V} (m : list (NetText * V)) (key key' : NetText) (v : V) :
  mapGet (m ++ [(key, v)]) key'
  = match mapGet m key' with
    | Some x => Some x
    | None => if NetText_eqb key key' then Some v else None
    end.
Proof.
  induction m as [|[key0 v0] m IH]; cbn [app].
  - rewrite mapGet_cons. reflexivity.
  - rewrite !mapGet_cons. destruct (NetText_eqb key0 key'); [reflexivity | exact IH].
Qed.

(** [m[key] = v] followed by [m[key']]. *)
Lemma mapGet_mapSet {V} (m : list (NetText * V)) (key key' : NetText) (v : V) :
  mapGet (mapSet m key v) key' = if NetText_eqb key key' then Some v else mapGet m key'.
Proof.
  unfold mapSet. destruct (hasKey m key) eqn:Hk.
  - destruct (NetText_eqb key key') eqn:Hkk.
    + apply NetText_eqb_eq in Hkk. subst key'. apply mapGet_replace_same, Hk.
    + apply mapGet_replace_other, Hkk.
  - rewrite mapGet_app_new. destruct (NetText_eqb key key') eqn:Hkk.
    + apply NetText_eqb_eq in Hkk. subst key'.
      apply mapGet_None in Hk. rewrite Hk. reflexivity.
    + destruct (mapGet m key'); reflexivity.
Qed.

Lemma mapSet_keys {V} (m : list (NetText * V)) (key : NetText) (v : V) :
  List.map fst (mapSet m key v)
  = if hasKey m key then List.map fst m else List.map fst m ++ [key].
Proof.
  unfold mapSet. destruct (hasKey m key); [|rewrite List.map_app; reflexivity].
  rewrite List.map_map. apply List.map_ext. intros [key0 v0]. cbn [fst].
  destruct (NetText_eqb key0 key) eqn:H0; [|reflexivity].
  apply NetText_eqb_eq in H0. symmetry. exact H0.
Qed.

Lemma hasKey_In {V} (m : list (NetText * V)) (key : NetText) :
  hasKey m key = true <-> In key (List.map fst m).
Proof.
  unfold hasKey. rewrite List.existsb_exists, List.in_map_iff. split.
  - intros (kv & Hin & Hk). apply NetText_eqb_eq in Hk. eauto.
  - intros (kv & Hk & Hin). exists kv. split; [exact Hin|]. apply NetText_eqb_iff, Hk.
Qed.

Lemma mapSet_uniqueKeys {V} (m : list (NetText * V)) (key : NetText) (v : V) :
  uniqueKeys m -> uniqueKeys (mapSet m key v).
Proof.
  unfold uniqueKeys. intros Hu. rewrite mapSet_keys.
  destruct (hasKey m key) eqn:Hk; [exact Hu|].
  apply NoDup_ListNoDup, NoDup_app. split; [apply NoDup_ListNoDup, Hu|].
  split; [|apply NoDup_singleton].
  intros x Hx Hx'. apply list_elem_of_In in Hx. apply list_elem_of_In in Hx'.
  destruct Hx' as [<-|[]]. apply hasKey_In in Hx. congruence.
Qed.

Lemma mapSet_wellKeyed (m : list (NetText * IPNet)) (block : IPNet) :
  wellKeyed m -> wellKeyed (mapSet m (IPNet_String block) block).
Proof.
  unfold wellKeyed, mapSet. intros Hw. destruct (hasKey m _).
  - apply List.Forall_forall. intros kv Hin.
    apply List.in_map_iff in Hin as (kv0 & <- & Hin0).
    destruct (NetText_eqb (fst kv0) _); [reflexivity|].
    exact (proj1 (List.Forall_forall _ _) Hw kv0 Hin0).
  - apply Forall_app. split; [exact Hw | repeat constructor].
Qed.

(** A loop of assignments followed by [m[key]]. *)
Lemma foldl_mapSet_get {V} (l acc : list (NetText * V)) (key : NetText) :
  uniqueKeys l ->
  mapGet (foldl (fun res kv => mapSet res (fst kv) (snd kv)) acc l) key
  = match mapGet l key with
    | Some v => Some v
    | None => mapGet acc key
    end.
Proof.
  revert acc. induction l as [|[key0 v0] l IH]; intros acc Hu; [reflexivity|].
  unfold uniqueKeys in Hu. cbn [List.map fst] in Hu.
  apply List.NoDup_cons_iff in Hu as [Hnot Hu].
  cbn [foldl fst snd]. rewrite (IH _ Hu), mapGet_cons, mapGet_mapSet.
  destruct (NetText_eqb key0 key) eqn:H0; [|reflexivity].
  apply NetText_eqb_eq in H0. subst key0.
  replace (mapGet l key) with (@None V); [reflexivity|].
  symmetry. apply mapGet_None.
  destruct (hasKey l key) eqn:Hk; [|reflexivity].
  exfalso. apply Hnot, hasKey_In, Hk.
Qed.

Lemma foldl_mapSet_uniqueKeys {V} (l acc : list (NetText * V)) :
  uniqueKeys acc ->
  uniqueKeys (foldl (fun res kv => mapSet res (fst kv) (snd kv)) acc l).
Proof.
  revert acc. induction l as [|kv l IH]; intros acc Hu; [exact Hu|].
  cbn [foldl]. apply IH, mapSet_uniqueKeys, Hu.
Qed.

(** X16. In the map [combineNetMap] (and [combineSubnetInfoMap], the same
    code) returns, a key has the entry of the second map when it has one
    there, and that of the first map otherwise. *)
Theorem combineNetMap_lookup (a b : list (NetText * IPNet)) (key : NetText) :
  uniqueKeys a -> uniqueKeys b ->
  mapGet (combineNetMap a b) key
  = match mapGet b key with
    | Some block => Some block
    | None => mapGet a key
    end
  /\ uniqueKeys (combineNetMap a b).
Proof.
  intros Ha Hb. unfold combineNetMap, combineMaps. destruct b as [|kv b].
  - cbn [length Nat.eqb]. split; [reflexivity | exact Ha].
  - cbn [length Nat.eqb]. split.
    + rewrite (foldl_mapSet_get _ _ key Hb), (foldl_mapSet_get _ _ key Ha).
      destruct (mapGet (kv :: b) key); [reflexivity|].
      destruct (mapGet a key); reflexivity.
    + apply foldl_mapSet_uniqueKeys, foldl_mapSet_uniqueKeys. constructor.
Qed.

Lemma combineNetMap_lookup_witness :
  let n1 := mkIPNet (mkIP V4 167772160) (mkMask 24 32) in
  let n2 := mkIPNet (mkIP V4 167772160) (mkMask 24 128) in
  let n3 := mkIPNet (mkIP V4 3232235520) (mkMask 16 32) in
  let a := [((32, 167772160, 24), n1)] in
  let b := [((32, 3232235520, 16), n3); ((32, 167772160, 24), n2)] in
  mapGet (combineNetMap a b) (32, 167772160, 24) = Some n2
  /\ uniqueKeys (combineNetMap a b).
Proof.
  intros n1 n2 n3 a b.
  assert (Ha : uniqueKeys a) by (repeat constructor; cbn; tauto).
  assert (Hb : uniqueKeys b).
  { repeat constructor; cbn; [|tauto]. intros [[=]|[]]. }
  exact (combineNetMap_lookup a b (32, 167772160, 24) Ha Hb).
Defined.


Lemma hasKey_mapSet {V} (m : list (NetText * V)) (key key' : NetText) (v : V) :
  hasKey (mapSet m key v) key' = NetText_eqb key key' || hasKey m key'.
Proof.
  apply eq_true_iff_eq. rewrite orb_true_iff, !hasKey_mapGet, mapGet_mapSet.
  destruct (NetText_eqb key key'); split; eauto.
  - intros [[=]|H]; exact H.
Qed.

(** The inner loop of [findExcludeIPBlockMap]. *)
Lemma addBlocks_inv (blocks : list IPNet) (m : list (NetText * IPNet)) :
  let m' := foldl (fun m block => mapSet m (IPNet_String block) block) m blocks in
  (wellKeyed m -> wellKeyed m')
  /\ (uniqueKeys m -> uniqueKeys m')
  /\ (forall key blk, mapGet m' key = Some blk -> mapGet m key = Some blk \/ In blk blocks)
  /\ (forall key, hasKey m key = true -> hasKey m' key = true)
  /\ (forall blk, In blk blocks -> hasKey m' (IPNet_String blk) = true).
Proof.
  revert m. induction blocks as [|b blocks IH]; intros m; cbn zeta; cbn [foldl].
  - repeat split; auto; intros blk [].
  - destruct (IH (mapSet m (IPNet_String b) b)) as (H1 & H2 & H3 & H4 & H5).
    cbn zeta in *. split; [|split; [|split; [|split]]].
    + intros Hw. apply H1, mapSet_wellKeyed, Hw.
    + intros Hu. apply H2, mapSet_uniqueKeys, Hu.
    + intros key blk Hg. destruct (H3 key blk Hg) as [Hm|Hin]; [|right; right; exact Hin].
      rewrite mapGet_mapSet in Hm. destruct (NetText_eqb (IPNet_String b) key).
      * injection Hm as <-. right. left. reflexivity.
      * left. exact Hm.
    + intros key Hk. apply H4. rewrite hasKey_mapSet, Hk. apply orb_true_r.
    + intros blk [<-|Hin]; [|apply H5, Hin].
      apply H4. rewrite hasKey_mapSet, NetText_eqb_refl. reflexivity.
Qed.

(** The loop of [findExcludeIPBlockMap] over the subnets. *)
Lemma excludeBlocksLoop_inv (fuel : nat) (subnets : SubnetInfoMap)
    (m0 m : list (NetText * IPNet)) :
  excludeBlocksLoop fuel subnets m0 = Some (Ok m) ->
  (wellKeyed m0 -> wellKeyed m)
  /\ (uniqueKeys m0 -> uniqueKeys m)
  /\ (forall key blk, mapGet m key = Some blk ->
        mapGet m0 key = Some blk
        \/ exists entry blocks,
             In entry subnets
             /\ subnetExcludeIPBlocks fuel (snd entry) = Some (Ok blocks)
             /\ In blk blocks)
  /\ (forall key, hasKey m0 key = true -> hasKey m key = true)
  /\ (forall entry blocks blk,
        In entry subnets -> subnetExcludeIPBlocks fuel (snd entry) = Some (Ok blocks) ->
        In blk blocks -> hasKey m (IPNet_String blk) = true).
Proof.
  revert m0. induction subnets as [|entry rest IH]; intros m0 H; cbn [excludeBlocksLoop] in H.
  - injection H as <-. repeat split; auto; intros entry blocks blk [].
  - fold (subnetExcludeIPBlocks fuel (snd entry)) in H.
    destruct (subnetExcludeIPBlocks fuel (snd entry)) as [[blocks|e]|] eqn:Hsub;
      try discriminate.
    destruct (IH _ H) as (H1 & H2 & H3 & H4 & H5).
    destruct (addBlocks_inv blocks m0) as (A1 & A2 & A3 & A4 & A5). cbn zeta in *.
    split; [|split; [|split; [|split]]].
    + intros Hw. apply H1, A1, Hw.
    + intros Hu. apply H2, A2, Hu.
    + intros key blk Hg. destruct (H3 key blk Hg) as [Hm|(en & bl & Hin & Hs & Hb)].
      * destruct (A3 key blk Hm) as [Hm0|Hin]; [left; exact Hm0|].
        right. exists entry, blocks. split; [left; reflexivity | auto].
      * right. exists en, bl. split; [right; exact Hin | auto].
    + intros key Hk. apply H4, A4, Hk.
    + intros en bl blk [<-|Hin] Hs Hb.
      * rewrite Hsub in Hs. injection Hs as <-. apply H4, A5, Hb.
      * exact (H5 en bl blk Hin Hs Hb).
Qed.

Lemma excludeBlocksLoop_err (fuel : nat) (subnets : SubnetInfoMap)
    (m0 : list (NetText * IPNet)) (e : Calc.Error) :
  excludeBlocksLoop fuel subnets m0 = Some (Err e) ->
  exists entry, In entry subnets /\ subnetExcludeIPBlocks fuel (snd entry) = Some (Err e).
Proof.
  revert m0. induction subnets as [|entry rest IH]; intros m0 H;
    cbn [excludeBlocksLoop] in H; [discriminate|].
  fold (subnetExcludeIPBlocks fuel (snd entry)) in H.
  destruct (subnetExcludeIPBlocks fuel (snd entry)) as [[blocks|e']|] eqn:Hsub;
    try discriminate.
  - destruct (IH _ H) as (en & Hin & Hs). exists en. split; [right; exact Hin | exact Hs].
  - injection H as ->. exists entry. split; [left; reflexivity | exact Hsub].
Qed.

(** X17. The map [findExcludeIPBlockMap] returns holds the excluded blocks
    of the subnets and nothing else, every block under the text of the
    block; and the error it returns is the error of
    [FindSubnetExcludeIPBlocks] for one of the subnets. *)
Theorem findExcludeIPBlockMap_blocks (fuel : nat) (subnetInfoMap : SubnetInfoMap) :
  (forall m, findExcludeIPBlockMap fuel subnetInfoMap = Some (Ok m) ->
     wellKeyed m /\ uniqueKeys m
     /\ (forall key blk, mapGet m key = Some blk ->
           exists entry blocks,
             In entry subnetInfoMap
             /\ subnetExcludeIPBlocks fuel (snd entry) = Some (Ok blocks)
             /\ In blk blocks)
     /\ (forall entry blocks blk,
           In entry subnetInfoMap ->
           subnetExcludeIPBlocks fuel (snd entry) = Some (Ok blocks) ->
           In blk blocks -> hasKey m (IPNet_String blk) = true))
  /\ (forall e, findExcludeIPBlockMap fuel subnetInfoMap = Some (Err e) ->
        exists entry, In entry subnetInfoMap
                      /\ subnetExcludeIPBlocks fuel (snd entry) = Some (Err e)).
Proof.
  split.
  - intros m H. apply excludeBlocksLoop_inv in H as (H1 & H2 & H3 & _ & H5).
    split; [apply H1; constructor|]. split; [apply H2; constructor|].
    split; [|exact H5].
    intros key blk Hg. destruct (H3 key blk Hg) as [Hm|Hex]; [discriminate | exact Hex].
  - intros e H. exact (excludeBlocksLoop_err _ _ _ _ H).
Qed.

Lemma findExcludeIPBlockMap_blocks_witness :
  let cidr := slash (v4 10 0 0 0) 24 in
  let info := SubnetInfo.mk cidr (Some (v4 10 0 0 1)) []
                [mkIPRange (v4 10 0 0 2) (v4 10 0 0 255)] "eth0" false true
                NetworkModeVlan in
  let m := [((32, 167772160, 31), slash (v4 10 0 0 0) 31)] in
  findExcludeIPBlockMap 300 [((32, 167772160, 24), info)] = Some (Ok m)
  /\ wellKeyed m /\ uniqueKeys m.
Proof.
  intros cidr info m.
  assert (Hrun : findExcludeIPBlockMap 300 [((32, 167772160, 24), info)] = Some (Ok m))
    by (vm_compute; reflexivity).
  split; [exact Hrun|].
  destruct (proj1 (findExcludeIPBlockMap_blocks 300 [((32, 167772160, 24), info)]) m Hrun)
    as (Hw & Hu & _).
  split; [exact Hw | exact Hu].
Defined.

End Maps.

(** ** More about the calculator of excluded blocks *)

Section CalculatorMore.

(** X18. [LastIP] of a network is an address of the network, and no address
    of the network is above it. *)
Theorem LastIP_greatest (n : IPNet) :
  wfNet n ->
  exists last,
    LastIP n = Some last
    /\ validIP last
    /\ Contains n last = true
    /\ (forall x, validIP x -> Contains n x = true -> Cmp x last <= 0).
Proof.
  intros Hn. exists (mkIP (ipFam (netIP n)) (netHi n)).
  pose proof (netLo_nonneg n Hn) as H0.
  pose proof (netLo_le_hi n Hn) as H1.
  pose proof (netHi_bound n Hn) as H2.
  assert (Hv : validIP (mkIP (ipFam (netIP n)) (netHi n))).
  { unfold validIP. simpl. lia. }
  split; [exact (LastIP_wf n Hn)|]. split; [exact Hv|]. split.
  - apply (Contains_iff n _ Hn Hv). simpl. split; [reflexivity | lia].
  - intros x Hx Hc. apply (Contains_iff n x Hn Hx) in Hc. apply Cmp_le. simpl. lia.
Qed.

Lemma LastIP_greatest_witness :
  exists last,
    LastIP (slash (v4 10 0 0 0) 24) = Some last
    /\ validIP last
    /\ Contains (slash (v4 10 0 0 0) 24) last = true
    /\ (forall x, validIP x -> Contains (slash (v4 10 0 0 0) 24) x = true -> Cmp x last <= 0).
Proof.
  apply (LastIP_greatest (slash (v4 10 0 0 0) 24)).
  split; [unfold validIP; simpl; lia | split; [reflexivity | simpl; lia]].
Defined.

(** X19. [calculateIPLastZeroBits] returns the number of trailing zero bits
    of an address: the greatest [z] up to the length of the address such that
    [2 ^ z] divides it; for the zero address that is the whole length. *)
Theorem calculateIPLastZeroBits_trailing_zeros (ip : IP) :
  validIP ip ->
  exists z,
    calculateIPLastZeroBits ip = Some z
    /\ 0 <= z <= bitLen (ipFam ip)
    /\ (2 ^ z | ipVal ip)
    /\ (forall k, z < k <= bitLen (ipFam ip) -> ~ (2 ^ k | ipVal ip))
    /\ (ipVal ip = 0 -> z = bitLen (ipFam ip)).
Proof.
  intros Hv. destruct (calculateIPLastZeroBits_spec ip Hv) as (z & Hz & Hr & Hd & Hmax).
  exists z. split; [exact Hz|]. split; [exact Hr|].
  split; [apply Z.mod_divide; [pose proof (pow2_pos z); lia | exact Hd]|].
  split.
  - intros k Hk Hdiv. apply (Hmax k Hk).
    apply Z.mod_divide; [pose proof (pow2_pos k); lia | exact Hdiv].
  - intros H0. destruct (Z.eq_dec z (bitLen (ipFam ip))) as [|Hne]; [assumption|].
    exfalso. apply (Hmax (bitLen (ipFam ip)) ltac:(lia)). rewrite H0. apply Z.mod_0_l.
    pose proof (pow2_pos (bitLen (ipFam ip))). lia.
Qed.

Lemma calculateIPLastZeroBits_trailing_zeros_witness :
  exists z,
    calculateIPLastZeroBits (v4 10 0 0 48) = Some z
    /\ 0 <= z <= 32
    /\ (2 ^ z | 167772208)
    /\ (forall k, z < k <= 32 -> ~ (2 ^ k | 167772208))
    /\ (167772208 = 0 -> z = 32).
Proof.
  apply (calculateIPLastZeroBits_trailing_zeros (v4 10 0 0 48)).
  unfold validIP. simpl. lia.
Defined.

(** One range of [Loop2] and one address of the network. *)
Lemma TryAddIP_union (cidr : IPNet) (lo hi : Z) (g : IPRange) (ip : IP) :
  rangeOf cidr g -> between lo hi g ->
  validIP ip -> ipFam ip = ipFam (netIP cidr) -> lo <= ipVal ip <= hi ->
  (snd (TryAddIP g ip) = true ->
     rangeOf cidr (fst (TryAddIP g ip)) /\ between lo hi (fst (TryAddIP g ip))
     /\ forall x, valIn (fst (TryAddIP g ip)) x <-> valIn g x \/ x = ipVal ip)
  /\ (snd (TryAddIP g ip) = false -> fst (TryAddIP g ip) = g).
Proof.
  intros [Hg Hgf] [Hb1 Hb2] Hv Hf Hr.
  destruct (wfRange_inv g Hg) as (Hs & He & Hff & Hle).
  unfold TryAddIP.
  destruct (Equal ip (PrevIP (start g))) eqn:E1.
  { apply Equal_eq in E1. split; [|discriminate]. intros _. cbn [fst].
    assert (Hval : ipVal ip = ipVal (start g) - 1) by (rewrite E1; reflexivity).
    split; [split; [|simpl; congruence]|split].
    - split; [exact Hv|]. split; [exact He|]. split; [simpl; congruence|].
      apply Cmp_le. simpl. lia.
    - unfold between. simpl. lia.
    - intros x. unfold valIn. simpl. lia. }
  destruct (Equal ip (NextIP (end_ g))) eqn:E2.
  { apply Equal_eq in E2. split; [|discriminate]. intros _. cbn [fst].
    assert (Hval : ipVal ip = ipVal (end_ g) + 1) by (rewrite E2; reflexivity).
    split; [split; [|simpl; congruence]|split].
    - split; [exact Hs|]. split; [exact Hv|]. split; [simpl; congruence|].
      apply Cmp_le. simpl. lia.
    - unfold between. simpl. lia.
    - intros x. unfold valIn. simpl. lia. }
  rewrite Cmp_geb, Cmp_leb.
  destruct ((ipVal (start g) <=? ipVal ip) && (ipVal ip <=? ipVal (end_ g))) eqn:E3.
  - split; [|discriminate]. intros _. cbn [fst].
    apply andb_true_iff in E3 as [H1 H2]. apply Z.leb_le in H1, H2.
    split; [split; assumption|]. split; [split; assumption|].
    intros x. unfold valIn. lia.
  - split; [discriminate | reflexivity].
Qed.

(** The inner loop of [Loop2]: the ranges after it hold the address too, and
    nothing else new. *)
Lemma tryAddToRanges_union (cidr : IPNet) (lo hi : Z) (G G' : list IPRange) (ip : IP) :
  Forall (rangeOf cidr) G -> Forall (between lo hi) G ->
  validIP ip -> ipFam ip = ipFam (netIP cidr) -> lo <= ipVal ip <= hi ->
  tryAddToRanges G ip = Some G' ->
  Forall (rangeOf cidr) G' /\ Forall (between lo hi) G'
  /\ forall x, (exists g, In g G' /\ valIn g x) <-> (exists g, In g G /\ valIn g x) \/ x = ipVal ip.
Proof.
  intros Hr Hb Hv Hf Hin. revert G'.
  induction G as [|g G IH]; intros G' H; cbn [tryAddToRanges] in H; [discriminate|].
  apply Forall_cons in Hr as [Hg Hr]. apply Forall_cons in Hb as [Hgb Hb].
  destruct (TryAddIP_union cidr lo hi g ip Hg Hgb Hv Hf Hin) as [Hyes Hno].
  destruct (TryAddIP g ip) as [g' ok]. cbn [fst snd] in *. destruct ok.
  - injection H as <-. destruct (Hyes eq_refl) as (Hg' & Hgb' & Hcov).
    split; [apply Forall_cons; split; assumption|].
    split; [apply Forall_cons; split; assumption|].
    intros x. split.
    + intros (r & [<-|Hrin] & Hx).
      * apply Hcov in Hx as [Hx|Hx]; [left; exists g; split; [left; reflexivity | exact Hx]
                                      | right; exact Hx].
      * left. exists r. split; [right; exact Hrin | exact Hx].
    + intros [(r & [<-|Hrin] & Hx)|Hx].
      * exists g'. split; [left; reflexivity | apply Hcov; left; exact Hx].
      * exists r. split; [right; exact Hrin | exact Hx].
      * exists g'. split; [left; reflexivity | apply Hcov; right; exact Hx].
  - specialize (Hno eq_refl). subst g'.
    destruct (tryAddToRanges G ip) as [rest'|] eqn:Hrest; [|discriminate].
    injection H as <-. destruct (IH Hr Hb rest' eq_refl) as (Hr' & Hb' & Hcov).
    split; [apply Forall_cons; split; assumption|].
    split; [apply Forall_cons; split; assumption|].
    intros x. split.
    + intros (r & [<-|Hrin] & Hx).
      * left. exists g. split; [left; reflexivity | exact Hx].
      * destruct (proj1 (Hcov x)) as [(r' & Hr'in & Hx')|Hx']; [exists r; auto | |].
        -- left. exists r'. split; [right; exact Hr'in | exact Hx'].
        -- right. exact Hx'.
    + intros [(r & [<-|Hrin] & Hx)|Hx].
      * exists g. split; [left; reflexivity | exact Hx].
      * destruct (proj2 (Hcov x)) as (r' & Hr'in & Hx'); [left; exists r; auto|].
        exists r'. split; [right; exact Hr'in | exact Hx'].
      * destruct (proj2 (Hcov x)) as (r' & Hr'in & Hx'); [right; exact Hx|].
        exists r'. split; [right; exact Hr'in | exact Hx'].
Qed.

(** [Loop2] never fails on addresses of the network, and the ranges after it
    hold what they held before and these addresses. *)
Lemma foldExcludedIPs_union (cidr : IPNet) (lo hi : Z) (ips : list IP) (G : list IPRange) :
  Forall (rangeOf cidr) G -> Forall (between lo hi) G ->
  Forall (fun ip => validIP ip /\ ipFam ip = ipFam (netIP cidr) /\ lo <= ipVal ip <= hi) ips ->
  exists G',
    foldExcludedIPs ips G = Some (Ok G')
    /\ Forall (rangeOf cidr) G' /\ Forall (between lo hi) G'
    /\ forall x, (exists g, In g G' /\ valIn g x)
                 <-> (exists g, In g G /\ valIn g x) \/ (exists ip, In ip ips /\ x = ipVal ip).
Proof.
  revert G. induction ips as [|ip ips IH]; intros G Hr Hb Hips.
  - exists G. split; [reflexivity|]. split; [exact Hr|]. split; [exact Hb|].
    intros x. split; [auto|]. intros [H|(ip & [] & _)]. exact H.
  - apply Forall_cons in Hips as [(Hv & Hf & Hin) Hips]. cbn [foldExcludedIPs].
    assert (Hstep : exists G1,
              match tryAddToRanges G ip with
              | Some ranges' => ranges'
              | None => G ++ [mkIPRange ip ip]
              end = G1
              /\ Forall (rangeOf cidr) G1 /\ Forall (between lo hi) G1
              /\ forall x, (exists g, In g G1 /\ valIn g x)
                           <-> (exists g, In g G /\ valIn g x) \/ x = ipVal ip).
    { destruct (tryAddToRanges G ip) as [G1|] eqn:Htry.
      - exists G1. split; [reflexivity|].
        exact (tryAddToRanges_union cidr lo hi G G1 ip Hr Hb Hv Hf Hin Htry).
      - exists (G ++ [mkIPRange ip ip]). split; [reflexivity|].
        assert (Hone : rangeOf cidr (mkIPRange ip ip)).
        { split; [|exact Hf]. split; [exact Hv|]. split; [exact Hv|].
          split; [reflexivity | apply Cmp_le; simpl; lia]. }
        assert (Hbone : between lo hi (mkIPRange ip ip)) by (unfold between; simpl; lia).
        split; [apply Forall_app; split; [exact Hr | apply Forall_cons; split;
                  [exact Hone | constructor]]|].
        split; [apply Forall_app; split; [exact Hb | apply Forall_cons; split;
                  [exact Hbone | constructor]]|].
        intros x. split.
        + intros (g & Hg & Hx). apply in_app_iff in Hg as [Hg|[<-|[]]].
          * left. exists g. auto.
          * right. unfold valIn in Hx. simpl in Hx. lia.
        + intros [(g & Hg & Hx)|Hx].
          * exists g. split; [apply in_app_iff; left; exact Hg | exact Hx].
          * exists (mkIPRange ip ip). split; [apply in_app_iff; right; left; reflexivity|].
            unfold valIn. simpl. lia. }
    destruct Hstep as (G1 & HG1 & Hr1 & Hb1 & Hcov1).
    destruct (IH G1 Hr1 Hb1 Hips) as (G' & Hfold & Hr' & Hb' & Hcov').
    exists G'. split.
    + destruct (tryAddToRanges G ip) as [ranges'|].
      * subst G1. exact Hfold.
      * rewrite CreateIPRange_Some, Z.ltb_irrefl. subst G1. exact Hfold.
    + split; [exact Hr'|]. split; [exact Hb'|].
      intros x. rewrite (Hcov' x), (Hcov1 x). split.
      * intros [[H|H]|(ip' & Hip' & H)]; [left; exact H | right; exists ip; split;
          [left; reflexivity | exact H] | right; exists ip'; split; [right; exact Hip' | exact H]].
      * intros [H|(ip' & [<-|Hip'] & H)]; [left; left; exact H | left; right; exact H
          | right; exists ip'; split; assumption].
Qed.

(** The blocks of ranges, in any order: they hold what the ranges hold. *)
Lemma splitAll_cover (cidr : IPNet) (fuel : nat) (G : list IPRange) :
  Forall (rangeOf cidr) G ->
  Forall (fun g => (splitFuel g <= fuel)%nat) G ->
  exists blocks,
    splitAll fuel G = Some blocks
    /\ Forall (blockOf (ipFam (netIP cidr))) blocks
    /\ (forall x, (exists b, In b blocks /\ netLo b <= x <= netHi b)
                  <-> (exists g, In g G /\ valIn g x)).
Proof.
  induction G as [|g G IH]; intros Hr Hfu.
  - exists []. split; [reflexivity|]. split; [constructor|].
    intros x. split; intros (? & [] & _).
  - apply Forall_cons in Hr as [[Hg Hgf] Hr].
    apply Forall_cons in Hfu as [Hfu0 Hfu].
    destruct (IH Hr Hfu) as (more & Hmore & Hmb & Hmcov).
    destruct (wfRange_inv g Hg) as (Hgs & Hge & Hgff & Hgle).
    destruct (splitLoop_spec (splitFuel g) (start g) (end_ g) Hgs Hge Hgff Hgle
                ltac:(unfold splitFuel; lia)) as (blocks & Hsp & Hb & Hc).
    pose proof (splitLoop_fuel_mono _ _ _ _ _ Hsp Hfu0) as Hsp'.
    rewrite Hgf in Hb.
    destruct (blockOf_wf _ blocks Hb) as [Hwf _].
    exists (blocks ++ more).
    split; [cbn [splitAll]; unfold splitIPRangeToIPBlocks; rewrite Hsp', Hmore; reflexivity|].
    split; [apply Forall_app; split; assumption|].
    intros x. split.
    + intros (b & Hin & Hbx). apply in_app_iff in Hin. destruct Hin as [Hin|Hin].
      * exists g. split; [left; reflexivity|]. unfold valIn.
        apply (greedyChain_cover _ _ blocks x Hwf Hc). exists b. auto.
      * destruct (proj1 (Hmcov x)) as (g' & Hg' & Hgx); [exists b; auto|].
        exists g'. split; [right; exact Hg' | exact Hgx].
    + intros (g' & [<-|Hg'] & Hgx).
      * apply (greedyChain_cover _ _ blocks x Hwf Hc) in Hgx.
        destruct Hgx as (b & Hin & Hbx). exists b. split; [|exact Hbx].
        apply in_app_iff. left. exact Hin.
      * destruct (proj2 (Hmcov x)) as (b & Hin & Hbx); [exists g'; auto|].
        exists b. split; [|exact Hbx]. apply in_app_iff. right. exact Hin.
Qed.

(** X20. For a network with a mask of the length of its family, included
    ranges of its family with [start <= end] that lie between the address of
    the network as it is given ([cidr.IP]) and its last address and of which
    no two share an address (there may be none), and a gateway and excluded
    addresses anywhere in the network, [FindSubnetExcludeIPBlocks] returns,
    given fuel for the size of the network, blocks that hold exactly: the
    addresses of the network from [cidr.IP] on that are outside the included
    ranges, when there is an included range, and the gateway and the excluded
    addresses, also those inside an included range. So with no included range
    the blocks hold the gateway and the excluded addresses only; and when
    [cidr.IP] has host bits set, the addresses of the network below it are in
    no block unless they are excluded addresses. *)
Theorem FindSubnetExcludeIPBlocks_excluded (fuel : nat) (cidr : IPNet)
    (includedRanges : list IPRange) (gateway : option IP) (excludeIPs : list IP) :
  wfNet cidr ->
  Forall (rangeOf cidr) includedRanges ->
  Forall (fun r => ~ outsideBounds cidr r) includedRanges ->
  ~ someTwoOverlap includedRanges ->
  Forall (fun ip => validIP ip /\ Contains cidr ip = true) (allExcluded gateway excludeIPs) ->
  (cidrFuel cidr <= fuel)%nat ->
  exists blocks,
    FindSubnetExcludeIPBlocks fuel cidr includedRanges gateway excludeIPs
    = Some (Ok blocks)
    /\ (forall x, validIP x ->
          (inSomeNet blocks x
           <-> (includedRanges <> [] /\ Contains cidr x = true
                /\ Cmp (netIP cidr) x <= 0
                /\ ~ inSomeRange includedRanges x)
               \/ In x (allExcluded gateway excludeIPs))).
Proof.
  intros Hwf Hr Hin Hno Hex Hfuel.
  pose proof (exclusion_props cidr includedRanges Hwf Hr) as Hprops.
  pose proof (sorted_perm includedRanges) as Hperm.
  pose proof (sorted_rangeOf cidr includedRanges Hr) as Hsr.
  pose proof (sortSlice_sorted includedRanges) as Hss.
  pose proof (netLo_le_ip cidr Hwf) as Hlo.
  unfold FindSubnetExcludeIPBlocks. rewrite (LastIP_cidr cidr Hwf).
  remember (sortSlice lessByStart includedRanges) as sorted eqn:Hsd.
  remember (mkIP (ipFam (netIP cidr)) (netHi cidr)) as ce eqn:Hced.
  remember (netIP cidr) as cs eqn:Hcsd.
  pose proof (rangeOf_le cidr _ Hsr) as Hsle.
  assert (Hcs : ipVal cs = ipVal (netIP cidr)) by (subst cs; reflexivity).
  assert (Hce : ipVal ce = netHi cidr) by (subst ce; reflexivity).
  assert (Hb : Forall (between (ipVal cs) (ipVal ce)) sorted).
  { rewrite Hperm. eapply Forall_impl; [exact Hin|].
    intros r. unfold between, outsideBounds. rewrite Hcs, Hce. lia. }
  assert (Hc : consecutiveOk sorted).
  { apply sorted_consecutiveOk; [exact Hss | exact Hsle |].
    intros Ho. apply Hno. exact (someTwoOverlap_perm _ _ Hperm Ho). }
  (* the ranges of the first loop *)
  assert (HG : exists G,
            complementLoop cs ce true sorted [] = Ok G
            /\ Forall (rangeOf cidr) G
            /\ Forall (between (ipVal cs) (ipVal ce)) G
            /\ (forall x, ipVal cs <= x <= ipVal ce ->
                  ((exists g, In g G /\ valIn g x)
                   <-> sorted <> [] /\ ~ (exists r, In r sorted /\ valIn r x)))).
  { destruct sorted as [|cur rest].
    - exists []. split; [reflexivity|]. split; [constructor|]. split; [constructor|].
      intros x _. split; [intros (g & [] & _) | intros [H _]; congruence].
    - destruct (Hprops cur rest eq_refl Hb Hc) as (HGr & _ & HGb & HGcov).
      exists (gapBefore cs cur ++ gapsAfter cur rest ce).
      split; [exact (complementLoop_true_ok cs ce cur rest Hb Hc)|].
      split; [exact HGr|]. split; [exact HGb|].
      intros x Hx. rewrite (HGcov x Hx). split; [intros H; split; [discriminate | exact H]
                                                | intros [_ H]; exact H]. }
  clear Hprops. destruct HG as (G & HG & HGr & HGb & HGcov). rewrite HG.
  (* membership of an address of the network's family *)
  assert (Hmem : forall x, validIP x -> ipFam x = ipFam (netIP cidr) ->
            (inSomeRange includedRanges x
             <-> exists r, In r sorted /\ valIn r (ipVal x))).
  { intros x Hx Hxf. split.
    - intros (r & Hrin & Hrx). exists r.
      split; [eapply Permutation_in; [symmetry; exact Hperm | exact Hrin]|].
      assert (Hrr : rangeOf cidr r).
      { eapply Forall_forall in Hr; [exact Hr|]. apply list_elem_of_In. exact Hrin. }
      exact (proj1 (inRange_valIn cidr r x Hrr Hxf) Hrx).
    - intros (r & Hrin & Hrx). exists r.
      assert (Hrin' : In r includedRanges) by (eapply Permutation_in; eauto).
      split; [exact Hrin'|].
      assert (Hrr : rangeOf cidr r).
      { eapply Forall_forall in Hr; [exact Hr|]. apply list_elem_of_In. exact Hrin'. }
      exact (proj2 (inRange_valIn cidr r x Hrr Hxf) Hrx). }
  assert (Hnil : sorted <> [] <-> includedRanges <> []).
  { split; intros H E; apply H.
    - subst includedRanges. apply Permutation_nil. symmetry. exact Hperm.
    - rewrite E in Hperm. apply Permutation_nil. exact Hperm. }
  (* the second loop *)
  assert (HGn : Forall (between (netLo cidr) (netHi cidr)) G).
  { eapply Forall_impl; [exact HGb|]. intros g [H1 H2]. split; lia. }
  assert (Hips : Forall (fun ip => validIP ip /\ ipFam ip = ipFam (netIP cidr)
                                   /\ netLo cidr <= ipVal ip <= netHi cidr)
                        (allExcluded gateway excludeIPs)).
  { eapply Forall_impl; [exact Hex|]. intros ip [Hv Hcon].
    apply (Contains_iff cidr ip Hwf Hv) in Hcon. destruct Hcon as [Hipf Hipr].
    split; [exact Hv|]. split; [exact Hipf | lia]. }
  destruct (foldExcludedIPs_union cidr _ _ _ G HGr HGn Hips)
    as (G' & Hfold & HGr' & HGb' & HGcov').
  unfold allExcluded in Hfold. rewrite Hfold.
  (* the blocks *)
  assert (HGfuel : Forall (fun g => (splitFuel g <= fuel)%nat) G').
  { eapply Forall_impl; [exact HGb'|]. intros g [Hg1 Hg2].
    unfold splitFuel. unfold cidrFuel in Hfuel.
    pose proof (pow2_pos _ (hostBits_nonneg cidr Hwf)).
    unfold netHi in Hg2. lia. }
  destruct (splitAll_cover cidr fuel G' HGr' HGfuel) as (blocks & Hsp & Hbl & Hbcov).
  rewrite Hsp. exists blocks. split; [reflexivity|].
  assert (Hblk : forall x, validIP x ->
            (inSomeNet blocks x
             <-> ipFam x = ipFam (netIP cidr) /\ exists g, In g G' /\ valIn g (ipVal x))).
  { intros x Hx. split.
    - intros (b & Hbin & Hbx).
      assert (Hbb : blockOf (ipFam (netIP cidr)) b).
      { eapply Forall_forall in Hbl; [exact Hbl|]. apply list_elem_of_In. exact Hbin. }
      destruct Hbb as [Hbwf Hbf].
      apply (Contains_iff b x Hbwf Hx) in Hbx. destruct Hbx as [Hxf Hxr].
      split; [congruence|]. apply Hbcov. exists b. auto.
    - intros [Hxf Hg]. apply Hbcov in Hg. destruct Hg as (b & Hbin & Hbx).
      exists b. split; [exact Hbin|].
      assert (Hbb : blockOf (ipFam (netIP cidr)) b).
      { eapply Forall_forall in Hbl; [exact Hbl|]. apply list_elem_of_In. exact Hbin. }
      destruct Hbb as [Hbwf Hbf].
      apply (Contains_iff b x Hbwf Hx). split; [congruence | exact Hbx]. }
  assert (HGin : forall g x, In g G -> valIn g x -> ipVal cs <= x <= ipVal ce).
  { intros g x Hg [H1 H2]. eapply Forall_forall in HGb; [|apply list_elem_of_In; exact Hg].
    destruct HGb as [H3 H4]. lia. }
  intros x Hx. rewrite (Hblk x Hx). split.
  - intros [Hxf Hg]. apply HGcov' in Hg. destruct Hg as [(g & Hg & Hgx)|(ip & Hip & Hval)].
    + left. pose proof (HGin g _ Hg Hgx) as Hxin.
      destruct (proj1 (HGcov (ipVal x) Hxin)) as [Hne Hout]; [exists g; auto|].
      split; [apply Hnil, Hne|].
      split; [apply (Contains_iff cidr x Hwf Hx); split; [exact Hxf | lia]|].
      split; [apply Cmp_le; lia|].
      intros Hxr. apply Hout. apply (Hmem x Hx Hxf). exact Hxr.
    + right. replace x with ip; [exact Hip|].
      eapply Forall_forall in Hips; [|apply list_elem_of_In; exact Hip].
      destruct Hips as (_ & Hipf & _).
      destruct x as [xf xv], ip as [pf pv]. simpl in *. congruence.
  - intros [(Hne & Hcon & Hfrom & Hout)|Hip].
    + apply (Contains_iff cidr x Hwf Hx) in Hcon. destruct Hcon as [Hxf Hxr].
      apply Cmp_le in Hfrom.
      split; [exact Hxf|]. apply HGcov'. left.
      apply (HGcov (ipVal x) ltac:(lia)). split; [apply Hnil, Hne|].
      intros Hr'. apply Hout. apply (Hmem x Hx Hxf). exact Hr'.
    + pose proof Hip as Hip'.
      eapply Forall_forall in Hips; [|apply list_elem_of_In; exact Hip].
      destruct Hips as (_ & Hipf & _).
      split; [exact Hipf|]. apply HGcov'. right. exists x. split; [exact Hip' | reflexivity].
Qed.

Lemma FindSubnetExcludeIPBlocks_excluded_witness :
  let cidr := mkIPNet (v4 10 0 0 5) (mkMask 24 32) in
  let ranges := [mkIPRange (v4 10 0 0 10) (v4 10 0 0 20)] in
  Contains cidr (v4 10 0 0 2) = true
  /\ exists blocks,
       FindSubnetExcludeIPBlocks 300 cidr ranges (Some (v4 10 0 0 1)) [v4 10 0 0 15]
       = Some (Ok blocks)
       /\ (forall x, validIP x ->
             (inSomeNet blocks x
              <-> (ranges <> [] /\ Contains cidr x = true /\ Cmp (netIP cidr) x <= 0
                   /\ ~ inSomeRange ranges x)
                  \/ In x (allExcluded (Some (v4 10 0 0 1)) [v4 10 0 0 15]))).
Proof.
  intros cidr ranges. split; [vm_compute; reflexivity|].
  apply (FindSubnetExcludeIPBlocks_excluded 300 cidr ranges
           (Some (v4 10 0 0 1)) [v4 10 0 0 15]).
  - split; [unfold validIP; simpl; lia | split; [reflexivity | simpl; lia]].
  - repeat constructor; try (unfold validIP; simpl; lia); try (apply Cmp_le; simpl; lia).
  - repeat constructor. unfold outsideBounds. vm_compute. intros [H|H]; discriminate.
  - intros (i & j & r1 & r2 & Hij & Hi & Hj & _).
    destruct i as [|i]; destruct j as [|j]; try discriminate. apply Hij. reflexivity.
  - repeat constructor; try (unfold validIP; simpl; lia).
  - vm_compute. lia.
Defined.

End CalculatorMore.

(** ** The pods the address manager keeps, and a manager that keeps none *)

Section AddrManagerMore.

Lemma lookup2_insert2 {V} (n n0 : string) (t t0 : NetText) (v : V)
    (mp : gmap string (gmap NetText V)) :
  lookup2 n t (insert2 n0 t0 v mp)
  = if decide (n = n0 /\ t = t0) then Some v else lookup2 n t mp.
Proof.
  unfold lookup2, insert2. destruct (decide (n = n0)) as [->|Hn].
  - rewrite lookup_insert_eq. destruct (decide (t = t0)) as [->|Ht].
    + rewrite lookup_insert_eq. rewrite decide_True by auto. reflexivity.
    + rewrite lookup_insert_ne by congruence.
      rewrite decide_False by (intros [_ ?]; congruence).
      destruct (mp !! n0); [reflexivity | apply lookup_empty].
  - rewrite lookup_insert_ne by congruence.
    rewrite decide_False by (intros [? _]; congruence). reflexivity.
Qed.

Lemma TryAddPodInfo_map (m : Manager) (i : string) (subnet : IPNet) (ip : IP) :
  interfaceToSubnetMap (TryAddPodInfo m i subnet ip)
  = let sub0 : subnetToPodMap := default ∅ (interfaceToSubnetMap m !! i) in
    <[i := match sub0 !! IPNet_String subnet with
           | Some _ => sub0
           | None => <[IPNet_String subnet := ip]> sub0
           end]> (interfaceToSubnetMap m).
Proof.
  unfold TryAddPodInfo. generalize (IPNet_String subnet). intros t. cbv zeta.
  destruct (interfaceToSubnetMap m !! i) as [sub|] eqn:Hi.
  - rewrite Hi. cbn [default from_option id].
    destruct (sub !! t) eqn:Ht; cbn [interfaceToSubnetMap].
    + symmetry. apply insert_id. exact Hi.
    + reflexivity.
  - rewrite lookup_insert_eq. cbn [default from_option id]. unfold subnetToPodMap.
    rewrite lookup_empty. cbn [interfaceToSubnetMap]. apply insert_insert_eq.
Qed.

Lemma lookup2_first (mp : gmap string (gmap NetText IP)) (i n : string) (t t' : NetText)
    (ip : IP) :
  lookup2 n t' (<[i := match default ∅ (mp !! i) !! t with
                       | Some _ => default ∅ (mp !! i)
                       | None => <[t := ip]> (default ∅ (mp !! i))
                       end]> mp)
  = if decide (n = i /\ t' = t) then Some (default ip (lookup2 i t mp)) else lookup2 n t' mp.
Proof.
  unfold lookup2. destruct (decide (n = i)) as [->|Hn].
  - rewrite lookup_insert_eq. destruct (mp !! i) as [sub|]; cbn [default from_option id].
    + destruct (sub !! t) as [old|] eqn:Ht.
      * destruct (decide (i = i /\ t' = t)) as [[_ ->]|Hne]; [rewrite Ht|]; reflexivity.
      * destruct (decide (i = i /\ t' = t)) as [[_ ->]|Hne].
        -- apply lookup_insert_eq.
        -- apply lookup_insert_ne. intros <-. apply Hne. auto.
    + rewrite lookup_empty. destruct (decide (i = i /\ t' = t)) as [[_ ->]|Hne].
      * apply lookup_insert_eq.
      * rewrite lookup_insert_ne by (intros <-; apply Hne; auto). apply lookup_empty.
  - rewrite lookup_insert_ne by congruence.
    rewrite decide_False by (intros [? _]; congruence). reflexivity.
Qed.

Lemma insert_first_again (mp : gmap string (gmap NetText IP)) (i : string) (t : NetText)
    (ip ip' : IP) :
  let mp' := <[i := match default ∅ (mp !! i) !! t with
                    | Some _ => default ∅ (mp !! i)
                    | None => <[t := ip]> (default ∅ (mp !! i))
                    end]> mp in
  <[i := match default ∅ (mp' !! i) !! t with
         | Some _ => default ∅ (mp' !! i)
         | None => <[t := ip']> (default ∅ (mp' !! i))
         end]> mp' = mp'.
Proof.
  intros mp'. subst mp'. rewrite lookup_insert_eq. cbn [default from_option id].
  set (s := match from_option id ∅ (mp !! i) !! t with
            | Some _ => from_option id ∅ (mp !! i)
            | None => <[t := ip]> (from_option id ∅ (mp !! i))
            end).
  assert (Hs : is_Some (s !! t)).
  { subst s. destruct (from_option id ∅ (mp !! i) !! t) eqn:E;
      [rewrite E; eauto | rewrite lookup_insert_eq; eauto]. }
  destruct Hs as [x Hx]. rewrite Hx. apply insert_insert_eq.
Qed.

Lemma TryAddPodInfo_family (m : Manager) (i : string) (subnet : IPNet) (ip : IP) :
  AddrMgr.family (TryAddPodInfo m i subnet ip) = AddrMgr.family m
  /\ localNodeName (TryAddPodInfo m i subnet ip) = localNodeName m.
Proof. unfold TryAddPodInfo. cbv zeta. repeat case_match; split; reflexivity. Qed.

Lemma Manager_eq (a b : Manager) :
  AddrMgr.family a = AddrMgr.family b -> localNodeName a = localNodeName b ->
  interfaceToSubnetMap a = interfaceToSubnetMap b -> a = b.
Proof. destruct a, b. simpl. intros -> -> ->. reflexivity. Qed.

(** X21. [TryAddPodInfo] keeps one pod address for every subnet of an
    interface, the first one it is given: after the call the subnet of the
    interface has the address it had, or else the one given; every other
    subnet and interface has what it had; and a further call for the same
    subnet of the same interface, with whatever address, changes nothing. *)
Theorem TryAddPodInfo_first_wins (m : Manager) (forwardNodeIfName : string)
    (subnet : IPNet) (podIP : IP) :
  let m' := TryAddPodInfo m forwardNodeIfName subnet podIP in
  podOf m' forwardNodeIfName (IPNet_String subnet)
  = Some (default podIP (podOf m forwardNodeIfName (IPNet_String subnet)))
  /\ (forall name text, (name, text) <> (forwardNodeIfName, IPNet_String subnet) ->
        podOf m' name text = podOf m name text)
  /\ AddrMgr.family m' = AddrMgr.family m /\ localNodeName m' = localNodeName m
  /\ (forall podIP', TryAddPodInfo m' forwardNodeIfName subnet podIP' = m').
Proof.
  intros m'.
  pose proof (TryAddPodInfo_family m forwardNodeIfName subnet podIP) as Hfam.
  assert (Hpod : forall name text,
            podOf m' name text
            = if decide (name = forwardNodeIfName /\ text = IPNet_String subnet)
              then Some (default podIP (podOf m forwardNodeIfName (IPNet_String subnet)))
              else podOf m name text).
  { intros name text. unfold podOf, m'. rewrite TryAddPodInfo_map. apply lookup2_first. }
  split; [rewrite Hpod, decide_True by auto; reflexivity|].
  split; [intros name text Hne; rewrite Hpod, decide_False; [reflexivity|];
          intros [-> ->]; apply Hne; reflexivity|].
  split; [exact (proj1 Hfam)|]. split; [exact (proj2 Hfam)|].
  intros podIP'.
  apply Manager_eq; try apply TryAddPodInfo_family.
  rewrite TryAddPodInfo_map. unfold m'. rewrite TryAddPodInfo_map.
  apply insert_first_again.
Qed.

#[global] Instance removeStep_Sequential (P : Addr.t -> Prop) : Sequential (removeStep P).
Proof.
  split.
  - intros k b. split; [exists []; rewrite app_nil_r; auto | auto].
  - intros k1 k2 k3 b [(e1 & Hl1 & Hf1) Ha1] [(e2 & Hl2 & Hf2) Ha2]. split.
    + exists (e1 ++ e2). rewrite Hl2, Hl1, app_assoc. split; [reflexivity|].
      apply Forall_app. auto.
    + intros a Ha. apply Ha1, Ha2, Ha.
  - intros k f. split; [exists []; simpl; rewrite app_nil_r; auto | auto].
  - intros k k' [(evs & Hl & Hf) Ha]. split; [|exact Ha].
    exists (evs ++ [EvFailed]). simpl. rewrite Hl, app_assoc. split; [reflexivity|].
    apply Forall_app. split; [exact Hf | repeat constructor].
Qed.

Lemma removeStep_AddrDel (P : Addr.t -> Prop) (link : Link.t) (addr : Addr.t) :
  P (Addr.mk (Addr.IPNet_ addr) (Addr.Label addr) (Addr.Flags addr) (Addr.Scope addr)
             (Link.Index link)) ->
  post (removeStep P) (AddrDel link addr).
Proof.
  intros HP. apply post_call; [exact _|]. intros k k' r H.
  destruct (existsb _ _); injection H as <- <-; [|apply seq_refl]. split.
  - eexists [_]. split; [reflexivity|]. constructor; [exact HP | constructor].
  - intros a Ha. simpl in Ha. apply List.filter_In in Ha as [Ha _]. exact Ha.
Qed.

Lemma liftRes_ok {A} (res : Res A) (k k' : Kernel) (a : A) :
  liftRes res k = (k', ROk a) -> res = ROk a /\ k' = k.
Proof.
  destruct res as [x|e]; cbn [liftRes]; intros H.
  - apply ret_inv in H as [-> [= ->]]. auto.
  - apply fail_inv in H as [_ [=]].
Qed.

Context (CheckIfContainerNetworkLink : string -> bool)
        (checkIfEnhancedAddr : Link.t -> Addr.t -> Z -> Res bool)
        (getIPInstanceByAddress : IP -> Res (option string))
        (ensureSubnetEnhancedAddr : Link.t -> Addr.t -> option Addr.t -> Z -> M unit).

Lemma post_classifyAddrs (Q : Kernel -> Kernel -> bool -> Prop) `{!Sequential Q}
    (m : Manager) (link : Link.t) (l : list Addr.t) (ex : Exist) :
  post Q (classifyAddrs checkIfEnhancedAddr m link l ex).
Proof.
  revert ex. induction l as [|a l IH]; intros ex; cbn [classifyAddrs].
  - apply post_ret; exact _.
  - apply post_bind; [exact _ | apply post_liftRes; exact _|]. intros b. apply IH.
Qed.

Lemma post_collectExist (Q : Kernel -> Kernel -> bool -> Prop) `{!Sequential Q}
    (m : Manager) (l : list Link.t) (ex : Exist) :
  post Q (collectExist CheckIfContainerNetworkLink checkIfEnhancedAddr m l ex).
Proof.
  revert ex. induction l as [|link l IH]; intros ex; cbn [collectExist].
  - apply post_ret; exact _.
  - destruct (CheckIfContainerNetworkLink _); [apply IH|].
    apply post_bind; [exact _ | apply post_AddrList; exact _|]. intros addrs.
    apply post_bind; [exact _ | apply post_classifyAddrs; exact _|]. intros ex1. apply IH.
Qed.

(** The enhanced addresses the loop over the addresses of an interface
    records are addresses of its list that [checkIfEnhancedAddr] takes for
    enhanced ones. *)
Lemma classifyAddrs_ok (m : Manager) (link : Link.t) (l : list Addr.t) (ex ex' : Exist)
    (k k' : Kernel) :
  classifyAddrs checkIfEnhancedAddr m link l ex k = (k', ROk ex') ->
  existLinkMap ex' = existLinkMap ex
  /\ forall name text a,
       lookup2 name text (existEnhancedAddrMap ex') = Some a ->
       lookup2 name text (existEnhancedAddrMap ex) = Some a
       \/ (name = Link.Name link /\ In a l
           /\ checkIfEnhancedAddr link a (AddrMgr.family m) = ROk true).
Proof.
  revert ex k. induction l as [|x l IH]; intros ex k H; cbn [classifyAddrs] in H.
  - apply ret_inv in H as [_ [= ->]]. auto.
  - apply bind_ok_inv in H as (k1 & b & H1 & H2).
    apply liftRes_ok in H1 as [Hchk ->].
    apply IH in H2 as [Hlm Hen]. split; [rewrite Hlm; destruct b; reflexivity|].
    intros name text a Ha. destruct (Hen name text a Ha) as [Hold|(Hn & Hin & Hc)].
    + destruct b; cbn [existEnhancedAddrMap] in Hold.
      * rewrite lookup2_insert2 in Hold. destruct (decide _) as [[-> ->]|_].
        -- injection Hold as <-. right. split; [reflexivity|]. split; [left; reflexivity|].
           exact Hchk.
        -- left. exact Hold.
      * left. exact Hold.
    + right. split; [exact Hn|]. split; [right; exact Hin | exact Hc].
Qed.

Lemma collectExist_ok (m : Manager) (l : list Link.t) (ex ex' : Exist) (k k' : Kernel) :
  collectExist CheckIfContainerNetworkLink checkIfEnhancedAddr m l ex k = (k', ROk ex') ->
  forall name text a,
    lookup2 name text (existEnhancedAddrMap ex') = Some a ->
    lookup2 name text (existEnhancedAddrMap ex) = Some a
    \/ exists link,
         In link l /\ CheckIfContainerNetworkLink (Link.Name link) = false
         /\ In a (kAddrs k) /\ Addr.LinkIndex a = Link.Index link
         /\ checkIfEnhancedAddr link a (AddrMgr.family m) = ROk true.
Proof.
  revert ex k. induction l as [|link l IH]; intros ex k H; cbn [collectExist] in H.
  - apply ret_inv in H as [_ [= ->]]. auto.
  - destruct (CheckIfContainerNetworkLink (Link.Name link)) eqn:Hc.
    + intros name text a Ha. destruct (IH _ _ H name text a Ha) as [Hold|(l0 & Hl0 & Hrest)].
      * left. exact Hold.
      * right. exists l0. split; [right; exact Hl0 | exact Hrest].
    + apply bind_ok_inv in H as (k1 & addrs & H1 & H).
      apply bind_ok_inv in H as (k2 & ex1 & H2 & H).
      pose proof (post_classifyAddrs stateStep m link addrs ex _ _ _ H2) as Hs2.
      apply read_ok in H1 as (Hs1 & _ & ->).
      assert (Hk2 : kAddrs k2 = kAddrs k).
      { destruct Hs1 as (_ & _ & _ & _ & A1). destruct Hs2 as (_ & _ & _ & _ & A2).
        congruence. }
      apply classifyAddrs_ok in H2 as [_ Hen].
      intros name text a Ha.
      destruct (IH _ _ H name text a Ha) as [Hold|(l0 & Hl0 & Hc0 & Hin0 & Hrest)].
      * cbn [existEnhancedAddrMap] in Hold.
        destruct (Hen name text a Hold) as [Hold'|(Hn & Hin & Hchk)]; [left; exact Hold'|].
        right. exists link. split; [left; reflexivity|]. split; [exact Hc|].
        apply List.filter_In in Hin as [Hin Hidx]. apply Z.eqb_eq in Hidx.
        destruct Hs1 as (_ & _ & _ & _ & A1). rewrite A1 in Hin. auto.
      * right. exists l0. split; [right; exact Hl0|]. split; [exact Hc0|].
        rewrite <- Hk2. split; [exact Hin0 | exact Hrest].
Qed.

(** The second loop of [SyncAddresses] asks for the removal of recorded
    enhanced addresses only. *)
Lemma removeStep_clearEnhanced (P : Addr.t -> Prop) (m : Manager) (ex : Exist) :
  (forall name text a idx,
     lookup2 name text (existEnhancedAddrMap ex) = Some a ->
     P (Addr.mk (Addr.IPNet_ a) (Addr.Label a) (Addr.Flags a) (Addr.Scope a) idx)) ->
  post (removeStep P) (clearEnhanced m ex).
Proof.
  intros HP. apply post_forEach; [exact _|]. intros [name sub] Hin. cbn [fst snd].
  apply list_elem_of_In, elem_of_map_to_list in Hin.
  assert (Hsub : forall text a, sub !! text = Some a ->
            post (removeStep P) (AddrDel (linkOf ex name) a)).
  { intros text a Ha. apply removeStep_AddrDel. apply (HP name text).
    unfold lookup2. rewrite Hin. exact Ha. }
  destruct (interfaceToSubnetMap m !! name) as [target|].
  - apply post_forEach; [exact _|]. intros [text a] Ha. cbn [fst snd].
    apply list_elem_of_In, elem_of_map_to_list in Ha.
    destruct (target !! text); [apply post_ret; exact _ | exact (Hsub text a Ha)].
  - apply post_forEach; [exact _|]. intros [text a] Ha. cbn [fst snd].
    apply list_elem_of_In, elem_of_map_to_list in Ha. exact (Hsub text a Ha).
Qed.

(** X22. For a manager that keeps no pod (a new one, or one after
    [ResetInfos]) [SyncAddresses] adds no address, whatever
    [ensureSubnetEnhancedAddr] would do: whatever the outcome, the requests of
    the call remove addresses only, each of them an address of the kernel
    that [checkIfEnhancedAddr] takes for an enhanced address on an interface
    that is not of the container network, and the kernel gains no address. *)
Theorem SyncAddresses_nothing_tracked (m : Manager) (k k' : Kernel) (r : Res unit) :
  interfaceToSubnetMap m = ∅ ->
  SyncAddresses CheckIfContainerNetworkLink checkIfEnhancedAddr getIPInstanceByAddress
                ensureSubnetEnhancedAddr m k = (k', r) ->
  (exists evs,
     kLog k' = kLog k ++ evs
     /\ Forall (deletesOnly (classifiedEnhanced CheckIfContainerNetworkLink
                               checkIfEnhancedAddr (AddrMgr.family m) k)) evs)
  /\ (forall a, In a (kAddrs k') -> In a (kAddrs k)).
Proof.
  intros Hempty H.
  set (P := classifiedEnhanced CheckIfContainerNetworkLink checkIfEnhancedAddr
              (AddrMgr.family m) k).
  change (removeStep P k k' (isOk r)).
  unfold SyncAddresses in H.
  apply bind_inv in H as [(k1 & links & H1 & H)|(e & H1 & ->)];
    [|exact (post_LinkList (removeStep P) _ _ _ H1)].
  pose proof (post_LinkList (removeStep P) _ _ _ H1) as Hq1.
  apply read_ok in H1 as (Hs1 & _ & ->).
  apply (seq_trans k k1 k'); [exact Hq1|]. clear Hq1.
  apply bind_inv in H as [(k2 & ex & H2 & H)|(e & H2 & ->)];
    [|exact (post_collectExist (removeStep P) _ _ _ _ _ _ H2)].
  pose proof (post_collectExist (removeStep P) _ _ _ _ _ _ H2) as Hq2.
  pose proof (collectExist_ok _ _ _ _ _ _ H2) as Hex.
  apply (seq_trans k1 k2 k'); [exact Hq2|]. clear Hq2.
  assert (HP : forall name text a idx,
            lookup2 name text (existEnhancedAddrMap ex) = Some a ->
            P (Addr.mk (Addr.IPNet_ a) (Addr.Label a) (Addr.Flags a) (Addr.Scope a) idx)).
  { intros name text a idx Ha. destruct (Hex name text a Ha) as [Hold|Hnew].
    - unfold lookup2 in Hold. cbn in Hold. rewrite lookup_empty in Hold. discriminate.
    - destruct Hnew as (link & Hl & Hc & Hin & Hidx & Hchk).
      destruct Hs1 as (_ & _ & _ & L1 & A1).
      exists link, a. rewrite <- L1, <- A1. repeat split; assumption. }
  apply bind_inv in H as [(k3 & u & H3 & H)|(e & H3 & ->)];
    [|exact (removeStep_clearEnhanced P m ex HP _ _ _ H3)].
  apply (seq_trans k2 k3 k'); [exact (removeStep_clearEnhanced P m ex HP _ _ _ H3)|].
  unfold ensureEnhanced in H. rewrite Hempty, map_to_list_empty in H.
  apply ret_inv in H as [-> ->]. apply seq_refl.
Qed.

End AddrManagerMore.

Lemma SyncAddresses_nothing_tracked_witness :
  let subnet := slash (v4 10 0 0 0) 24 in
  let m := ResetInfos (TryAddPodInfo (CreateAddrManager FAMILY_V4 "node1") "eth0" subnet
                                     (v4 10 0 0 5)) in
  let enhanced := Addr.mk (mkIPNet (v4 10 0 0 5) (mkMask 24 32)) EmptyString
                          IFA_F_NOPREFIXROUTE RT_SCOPE_LINK 2 in
  let k := mkKernel V4 [] ∅ [Link.mk "eth0" 2] [enhanced] [] [] in
  let run := SyncAddresses (fun _ => false) (fun _ _ _ => ROk true) (fun _ => ROk None)
                           ensureSubnetEnhancedAddrFromSpec m k in
  kLog (fst run) = [EvAddrDel enhanced] /\ kAddrs (fst run) = []
  /\ forall a, In a (kAddrs (fst run)) -> In a (kAddrs k).
Proof.
  intros subnet m enhanced k run.
  assert (Hrun : SyncAddresses (fun _ => false) (fun _ _ _ => ROk true) (fun _ => ROk None)
                   ensureSubnetEnhancedAddrFromSpec m k = (fst run, snd run))
    by (vm_compute; reflexivity).
  split; [vm_compute; reflexivity|]. split; [vm_compute; reflexivity|].
  exact (proj2 (SyncAddresses_nothing_tracked (fun _ => false) (fun _ _ _ => ROk true)
                  (fun _ => ROk None) ensureSubnetEnhancedAddrFromSpec m k (fst run) (snd run)
                  eq_refl Hrun)).
Defined.
